(** * CollabCore: the replicated sequence engine (LSEQ) and its undo manager

    A shallow embedding of [lib/crdt] (class [LSEQ]), of [types.ts] and of
    the handlers of the editor component (keyboard, clipboard, toolbar,
    undo/redo, file import, network messages) with the two text filters
    [escapeHTML] and [normalizeImportedText], followed by the properties of
    the design document that are checked against them and by further
    properties of the code.

    Conventions.
    - JavaScript numbers that are array indices, identifier components or
      return codes are integers and are modelled in [Z]; [this.chars[i]] is
      [chars !!? i], which is [None] ([undefined]) outside the array.  The
      components of an identifier are compared, which is exact, and the
      allocator adds and subtracts them, which is rounded to the nearest
      double ([toDouble]).
    - An element of the sequence is handled through a function [deref],
      from the handle kept in the array to the record it denotes.  The
      engine proper runs with [deref := id] (plain records); the editor
      runs the same code over addresses of a store, because its undo
      entries alias the live objects of the array.
    - A descriptor [{ position, siteId }] is the pair of the two.
    - [(low + high) >>> 1] is [Z.shiftr (low + high) 1]: both operands are
      indices of one array, so the conversion to an unsigned 32-bit integer
      that [>>>] performs is the identity.
    - [String.prototype.localeCompare] depends on the locale and is not
      the order of the code units on all strings.  On two site identifiers
      of the application, [UID-] and four digits, it is the order of their
      numbers, and so is [localeCompare] here, the code-unit order
      [String.compare].  A property that depends on which of two sites
      comes first, or on whether two sites that differ compare equal, is
      stated for such identifiers ([appSite]).
    - A text is a [string] of code units below 256; a typed or pasted
      character is a string of length one. *)

From Stdlib Require Import Ascii.
From stdpp Require Import gmap strings list sorting pretty.
From Equations Require Import Equations.

Local Open Scope Z_scope.

(** ** types.ts *)

(** [CRDTAttributes]: five optional properties. *)
Record CRDTAttributes := mkAttrs {
  bold : option bool;
  italic : option bool;
  underline : option bool;
  fontSize : option string;
  fontFamily : option string;
}.

(** [FractionalIndex = number[]] is [list Z]. *)
Record CRDTChar := mkChar {
  value : string;
  position : list Z;
  siteId : string;
  attributes : option CRDTAttributes;
}.

#[export] Instance CRDTAttributes_eq_dec : EqDecision CRDTAttributes.
Proof. solve_decision. Defined.
#[export] Instance CRDTChar_eq_dec : EqDecision CRDTChar.
Proof. solve_decision. Defined.
#[export] Instance CRDTChar_inhabited : Inhabited CRDTChar :=
  populate (mkChar "" [] "" None).

(** The empty object literal [{}]. *)
Definition noAttrs : CRDTAttributes := mkAttrs None None None None None.

(** One property of [{ ...base, ...patch }]: the patch's value when the
    patch has the property, the base's otherwise. *)
Definition override {A} (base patch : option A) : option A :=
  match patch with Some v => Some v | None => base end.

(** [{ ...(base || {}), ...patch }] *)
Definition spread (base : option CRDTAttributes) (patch : CRDTAttributes)
  : CRDTAttributes :=
  let b := default noAttrs base in
  mkAttrs (override (bold b) (bold patch))
          (override (italic b) (italic patch))
          (override (underline b) (underline patch))
          (override (fontSize b) (fontSize patch))
          (override (fontFamily b) (fontFamily patch)).

(** [attributes ? { ...attributes } : undefined] *)
Definition copyAttrs (a : option CRDTAttributes) : option CRDTAttributes :=
  match a with
  | Some x => Some (spread None x)
  | None => None
  end.

(** [{ ...c, position: [...c.position], attributes: ... }] *)
Definition copyChar (c : CRDTChar) : CRDTChar :=
  mkChar (value c) (position c) (siteId c) (copyAttrs (attributes c)).

(** [char.attributes = { ...(char.attributes || {}), ...attributes }] *)
Definition formatted (patch : CRDTAttributes) (c : CRDTChar) : CRDTChar :=
  mkChar (value c) (position c) (siteId c) (Some (spread (attributes c) patch)).

(** The key of an element: its positional identifier and its site. *)
Definition key_of (c : CRDTChar) : list Z * string := (position c, siteId c).

(** ** Arrays *)

(** [a[i]] for a JavaScript number [i]. *)
Definition lookupZ {A} (l : list A) (i : Z) : option A :=
  if decide (0 ≤ i) then l !! Z.to_nat i else None.
Notation "l !!? i" := (lookupZ l i) (at level 20).

(** [a.splice(start, deleteCount, ...items)], for [start] within the array. *)
Definition splice {A} (start deleteCount : nat) (items l : list A) : list A :=
  take start l ++ items ++ drop (start + deleteCount) l.

(** ** Comparison *)

(** [compareArrays]: the first differing component decides, then the
    shorter array comes first. *)
Fixpoint compareArrays (a b : list Z) : Z :=
  match a, b with
  | val1 :: a', val2 :: b' =>
      if val1 <? val2 then -1
      else if val1 >? val2 then 1
      else compareArrays a' b'
  | [], _ :: _ => -1
  | _ :: _, [] => 1
  | [], [] => 0
  end.

(** [a.localeCompare(b)] on site identifiers of the application: the
    order of the code units, which for them is the order of the numbers
    [generateUserId] draws. *)
Definition localeCompare (a b : string) : Z :=
  match String.compare a b with
  | Lt => -1
  | Eq => 0
  | Gt => 1
  end.

(** The comparison of a key with another, as [comparePositions] and the
    loop of [remoteDelete] both compute it. *)
Definition compareKeys (k1 k2 : list Z * string) : Z :=
  let cmp := compareArrays k1.1 k2.1 in
  if decide (cmp ≠ 0) then cmp else localeCompare k1.2 k2.2.

(** ** The positional identifier allocator *)

Definition BASE : Z := 1024.

(** The components of an identifier are JavaScript numbers with integer
    values, and the allocator subtracts and adds them.  The result of such
    an operation is the double nearest to the exact result, a tie going to
    the even significand.  Every integer of magnitude up to [2 ^ 53] is a
    double; above, for [2 ^ e <= |z| < 2 ^ (e + 1)], the doubles are the
    multiples of [2 ^ (e - 52)].  [toDouble z] is the double nearest to
    the integer [z]; overflow, beyond [2 ^ 1023], is left out. *)
Definition toDouble (z : Z) : Z :=
  if decide (Z.abs z ≤ 2 ^ 53) then z
  else
    let ulp := 2 ^ (Z.log2 (Z.abs z) - 52) in
    let q := z `div` ulp in
    let r := z `mod` ulp in
    if decide (2 * r < ulp) then q * ulp
    else if decide (ulp < 2 * r) then (q + 1) * ulp
    else if Z.even q then q * ulp
    else (q + 1) * ulp.

(** [Math.ceil(diff / 2)] for an integer [diff]: halving a double and
    rounding it up are exact. *)
Definition ceil_half (diff : Z) : Z := (diff + 1) / 2.

(** The [while (true)] loop of [generateIdentifierBetween], entered at
    level [i] with [newPos] built so far.  The loop leaves at the latest
    when [i] exceeds 128, which is its termination measure. *)
Equations generateIdentifierBetween_loop
    (pos1 pos2 newPos : list Z) (i : nat) : list Z by wf (129 - i)%nat lt :=
  generateIdentifierBetween_loop pos1 pos2 newPos i
    with decide (1 < toDouble (default BASE (pos2 !! i)
                               - default 0 (pos1 !! i))) := {
    | left _ =>
        let v1 := default 0 (pos1 !! i) in
        let diff := toDouble (default BASE (pos2 !! i) - v1) in
        newPos ++ [toDouble (v1 + ceil_half diff)]
    | right _ with decide (128 < S i)%nat := {
      | left _ =>
          let v1 := default 0 (pos1 !! i) in
          (newPos ++ [v1]) ++ [toDouble (v1 + 1)]
      | right _ =>
          let v1 := default 0 (pos1 !! i) in
          generateIdentifierBetween_loop pos1 pos2 (newPos ++ [v1]) (S i) } }.
Next Obligation. lia. Qed.

Definition generateIdentifierBetween (pos1 pos2 : list Z) : list Z :=
  generateIdentifierBetween_loop pos1 pos2 [] 0.

(** ** The sequence engine: methods that only read the elements

    [chars] is the array [this.chars]; an element [c] of it denotes the
    record [deref c]. *)

(** How the search loop of [remoteInsert] ends.  [InsertStuck] stands for
    the [TypeError] that reading [this.chars[mid]] outside the array would
    raise; [remoteInsert_loop_in_range] shows that it never happens. *)
Inductive InsertSearch :=
  | Duplicate
  | InsertAt (low : Z)
  | InsertStuck.

(** How the search loop of [remoteDelete] ends; [DeleteStuck] as above. *)
Inductive DeleteSearch :=
  | Hit (mid : Z)
  | Miss
  | DeleteStuck.

(** The midpoint [(low + high) >>> 1] lies between [low] and [high]; this
    is what makes the two search loops terminate. *)
Ltac midpoint low high :=
  rewrite ?Z.shiftr_div_pow2 by lia; change (2 ^ 1) with 2 in *;
  pose proof (Z.div_le_lower_bound (low + high) 2 low);
  pose proof (Z.div_lt_upper_bound (low + high) 2 high);
  pose proof (Z.div_le_upper_bound (low + high) 2 high);
  lia.

Section Engine.
Context {E : Type} (deref : E → CRDTChar).

Definition comparePositions (a b : E) : Z :=
  let cmp := compareArrays (position (deref a)) (position (deref b)) in
  if decide (cmp ≠ 0) then cmp
  else localeCompare (siteId (deref a)) (siteId (deref b)).

(** [get text] *)
Definition text (chars : list E) : string :=
  String.concat "" ((λ c, value (deref c)) <$> chars).

(** The [while (low < high)] loop of [remoteInsert]. *)
Equations remoteInsert_loop (chars : list E) (char : E) (low high : Z)
  : InsertSearch by wf (Z.to_nat (high - low)) lt :=
  remoteInsert_loop chars char low high with decide (low < high) := {
    | right _ => InsertAt low
    | left _ =>
        let mid := (low + high) ≫ 1 in
        match chars !!? mid with
        | None => InsertStuck
        | Some c =>
            let cmp := comparePositions c char in
            if cmp <? 0 then remoteInsert_loop chars char (mid + 1) high
            else if cmp >? 0 then remoteInsert_loop chars char low mid
            else Duplicate
        end }.
Next Obligation. intros. midpoint low high. Qed.
Next Obligation. intros. midpoint low high. Qed.

(** [remoteInsert(char)]: the new array and the returned index
    ([None] for the bare [return] on a duplicate). *)
Definition remoteInsert (char : E) (chars : list E) : list E * option Z :=
  match remoteInsert_loop chars char 0 (Z.of_nat (length chars)) with
  | InsertAt low => (splice (Z.to_nat low) 0 [char] chars, Some low)
  | Duplicate => (chars, None)
  | InsertStuck => (chars, None)
  end.

(** The [while (low <= high)] loop of [remoteDelete]. *)
Equations remoteDelete_loop (chars : list E) (pos : list Z) (site : string)
    (low high : Z) : DeleteSearch by wf (Z.to_nat (high - low + 1)) lt :=
  remoteDelete_loop chars pos site low high with decide (low ≤ high) := {
    | right _ => Miss
    | left _ =>
        let mid := (low + high) ≫ 1 in
        match chars !!? mid with
        | None => DeleteStuck
        | Some midChar =>
            let posCmp := compareArrays (position (deref midChar)) pos in
            let cmp := if decide (posCmp ≠ 0) then posCmp
                       else localeCompare (siteId (deref midChar)) site in
            if cmp <? 0 then remoteDelete_loop chars pos site (mid + 1) high
            else if cmp >? 0 then remoteDelete_loop chars pos site low (mid - 1)
            else Hit mid
        end }.
Next Obligation. intros. midpoint low high. Qed.
Next Obligation. intros. midpoint low high. Qed.

(** The predicate of [findIndex] in [remoteDelete] and of [find] in
    [remoteFormat]. *)
Definition addresses (pos : list Z) (site : string) (c : E) : Prop :=
  compareArrays (position (deref c)) pos = 0 ∧ siteId (deref c) = site.

#[export] Instance addresses_dec pos site c : Decision (addresses pos site c).
Proof. unfold addresses. apply _. Defined.

(** [remoteDelete(position, siteId)]: the new array and the returned
    index, [-1] when nothing was removed. *)
Definition remoteDelete (pos : list Z) (site : string) (chars : list E)
  : list E * Z :=
  match remoteDelete_loop chars pos site 0 (Z.of_nat (length chars) - 1) with
  | Hit mid => (splice (Z.to_nat mid) 1 [] chars, mid)
  | Miss =>
      match list_find (addresses pos site) chars with
      | Some (idx, _) => (splice idx 1 [] chars, Z.of_nat idx)
      | None => (chars, -1)
      end
  | DeleteStuck => (chars, -1)
  end.

(** [`${siteId}:${position.join(',')}`] *)
Definition deletionKey (site : string) (pos : list Z) : string :=
  site +:+ ":" +:+ String.concat "," (pretty <$> pos).

(** The first loop of [batchRemoteDelete]: [deletionSet.add] per
    descriptor. *)
Definition deletionSet_of (ops : list (list Z * string)) : gset string :=
  foldl (λ set op, set ∪ {[ deletionKey op.2 op.1 ]}) ∅ ops.

(** One turn of the compaction loop of [batchRemoteDelete] at index [i];
    the state is the array, [writeIdx] and [deletedCount]. *)
Definition compact_step (deletionSet : gset string)
    (st : list E * nat * Z) (i : nat) : list E * nat * Z :=
  let '(chars, writeIdx, deletedCount) := st in
  match chars !! i with
  | None => st
  | Some char =>
      if decide (deletionKey (siteId (deref char)) (position (deref char))
                 ∈ deletionSet)
      then (chars, writeIdx, deletedCount + 1)
      else (if decide (writeIdx ≠ i) then <[writeIdx := char]> chars
            else chars,
            S writeIdx, deletedCount)
  end.

(** [batchRemoteDelete(ops)]: the new array and the returned count. *)
Definition batchRemoteDelete (ops : list (list Z * string))
    (chars : list E) : list E * Z :=
  if decide (length ops = 0%nat) then (chars, 0)
  else
    let deletionSet := deletionSet_of ops in
    let '(chars', writeIdx, deletedCount) :=
      foldl (compact_step deletionSet) (chars, 0%nat, 0)
            (seq 0 (length chars)) in
    (if decide (writeIdx < length chars')%nat then take writeIdx chars'
     else chars',
     deletedCount).

(** [localBatchDelete(startIndex, endIndex)]: the removed elements with
    their descriptors, and the new array. *)
Definition localBatchDelete (startIndex endIndex : Z) (chars : list E)
  : list (E * (list Z * string)) * list E :=
  if decide (startIndex < 0 ∨ endIndex > Z.of_nat (length chars)
             ∨ startIndex >= endIndex)
  then ([], chars)
  else
    let start := Z.to_nat startIndex in
    let count := Z.to_nat (endIndex - startIndex) in
    ((λ char, (char, (position (deref char), siteId (deref char))))
       <$> take count (drop start chars),
     splice start count [] chars).

(** [localDelete(index)]: the descriptor or [null], and the new array. *)
Definition localDelete (index : Z) (chars : list E)
  : option (list Z * string) * list E :=
  match chars !!? index with
  | None => (None, chars)
  | Some char =>
      let op := (position (deref char), siteId (deref char)) in
      (Some op, (remoteDelete op.1 op.2 chars).1)
  end.

(** [Array.prototype.sort] with [comparePositions].  The sort is stable
    and the comparator consistent, so the result is the stable sorted
    rearrangement of the array; it is computed here by insertion, an
    element going before the first one it does not exceed. *)
Fixpoint sort_insert (a : E) (sorted : list E) : list E :=
  match sorted with
  | [] => [a]
  | b :: rest =>
      if comparePositions a b >? 0 then b :: sort_insert a rest
      else a :: b :: rest
  end.

Definition sortChars (chars : list E) : list E :=
  foldr sort_insert [] chars.
End Engine.

(** ** The sequence engine on records: [LSEQ]

    The instance is its array [chars] and the constant [this.siteId]. *)

(** [get state]: a deep copy. *)
Definition state (chars : list CRDTChar) : list CRDTChar := copyChar <$> chars.

(** [loadState(newState)]; [None] is a missing ([null]) argument. *)
Definition loadState (newState : option (list CRDTChar)) : list CRDTChar :=
  sortChars id (match newState with
                | Some l => copyChar <$> l
                | None => []
                end).

(** [localInsert(index, value, attributes)]: the element and the new
    array. *)
Definition localInsert (this_siteId : string) (index : Z) (val : string)
    (attrs : option CRDTAttributes) (chars : list CRDTChar)
  : CRDTChar * list CRDTChar :=
  let prev := default [0] (position <$> (chars !!? (index - 1))) in
  let next := default [100] (position <$> (chars !!? index)) in
  let char := mkChar val (generateIdentifierBetween prev next) this_siteId
                     (copyAttrs attrs) in
  (char, (remoteInsert id char chars).1).

(** [localFormat(index, attributes)]: the descriptor or [null], and the
    new array. *)
Definition localFormat (index : Z) (patch : CRDTAttributes)
    (chars : list CRDTChar) : option (list Z * string) * list CRDTChar :=
  match chars !!? index with
  | None => (None, chars)
  | Some char =>
      (Some (position char, siteId char),
       <[Z.to_nat index := formatted patch char]> chars)
  end.

(** [remoteFormat(position, charSiteId, attributes)] *)
Definition remoteFormat (pos : list Z) (charSiteId : string)
    (patch : CRDTAttributes) (chars : list CRDTChar) : list CRDTChar :=
  match list_find (addresses id pos charSiteId) chars with
  | Some (idx, char) => <[idx := formatted patch char]> chars
  | None => chars
  end.

(** The calls of the engine's interface and their effect on the array. *)
Inductive Op :=
  | OpLocalInsert (index : Z) (val : string) (attrs : option CRDTAttributes)
  | OpLocalDelete (index : Z)
  | OpLocalBatchDelete (startIndex endIndex : Z)
  | OpLocalFormat (index : Z) (patch : CRDTAttributes)
  | OpRemoteInsert (char : CRDTChar)
  | OpRemoteDelete (pos : list Z) (site : string)
  | OpBatchRemoteDelete (ops : list (list Z * string))
  | OpRemoteFormat (pos : list Z) (charSiteId : string) (patch : CRDTAttributes)
  | OpLoadState (newState : option (list CRDTChar)).

Definition applyOp (this_siteId : string) (chars : list CRDTChar) (o : Op)
  : list CRDTChar :=
  match o with
  | OpLocalInsert index val attrs =>
      (localInsert this_siteId index val attrs chars).2
  | OpLocalDelete index => (localDelete id index chars).2
  | OpLocalBatchDelete s e => (localBatchDelete id s e chars).2
  | OpLocalFormat index patch => (localFormat index patch chars).2
  | OpRemoteInsert char => (remoteInsert id char chars).1
  | OpRemoteDelete pos site => (remoteDelete id pos site chars).1
  | OpBatchRemoteDelete ops => (batchRemoteDelete id ops chars).1
  | OpRemoteFormat pos site patch => remoteFormat pos site patch chars
  | OpLoadState newState => loadState newState
  end.

(** The arrays an instance created by [new LSEQ(siteId)] can hold. *)
Inductive reachable (this_siteId : string) : list CRDTChar → Prop :=
  | reachable_new : reachable this_siteId []
  | reachable_apply chars o :
      reachable this_siteId chars →
      reachable this_siteId (applyOp this_siteId chars o).



(** ** Remote operations

    [CRDTOperation] of [types.ts], the three cases that reach the engine,
    and what [socket.onmessage] does with each. *)
Inductive CRDTOperation :=
  | MsgInsert (char : CRDTChar)
  | MsgDelete (pos : list Z) (site : string)
  | MsgFormat (pos : list Z) (charSiteId : string) (attrs : CRDTAttributes).

#[export] Instance CRDTOperation_eq_dec : EqDecision CRDTOperation.
Proof. solve_decision. Defined.

Definition receive (chars : list CRDTChar) (op : CRDTOperation)
  : list CRDTChar :=
  match op with
  | MsgInsert char => (remoteInsert id char chars).1
  | MsgDelete pos site => (remoteDelete id pos site chars).1
  | MsgFormat pos charSiteId attrs => remoteFormat pos charSiteId attrs chars
  end.

(** The messages of a list, applied in receipt order. *)
Definition receiveAll (chars : list CRDTChar) (ops : list CRDTOperation)
  : list CRDTChar :=
  foldl receive chars ops.

(** ** The editor: local actions and the undo manager

    The array of the editor's engine holds JavaScript objects, and an undo
    entry keeps a reference to the object it is about: [localFormat] and
    [remoteFormat] assign to [char.attributes] of the object in the array,
    and [handleUndo] reads [entry.char.attributes] of the same object
    later.  The objects therefore live in a store, an address being an
    index into it; the array and the undo entries hold addresses, and the
    engine's methods run on them with [deref := objectAt store].
    Messages sent to the other participants are left out. *)

Inductive UndoType := UInsert | UDelete | UFormat.

(** [interface UndoOperation] *)
Record UndoOperation := mkUndo {
  utype : UndoType;
  uchar : nat;
  prevAttributes : option CRDTAttributes;
}.

Record Editor := mkEditor {
  store : list CRDTChar;
  rawChars : list nat;
  undoStack : list (list UndoOperation);
  redoStack : list (list UndoOperation);
  currentAttributes : CRDTAttributes;
}.

Definition objectAt (objects : list CRDTChar) (a : nat) : CRDTChar :=
  objects !!! a.

(** The editor when it is mounted. *)
Definition newEditor : Editor :=
  mkEditor [] [] [] []
    (mkAttrs None None None (Some "18px") (Some "Inter, system-ui, sans-serif")).

(** What the editor shows: the text and the elements of the array. *)
Definition editorText (ed : Editor) : string :=
  text (objectAt (store ed)) (rawChars ed).

Definition editorChars (ed : Editor) : list CRDTChar :=
  objectAt (store ed) <$> rawChars ed.

Definition withRawChars (ed : Editor) (refs : list nat) : Editor :=
  mkEditor (store ed) refs (undoStack ed) (redoStack ed) (currentAttributes ed).

Definition withStore (ed : Editor) (objects : list CRDTChar) : Editor :=
  mkEditor objects (rawChars ed) (undoStack ed) (redoStack ed)
           (currentAttributes ed).

(** [localInsert] of the editor's engine: the new object is allocated in
    the store and its address goes into the array. *)
Definition editorLocalInsert (user_id : string) (index : Z) (val : string)
    (attrs : option CRDTAttributes) (ed : Editor) : nat * Editor :=
  let deref := objectAt (store ed) in
  let prev := default [0] ((λ a, position (deref a))
                             <$> (rawChars ed !!? (index - 1))) in
  let next := default [100] ((λ a, position (deref a))
                               <$> (rawChars ed !!? index)) in
  let char := mkChar val (generateIdentifierBetween prev next) user_id
                     (copyAttrs attrs) in
  let a := length (store ed) in
  let objects := store ed ++ [char] in
  (a, mkEditor objects (remoteInsert (objectAt objects) a (rawChars ed)).1
               (undoStack ed) (redoStack ed) (currentAttributes ed)).

(** [localFormat] of the editor's engine: an assignment to the object. *)
Definition editorLocalFormat (index : Z) (patch : CRDTAttributes)
    (ed : Editor) : option (list Z * string) * Editor :=
  match rawChars ed !!? index with
  | None => (None, ed)
  | Some a =>
      let char := objectAt (store ed) a in
      (Some (position char, siteId char),
       withStore ed (<[a := formatted patch char]> (store ed)))
  end.

(** [remoteFormat] of the editor's engine. *)
Definition editorRemoteFormat (pos : list Z) (charSiteId : string)
    (patch : CRDTAttributes) (ed : Editor) : Editor :=
  match list_find (addresses (objectAt (store ed)) pos charSiteId)
                  (rawChars ed) with
  | Some (_, a) =>
      withStore ed (<[a := formatted patch (objectAt (store ed) a)]> (store ed))
  | None => ed
  end.

(** [Array.prototype.pop] *)
Definition pop {A} (stack : list A) : option (A * list A) :=
  match reverse stack with
  | [] => None
  | top :: rest => Some (top, reverse rest)
  end.

(** [pushToUndo(batch)] *)
Definition pushToUndo (batch : list UndoOperation) (ed : Editor) : Editor :=
  if decide (length batch = 0%nat) then ed
  else
    let pushed := undoStack ed ++ [batch] in
    mkEditor (store ed) (rawChars ed)
             (if decide (100 < length pushed)%nat then drop 1 pushed else pushed)
             [] (currentAttributes ed).

(** The entries [{ type: 'delete', char }] for a [localBatchDelete]. *)
Definition deleteEntries (results : list (nat * (list Z * string)))
  : list UndoOperation :=
  (λ r, mkUndo UDelete r.1 None) <$> results.

(** [insertChar(val)] with the selection from [start] to [end]. *)
Definition insertChar (user_id : string) (val : string) (start end_ : nat)
    (ed : Editor) : Editor :=
  let '(batch, ed1) :=
    if decide (start ≠ end_) then
      let '(results, refs) :=
        localBatchDelete (objectAt (store ed)) (Z.of_nat start) (Z.of_nat end_)
                         (rawChars ed) in
      (deleteEntries results, withRawChars ed refs)
    else ([], ed) in
  let '(char, ed2) :=
    editorLocalInsert user_id (Z.of_nat start) val
                      (Some (currentAttributes ed1)) ed1 in
  pushToUndo (batch ++ [mkUndo UInsert char None]) ed2.

(** The [Backspace] branch of [handleKeyDown] with the selection from
    [start] to [end]. *)
Definition backspace (start end_ : nat) (ed : Editor) : Editor :=
  if decide (start = end_ ∧ (0 < start)%nat) then
    match rawChars ed !!? (Z.of_nat start - 1),
          localDelete (objectAt (store ed)) (Z.of_nat start - 1) (rawChars ed)
    with
    | Some char, (Some _, refs) =>
        pushToUndo [mkUndo UDelete char None] (withRawChars ed refs)
    | _, (_, refs) => pushToUndo [] (withRawChars ed refs)
    end
  else if decide (start ≠ end_) then
    let '(results, refs) :=
      localBatchDelete (objectAt (store ed)) (Z.of_nat start) (Z.of_nat end_)
                       (rawChars ed) in
    pushToUndo (deleteEntries results) (withRawChars ed refs)
  else pushToUndo [] ed.

(** One turn of the loop of [applyToSelection] at index [i]; the loop
    stops at the end of the array. *)
Definition formatAt (patch : CRDTAttributes)
    (st : Editor * list UndoOperation) (i : nat)
  : Editor * list UndoOperation :=
  let '(ed, batch) := st in
  match rawChars ed !! i with
  | None => st
  | Some char =>
      let oldAttrs := spread (attributes (objectAt (store ed) char)) noAttrs in
      match editorLocalFormat (Z.of_nat i) patch ed with
      | (Some _, ed') => (ed', batch ++ [mkUndo UFormat char (Some oldAttrs)])
      | (None, ed') => (ed', batch)
      end
  end.

(** [applyToSelection(patch)] with the selection from [start] to [end]. *)
Definition applyToSelection (patch : CRDTAttributes) (start end_ : nat)
    (ed : Editor) : Editor :=
  if decide (start = end_) then ed
  else
    let '(ed', batch) :=
      foldl (formatAt patch) (ed, []) (seq start (end_ - start)) in
    pushToUndo batch ed'.

(** The keys [toggleAttribute] is called with. *)
Inductive ToggleKey := Bold | Italic | Underline.

(** [{ [key]: newVal }] *)
Definition togglePatch (key : ToggleKey) (newVal : bool) : CRDTAttributes :=
  match key with
  | Bold => mkAttrs (Some newVal) None None None None
  | Italic => mkAttrs None (Some newVal) None None None
  | Underline => mkAttrs None None (Some newVal) None None
  end.

(** [toggleAttribute(key)] with the selection from [start] to [end]. *)
Definition toggleAttribute (key : ToggleKey) (start end_ : nat) (ed : Editor)
  : Editor :=
  let current := match key with
                 | Bold => bold (currentAttributes ed)
                 | Italic => italic (currentAttributes ed)
                 | Underline => underline (currentAttributes ed)
                 end in
  let patch := togglePatch key (negb (default false current)) in
  applyToSelection patch start end_
    (mkEditor (store ed) (rawChars ed) (undoStack ed) (redoStack ed)
              (spread (Some (currentAttributes ed)) patch)).

(** One turn of the loop of [handleUndo]; [redoBatch.unshift] puts the
    entry in front. *)
Definition undoEntry (st : Editor * list UndoOperation) (entry : UndoOperation)
  : Editor * list UndoOperation :=
  let '(ed, redoBatch) := st in
  let char := objectAt (store ed) (uchar entry) in
  match utype entry with
  | UInsert =>
      (withRawChars ed
         (remoteDelete (objectAt (store ed)) (position char) (siteId char)
                       (rawChars ed)).1,
       entry :: redoBatch)
  | UDelete =>
      (withRawChars ed
         (remoteInsert (objectAt (store ed)) (uchar entry) (rawChars ed)).1,
       entry :: redoBatch)
  | UFormat =>
      let currentAttrs := spread (attributes char) noAttrs in
      (editorRemoteFormat (position char) (siteId char)
         (default noAttrs (prevAttributes entry)) ed,
       mkUndo UFormat (uchar entry) (Some currentAttrs) :: redoBatch)
  end.

(** [handleUndo()]: the batch is replayed from its last entry to its
    first. *)
Definition handleUndo (ed : Editor) : Editor :=
  match pop (undoStack ed) with
  | None => ed
  | Some (batch, rest) =>
      let '(ed', redoBatch) :=
        foldl undoEntry
              (mkEditor (store ed) (rawChars ed) rest (redoStack ed)
                        (currentAttributes ed), [])
              (reverse batch) in
      mkEditor (store ed') (rawChars ed') (undoStack ed')
               (redoStack ed' ++ [redoBatch]) (currentAttributes ed')
  end.

(** One turn of the loop of [handleRedo]; [undoBatch.push] puts the entry
    at the end. *)
Definition redoEntry (st : Editor * list UndoOperation) (entry : UndoOperation)
  : Editor * list UndoOperation :=
  let '(ed, undoBatch) := st in
  let char := objectAt (store ed) (uchar entry) in
  match utype entry with
  | UInsert =>
      (withRawChars ed
         (remoteInsert (objectAt (store ed)) (uchar entry) (rawChars ed)).1,
       undoBatch ++ [entry])
  | UDelete =>
      (withRawChars ed
         (remoteDelete (objectAt (store ed)) (position char) (siteId char)
                       (rawChars ed)).1,
       undoBatch ++ [entry])
  | UFormat =>
      let currentAttrs := spread (attributes char) noAttrs in
      (editorRemoteFormat (position char) (siteId char)
         (default noAttrs (prevAttributes entry)) ed,
       undoBatch ++ [mkUndo UFormat (uchar entry) (Some currentAttrs)])
  end.

(** [handleRedo()] *)
Definition handleRedo (ed : Editor) : Editor :=
  match pop (redoStack ed) with
  | None => ed
  | Some (batch, rest) =>
      let '(ed', undoBatch) :=
        foldl redoEntry
              (mkEditor (store ed) (rawChars ed) (undoStack ed) rest
                        (currentAttributes ed), [])
              batch in
      mkEditor (store ed') (rawChars ed') (undoStack ed' ++ [undoBatch])
               (redoStack ed') (currentAttributes ed')
  end.

(** ** The editor: keyboard, clipboard, import and network handlers *)

(** The part of a [KeyboardEvent] that [handleKeyDown] reads;
    [ctrlOrMeta] is [e.ctrlKey || e.metaKey]. *)
Record KeyEvent := mkKeyEvent {
  ctrlOrMeta : bool;
  shiftKey : bool;
  keyName : string;
}.

(** ['\n'] *)
Definition newline : string := String "010"%char "".

(** [handleKeyDown(e)] with the selection from [start] to [end]. *)
Definition handleKeyDown (user_id : string) (e : KeyEvent) (start end_ : nat)
    (ed : Editor) : Editor :=
  let shortcut :=
    if ctrlOrMeta e then
      if decide (keyName e = "b") then Some (toggleAttribute Bold start end_ ed)
      else if decide (keyName e = "i") then
        Some (toggleAttribute Italic start end_ ed)
      else if decide (keyName e = "u") then
        Some (toggleAttribute Underline start end_ ed)
      else if decide (keyName e = "z") then
        Some (if shiftKey e then handleRedo ed else handleUndo ed)
      else if decide (keyName e = "y") then Some (handleRedo ed)
      else if decide (keyName e = "v") then Some ed
      else None
    else None in
  match shortcut with
  | Some ed' => ed'
  | None =>
      if decide (keyName e = "Backspace") then backspace start end_ ed
      else if decide (keyName e = "Enter") then
        insertChar user_id newline start end_ ed
      else if decide (String.length (keyName e) = 1%nat
                      ∧ ctrlOrMeta e = false) then
        insertChar user_id (keyName e) start end_ ed
      else ed
  end.

(** One turn of the insertion loop of [handlePaste]: the character [c] of
    the clipboard text, at index [i] of it. *)
Definition pasteAt (user_id : string) (start : nat)
    (st : Editor * list UndoOperation) (ic : nat * ascii)
  : Editor * list UndoOperation :=
  let '(ed, batch) := st in
  let '(char, ed') :=
    editorLocalInsert user_id (Z.of_nat start + Z.of_nat ic.1)
                      (String ic.2 "") (Some (currentAttributes ed)) ed in
  (ed', batch ++ [mkUndo UInsert char None]).

(** [handlePaste(e)] with the clipboard text [text] and the selection from
    [start] to [end]. *)
Definition handlePaste (user_id : string) (text : string) (start end_ : nat)
    (ed : Editor) : Editor :=
  if decide (text = "") then ed
  else
    let '(batch, ed1) :=
      if decide (start ≠ end_) then
        let '(results, refs) :=
          localBatchDelete (objectAt (store ed)) (Z.of_nat start)
                           (Z.of_nat end_) (rawChars ed) in
        (deleteEntries results, withRawChars ed refs)
      else ([], ed) in
    let '(ed2, batch') :=
      foldl (pasteAt user_id start) (ed1, batch)
            (imap pair (String.list_ascii_of_string text)) in
    pushToUndo batch' ed2.

(** The keys [updateAttribute] is called with. *)
Inductive StyleKey := FontSize | FontFamily.

(** [{ [key]: val }] *)
Definition updatePatch (key : StyleKey) (val : string) : CRDTAttributes :=
  match key with
  | FontSize => mkAttrs None None None (Some val) None
  | FontFamily => mkAttrs None None None None (Some val)
  end.

(** [updateAttribute(key, val)] with the selection from [start] to
    [end]. *)
Definition updateAttribute (key : StyleKey) (val : string) (start end_ : nat)
    (ed : Editor) : Editor :=
  let patch := updatePatch key val in
  applyToSelection patch start end_
    (mkEditor (store ed) (rawChars ed) (undoStack ed) (redoStack ed)
              (spread (Some (currentAttributes ed)) patch)).

(** [loadState] of the editor's engine: the copies are new objects, and
    the array is replaced by their addresses, sorted. *)
Definition editorLoadState (newState : option (list CRDTChar)) (ed : Editor)
  : Editor :=
  let copies := match newState with
                | Some l => copyChar <$> l
                | None => []
                end in
  let objects := store ed ++ copies in
  mkEditor objects
           (sortChars (objectAt objects)
                      (seq (length (store ed)) (length copies)))
           (undoStack ed) (redoStack ed) (currentAttributes ed).

(** The array [newChars] that [importText] builds. *)
Definition importedChars (user_id : string) (attrs : CRDTAttributes)
    (text : string) : list CRDTChar :=
  imap (λ i c, mkChar (String c "") [(Z.of_nat i + 1) * 10] user_id
                      (copyAttrs (Some attrs)))
       (String.list_ascii_of_string text).

(** [importText(text)] *)
Definition importText (user_id : string) (text : string) (ed : Editor)
  : Editor :=
  let ed1 := editorLoadState (Some []) ed in
  let ed2 := mkEditor (store ed1) (rawChars ed1) [] [] (currentAttributes ed1) in
  editorLoadState (Some (importedChars user_id (currentAttributes ed2) text))
                  ed2.

(** [remoteInsert] of the editor's engine with an element that arrived in
    a message: a new object. *)
Definition editorRemoteInsert (char : CRDTChar) (ed : Editor)
  : option Z * Editor :=
  let a := length (store ed) in
  let objects := store ed ++ [char] in
  let '(refs, idx) := remoteInsert (objectAt objects) a (rawChars ed) in
  (idx, mkEditor objects refs (undoStack ed) (redoStack ed)
                 (currentAttributes ed)).

(** [remoteDelete] of the editor's engine. *)
Definition editorRemoteDelete (pos : list Z) (site : string) (ed : Editor)
  : Z * Editor :=
  let '(refs, idx) :=
    remoteDelete (objectAt (store ed)) pos site (rawChars ed) in
  (idx, withRawChars ed refs).

(** [batchRemoteDelete] of the editor's engine. *)
Definition editorBatchRemoteDelete (ops : list (list Z * string))
    (ed : Editor) : Editor :=
  withRawChars ed (batchRemoteDelete (objectAt (store ed)) ops (rawChars ed)).1.

(** What [socket.onmessage] reads of a parsed message, by [op.type];
    [None] is a field that is not an array, or is missing.  The [siteId]
    of the message is passed beside it; a ['delete'] message has no other
    site field. *)
Inductive Payload :=
  | PUserList (usersIsArray : bool)
  | PBatchInsert (ops : option (list CRDTChar))
  | PBatchDelete (ops : option (list (list Z * string)))
  | PBatchFormat (ops : option (list (list Z * string * CRDTAttributes)))
  | PInsert (char : CRDTChar)
  | PDelete (pos : list Z)
  | PFormat (pos : list Z) (charSiteId : string) (attrs : CRDTAttributes)
  | PCursor
  | PRequestSync
  | PSyncResponse (state : option (list CRDTChar))
  | PImportDocument (state : option (list CRDTChar))
  | POther.

(** One turn of the loop of the ['batch-insert'] case. *)
Definition batchInsertStep (currentCursor : option Z) (st : Editor * Z)
    (char : CRDTChar) : Editor * Z :=
  let '(ed, adjustment) := st in
  let '(idx, ed') := editorRemoteInsert char ed in
  (ed',
   match currentCursor, idx with
   | Some cursor, Some i =>
       if decide (i ≤ cursor + adjustment) then adjustment + 1 else adjustment
   | _, _ => adjustment
   end).

(** The [switch] of [socket.onmessage]: the editor and [adjustment]. *)
Definition dispatch (currentCursor : option Z) (siteId : string)
    (p : Payload) (ed : Editor) : Editor * Z :=
  match p with
  | PBatchInsert (Some ops) =>
      foldl (batchInsertStep currentCursor) (ed, 0) ops
  | PBatchDelete (Some ops) => (editorBatchRemoteDelete ops ed, 0)
  | PBatchFormat (Some ops) =>
      (foldl (λ ed' subOp,
                editorRemoteFormat subOp.1.1 subOp.1.2 subOp.2 ed') ed ops,
       0)
  | PInsert char =>
      let '(insertIdx, ed') := editorRemoteInsert char ed in
      (ed',
       match currentCursor, insertIdx with
       | Some cursor, Some i => if decide (i ≤ cursor) then 1 else 0
       | _, _ => 0
       end)
  | PDelete pos =>
      let '(deleteIdx, ed') := editorRemoteDelete pos siteId ed in
      (ed',
       match currentCursor with
       | Some cursor =>
           if decide (deleteIdx ≠ -1 ∧ deleteIdx < cursor) then -1 else 0
       | None => 0
       end)
  | PFormat pos charSiteId attrs =>
      (editorRemoteFormat pos charSiteId attrs ed, 0)
  | PSyncResponse (Some state) =>
      if decide (length (rawChars ed) = 0%nat ∧ (0 < length state)%nat)
      then (editorLoadState (Some state) ed, 0)
      else (ed, 0)
  | PImportDocument (Some state) => (editorLoadState (Some state) ed, 0)
  | _ => (ed, 0)
  end.

(** [socket.onmessage] for a message that parses, with the cursor index
    [getCursorLogicalIndex()] returns: the editor, and the value assigned
    to [desiredCursorRef.current], if one is. *)
Definition onMessage (user_id : string) (currentCursor : option Z)
    (siteId : string) (p : Payload) (ed : Editor) : Editor * option Z :=
  match p with
  | PUserList true => (ed, None)
  | _ =>
      if decide (siteId = user_id) then (ed, None)
      else
        let '(ed', adjustment) := dispatch currentCursor siteId p ed in
        (ed',
         match currentCursor, p with
         | Some _, PCursor => None
         | Some cursor, _ => Some (Z.max 0 (cursor + adjustment))
         | None, _ => None
         end)
  end.

(** ** Text filters *)

(** [s.replace(/c/g, by)] for a single character [c]. *)
Fixpoint replaceChar (c : ascii) (by_ : string) (s : string) : string :=
  match s with
  | EmptyString => EmptyString
  | String a s' =>
      if decide (a = c) then by_ +:+ replaceChar c by_ s'
      else String a (replaceChar c by_ s')
  end.

(** The double quote character. *)
Definition dquote : ascii := "034"%char.

(** [escapeHTML(text)] *)
Definition escapeHTML (text : string) : string :=
  replaceChar "'"%char "&#039;"
    (replaceChar dquote "&quot;"
       (replaceChar ">"%char "&gt;"
          (replaceChar "<"%char "&lt;"
             (replaceChar "&"%char "&amp;" text)))).

Definition CR : ascii := "013"%char.
Definition LF : ascii := "010"%char.

(** [input.replace(/\r\n?/g, '\n')] *)
Fixpoint normalizeNewlines (s : string) : string :=
  match s with
  | EmptyString => EmptyString
  | String a s' =>
      if decide (a = CR) then
        String LF
          match s' with
          | String b s'' =>
              if decide (b = LF) then normalizeNewlines s''
              else normalizeNewlines s'
          | EmptyString => EmptyString
          end
      else String a (normalizeNewlines s')
  end.

(** The class [[\u0000-\u0008\u000B\u000C\u000E-\u001F\u007F]]. *)
Definition isControl (a : ascii) : bool :=
  let n := nat_of_ascii a in
  (n <=? 8)%nat || (n =? 11)%nat || (n =? 12)%nat
  || ((14 <=? n)%nat && (n <=? 31)%nat) || (n =? 127)%nat.

(** [s.replace(/[...]/g, '')] for that class. *)
Fixpoint stripControls (s : string) : string :=
  match s with
  | EmptyString => EmptyString
  | String a s' =>
      if isControl a then stripControls s' else String a (stripControls s')
  end.

(** [normalizeImportedText(input)] of [App.tsx], on strings of code units
    below 256; the two expressions leave every other unit as it is. *)
Definition normalizeImportedText (input : string) : string :=
  stripControls (normalizeNewlines input).

(** ** Site identifiers *)

(** [generateUserId()] of [App.tsx],
    [`UID-${Math.floor(1000 + Math.random() * 9000)}`], for the integer
    [n] that [Math.floor] returns, which is from 1000 to 9999. *)
Definition generateUserId (n : Z) : string := "UID-" +:+ pretty n.
(** * Specification vocabulary *)

(** The allocator as a recursion on the two identifiers below the current
    level, [n] levels before the depth cap. *)
Fixpoint allocate_from (n : nat) (p1 p2 : list Z) : list Z :=
  let v1 := default 0 (head p1) in
  let diff := default BASE (head p2) - v1 in
  if decide (1 < diff) then [v1 + ceil_half diff]
  else match n with
       | O => [v1; v1 + 1]
       | S n' => v1 :: allocate_from n' (tail p1) (tail p2)
       end.


(** *** Where the model is exact *)

(** The non-negative safe integers of JavaScript, [0] to
    [Number.MAX_SAFE_INTEGER]: on components in this range the additions
    and subtractions of the allocator are exact, and [toDouble] changes
    nothing. *)
Definition safe_identifier (p : list Z) : Prop :=
  Forall (λ v, 0 ≤ v < 2 ^ 53) p.

#[export] Instance safe_identifier_dec p : Decision (safe_identifier p).
Proof. unfold safe_identifier. apply _. Defined.

(** The site identifiers of the application, which are the strings
    [generateUserId] returns.  [String.prototype.localeCompare] depends on
    the locale and is not an order on all strings: it returns 0 on some
    strings that differ (a control character is ignored) and sorts
    letters by alphabet before case.  On two identifiers of the
    application it compares the four digits, as [localeCompare] here
    does; what a property says of the order of two sites is therefore
    stated for these identifiers. *)
Definition appSite (s : string) : Prop :=
  ∃ n : Z, 1000 ≤ n ≤ 9999 ∧ s = generateUserId n.

#[export] Instance appSite_dec s : Decision (appSite s).
Proof.
  refine (cast_if (decide (s ∈ generateUserId <$> seqZ 1000 9000)));
    unfold appSite.
  - apply list_elem_of_fmap in e as (m & -> & Hm%elem_of_seqZ).
    exists m. split; [lia|done].
  - intros (m & Hm & ->). apply n, list_elem_of_fmap. exists m.
    split; [done|]. apply elem_of_seqZ. lia.
Defined.

(** The canonical order on the elements of an array, and the two halves
    of the sequence invariant: sorted ascending, and no key twice. *)
Section Vocabulary.
Context {E : Type} (deref : E → CRDTChar).

Definition key (c : E) : list Z * string := key_of (deref c).

Definition char_lt (a b : E) : Prop := comparePositions deref a b < 0.
Definition char_le (a b : E) : Prop := comparePositions deref a b ≤ 0.

Definition sorted (chars : list E) : Prop := StronglySorted char_le chars.
Definition unique_keys (chars : list E) : Prop := NoDup (key <$> chars).

(** Both halves at once: strictly ascending. *)
Definition strictly_sorted (chars : list E) : Prop :=
  StronglySorted char_lt chars.

(** Some element of the array has the key [k]. *)
Definition has_key (k : list Z * string) (chars : list E) : Prop :=
  ∃ c, c ∈ chars ∧ key c = k.

(** The elements of the array come from sites of the application. *)
Definition app_sites (chars : list E) : Prop :=
  Forall (λ c, appSite (siteId (deref c))) chars.
End Vocabulary.

(** The character [a] occurs in the string [s]. *)
Fixpoint occurs (a : ascii) (s : string) : Prop :=
  match s with
  | EmptyString => False
  | String b s' => a = b ∨ occurs a s'
  end.

(** The properties of an attribute set, by name, and their values. *)
Inductive AttrKey := KBold | KItalic | KUnderline | KFontSize | KFontFamily.
Inductive AttrVal := VBool (b : bool) | VString (s : string).

Definition attr_get (k : AttrKey) (a : CRDTAttributes) : option AttrVal :=
  match k with
  | KBold => VBool <$> bold a
  | KItalic => VBool <$> italic a
  | KUnderline => VBool <$> underline a
  | KFontSize => VString <$> fontSize a
  | KFontFamily => VString <$> fontFamily a
  end.

(** The attribute set of an element, a missing one being the empty one. *)
Definition char_attr (k : AttrKey) (c : CRDTChar) : option AttrVal :=
  attr_get k (default noAttrs (attributes c)).

(** [c'] is [c] with, at most, the properties of [patch] changed. *)
Definition reformatted (patch : CRDTAttributes) (c c' : CRDTChar) : Prop :=
  value c' = value c ∧ position c' = position c ∧ siteId c' = siteId c
  ∧ ∀ k, attr_get k patch = None → char_attr k c' = char_attr k c.

(** The snapshots a call loads have no key twice. *)
Definition loads_unique (o : Op) : Prop :=
  match o with
  | OpLoadState (Some l) => unique_keys id l
  | _ => True
  end.

(** An element without attributes, for the examples. *)
Definition elt (val : string) (pos : list Z) (site : string) : CRDTChar :=
  mkChar val pos site None.

(** [deleteAll]: one [remoteDelete] per descriptor, in order. *)
Definition deleteEach (ops : list (list Z * string)) (chars : list CRDTChar)
  : list CRDTChar :=
  foldl (λ cs d, (remoteDelete id d.1 d.2 cs).1) chars ops.

(** *** Delivery orders *)

(** The key a delete or a format addresses. *)
Definition target (op : CRDTOperation) : option (list Z * string) :=
  match op with
  | MsgInsert _ => None
  | MsgDelete pos site => Some (pos, site)
  | MsgFormat pos site _ => Some (pos, site)
  end.

(** The site of the element a message carries or addresses. *)
Definition op_site (op : CRDTOperation) : string :=
  match op with
  | MsgInsert char => siteId char
  | MsgDelete _ site => site
  | MsgFormat _ site _ => site
  end.

(** In the delivery order [ops], no delete or format of a key comes
    before an insert of an element with that key. *)
Definition inserts_first (ops : list CRDTOperation) : Prop :=
  ∀ before after char,
    ops = before ++ MsgInsert char :: after →
    ∀ op, op ∈ before → target op ≠ Some (key_of char).

(** The inserts of [ops] that carry one key carry one element. *)
Definition inserts_functional (ops : list CRDTOperation) : Prop :=
  ∀ c1 c2, MsgInsert c1 ∈ ops → MsgInsert c2 ∈ ops →
           key_of c1 = key_of c2 → c1 = c2.

(** Two patches give no attribute two different values. *)
Definition patches_agree (a1 a2 : CRDTAttributes) : Prop :=
  ∀ k v1 v2, attr_get k a1 = Some v1 → attr_get k a2 = Some v2 → v1 = v2.

(** The formats of [ops] that address one element agree. *)
Definition formats_agree (ops : list CRDTOperation) : Prop :=
  ∀ pos site a1 a2, MsgFormat pos site a1 ∈ ops → MsgFormat pos site a2 ∈ ops →
                    patches_agree a1 a2.

(** What one message does to an element, when it is a format that
    addresses it. *)
Definition formatBy (c : CRDTChar) (op : CRDTOperation) : CRDTChar :=
  match op with
  | MsgFormat pos site attrs =>
      if decide (key_of c = (pos, site)) then formatted attrs c else c
  | _ => c
  end.

(** The element [c0] after the formats of [ops] that address it. *)
Definition formattedBy (ops : list CRDTOperation) (c0 : CRDTChar) : CRDTChar :=
  foldl formatBy c0 ops.

(** [x] is what [ops] leave of an element that was in [chars] or that
    [ops] insert, and that [ops] do not delete. *)
Definition survivor (ops : list CRDTOperation) (chars : list CRDTChar)
    (x : CRDTChar) : Prop :=
  ∃ c0, (c0 ∈ chars ∨ (MsgInsert c0 ∈ ops ∧ ¬ has_key id (key_of c0) chars))
        ∧ (MsgDelete (position c0) (siteId c0) ∉ ops)
        ∧ x = formattedBy ops c0.

(** A check of [inserts_first] that runs: [seen] are the keys deletes and
    formats have addressed so far. *)
Fixpoint inserts_first_check (seen : list (list Z * string))
    (ops : list CRDTOperation) : bool :=
  match ops with
  | [] => true
  | MsgInsert c :: rest =>
      bool_decide (key_of c ∉ seen) && inserts_first_check seen rest
  | MsgDelete pos site :: rest => inserts_first_check ((pos, site) :: seen) rest
  | MsgFormat pos site _ :: rest => inserts_first_check ((pos, site) :: seen) rest
  end.

(** *** Well-formed editors *)

(** The addresses of an array are addresses of objects of the store. *)
Definition valid_refs (objects : list CRDTChar) (refs : list nat) : Prop :=
  Forall (λ a, (a < length objects)%nat) refs.

(** So are the addresses the entries of a batch, and of a stack of
    batches, refer to. *)
Definition valid_batch (objects : list CRDTChar) (batch : list UndoOperation)
  : Prop :=
  Forall (λ e, (uchar e < length objects)%nat) batch.

Definition valid_stack (objects : list CRDTChar)
    (stack : list (list UndoOperation)) : Prop :=
  Forall (valid_batch objects) stack.

(** An array of addresses of objects of the store that is [ordered]. *)
Definition doc_wf_with (ordered : (nat → CRDTChar) → list nat → Prop)
    (objects : list CRDTChar) (refs : list nat) : Prop :=
  valid_refs objects refs ∧ ordered (objectAt objects) refs.

(** An editor whose array is [ordered], whose array and stacks refer to
    objects of the store, and whose two stacks hold 100 batches at most
    between them. *)
Definition editor_wf_with (ordered : (nat → CRDTChar) → list nat → Prop)
    (ed : Editor) : Prop :=
  doc_wf_with ordered (store ed) (rawChars ed)
  ∧ valid_stack (store ed) (undoStack ed)
  ∧ valid_stack (store ed) (redoStack ed)
  ∧ (length (undoStack ed) + length (redoStack ed) ≤ 100)%nat.

(** Splits the invariant of an editor into its parts. *)
Ltac wf_split :=
  unfold editor_wf_with;
  cbn [withRawChars withStore store rawChars undoStack redoStack
       currentAttributes fst snd];
  split_and!.

Definition editor_wf : Editor → Prop := editor_wf_with (@sorted nat).
Definition editor_wf_strict : Editor → Prop :=
  editor_wf_with (@strictly_sorted nat).

(** The events the component is wired to: [onKeyDown] and [onPaste] of the
    editing area, the undo, redo and style controls of the toolbar,
    [importText] of the component's handle, and [socket.onmessage].  The
    selection, and the cursor index a message finds, come with the
    event. *)
Inductive EditorEvent :=
  | KeyDown (e : KeyEvent) (start end_ : nat)
  | Paste (text : string) (start end_ : nat)
  | UndoButton
  | RedoButton
  | ToggleButton (key : ToggleKey) (start end_ : nat)
  | StyleSelect (key : StyleKey) (val : string) (start end_ : nat)
  | ImportFile (text : string)
  | Message (currentCursor : option Z) (siteId : string) (p : Payload).

Definition handleEvent (user_id : string) (ed : Editor) (ev : EditorEvent)
  : Editor :=
  match ev with
  | KeyDown e start end_ => handleKeyDown user_id e start end_ ed
  | Paste text start end_ => handlePaste user_id text start end_ ed
  | UndoButton => handleUndo ed
  | RedoButton => handleRedo ed
  | ToggleButton key start end_ => toggleAttribute key start end_ ed
  | StyleSelect key val start end_ => updateAttribute key val start end_ ed
  | ImportFile text => importText user_id text ed
  | Message currentCursor siteId p =>
      (onMessage user_id currentCursor siteId p ed).1
  end.

(** The snapshots a message makes the editor load satisfy [ok]. *)
Definition loads_ok (ok : list CRDTChar → Prop) (ev : EditorEvent) : Prop :=
  match ev with
  | Message _ _ (PSyncResponse (Some state)) => ok state
  | Message _ _ (PImportDocument (Some state)) => ok state
  | _ => True
  end.

(** The objects of the store come from sites that satisfy [P]. *)
Definition store_sites (P : string → Prop) (ed : Editor) : Prop :=
  Forall (λ c, P (siteId c)) (store ed).

(** The sites a message brings satisfy [P]: the site of the message, and
    the sites of the elements and descriptors it carries. *)
Definition payload_sites (P : string → Prop) (p : Payload) : Prop :=
  match p with
  | PBatchInsert (Some ops) => Forall (λ c, P (siteId c)) ops
  | PBatchDelete (Some ops) => Forall (λ d, P d.2) ops
  | PBatchFormat (Some ops) => Forall (λ o, P o.1.2) ops
  | PInsert char => P (siteId char)
  | PFormat _ charSiteId _ => P charSiteId
  | PSyncResponse (Some state) => Forall (λ c, P (siteId c)) state
  | PImportDocument (Some state) => Forall (λ c, P (siteId c)) state
  | _ => True
  end.

Definition event_sites (P : string → Prop) (ev : EditorEvent) : Prop :=
  match ev with
  | Message _ siteId p => P siteId ∧ payload_sites P p
  | _ => True
  end.

(** *** Text filters *)

(** The entity that stands for a character in escaped text; a character
    other than the five stands for itself. *)
Definition entity (a : ascii) : string :=
  if decide (a = "&"%char) then "&amp;"
  else if decide (a = "<"%char) then "&lt;"
  else if decide (a = ">"%char) then "&gt;"
  else if decide (a = dquote) then "&quot;"
  else if decide (a = "'"%char) then "&#039;"
  else String a "".

(** A text with each character replaced by its entity. *)
Fixpoint entities (s : string) : string :=
  match s with
  | EmptyString => EmptyString
  | String a s' => entity a +:+ entities s'
  end.

(** *** Messages, read on the engine alone *)

(** What a message from another site does to the elements of the array,
    in terms of [receive], [batchRemoteDelete] and [loadState] on
    records. *)
Definition receivePayload (siteId : string) (chars : list CRDTChar)
    (p : Payload) : list CRDTChar :=
  match p with
  | PBatchInsert (Some ops) => receiveAll chars (MsgInsert <$> ops)
  | PBatchDelete (Some ops) => (batchRemoteDelete id ops chars).1
  | PBatchFormat (Some ops) =>
      receiveAll chars ((λ o, MsgFormat o.1.1 o.1.2 o.2) <$> ops)
  | PInsert char => receive chars (MsgInsert char)
  | PDelete pos => receive chars (MsgDelete pos siteId)
  | PFormat pos charSiteId attrs =>
      receive chars (MsgFormat pos charSiteId attrs)
  | PSyncResponse (Some state) =>
      if decide (length chars = 0%nat ∧ (0 < length state)%nat)
      then loadState (Some state) else chars
  | PImportDocument (Some state) => loadState (Some state)
  | _ => chars
  end.
(** * Properties *)

(** ** The canonical order *)

Lemma compareArrays_refl a : compareArrays a a = 0.
Proof.
  induction a as [|x a IH]; simpl; [done|].
  rewrite Z.gtb_ltb, Z.ltb_irrefl. done.
Qed.

Lemma compareArrays_eq a b : compareArrays a b = 0 → a = b.
Proof.
  revert b. induction a as [|x a IH]; intros [|y b]; simpl; try done.
  rewrite Z.gtb_ltb.
  destruct (Z.ltb_spec x y); [done|].
  destruct (Z.ltb_spec y x); [done|].
  intros ?%IH. f_equal; [lia|done].
Qed.

Lemma compareArrays_antisym a b : compareArrays b a = - compareArrays a b.
Proof.
  revert b. induction a as [|x a IH]; intros [|y b]; simpl; try done.
  rewrite !Z.gtb_ltb.
  destruct (Z.ltb_spec x y), (Z.ltb_spec y x); try lia. apply IH.
Qed.

Lemma compareArrays_range a b :
  compareArrays a b = -1 ∨ compareArrays a b = 0 ∨ compareArrays a b = 1.
Proof.
  revert b. induction a as [|x a IH]; intros [|y b]; simpl; auto.
  repeat case_match; auto.
Qed.

Lemma compareArrays_trans a b c :
  compareArrays a b < 0 → compareArrays b c < 0 → compareArrays a c < 0.
Proof.
  revert b c. induction a as [|x a IH]; intros [|y b] [|z c]; simpl; try lia.
  rewrite !Z.gtb_ltb.
  destruct (Z.ltb_spec x y), (Z.ltb_spec y x), (Z.ltb_spec y z),
    (Z.ltb_spec z y), (Z.ltb_spec x z), (Z.ltb_spec z x); try lia.
  apply IH.
Qed.

(** [localeCompare], the order of the code units, is a total order whose
    zero is equality.  So is [String.prototype.localeCompare] on the
    identifiers of the application, where the two agree
    ([localeCompare_generateUserId]); on other strings it can return 0 on
    two strings that differ. *)
Lemma localeCompare_refl a : localeCompare a a = 0.
Proof.
  unfold localeCompare. pose proof (String.compare_antisym a a).
  destruct (String.compare a a); simpl in *; done.
Qed.

Lemma localeCompare_eq a b : localeCompare a b = 0 → a = b.
Proof.
  unfold localeCompare. destruct (String.compare a b) eqn:H; try done.
  intros _. by apply String.compare_eq_iff.
Qed.

Lemma localeCompare_antisym a b : localeCompare b a = - localeCompare a b.
Proof.
  unfold localeCompare. rewrite (String.compare_antisym a b).
  by destruct (String.compare b a).
Qed.

Lemma localeCompare_range a b :
  localeCompare a b = -1 ∨ localeCompare a b = 0 ∨ localeCompare a b = 1.
Proof. unfold localeCompare. case_match; auto. Qed.

Lemma localeCompare_trans a b c :
  localeCompare a b < 0 → localeCompare b c < 0 → localeCompare a c < 0.
Proof.
  unfold localeCompare. intros Hab Hbc.
  destruct (String.compare a b) eqn:Eab; try lia.
  destruct (String.compare b c) eqn:Ebc; try lia.
  assert (String.le a c) as Hle.
  { transitivity b; unfold String.le, String.leb; [by rewrite Eab|by rewrite Ebc]. }
  unfold String.le, String.leb in Hle.
  destruct (String.compare a c) eqn:Eac; try done.
  apply String.compare_eq_iff in Eac as ->.
  rewrite String.compare_antisym, Eab in Ebc. done.
Qed.

(** On the identifiers of the application [localeCompare] is the order of
    their numbers. *)
Lemma localeCompare_successor k :
  1000 ≤ k < 9999 →
  localeCompare (generateUserId k) (generateUserId (k + 1)) < 0.
Proof.
  intros Hk.
  assert (Forall (λ k, localeCompare (generateUserId k)
                                     (generateUserId (k + 1)) < 0)
                 (seqZ 1000 8999)) as Hall
    by (apply (bool_decide_unpack _); by vm_compute).
  rewrite Forall_forall in Hall. apply Hall, elem_of_seqZ. lia.
Qed.

Lemma localeCompare_ascending n (d : nat) :
  1000 ≤ n → n + Z.of_nat (S d) ≤ 9999 →
  localeCompare (generateUserId n) (generateUserId (n + Z.of_nat (S d))) < 0.
Proof.
  intros Hn. induction d as [|d IH]; intros Hm.
  - apply localeCompare_successor. lia.
  - eapply localeCompare_trans; [apply IH; lia|].
    replace (n + Z.of_nat (S (S d))) with (n + Z.of_nat (S d) + 1) by lia.
    apply localeCompare_successor. lia.
Qed.

Lemma localeCompare_generateUserId n m :
  1000 ≤ n ≤ 9999 → 1000 ≤ m ≤ 9999 →
  localeCompare (generateUserId n) (generateUserId m) = Z.sgn (n - m).
Proof.
  intros Hn Hm. destruct (Z.lt_trichotomy n m) as [Hlt|[->|Hgt]].
  - pose proof (localeCompare_ascending n (Z.to_nat (m - n) - 1)
                  ltac:(lia) ltac:(lia)) as H.
    replace (n + Z.of_nat (S (Z.to_nat (m - n) - 1))) with m in H by lia.
    destruct (localeCompare_range (generateUserId n) (generateUserId m)); lia.
  - rewrite localeCompare_refl. lia.
  - pose proof (localeCompare_ascending m (Z.to_nat (n - m) - 1)
                  ltac:(lia) ltac:(lia)) as H.
    replace (m + Z.of_nat (S (Z.to_nat (n - m) - 1))) with n in H by lia.
    rewrite localeCompare_antisym.
    destruct (localeCompare_range (generateUserId m) (generateUserId n)); lia.
Qed.


Lemma compareKeys_refl k : compareKeys k k = 0.
Proof.
  unfold compareKeys. rewrite compareArrays_refl. simpl.
  apply localeCompare_refl.
Qed.

Lemma compareKeys_eq k1 k2 : compareKeys k1 k2 = 0 → k1 = k2.
Proof.
  destruct k1 as [p1 s1], k2 as [p2 s2]. unfold compareKeys. simpl.
  case_decide as H; [done|].
  intros ?%localeCompare_eq.
  apply compareArrays_eq in H. by subst.
Qed.

Lemma compareKeys_antisym k1 k2 : compareKeys k2 k1 = - compareKeys k1 k2.
Proof.
  unfold compareKeys. rewrite (compareArrays_antisym k1.1 k2.1).
  repeat case_decide; try lia. apply localeCompare_antisym.
Qed.

Lemma compareKeys_range k1 k2 :
  compareKeys k1 k2 = -1 ∨ compareKeys k1 k2 = 0 ∨ compareKeys k1 k2 = 1.
Proof.
  unfold compareKeys. case_decide.
  - apply compareArrays_range.
  - apply localeCompare_range.
Qed.

Lemma compareKeys_trans k1 k2 k3 :
  compareKeys k1 k2 < 0 → compareKeys k2 k3 < 0 → compareKeys k1 k3 < 0.
Proof.
  destruct k1 as [p1 s1], k2 as [p2 s2], k3 as [p3 s3].
  unfold compareKeys. simpl.
  destruct (decide (compareArrays p1 p2 = 0)) as [->%compareArrays_eq|N12];
    destruct (decide (compareArrays p2 p3 = 0)) as [->%compareArrays_eq|N23];
    rewrite ?compareArrays_refl; repeat case_decide; try lia.
  - apply localeCompare_trans.
  - intros. by apply compareArrays_trans with p2.
  - intros H12 H23. pose proof (compareArrays_trans _ _ _ H12 H23). lia.
Qed.

Lemma compareKeys_le_lt k1 k2 k3 :
  compareKeys k1 k2 ≤ 0 → compareKeys k2 k3 < 0 → compareKeys k1 k3 < 0.
Proof.
  intros H12 H23. destruct (decide (compareKeys k1 k2 = 0)) as [E|].
  - apply compareKeys_eq in E as ->. done.
  - apply compareKeys_trans with k2; [lia|done].
Qed.

Lemma compareKeys_lt_le k1 k2 k3 :
  compareKeys k1 k2 < 0 → compareKeys k2 k3 ≤ 0 → compareKeys k1 k3 < 0.
Proof.
  intros H12 H23. destruct (decide (compareKeys k2 k3 = 0)) as [E|].
  - apply compareKeys_eq in E as <-. done.
  - apply compareKeys_trans with k2; [done|lia].
Qed.
(** ** The allocator *)

Lemma head_drop_lookup {A} (l : list A) i : head (drop i l) = l !! i.
Proof. rewrite head_lookup, lookup_drop. f_equal. lia. Qed.

Lemma tail_drop_S {A} (l : list A) i : tail (drop i l) = drop (S i) l.
Proof.
  revert l. induction i as [|i IH]; intros [|x l]; simpl; done.
Qed.

(** On safe components the arithmetic of the allocator is exact. *)
Lemma toDouble_safe z : Z.abs z ≤ 2 ^ 53 → toDouble z = z.
Proof. intros. unfold toDouble. by rewrite decide_True. Qed.

Lemma safe_component p i d :
  safe_identifier p → 0 ≤ d < 2 ^ 53 → 0 ≤ default d (p !! i) < 2 ^ 53.
Proof.
  intros Hp Hd. destruct (p !! i) as [v|] eqn:E; simpl; [|done].
  apply (Forall_lookup_1 _ _ _ _ Hp E).
Qed.

Lemma ceil_half_bounds d : 1 < d → 0 < ceil_half d < d.
Proof.
  intros. unfold ceil_half.
  pose proof (Z.div_lt_upper_bound (d + 1) 2 d).
  pose proof (Z.div_le_lower_bound (d + 1) 2 1). lia.
Qed.

(** The components a level of the allocator reads, and what it computes
    from them, for safe identifiers. *)
Lemma safe_level pos1 pos2 i :
  safe_identifier pos1 → safe_identifier pos2 →
  let v1 := default 0 (pos1 !! i) in
  let v2 := default BASE (pos2 !! i) in
  toDouble (v2 - v1) = v2 - v1
  ∧ (1 < v2 - v1 → toDouble (v1 + ceil_half (v2 - v1)) = v1 + ceil_half (v2 - v1))
  ∧ toDouble (v1 + 1) = v1 + 1.
Proof.
  intros H1 H2 v1 v2.
  pose proof (safe_component pos1 i 0 H1) as Hv1.
  pose proof (safe_component pos2 i BASE H2) as Hv2.
  fold v1 in Hv1. fold v2 in Hv2. unfold BASE in Hv2.
  change (2 ^ 53) with 9007199254740992 in *.
  specialize (Hv1 ltac:(lia)). specialize (Hv2 ltac:(lia)).
  split_and!.
  - apply toDouble_safe. change (2 ^ 53) with 9007199254740992. lia.
  - intros Hd. apply ceil_half_bounds in Hd. apply toDouble_safe.
    change (2 ^ 53) with 9007199254740992. lia.
  - apply toDouble_safe. change (2 ^ 53) with 9007199254740992. lia.
Qed.

Lemma loop_allocate_from pos1 pos2 newPos i :
  safe_identifier pos1 → safe_identifier pos2 → (i ≤ 128)%nat →
  generateIdentifierBetween_loop pos1 pos2 newPos i
  = newPos ++ allocate_from (128 - i) (drop i pos1) (drop i pos2).
Proof.
  intros H1 H2.
  funelim (generateIdentifierBetween_loop pos1 pos2 newPos i); intros Hi;
    destruct (safe_level pos1 pos2 i H1 H2) as (Hdiff & Hmid & Hnext);
    cbv zeta in *.
  - pose proof l as Hl. rewrite Hdiff in Hl. rewrite Hdiff, Hmid by done.
    destruct (128 - i)%nat; simpl; rewrite !head_drop_lookup;
      by rewrite decide_True.
  - match goal with Hd : ¬ 1 < toDouble _ |- _ => pose proof Hd as Hn end.
    rewrite Hdiff in Hn. rewrite Hnext.
    assert (i = 128%nat) as -> by lia. simpl.
    rewrite !head_drop_lookup, decide_False by done. by rewrite <-app_assoc.
  - match goal with Hd : ¬ 1 < toDouble _ |- _ => pose proof Hd as Hn end.
    rewrite Hdiff in Hn.
    rewrite H by (done || lia). rewrite <-app_assoc. f_equal.
    replace (128 - i)%nat with (S (128 - S i)) by lia. simpl.
    rewrite !head_drop_lookup, decide_False by done.
    by rewrite !tail_drop_S.
Qed.

Lemma allocate_from_above n p1 p2 :
  (length p1 ≤ S n)%nat → compareArrays p1 (allocate_from n p1 p2) < 0.
Proof.
  revert p1 p2. induction n as [|n IH]; intros p1 p2 Hlen; simpl.
  - case_decide as Hd.
    + apply ceil_half_bounds in Hd. destruct p1 as [|x t]; simpl; [lia|].
      simpl in Hd. case_match eqn:E; [lia|]. apply Z.ltb_ge in E. lia.
    + destruct p1 as [|x [|? ?]]; simpl in *; [lia| |lia].
      rewrite Z.gtb_ltb, Z.ltb_irrefl. lia.
  - case_decide as Hd.
    + apply ceil_half_bounds in Hd. destruct p1 as [|x t]; simpl; [lia|].
      simpl in Hd. case_match eqn:E; [lia|]. apply Z.ltb_ge in E. lia.
    + destruct p1 as [|x t]; simpl in *; [lia|].
      rewrite Z.gtb_ltb, Z.ltb_irrefl. apply IH. lia.
Qed.

Lemma allocate_from_below n p1 p2 :
  compareArrays p1 p2 < 0 →
  Forall (λ v, 0 ≤ v) p2 →
  (∀ v, last p2 = Some v → 0 < v) →
  (length p2 ≤ S n)%nat →
  compareArrays (allocate_from n p1 p2) p2 < 0.
Proof.
  revert p1 p2. induction n as [|n IH]; intros p1 p2 Hlt Hnn Hlast Hlen.
  - destruct p2 as [|y [|? ?]]; simpl in Hlen; [by destruct p1| |lia].
    specialize (Hlast y eq_refl).
    destruct p1 as [|x t]; simpl in *.
    + case_decide as Hd.
      * apply ceil_half_bounds in Hd. simpl. case_match eqn:E; [lia|].
        apply Z.ltb_ge in E. lia.
      * simpl. assert (y = 1) as -> by lia. done.
    + rewrite Z.gtb_ltb in Hlt.
      destruct (Z.ltb_spec x y); [|destruct (Z.ltb_spec y x); [lia|by destruct t]].
      case_decide as Hd.
      * apply ceil_half_bounds in Hd. simpl. case_match eqn:E; [lia|].
        apply Z.ltb_ge in E. lia.
      * simpl. case_match eqn:E; [lia|]. apply Z.ltb_ge in E. lia.
  - destruct p2 as [|y t2]; [by destruct p1|].
    apply Forall_cons in Hnn as [Hy Hnn].
    destruct p1 as [|x t1]; simpl in *.
    + case_decide as Hd.
      * apply ceil_half_bounds in Hd. simpl. case_match eqn:E; [lia|].
        apply Z.ltb_ge in E. lia.
      * simpl. rewrite Z.gtb_ltb.
        destruct (Z.ltb_spec 0 y); [lia|]. assert (y = 0) as -> by lia. simpl.
        destruct t2 as [|z t2]; [specialize (Hlast 0 eq_refl); lia|].
        apply IH; [done|done| |simpl in *; lia].
        intros v Hv. apply Hlast. done.
    + rewrite Z.gtb_ltb in Hlt.
      destruct (Z.ltb_spec x y).
      * case_decide as Hd.
        -- apply ceil_half_bounds in Hd. simpl. case_match eqn:E; [lia|].
           apply Z.ltb_ge in E. lia.
        -- simpl. case_match eqn:E; [lia|]. apply Z.ltb_ge in E. lia.
      * destruct (Z.ltb_spec y x); [lia|]. assert (y = x) as -> by lia.
        rewrite decide_False by lia. simpl.
        rewrite Z.gtb_ltb, Z.ltb_irrefl.
        destruct t2 as [|z t2]; [by destruct t1|].
        apply IH; [done|done| |simpl in *; lia].
        intros v Hv. apply Hlast. done.
Qed.

(** A safe identifier has no negative component. *)
Lemma safe_identifier_nonneg p : safe_identifier p → Forall (λ v, 0 ≤ v) p.
Proof. intros Hp. eapply Forall_impl; [exact Hp|]. simpl. lia. Qed.

(** C2, as amended.  For identifiers [before < after] whose components
    are non-negative safe integers, the last one of [after] being
    positive, and that are short enough for the allocator not to reach its
    depth cap (129 components at most), the allocator returns an
    identifier strictly between them.  What it returns at the depth cap,
    and on components that are not safe integers, is left out. *)
Theorem generateIdentifierBetween_between (before after : list Z) :
  safe_identifier before → safe_identifier after →
  compareArrays before after < 0 →
  (∀ v, last after = Some v → 0 < v) →
  (length before ≤ 129)%nat →
  (length after ≤ 129)%nat →
  compareArrays before (generateIdentifierBetween before after) < 0
  ∧ compareArrays (generateIdentifierBetween before after) after < 0.
Proof.
  intros Hsb Hsa Hlt Hlast Hb Ha. unfold generateIdentifierBetween.
  rewrite loop_allocate_from by (done || lia).
  rewrite app_nil_l, !drop_0, Nat.sub_0_r. split.
  - by apply allocate_from_above.
  - apply allocate_from_below; [done| |done|done].
    by apply safe_identifier_nonneg.
Qed.

Lemma generateIdentifierBetween_between_witness :
  safe_identifier [5; 3] ∧ safe_identifier [5; 4]
  ∧ compareArrays [5; 3] (generateIdentifierBetween [5; 3] [5; 4]) < 0
  ∧ compareArrays (generateIdentifierBetween [5; 3] [5; 4]) [5; 4] < 0.
Proof.
  assert (safe_identifier [5; 3]) as Hsb
    by (apply (bool_decide_unpack _); by vm_compute).
  assert (safe_identifier [5; 4]) as Hsa
    by (apply (bool_decide_unpack _); by vm_compute).
  split; [done|]. split; [done|].
  apply (generateIdentifierBetween_between [5; 3] [5; 4] Hsb Hsa).
  - reflexivity.
  - intros v [= <-]. lia.
  - simpl. lia.
  - simpl. lia.
Defined.

(** C2, as stated, fails: [1] < [1, 0], yet the identifier allocated
    between them is [1, 0, 512], which is above [1, 0]. *)
Lemma generateIdentifierBetween_above_after :
  compareArrays [1] [1; 0] < 0
  ∧ generateIdentifierBetween [1] [1; 0] = [1; 0; 512]
  ∧ ¬ (compareArrays (generateIdentifierBetween [1] [1; 0]) [1; 0] < 0).
Proof.
  split; [reflexivity|]. split; [by vm_compute|]. vm_compute. discriminate.
Qed.

(** At the depth cap the allocator does not create the fresh space its
    comment announces: it appends [v1 + 1] to the 129 components copied
    from [before], which can be [after] itself. *)
Example generateIdentifierBetween_at_cap :
  compareArrays [] (replicate 129 0 ++ [1]) < 0
  ∧ generateIdentifierBetween [] (replicate 129 0 ++ [1])
    = replicate 129 0 ++ [1].
Proof. split; [reflexivity|by vm_compute]. Qed.

(** Beyond the safe integers the midpoint need not be a double: between
    [2 ^ 53] and [2 ^ 53 + 2] it is rounded back to [2 ^ 53], and the
    allocator returns [before]. *)
Example generateIdentifierBetween_rounds :
  compareArrays [2 ^ 53] [2 ^ 53 + 2] < 0
  ∧ generateIdentifierBetween [2 ^ 53] [2 ^ 53 + 2] = [2 ^ 53].
Proof. split; [reflexivity|by vm_compute]. Qed.

(** The identifiers the allocator returns are themselves non-negative
    with a positive last component, when [before] is non-negative. *)
Lemma allocate_from_shape n p1 p2 :
  Forall (λ v, 0 ≤ v) p1 →
  Forall (λ v, 0 ≤ v) (allocate_from n p1 p2)
  ∧ ∀ v, last (allocate_from n p1 p2) = Some v → 0 < v.
Proof.
  revert p1 p2. induction n as [|n IH]; intros p1 p2 Hnn; simpl.
  - assert (0 ≤ default 0 (head p1)) by (destruct Hnn; simpl; lia).
    case_decide as Hd.
    + apply ceil_half_bounds in Hd. split; [repeat constructor; lia|].
      intros v [= <-]. lia.
    + split; [repeat constructor; lia|]. intros v [= <-]. lia.
  - assert (0 ≤ default 0 (head p1)) by (destruct Hnn; simpl; lia).
    case_decide as Hd.
    + apply ceil_half_bounds in Hd. split; [repeat constructor; lia|].
      intros v [= <-]. lia.
    + destruct (IH (tail p1) (tail p2)) as [IH1 IH2].
      { destruct Hnn; simpl; [constructor|done]. }
      split; [by constructor|].
      destruct (allocate_from n (tail p1) (tail p2)) eqn:E; [|done].
      exfalso. revert E. clear. destruct n; simpl; by case_decide.
Qed.

Lemma generateIdentifierBetween_shape (before after : list Z) :
  safe_identifier before → safe_identifier after →
  Forall (λ v, 0 ≤ v) (generateIdentifierBetween before after)
  ∧ ∀ v, last (generateIdentifierBetween before after) = Some v → 0 < v.
Proof.
  intros Hsb Hsa. unfold generateIdentifierBetween.
  rewrite loop_allocate_from by (done || lia).
  rewrite app_nil_l, !drop_0, Nat.sub_0_r.
  by apply allocate_from_shape, safe_identifier_nonneg.
Qed.

(** ** Arrays and sorted arrays *)

Lemma lookupZ_Some {A} (l : list A) (i : Z) x :
  l !!? i = Some x ↔ 0 ≤ i ∧ l !! Z.to_nat i = Some x.
Proof.
  unfold lookupZ. case_decide; [by intuition|].
  split; [done|]. intros [??]. lia.
Qed.

Lemma lookupZ_of_nat {A} (l : list A) (i : nat) : l !!? Z.of_nat i = l !! i.
Proof. unfold lookupZ. rewrite decide_True by lia. by rewrite Nat2Z.id. Qed.

Lemma lookupZ_None {A} (l : list A) (i : Z) :
  l !!? i = None ↔ i < 0 ∨ Z.of_nat (length l) ≤ i.
Proof.
  unfold lookupZ. case_decide; [|naive_solver lia].
  rewrite lookup_ge_None. lia.
Qed.

Lemma splice_insert {A} (l : list A) (i : nat) x :
  splice i 0 [x] l = take i l ++ x :: drop i l.
Proof. unfold splice. simpl. by rewrite Nat.add_0_r. Qed.

Lemma splice_delete {A} (l : list A) (i : nat) : splice i 1 [] l = delete i l.
Proof. unfold splice. simpl. by rewrite delete_take_drop, Nat.add_1_r. Qed.

Lemma StronglySorted_lookup {A} (R : relation A) l i j x y :
  StronglySorted R l → l !! i = Some x → l !! j = Some y → (i < j)%nat →
  R x y.
Proof.
  intros Hs. revert i j. induction Hs as [|z l Hs IH Hz]; intros i j Hi Hj Hij.
  { done. }
  destruct i as [|i], j as [|j]; simpl in *; try lia.
  - injection Hi as ->. rewrite Forall_forall in Hz.
    apply Hz. by eapply list_elem_of_lookup_2.
  - eapply IH; eauto. lia.
Qed.

Lemma StronglySorted_delete {A} (R : relation A) l i :
  StronglySorted R l → StronglySorted R (delete i l).
Proof.
  intros Hs. revert i. induction Hs as [|z l Hs IH Hz]; intros [|i]; simpl.
  - constructor.
  - constructor.
  - done.
  - constructor; [apply IH|].
    eapply Forall_impl; [|done].
    apply Forall_forall. intros x Hx. rewrite Forall_forall in Hz.
    apply Hz. by eapply list_elem_of_delete_inv.
Qed.

Lemma StronglySorted_filter {A} (R : relation A) (P : A → Prop)
    `{∀ x, Decision (P x)} l :
  StronglySorted R l → StronglySorted R (filter P l).
Proof.
  induction 1 as [|z l Hs IH Hz]; [constructor|].
  rewrite filter_cons. case_decide; [|done].
  constructor; [done|].
  apply Forall_forall. intros x [_ Hx]%list_elem_of_filter.
  rewrite Forall_forall in Hz. by apply Hz.
Qed.

Lemma StronglySorted_insert_at {A} (R : relation A) l i x :
  StronglySorted R l →
  Forall (λ y, R y x) (take i l) → Forall (R x) (drop i l) →
  StronglySorted R (take i l ++ x :: drop i l).
Proof.
  intros Hs Hl Hr. apply StronglySorted_app. split_and!.
  - intros x1 x2 H1 H2. apply list_elem_of_lookup in H1 as [i1 H1].
    apply elem_of_cons in H2 as [->|H2].
    { rewrite Forall_forall in Hl. apply Hl. by eapply list_elem_of_lookup_2. }
    apply list_elem_of_lookup in H2 as [i2 H2].
    rewrite lookup_drop in H2.
    pose proof (lookup_lt_Some _ _ _ H1) as Hlt. rewrite length_take in Hlt.
    rewrite lookup_take_lt in H1 by lia.
    eapply (StronglySorted_lookup R l i1 (i + i2)); eauto. lia.
  - rewrite <-(take_drop i l) in Hs. by apply StronglySorted_app in Hs as (?&?&?).
  - constructor; [|done].
    rewrite <-(take_drop i l) in Hs. by apply StronglySorted_app in Hs as (?&?&?).
Qed.

Lemma filter_all {A} (P : A → Prop) `{∀ x, Decision (P x)} (l : list A) :
  Forall P l → filter P l = l.
Proof.
  induction 1 as [|x l Hx Hl IH]; [done|].
  rewrite filter_cons, decide_True by done. by rewrite IH.
Qed.

Lemma filter_equiv {A} (P Q : A → Prop) `{∀ x, Decision (P x)}
    `{∀ x, Decision (Q x)} (l : list A) :
  (∀ x, x ∈ l → P x ↔ Q x) → filter P l = filter Q l.
Proof.
  induction l as [|x l IH]; intros HPQ; [done|].
  rewrite !filter_cons.
  assert (filter P l = filter Q l) as ->.
  { apply IH. intros y Hy. apply HPQ. by right. }
  specialize (HPQ x (list_elem_of_here _ _)).
  repeat case_decide; try done; tauto.
Qed.

(** ** The order on elements *)

Section Order.
Context {E : Type} (deref : E → CRDTChar).

#[local] Abbreviation key := (key deref).
#[local] Abbreviation char_lt := (char_lt deref).
#[local] Abbreviation char_le := (char_le deref).
#[local] Abbreviation sorted := (sorted deref).
#[local] Abbreviation strictly_sorted := (strictly_sorted deref).
#[local] Abbreviation unique_keys := (unique_keys deref).
#[local] Abbreviation has_key := (has_key deref).

Lemma comparePositions_keys (a b : E) :
  comparePositions deref a b = compareKeys (key a) (key b).
Proof. reflexivity. Qed.

Lemma comparePositions_eq a b : comparePositions deref a b = 0 ↔ key a = key b.
Proof.
  rewrite comparePositions_keys. split; [apply compareKeys_eq|].
  intros ->. apply compareKeys_refl.
Qed.

Lemma char_lt_le a b : char_lt a b → char_le a b.
Proof. unfold char_lt, char_le. lia. Qed.

Lemma char_le_refl a : char_le a a.
Proof. unfold char_le. rewrite comparePositions_keys, compareKeys_refl. lia. Qed.

Lemma char_lt_key_ne a b : char_lt a b → key a ≠ key b.
Proof.
  unfold char_lt. intros Hlt Hk. apply comparePositions_eq in Hk. lia.
Qed.

Lemma char_gt_key_ne a b : char_lt b a → key a ≠ key b.
Proof. intros Hlt Hk. by apply (char_lt_key_ne b a). Qed.

Lemma char_lt_asym a b : char_lt a b → char_lt b a → False.
Proof.
  unfold char_lt. rewrite !comparePositions_keys.
  rewrite (compareKeys_antisym (key a) (key b)). lia.
Qed.

Lemma char_lt_trans a b c : char_lt a b → char_lt b c → char_lt a c.
Proof. unfold char_lt. rewrite !comparePositions_keys. apply compareKeys_trans. Qed.

Lemma char_le_lt_trans a b c : char_le a b → char_lt b c → char_lt a c.
Proof.
  unfold char_lt, char_le. rewrite !comparePositions_keys.
  apply compareKeys_le_lt.
Qed.

Lemma char_lt_le_trans a b c : char_lt a b → char_le b c → char_lt a c.
Proof.
  unfold char_lt, char_le. rewrite !comparePositions_keys.
  apply compareKeys_lt_le.
Qed.

Lemma char_le_trans a b c : char_le a b → char_le b c → char_le a c.
Proof.
  intros Hab Hbc. destruct (decide (comparePositions deref b c = 0)) as [E0|].
  - apply comparePositions_eq in E0. unfold char_le in *.
    rewrite comparePositions_keys in *. by rewrite <-E0.
  - apply char_lt_le, (char_le_lt_trans a b c); [done|].
    unfold char_lt, char_le in *. lia.
Qed.

Lemma char_not_lt a b : ¬ char_lt a b ↔ char_le b a.
Proof.
  unfold char_lt, char_le. rewrite !comparePositions_keys.
  rewrite (compareKeys_antisym (key a) (key b)). lia.
Qed.

Lemma char_gt_lt a b : comparePositions deref a b > 0 ↔ char_lt b a.
Proof.
  unfold char_lt. rewrite !comparePositions_keys.
  rewrite (compareKeys_antisym (key a) (key b)). lia.
Qed.

Lemma strictly_sorted_sorted chars : strictly_sorted chars → sorted chars.
Proof.
  induction 1 as [|c l Hs IH Hc]; constructor; [done|].
  eapply Forall_impl; [done|]. intros. by apply char_lt_le.
Qed.

Lemma strictly_sorted_unique_keys chars : strictly_sorted chars → unique_keys chars.
Proof.
  unfold unique_keys.
  induction 1 as [|c l Hs IH Hc]; simpl; constructor; [|done].
  rewrite list_elem_of_fmap. intros (c' & Hk & Hin).
  rewrite Forall_forall in Hc. by apply (char_lt_key_ne c c'); [apply Hc|].
Qed.

Lemma sorted_unique_strictly chars :
  sorted chars → unique_keys chars → strictly_sorted chars.
Proof.
  unfold unique_keys.
  induction 1 as [|c l Hs IH Hc]; simpl; intros Hnd; [constructor|].
  apply NoDup_cons in Hnd as [Hnin Hnd]. constructor; [by apply IH|].
  apply Forall_forall. intros c' Hin. rewrite Forall_forall in Hc.
  destruct (decide (comparePositions deref c c' = 0)) as [E0|].
  - apply comparePositions_eq in E0. destruct Hnin.
    rewrite E0. by apply list_elem_of_fmap_2.
  - specialize (Hc _ Hin). unfold char_lt, char_le in *. lia.
Qed.

Lemma strictly_sorted_iff chars :
  strictly_sorted chars ↔ sorted chars ∧ unique_keys chars.
Proof.
  split.
  - eauto using strictly_sorted_sorted, strictly_sorted_unique_keys.
  - intros [??]. by apply sorted_unique_strictly.
Qed.

(** Two strictly sorted arrays with the same elements are the same array. *)
Lemma strictly_sorted_perm_eq l1 l2 :
  strictly_sorted l1 → strictly_sorted l2 → l1 ≡ₚ l2 → l1 = l2.
Proof.
  apply StronglySorted_unique_strong.
  intros x1 x2 _ _ H12 H21. destruct (char_lt_asym _ _ H12 H21).
Qed.

End Order.

(** ** [remoteInsert] *)

Section RemoteInsert.
Context {E : Type} (deref : E → CRDTChar).

#[local] Abbreviation key := (key deref).
#[local] Abbreviation char_lt := (char_lt deref).
#[local] Abbreviation char_le := (char_le deref).
#[local] Abbreviation sorted := (sorted deref).
#[local] Abbreviation strictly_sorted := (strictly_sorted deref).
#[local] Abbreviation unique_keys := (unique_keys deref).
#[local] Abbreviation has_key := (has_key deref).

Lemma shiftr1_bounds low high :
  low < high → low ≤ (low + high) ≫ 1 < high.
Proof.
  intros. midpoint low high.
Qed.

Lemma shiftr1_bounds_le low high :
  low ≤ high → low ≤ (low + high) ≫ 1 ≤ high.
Proof.
  intros. midpoint low high.
Qed.

(** The loop invariant of the search: everything below [low] is smaller
    than [char], everything from [high] on is greater. *)
Lemma remoteInsert_loop_spec chars char low high :
  sorted chars →
  0 ≤ low ≤ high → high ≤ Z.of_nat (length chars) →
  (∀ i c, chars !! i = Some c → Z.of_nat i < low → char_lt c char) →
  (∀ i c, chars !! i = Some c → high ≤ Z.of_nat i → char_lt char c) →
  match remoteInsert_loop deref chars char low high with
  | Duplicate => has_key (key char) chars
  | InsertAt l =>
      0 ≤ l ≤ Z.of_nat (length chars)
      ∧ (∀ i c, chars !! i = Some c → Z.of_nat i < l → char_lt c char)
      ∧ (∀ i c, chars !! i = Some c → l ≤ Z.of_nat i → char_lt char c)
  | InsertStuck => False
  end.
Proof.
  funelim (remoteInsert_loop deref chars char low high);
    intros Hs Hlh Hhi Hlow Hhigh; [|split; [lia|split; [done|]]].
  - pose proof (shiftr1_bounds low high l) as Hmid.
    destruct (chars !!? ((low + high) ≫ 1)) as [c|] eqn:Hc;
      [|apply lookupZ_None in Hc; lia].
    apply lookupZ_Some in Hc as [_ Hc].
    destruct (Z.ltb_spec (comparePositions deref c char) 0) as [Hlt|Hge].
    { apply (H c); [done|lia|lia| |done].
      intros i c' Hi Hlt'.
      apply (char_le_lt_trans deref c' c char); [|done].
      destruct (decide (i = Z.to_nat ((low + high) ≫ 1))) as [->|].
      - assert (c' = c) as -> by congruence. apply char_le_refl.
      - eapply (StronglySorted_lookup _ chars i); eauto. lia. }
    rewrite Z.gtb_ltb.
    destruct (Z.ltb_spec 0 (comparePositions deref c char)) as [Hgt|Hle].
    { apply (H0 c); [done|lia|lia|done|].
      intros i c' Hi Hge'. apply Z.lt_gt, char_gt_lt in Hgt.
      apply (char_lt_le_trans deref char c c'); [done|].
      destruct (decide (i = Z.to_nat ((low + high) ≫ 1))) as [->|].
      - assert (c' = c) as -> by congruence. apply char_le_refl.
      - eapply (StronglySorted_lookup _ chars _ i); eauto. lia. }
    exists c. split; [by eapply list_elem_of_lookup_2|].
    apply comparePositions_eq. lia.
  - intros i c Hi Hge. apply (Hhigh i c Hi). lia.
Qed.

(** What [remoteInsert] does to a sorted array. *)
Lemma remoteInsert_sorted_spec chars char :
  sorted chars →
  (has_key (key char) chars ∧ remoteInsert deref char chars = (chars, None))
  ∨ (¬ has_key (key char) chars
     ∧ ∃ l : nat,
         (l ≤ length chars)%nat
         ∧ remoteInsert deref char chars
           = (take l chars ++ char :: drop l chars, Some (Z.of_nat l))
         ∧ Forall (λ c, char_lt c char) (take l chars)
         ∧ Forall (λ c, char_lt char c) (drop l chars)).
Proof.
  intros Hs. unfold remoteInsert.
  pose proof (remoteInsert_loop_spec chars char 0 (Z.of_nat (length chars)) Hs)
    as Hloop.
  destruct (remoteInsert_loop deref chars char 0 (Z.of_nat (length chars)))
    as [|l|].
  - left. split; [|done]. apply Hloop; [lia|lia|intros; lia|].
    intros i c Hi Hge. apply lookup_lt_Some in Hi. lia.
  - right. destruct Hloop as (Hl & Hlow & Hhigh); [lia|lia|intros; lia| |].
    { intros i c Hi Hge. apply lookup_lt_Some in Hi. lia. }
    assert (Forall (λ c, char_lt c char) (take (Z.to_nat l) chars)) as Hbefore.
    { apply Forall_forall. intros c [i Hi]%list_elem_of_lookup.
      pose proof (lookup_lt_Some _ _ _ Hi) as Hlt. rewrite length_take in Hlt.
      rewrite lookup_take_lt in Hi by lia. apply (Hlow i c Hi). lia. }
    assert (Forall (λ c, char_lt char c) (drop (Z.to_nat l) chars)) as Hafter.
    { apply Forall_forall. intros c [i Hi]%list_elem_of_lookup.
      rewrite lookup_drop in Hi. apply (Hhigh _ c Hi). lia. }
    split.
    + intros (c & Hin & Hk). rewrite <-(take_drop (Z.to_nat l) chars) in Hin.
      rewrite Forall_forall in Hbefore, Hafter.
      apply elem_of_app in Hin as [Hin|Hin].
      * by apply (char_lt_key_ne deref c char); [apply Hbefore|].
      * by apply (char_gt_key_ne deref c char); [apply Hafter|].
    + exists (Z.to_nat l). rewrite splice_insert, Z2Nat.id by lia.
      split; [lia|]. done.
  - destruct Hloop; [lia|lia|intros; lia|].
    intros i c Hi Hge. apply lookup_lt_Some in Hi. lia.
Qed.

(** The search never reads outside the array. *)
Lemma remoteInsert_loop_in_range chars char low high :
  0 ≤ low → high ≤ Z.of_nat (length chars) →
  remoteInsert_loop deref chars char low high ≠ InsertStuck.
Proof.
  funelim (remoteInsert_loop deref chars char low high); intros Hlo Hhi;
    [|done].
  pose proof (shiftr1_bounds low high l) as Hmid.
  destruct (chars !!? ((low + high) ≫ 1)) as [c|] eqn:Hc;
    [|apply lookupZ_None in Hc; lia].
  repeat case_match; try done.
  - apply (H c); lia.
  - apply (H0 c); lia.
Qed.

Lemma remoteInsert_present chars char :
  sorted chars → has_key (key char) chars →
  remoteInsert deref char chars = (chars, None).
Proof.
  intros Hs Hk. destruct (remoteInsert_sorted_spec chars char Hs)
    as [[_ ?]|[? _]]; done.
Qed.

Lemma remoteInsert_sorted chars char :
  sorted chars → sorted (remoteInsert deref char chars).1.
Proof.
  intros Hs. destruct (remoteInsert_sorted_spec chars char Hs)
    as [[_ ->]|(_ & l & _ & -> & Hb & Ha)]; simpl; [done|].
  apply StronglySorted_insert_at; [done| |].
  - eapply Forall_impl; [done|]. intros. by apply char_lt_le.
  - eapply Forall_impl; [done|]. intros. by apply char_lt_le.
Qed.

Lemma remoteInsert_strictly_sorted chars char :
  strictly_sorted chars → strictly_sorted (remoteInsert deref char chars).1.
Proof.
  intros Hs.
  destruct (remoteInsert_sorted_spec chars char (strictly_sorted_sorted _ _ Hs))
    as [[_ ->]|(_ & l & _ & -> & Hb & Ha)]; simpl; [done|].
  by apply StronglySorted_insert_at.
Qed.

Lemma remoteInsert_perm chars char :
  sorted chars → ¬ has_key (key char) chars →
  (remoteInsert deref char chars).1 ≡ₚ char :: chars.
Proof.
  intros Hs Hk. destruct (remoteInsert_sorted_spec chars char Hs)
    as [[? _]|(_ & l & _ & -> & _)]; [done|]. simpl.
  rewrite <-Permutation_middle. by rewrite take_drop.
Qed.

Lemma remoteInsert_has_key chars char :
  sorted chars → has_key (key char) (remoteInsert deref char chars).1.
Proof.
  intros Hs. destruct (remoteInsert_sorted_spec chars char Hs)
    as [[? ->]|(_ & l & _ & -> & _)]; [done|]. simpl.
  exists char. split; [|done]. apply elem_of_app. right. left.
Qed.

Lemma remoteInsert_idem chars char :
  sorted chars →
  (remoteInsert deref char (remoteInsert deref char chars).1).1
  = (remoteInsert deref char chars).1.
Proof.
  intros Hs. rewrite remoteInsert_present; [done| |].
  - by apply remoteInsert_sorted.
  - by apply remoteInsert_has_key.
Qed.

End RemoteInsert.

(** ** [remoteDelete] *)

Section RemoteDelete.
Context {E : Type} (deref : E → CRDTChar).

#[local] Abbreviation key := (key deref).
#[local] Abbreviation sorted := (sorted deref).
#[local] Abbreviation strictly_sorted := (strictly_sorted deref).
#[local] Abbreviation unique_keys := (unique_keys deref).
#[local] Abbreviation has_key := (has_key deref).

Lemma addresses_key pos site c : addresses deref pos site c ↔ key c = (pos, site).
Proof.
  unfold addresses, key, key_of. split.
  - intros [->%compareArrays_eq ->]. done.
  - intros [= <- <-]. split; [apply compareArrays_refl|done].
Qed.

(** A hit of the search is an element of the array with the key. *)
Lemma remoteDelete_loop_hit chars pos site low high mid :
  remoteDelete_loop deref chars pos site low high = Hit mid →
  ∃ c, chars !!? mid = Some c ∧ key c = (pos, site).
Proof.
  funelim (remoteDelete_loop deref chars pos site low high); [|done].
  destruct (chars !!? ((low + high) ≫ 1)) as [c|] eqn:Hc; [|done].
  set (cmp := if decide (compareArrays (position (deref c)) pos ≠ 0)
              then compareArrays (position (deref c)) pos
              else localeCompare (siteId (deref c)) site).
  destruct (Z.ltb_spec cmp 0) as [Hlt|Hge]; [by apply (H c)|].
  rewrite Z.gtb_ltb. destruct (Z.ltb_spec 0 cmp) as [Hgt|Hle]; [by apply (H0 c)|].
  intros [= <-]. exists c. split; [done|].
  apply (compareKeys_eq (key c) (pos, site)).
  change (compareKeys (key c) (pos, site)) with cmp. lia.
Qed.

(** The search never reads outside the array. *)
Lemma remoteDelete_loop_in_range chars pos site low high :
  0 ≤ low → high < Z.of_nat (length chars) →
  remoteDelete_loop deref chars pos site low high ≠ DeleteStuck.
Proof.
  funelim (remoteDelete_loop deref chars pos site low high); intros Hlo Hhi;
    [|done].
  pose proof (shiftr1_bounds_le low high l) as Hmid.
  destruct (chars !!? ((low + high) ≫ 1)) as [c|] eqn:Hc;
    [|apply lookupZ_None in Hc; lia].
  repeat case_match; try done;
    first [apply (H c); lia | apply (H0 c); lia].
Qed.

(** What [remoteDelete] does to any array: nothing and [-1] when the key
    is absent, otherwise one element with the key goes and its index is
    returned. *)
Lemma remoteDelete_spec chars pos site :
  (¬ has_key (pos, site) chars ∧ remoteDelete deref pos site chars = (chars, -1))
  ∨ (∃ (i : nat) c,
        chars !! i = Some c ∧ key c = (pos, site)
        ∧ remoteDelete deref pos site chars = (delete i chars, Z.of_nat i)).
Proof.
  unfold remoteDelete.
  pose proof (remoteDelete_loop_in_range chars pos site 0
                (Z.of_nat (length chars) - 1)) as Hrange.
  destruct (remoteDelete_loop deref chars pos site 0
              (Z.of_nat (length chars) - 1)) as [mid| |] eqn:Hloop.
  - right. apply remoteDelete_loop_hit in Hloop as (c & Hc & Hk).
    apply lookupZ_Some in Hc as [Hmid Hc].
    exists (Z.to_nat mid), c. rewrite splice_delete, Z2Nat.id by lia. done.
  - destruct (list_find (addresses deref pos site) chars) as [[idx c]|] eqn:Hfind.
    + right. apply list_find_Some in Hfind as (Hc & Hk & _).
      exists idx, c. rewrite splice_delete. by rewrite <-addresses_key.
    + left. split; [|done]. intros (c & Hin & Hk).
      apply list_find_None in Hfind. rewrite Forall_forall in Hfind.
      apply (Hfind c Hin). by apply addresses_key.
  - destruct Hrange; [lia|lia|done].
Qed.

Lemma unique_keys_lookup_inj chars i j ci cj :
  unique_keys chars → chars !! i = Some ci → chars !! j = Some cj →
  key ci = key cj → i = j.
Proof.
  intros Hnd Hi Hj Hk. eapply NoDup_lookup; [apply Hnd| |].
  - rewrite list_lookup_fmap, Hi. done.
  - rewrite list_lookup_fmap, Hj. simpl. by rewrite Hk.
Qed.

Lemma unique_keys_delete_filter chars i c :
  unique_keys chars → chars !! i = Some c →
  delete i chars = filter (λ c', key c' ≠ key c) chars.
Proof.
  revert i. induction chars as [|c0 chars IH]; intros i Hnd Hi; [done|].
  unfold unique_keys in Hnd. rewrite fmap_cons in Hnd.
  apply NoDup_cons in Hnd as [Hnin Hnd].
  rewrite filter_cons. destruct i as [|i]; simpl in *.
  - injection Hi as ->. rewrite decide_False by naive_solver.
    symmetry. apply filter_all, Forall_forall. intros c' Hin Hk.
    apply Hnin. rewrite <-Hk. by apply list_elem_of_fmap_2.
  - rewrite decide_True.
    + f_equal. by apply IH.
    + intros Hk. apply Hnin. rewrite Hk.
      apply list_elem_of_fmap_2. by eapply list_elem_of_lookup_2.
Qed.

Lemma filter_absent chars k :
  ¬ has_key k chars → filter (λ c, key c ≠ k) chars = chars.
Proof.
  intros Hk. apply filter_all, Forall_forall. intros c Hin Hc.
  apply Hk. by exists c.
Qed.

(** On an array without duplicate keys, [remoteDelete] removes the
    element with the key, if any. *)
Lemma remoteDelete_filter chars pos site :
  unique_keys chars →
  (remoteDelete deref pos site chars).1
  = filter (λ c, key c ≠ (pos, site)) chars.
Proof.
  intros Hnd. destruct (remoteDelete_spec chars pos site)
    as [[Hk ->]|(i & c & Hi & Hk & ->)]; simpl.
  - by rewrite filter_absent.
  - rewrite <-Hk. by apply unique_keys_delete_filter.
Qed.

Lemma remoteDelete_sorted chars pos site :
  sorted chars → sorted (remoteDelete deref pos site chars).1.
Proof.
  intros Hs. destruct (remoteDelete_spec chars pos site)
    as [[Hk ->]|(i & c & Hi & Hk & ->)]; simpl; [done|].
  by apply StronglySorted_delete.
Qed.

Lemma remoteDelete_strictly_sorted chars pos site :
  strictly_sorted chars → strictly_sorted (remoteDelete deref pos site chars).1.
Proof.
  intros Hs. destruct (remoteDelete_spec chars pos site)
    as [[Hk ->]|(i & c & Hi & Hk & ->)]; simpl; [done|].
  by apply StronglySorted_delete.
Qed.

Lemma unique_keys_filter (P : E → Prop) `{∀ x, Decision (P x)} chars :
  unique_keys chars → unique_keys (filter P chars).
Proof.
  unfold unique_keys. induction chars as [|c chars IH]; [done|].
  rewrite fmap_cons, NoDup_cons. intros [Hnin Hnd].
  rewrite filter_cons. case_decide; [|by apply IH].
  rewrite fmap_cons. apply NoDup_cons. split; [|by apply IH].
  rewrite list_elem_of_fmap. intros (c' & Hk & [_ Hin]%list_elem_of_filter).
  apply Hnin. rewrite Hk. by apply list_elem_of_fmap_2.
Qed.

End RemoteDelete.

(** ** The string keys of [batchRemoteDelete] *)

Lemma occurs_app a s1 s2 : occurs a (s1 +:+ s2) ↔ occurs a s1 ∨ occurs a s2.
Proof.
  induction s1 as [|b s1 IH]; simpl; [tauto|].
  change (String b s1 +:+ s2) with (String b (s1 +:+ s2)). simpl.
  rewrite IH. tauto.
Qed.

(** Splitting at the last occurrence of a separator is unambiguous. *)
Lemma split_last_sep a s1 s2 t1 t2 :
  ¬ occurs a t1 → ¬ occurs a t2 →
  s1 +:+ String a t1 = s2 +:+ String a t2 → s1 = s2 ∧ t1 = t2.
Proof.
  intros H1 H2. revert s2.
  induction s1 as [|b s1 IH]; intros [|c s2] Heq.
  - by injection Heq as ->.
  - change (String c s2 +:+ String a t2) with (String c (s2 +:+ String a t2)) in Heq.
    change ("" +:+ String a t1) with (String a t1) in Heq.
    injection Heq as ? ?. subst. destruct H1. apply occurs_app. right. by left.
  - change (String b s1 +:+ String a t1) with (String b (s1 +:+ String a t1)) in Heq.
    change ("" +:+ String a t2) with (String a t2) in Heq.
    injection Heq as ? ?. subst. destruct H2. apply occurs_app. right. by left.
  - change (String b s1 +:+ String a t1) with (String b (s1 +:+ String a t1)) in Heq.
    change (String c s2 +:+ String a t2) with (String c (s2 +:+ String a t2)) in Heq.
    injection Heq as ? Heq. subst. destruct (IH s2) as [-> ->]; done.
Qed.

(** So is splitting at the first occurrence. *)
Lemma split_first_sep a s1 s2 t1 t2 :
  ¬ occurs a s1 → ¬ occurs a s2 →
  s1 +:+ String a t1 = s2 +:+ String a t2 → s1 = s2 ∧ t1 = t2.
Proof.
  revert s2. induction s1 as [|b s1 IH]; intros [|c s2] H1 H2 Heq.
  - by injection Heq as ->.
  - change (String c s2 +:+ String a t2) with (String c (s2 +:+ String a t2)) in Heq.
    change ("" +:+ String a t1) with (String a t1) in Heq.
    injection Heq as ? ?. subst. destruct H2. by left.
  - change (String b s1 +:+ String a t1) with (String b (s1 +:+ String a t1)) in Heq.
    change ("" +:+ String a t2) with (String a t2) in Heq.
    injection Heq as ? ?. subst. destruct H1. by left.
  - change (String b s1 +:+ String a t1) with (String b (s1 +:+ String a t1)) in Heq.
    change (String c s2 +:+ String a t2) with (String c (s2 +:+ String a t2)) in Heq.
    injection Heq as ? Heq. subst. destruct (IH s2) as [-> ->]; try done.
    + intros ?. apply H1. by right.
    + intros ?. apply H2. by right.
Qed.

Lemma pretty_N_char_not_sep x :
  pretty_N_char x ≠ ","%char ∧ pretty_N_char x ≠ ":"%char.
Proof. unfold pretty_N_char. repeat case_match; done. Qed.

Lemma pretty_N_go_occurs a x s :
  a = ","%char ∨ a = ":"%char →
  occurs a (pretty_N_go x s) → occurs a s.
Proof.
  intros Ha. revert s. induction (N.lt_wf_0 x) as [x _ IH]; intros s.
  destruct (decide (x = 0)%N) as [->|].
  { by rewrite pretty_N_go_0. }
  rewrite pretty_N_go_step by lia. intros Hocc.
  apply IH in Hocc; [|apply N.div_lt; lia].
  destruct Hocc as [Hocc|Hocc]; [|done].
  destruct (pretty_N_char_not_sep (x `mod` 10)). destruct Ha; congruence.
Qed.

Lemma pretty_N_go_nonempty x s : s ≠ "" → pretty_N_go x s ≠ "".
Proof.
  revert s. induction (N.lt_wf_0 x) as [x _ IH]; intros s Hs.
  destruct (decide (x = 0)%N) as [->|].
  { by rewrite pretty_N_go_0. }
  rewrite pretty_N_go_step by lia. apply IH; [apply N.div_lt; lia|done].
Qed.

Lemma pretty_N_not_sep a (x : N) :
  a = ","%char ∨ a = ":"%char → ¬ occurs a (pretty x).
Proof.
  intros Ha. unfold pretty, pretty_N. case_decide.
  - simpl. intros [->|[]]. by destruct Ha.
  - intros Hocc. by apply pretty_N_go_occurs in Hocc.
Qed.

Lemma pretty_N_nonempty (x : N) : pretty x ≠ "".
Proof.
  unfold pretty, pretty_N. case_decide; [done|].
  rewrite pretty_N_go_step by lia. by apply pretty_N_go_nonempty.
Qed.

Lemma pretty_Z_not_sep a (x : Z) :
  a = ","%char ∨ a = ":"%char → ¬ occurs a (pretty x).
Proof.
  intros Ha. destruct x as [|p|p]; unfold pretty, pretty_Z.
  - simpl. intros [->|[]]. by destruct Ha.
  - by apply pretty_N_not_sep.
  - rewrite occurs_app. intros [Hocc|Hocc].
    + simpl in Hocc. destruct Hocc as [->|[]]. by destruct Ha.
    + by apply pretty_N_not_sep in Hocc.
Qed.

Lemma pretty_Z_nonempty (x : Z) : pretty x ≠ "".
Proof.
  destruct x as [|p|p]; unfold pretty, pretty_Z; [done| |done].
  apply pretty_N_nonempty.
Qed.

(** [position.join(',')] *)
Lemma join_cons2 (x y : string) l :
  String.concat "," (x :: y :: l) = x +:+ String ","%char (String.concat "," (y :: l)).
Proof. reflexivity. Qed.

Lemma join_no_colon (pos : list Z) :
  ¬ occurs ":"%char (String.concat "," (pretty <$> pos)).
Proof.
  induction pos as [|x [|y pos] IH]; [by intros []| |].
  - simpl. apply pretty_Z_not_sep. by right.
  - rewrite !fmap_cons, join_cons2, occurs_app. intros [Hocc|[Hocc|Hocc]].
    + apply pretty_Z_not_sep in Hocc; [done|by right].
    + done.
    + by apply IH.
Qed.

Lemma join_inj (pos1 pos2 : list Z) :
  String.concat "," (pretty <$> pos1) = String.concat "," (pretty <$> pos2) →
  pos1 = pos2.
Proof.
  revert pos2. induction pos1 as [|x [|y pos1] IH]; intros [|x' [|y' pos2]] Heq;
    rewrite ?fmap_cons, ?join_cons2 in Heq.
  - done.
  - simpl in Heq. by destruct (pretty_Z_nonempty x').
  - exfalso. destruct (pretty x') eqn:E; [by destruct (pretty_Z_nonempty x')|].
    done.
  - simpl in Heq. by destruct (pretty_Z_nonempty x).
  - simpl in Heq. by apply (inj pretty) in Heq as ->.
  - exfalso. simpl in Heq. apply (pretty_Z_not_sep ","%char x); [by left|].
    rewrite Heq, occurs_app. right. by left.
  - exfalso. destruct (pretty x) eqn:E; [by destruct (pretty_Z_nonempty x)|].
    done.
  - exfalso. simpl in Heq. apply (pretty_Z_not_sep ","%char x'); [by left|].
    rewrite <-Heq, occurs_app. right. by left.
  - apply split_first_sep in Heq as [Hx Hrest].
    + apply (inj pretty) in Hx as ->. f_equal.
      apply (IH (y' :: pos2)). by rewrite !fmap_cons.
    + apply pretty_Z_not_sep. by left.
    + apply pretty_Z_not_sep. by left.
Qed.

(** Distinct keys have distinct string keys. *)
Lemma deletionKey_inj site1 pos1 site2 pos2 :
  deletionKey site1 pos1 = deletionKey site2 pos2 →
  pos1 = pos2 ∧ site1 = site2.
Proof.
  unfold deletionKey. intros Heq.
  apply split_last_sep in Heq as [-> ?%join_inj]; [done| |];
    apply join_no_colon.
Qed.

Section Batch.
Context {E : Type} (deref : E → CRDTChar).

#[local] Abbreviation key := (key deref).
#[local] Abbreviation sorted := (sorted deref).
#[local] Abbreviation strictly_sorted := (strictly_sorted deref).
#[local] Abbreviation unique_keys := (unique_keys deref).
#[local] Abbreviation has_key := (has_key deref).

Lemma deletionSet_of_spec ops k :
  k ∈ deletionSet_of ops ↔ ∃ op, op ∈ ops ∧ k = deletionKey op.2 op.1.
Proof.
  unfold deletionSet_of.
  assert (∀ acc : gset string,
    k ∈ foldl (λ set op, set ∪ {[deletionKey op.2 op.1]}) acc ops
    ↔ k ∈ acc ∨ ∃ op, op ∈ ops ∧ k = deletionKey op.2 op.1) as Hgen.
  { induction ops as [|op ops IH]; intros acc; simpl.
    - split; [by left|]. intros [?|(op & Hin & _)]; [done|]. by inv Hin.
    - rewrite IH, elem_of_union, elem_of_singleton. split.
      + intros [[?| ->]|(op' & Hin & ->)]; [by left| |].
        * right. exists op. split; [left|done].
        * right. exists op'. split; [by right|done].
      + intros [?|(op' & Hin & ->)]; [by (left; left)|].
        apply elem_of_cons in Hin as [-> |Hin]; [by (left; right)|].
        right. by exists op'. }
  rewrite Hgen. split; [|by right]. intros [Hin|?]; [|done].
  by apply not_elem_of_empty in Hin.
Qed.

(** Membership of an element's string key in the set is membership of its
    key among the descriptors. *)
Lemma deletionKey_in_set ops c :
  deletionKey (siteId (deref c)) (position (deref c)) ∈ deletionSet_of ops
  ↔ key c ∈ ops.
Proof.
  rewrite deletionSet_of_spec. split.
  - intros ([pos site] & Hin & [Hp Hs]%deletionKey_inj). simpl in *.
    unfold key, key_of. by rewrite Hp, Hs.
  - intros Hin. by exists (key c).
Qed.

(** The state of the compaction loop after [i] turns. *)
Lemma compact_loop_spec (deletionSet : gset string) chars i :
  (i ≤ length chars)%nat →
  let keep := λ c, deletionKey (siteId (deref c)) (position (deref c))
                   ∉ deletionSet in
  ∃ chars',
    foldl (compact_step deref deletionSet) (chars, 0%nat, 0) (seq 0 i)
    = (chars', length (filter keep (take i chars)),
       Z.of_nat i - Z.of_nat (length (filter keep (take i chars))))
    ∧ length chars' = length chars
    ∧ take (length (filter keep (take i chars))) chars'
      = filter keep (take i chars)
    ∧ drop i chars' = drop i chars.
Proof.
  intros Hi keep. induction i as [|i IH].
  { exists chars. simpl. by rewrite take_0. }
  destruct IH as (cs & Hfold & Hlen & Htake & Hdrop); [lia|].
  rewrite seq_S, foldl_app, Hfold. simpl.
  destruct (chars !! i) as [char|] eqn:Hchar;
    [|apply lookup_ge_None in Hchar; lia].
  assert (cs !! i = Some char) as Hcs.
  { rewrite <-(Nat.add_0_r i), <-lookup_drop, Hdrop, lookup_drop.
    by rewrite Nat.add_0_r. }
  rewrite Hcs. rewrite (take_S_r _ _ _ Hchar), filter_app.
  assert (length (filter keep (take i chars)) ≤ i)%nat as Hw.
  { etrans; [apply length_filter|]. rewrite length_take. lia. }
  rewrite filter_cons, filter_nil.
  case_decide as Hin.
  - assert (¬ keep char) as Hk by (intros Hk; by apply Hk).
    rewrite (decide_False (P := keep char)) by done.
    exists cs. rewrite app_nil_r. split_and!; try done.
    + repeat f_equal. lia.
    + by rewrite <-(Nat.add_1_r i), <-!drop_drop, Hdrop.
  - rewrite (decide_True (P := keep char)) by done.
    exists (<[length (filter keep (take i chars)) := char]> cs).
    rewrite length_app. simpl. split_and!.
    + f_equal; [f_equal|lia].
      * case_decide; [done|]. symmetry. apply list_insert_id. congruence.
      * lia.
    + by rewrite length_insert.
    + rewrite Nat.add_1_r.
      erewrite take_S_r; [|apply list_lookup_insert_eq; lia].
      by rewrite take_insert_ge, Htake by lia.
    + rewrite drop_insert_lt by lia.
      by rewrite <-(Nat.add_1_r i), <-!drop_drop, Hdrop.
Qed.

(** [batchRemoteDelete] keeps, in order, the elements whose key no
    descriptor addresses, and returns how many it dropped. *)
Lemma batchRemoteDelete_filter ops chars :
  batchRemoteDelete deref ops chars
  = (filter (λ c, key c ∉ ops) chars,
     Z.of_nat (length chars)
     - Z.of_nat (length (filter (λ c, key c ∉ ops) chars))).
Proof.
  unfold batchRemoteDelete. case_decide as Hops.
  { destruct ops; [|done]. rewrite filter_all; [f_equal; lia|].
    apply Forall_forall. intros c _ Hin. by inv Hin. }
  destruct (compact_loop_spec (deletionSet_of ops) chars (length chars))
    as (cs & -> & Hlen & Htake & _); [done|].
  rewrite firstn_all in *.
  assert (filter (λ c, deletionKey (siteId (deref c)) (position (deref c))
                       ∉ deletionSet_of ops) chars
          = filter (λ c, key c ∉ ops) chars) as Hf.
  { apply filter_equiv. intros c _. by rewrite deletionKey_in_set. }
  rewrite Hf in *. f_equal.
  case_decide as Hw; [done|].
  rewrite <-Htake. symmetry. apply take_ge. lia.
Qed.

End Batch.

(** ** Sub-arrays, formatting and sorting *)

Lemma StronglySorted_sublist {A} (R : relation A) l1 l2 :
  l1 `sublist_of` l2 → StronglySorted R l2 → StronglySorted R l1.
Proof.
  induction 1 as [|x l1 l2 Hsub IH|x l1 l2 Hsub IH]; intros Hs.
  - constructor.
  - apply StronglySorted_cons in Hs as [Hx Hs].
    constructor; [by apply IH|].
    apply Forall_forall. intros y Hy. rewrite Forall_forall in Hx.
    apply Hx. by eapply sublist_subseteq.
  - apply StronglySorted_cons in Hs as [_ Hs]. by apply IH.
Qed.

Lemma splice_remove_sublist {A} (l : list A) start count :
  splice start count [] l `sublist_of` l.
Proof.
  unfold splice. simpl. rewrite <-(take_drop start l) at 3.
  apply sublist_app; [done|]. rewrite <-drop_drop. apply sublist_drop.
Qed.

Lemma attr_ext a b : (∀ k, attr_get k a = attr_get k b) → a = b.
Proof.
  intros H. destruct a as [a1 a2 a3 a4 a5], b as [b1 b2 b3 b4 b5].
  pose proof (H KBold). pose proof (H KItalic). pose proof (H KUnderline).
  pose proof (H KFontSize). pose proof (H KFontFamily). simpl in *.
  assert (∀ x y : option bool, VBool <$> x = VBool <$> y → x = y) as Hb.
  { intros [?|] [?|]; simpl; congruence. }
  assert (∀ x y : option string, VString <$> x = VString <$> y → x = y) as Hs.
  { intros [?|] [?|]; simpl; congruence. }
  f_equal; auto.
Qed.

Lemma attr_get_spread k base patch :
  attr_get k (spread base patch)
  = match attr_get k patch with
    | Some v => Some v
    | None => attr_get k (default noAttrs base)
    end.
Proof.
  destruct patch as [p1 p2 p3 p4 p5], k; cbn;
    [destruct p1|destruct p2|destruct p3|destruct p4|destruct p5];
    reflexivity.
Qed.

Lemma spread_noAttrs a : spread None a = a.
Proof. apply attr_ext. intros k. rewrite attr_get_spread. by destruct k, a as [[] [] [] [] []]. Qed.

Lemma copyAttrs_id a : copyAttrs a = a.
Proof. destruct a as [a|]; simpl; [|done]. by rewrite spread_noAttrs. Qed.

Lemma copyChar_id c : copyChar c = c.
Proof. destruct c. unfold copyChar. simpl. by rewrite copyAttrs_id. Qed.

Lemma state_id chars : state chars = chars.
Proof.
  unfold state. induction chars as [|c chars IH]; [done|].
  by rewrite fmap_cons, copyChar_id, IH.
Qed.

Lemma key_formatted patch c : key id (formatted patch c) = key id c.
Proof. done. Qed.

Lemma formatted_reformatted patch c : reformatted patch c (formatted patch c).
Proof.
  split_and!; try done. intros k Hk. unfold char_attr. simpl.
  by rewrite attr_get_spread, Hk.
Qed.

Lemma reformatted_refl patch c : reformatted patch c c.
Proof. by split_and!. Qed.

Lemma keys_insert_same (chars : list CRDTChar) i c c' :
  chars !! i = Some c → key id c' = key id c →
  key id <$> <[i := c']> chars = key id <$> chars.
Proof.
  intros Hi Hk. rewrite list_fmap_insert. apply list_insert_id.
  by rewrite list_lookup_fmap, Hi, Hk.
Qed.

Lemma sorted_keys {E} (deref : E → CRDTChar) (chars : list E) :
  sorted deref chars
  ↔ StronglySorted (λ k1 k2, compareKeys k1 k2 ≤ 0) (key deref <$> chars).
Proof.
  unfold sorted. induction chars as [|c chars IH]; [by split; constructor|].
  rewrite fmap_cons, !StronglySorted_cons, Forall_fmap, IH. done.
Qed.

Lemma sorted_same_keys (l1 l2 : list CRDTChar) :
  key id <$> l1 = key id <$> l2 → sorted id l1 → sorted id l2.
Proof. rewrite !sorted_keys. by intros ->. Qed.

Lemma unique_keys_same_keys (l1 l2 : list CRDTChar) :
  key id <$> l1 = key id <$> l2 → unique_keys id l1 → unique_keys id l2.
Proof. unfold unique_keys. by intros ->. Qed.

Lemma unique_keys_sublist {E} (deref : E → CRDTChar) (l1 l2 : list E) :
  l1 `sublist_of` l2 → unique_keys deref l2 → unique_keys deref l1.
Proof.
  unfold unique_keys. intros Hsub Hnd.
  pose proof (fmap_sublist (key deref) _ _ Hsub) as Hf.
  by eapply sublist_NoDup.
Qed.

Lemma unique_keys_perm {E} (deref : E → CRDTChar) (l1 l2 : list E) :
  l1 ≡ₚ l2 → unique_keys deref l1 → unique_keys deref l2.
Proof. unfold unique_keys. by intros ->. Qed.

(** [remoteFormat] and [localFormat] leave the keys where they are. *)
Lemma remoteFormat_keys pos site patch chars :
  key id <$> remoteFormat pos site patch chars = key id <$> chars.
Proof.
  unfold remoteFormat.
  destruct (list_find _ chars) as [[idx c]|] eqn:Hfind; [|done].
  apply list_find_Some in Hfind as (Hc & _). by eapply keys_insert_same.
Qed.

Lemma localFormat_keys index patch chars :
  key id <$> (localFormat index patch chars).2 = key id <$> chars.
Proof.
  unfold localFormat.
  destruct (chars !!? index) as [c|] eqn:Hc; [|done].
  apply lookupZ_Some in Hc as [_ Hc]. by eapply keys_insert_same.
Qed.

(** On an array without duplicate keys [remoteFormat] reformats every
    element with the key, there being at most one. *)
Lemma remoteFormat_map pos site patch chars :
  unique_keys id chars →
  remoteFormat pos site patch chars
  = (λ c, if decide (key id c = (pos, site)) then formatted patch c else c)
      <$> chars.
Proof.
  intros Hnd. unfold remoteFormat.
  destruct (list_find _ chars) as [[idx c]|] eqn:Hfind.
  - apply list_find_Some in Hfind as (Hc & Hk%addresses_key & _).
    apply list_eq. intros j. rewrite list_lookup_fmap.
    destruct (decide (j = idx)) as [->|Hne].
    + rewrite list_lookup_insert_eq by (by eapply lookup_lt_Some).
      rewrite Hc. simpl. by rewrite decide_True.
    + rewrite list_lookup_insert_ne by done.
      destruct (chars !! j) as [c'|] eqn:Hj; [|done]. simpl.
      rewrite decide_False; [done|]. intros Hk'. destruct Hne.
      eapply (unique_keys_lookup_inj id); eauto. congruence.
  - apply list_find_None in Hfind. symmetry. etrans; [|apply list_fmap_id].
    apply list_fmap_ext. intros j c Hj. rewrite decide_False; [done|].
    rewrite Forall_forall in Hfind. intros Hk%addresses_key.
    apply (Hfind c); [|done]. by eapply list_elem_of_lookup_2.
Qed.

(** Sorting *)
Section Sorting.
Context {E : Type} (deref : E → CRDTChar).

#[local] Abbreviation sorted := (sorted deref).
#[local] Abbreviation char_le := (char_le deref).

Lemma sort_insert_perm a l : sort_insert deref a l ≡ₚ a :: l.
Proof.
  induction l as [|b l IH]; simpl; [done|].
  case_match; [|done]. rewrite IH. apply Permutation_swap.
Qed.

Lemma sort_insert_sorted a l : sorted l → sorted (sort_insert deref a l).
Proof.
  induction 1 as [|b l Hs IH Hb]; simpl; [by repeat constructor|].
  destruct (Z.gtb_spec (comparePositions deref a b) 0) as [Hgt|Hle].
  - constructor; [done|]. rewrite sort_insert_perm. constructor; [|done].
    unfold char_le. rewrite comparePositions_keys in *.
    rewrite (compareKeys_antisym (key deref a) (key deref b)). lia.
  - constructor; [by constructor|]. constructor; [done|].
    eapply Forall_impl; [done|]. intros c Hc.
    by eapply char_le_trans.
Qed.

Lemma sortChars_perm l : sortChars deref l ≡ₚ l.
Proof.
  induction l as [|a l IH]; simpl; [done|].
  by rewrite sort_insert_perm, IH.
Qed.

Lemma sortChars_sorted l : sorted (sortChars deref l).
Proof.
  induction l as [|a l IH]; simpl; [constructor|].
  by apply sort_insert_sorted.
Qed.

(** Sorting a sorted array changes nothing. *)
Lemma sortChars_id l : sorted l → sortChars deref l = l.
Proof.
  induction 1 as [|a l Hs IH Ha]; simpl; [done|]. rewrite IH.
  destruct Ha as [|b l Hab Ha]; simpl; [done|].
  destruct (Z.gtb_spec (comparePositions deref a b) 0); [|done].
  unfold char_le in Hab. lia.
Qed.
End Sorting.

Lemma loadState_perm l : loadState (Some l) ≡ₚ l.
Proof. unfold loadState. fold (state l). by rewrite state_id, sortChars_perm. Qed.

Lemma loadState_sorted newState : sorted id (loadState newState).
Proof. apply sortChars_sorted. Qed.

Lemma loadState_sorted_id l : sorted id l → loadState (Some l) = l.
Proof.
  intros Hs. unfold loadState. fold (state l). rewrite state_id.
  by apply sortChars_id.
Qed.

(** ** Every call keeps the array sorted *)

Lemma apply_sorted site chars o :
  sorted id chars → sorted id (applyOp site chars o).
Proof.
  intros Hs. destruct o; simpl.
  - by apply remoteInsert_sorted.
  - unfold localDelete. destruct (chars !!? index); [|done]. simpl.
    by apply remoteDelete_sorted.
  - unfold localBatchDelete. case_decide; [done|]. simpl.
    eapply StronglySorted_sublist; [apply splice_remove_sublist|done].
  - eapply sorted_same_keys; [|done]. by rewrite localFormat_keys.
  - by apply remoteInsert_sorted.
  - by apply remoteDelete_sorted.
  - rewrite batchRemoteDelete_filter. simpl. by apply StronglySorted_filter.
  - eapply sorted_same_keys; [|done]. by rewrite remoteFormat_keys.
  - apply loadState_sorted.
Qed.

Lemma apply_strictly_sorted site chars o :
  loads_unique o →
  strictly_sorted id chars → strictly_sorted id (applyOp site chars o).
Proof.
  intros Ho Hs. destruct o; simpl.
  - by apply remoteInsert_strictly_sorted.
  - unfold localDelete. destruct (chars !!? index); [|done]. simpl.
    by apply remoteDelete_strictly_sorted.
  - unfold localBatchDelete. case_decide; [done|]. simpl.
    eapply StronglySorted_sublist; [apply splice_remove_sublist|done].
  - apply strictly_sorted_iff in Hs as [Hs Hu]. apply strictly_sorted_iff. split.
    + eapply sorted_same_keys; [|done]. by rewrite localFormat_keys.
    + eapply unique_keys_same_keys; [|done]. by rewrite localFormat_keys.
  - by apply remoteInsert_strictly_sorted.
  - by apply remoteDelete_strictly_sorted.
  - rewrite batchRemoteDelete_filter. simpl. by apply StronglySorted_filter.
  - apply strictly_sorted_iff in Hs as [Hs Hu]. apply strictly_sorted_iff. split.
    + eapply sorted_same_keys; [|done]. by rewrite remoteFormat_keys.
    + eapply unique_keys_same_keys; [|done]. by rewrite remoteFormat_keys.
  - apply strictly_sorted_iff. split; [apply loadState_sorted|].
    destruct newState as [l|]; [|constructor].
    eapply unique_keys_perm; [|done]. by rewrite loadState_perm.
Qed.

Lemma reachable_sorted site chars : reachable site chars → sorted id chars.
Proof.
  induction 1 as [|chars o _ IH]; [constructor|]. by apply apply_sorted.
Qed.

(** The arrays the engine can hold are the sorted ones: [loadState] takes a
    sorted snapshot as it is. *)
Lemma reachable_iff_sorted site chars : reachable site chars ↔ sorted id chars.
Proof.
  split; [apply reachable_sorted|]. intros Hs.
  rewrite <-(loadState_sorted_id chars Hs).
  apply (reachable_apply site [] (OpLoadState (Some chars))), reachable_new.
Qed.

(** * The claims *)

(** ** C3: the sequence invariant *)

(** C3, as amended.  Every call of the interface, on a sorted array and
    with any argument, leaves the array sorted ascending in the canonical
    order; it leaves it free of duplicate keys when it was so and the
    snapshot given to [loadState], if any, is so. *)
Theorem sequence_invariant (site : string) (chars : list CRDTChar) (o : Op) :
  sorted id chars →
  sorted id (applyOp site chars o)
  ∧ (unique_keys id chars → loads_unique o →
     unique_keys id (applyOp site chars o)).
Proof.
  intros Hs. split; [by apply apply_sorted|]. intros Hu Ho.
  apply strictly_sorted_unique_keys, apply_strictly_sorted; [done|].
  by apply strictly_sorted_iff.
Qed.

Lemma sequence_invariant_witness :
  sorted id [elt "y" [5] "S1"; elt "x" [10] "S1"]
  ∧ unique_keys id [elt "y" [5] "S1"; elt "x" [10] "S1"]
  ∧ loads_unique (OpRemoteInsert (elt "z" [7] "S2"))
  ∧ sorted id (applyOp "S1" [elt "y" [5] "S1"; elt "x" [10] "S1"]
                 (OpRemoteInsert (elt "z" [7] "S2")))
  ∧ unique_keys id (applyOp "S1" [elt "y" [5] "S1"; elt "x" [10] "S1"]
                      (OpRemoteInsert (elt "z" [7] "S2"))).
Proof.
  assert (sorted id [elt "y" [5] "S1"; elt "x" [10] "S1"]) as Hs.
  { repeat constructor. by vm_compute. }
  assert (unique_keys id [elt "y" [5] "S1"; elt "x" [10] "S1"]) as Hu.
  { unfold unique_keys. apply (bool_decide_unpack _). by vm_compute. }
  assert (loads_unique (OpRemoteInsert (elt "z" [7] "S2"))) as Hl by exact I.
  split; [done|]. split; [done|]. split; [done|].
  destruct (sequence_invariant "S1" _ (OpRemoteInsert (elt "z" [7] "S2")) Hs)
    as [Hs' Hu'].
  split; [exact Hs'|exact (Hu' Hu Hl)].
Defined.

(** C3, as stated, fails: [loadState] sorts the snapshot it is given but
    keeps both of two elements that share a key. *)
Lemma loadState_keeps_duplicate_keys :
  applyOp "S1" [] (OpLoadState (Some [elt "a" [10] "S1"; elt "b" [10] "S1"]))
  = [elt "a" [10] "S1"; elt "b" [10] "S1"]
  ∧ ¬ unique_keys id
        (applyOp "S1" [] (OpLoadState (Some [elt "a" [10] "S1"; elt "b" [10] "S1"]))).
Proof.
  split; [by vm_compute|].
  replace (applyOp _ _ _) with [elt "a" [10] "S1"; elt "b" [10] "S1"]
    by (by vm_compute).
  unfold unique_keys. simpl. rewrite NoDup_cons. intros [Hnin _].
  apply Hnin. left.
Qed.

(** ** C4: [remoteInsert] *)

(** C4, for site identifiers of the application.  On every array the
    engine can hold, [remoteInsert] of an element twice is [remoteInsert]
    of it once; it changes nothing when the key is present; otherwise it
    puts the element at the index that has the smaller elements before it
    and the greater ones from it on, and returns that index.  (For two
    site identifiers that differ and that [String.prototype.localeCompare]
    compares equal the code takes the element for a duplicate; these are
    not identifiers of the application.) *)
Theorem remoteInsert_idempotent (site : string) (chars : list CRDTChar)
    (e : CRDTChar) :
  reachable site chars → app_sites id chars → appSite (siteId e) →
  (remoteInsert id e (remoteInsert id e chars).1).1 = (remoteInsert id e chars).1
  ∧ (has_key id (key id e) chars → remoteInsert id e chars = (chars, None))
  ∧ (¬ has_key id (key id e) chars →
     ∃ l : nat,
       (l ≤ length chars)%nat
       ∧ remoteInsert id e chars
         = (take l chars ++ e :: drop l chars, Some (Z.of_nat l))
       ∧ Forall (λ c, char_lt id c e) (take l chars)
       ∧ Forall (λ c, char_lt id e c) (drop l chars)).
Proof.
  intros Hs%reachable_sorted _ _. split_and!.
  - by apply remoteInsert_idem.
  - by apply remoteInsert_present.
  - intros Hk. by destruct (remoteInsert_sorted_spec id chars e Hs) as [[? _]|[_ ?]].
Qed.

Lemma remoteInsert_idempotent_witness :
  reachable "UID-1001"
    (applyOp "UID-1001" [] (OpRemoteInsert (elt "x" [10] "UID-1001")))
  ∧ app_sites id
      (applyOp "UID-1001" [] (OpRemoteInsert (elt "x" [10] "UID-1001")))
  ∧ appSite (siteId (elt "y" [5] "UID-1002"))
  ∧ (remoteInsert id (elt "y" [5] "UID-1002")
       (remoteInsert id (elt "y" [5] "UID-1002")
          (applyOp "UID-1001" []
             (OpRemoteInsert (elt "x" [10] "UID-1001")))).1).1
    = (remoteInsert id (elt "y" [5] "UID-1002")
         (applyOp "UID-1001" [] (OpRemoteInsert (elt "x" [10] "UID-1001")))).1.
Proof.
  assert (reachable "UID-1001"
            (applyOp "UID-1001" [] (OpRemoteInsert (elt "x" [10] "UID-1001"))))
    as Hr by (apply reachable_apply, reachable_new).
  assert (app_sites id
            (applyOp "UID-1001" [] (OpRemoteInsert (elt "x" [10] "UID-1001"))))
    as Ha by (apply (bool_decide_unpack _); by vm_compute).
  assert (appSite (siteId (elt "y" [5] "UID-1002"))) as He
    by (apply (bool_decide_unpack _); by vm_compute).
  split; [done|]. split; [done|]. split; [done|].
  exact (proj1 (remoteInsert_idempotent "UID-1001" _ (elt "y" [5] "UID-1002")
                  Hr Ha He)).
Defined.

(** What [remoteInsert] decides on is the comparison, not the key: on a
    sorted array it ignores an element as soon as the array holds one that
    [comparePositions] compares equal to it. *)
Lemma remoteInsert_on_equal_comparison (chars : list CRDTChar)
    (c e : CRDTChar) :
  sorted id chars → c ∈ chars → comparePositions id c e = 0 →
  remoteInsert id e chars = (chars, None).
Proof.
  intros Hs Hc H0. apply remoteInsert_present; [done|].
  exists c. split; [done|]. by apply (comparePositions_eq id).
Qed.

(** ** C5: [remoteDelete] *)

Lemma has_key_filter_ne (chars : list CRDTChar) k k' :
  k ≠ k' →
  has_key id k (filter (λ c, key id c ≠ k') chars) ↔ has_key id k chars.
Proof.
  intros Hne. unfold has_key. split.
  - intros (c & [_ Hin]%list_elem_of_filter & Hk). eauto.
  - intros (c & Hin & Hk). exists c. split; [|done].
    apply list_elem_of_filter. split; [congruence|done].
Qed.

Lemma remoteDelete_remoteInsert_comm chars pos site e :
  strictly_sorted id chars → key id e ≠ (pos, site) →
  (remoteInsert id e (remoteDelete id pos site chars).1).1
  = (remoteDelete id pos site (remoteInsert id e chars).1).1.
Proof.
  intros Hss Hne.
  pose proof (strictly_sorted_sorted _ _ Hss) as Hs.
  pose proof (strictly_sorted_unique_keys _ _ Hss) as Hu.
  pose proof (remoteInsert_strictly_sorted id chars e Hss) as Hss'.
  rewrite (remoteDelete_filter id chars) by done.
  rewrite (remoteDelete_filter id (remoteInsert id e chars).1)
    by by apply strictly_sorted_unique_keys.
  assert (strictly_sorted id (filter (λ c, key id c ≠ (pos, site)) chars)) as Hf.
  { by apply StronglySorted_filter. }
  apply (strictly_sorted_perm_eq id).
  - by apply remoteInsert_strictly_sorted.
  - by apply StronglySorted_filter.
  - destruct (remoteInsert_sorted_spec id chars e Hs) as [[Hk _]|[Hk _]].
    + rewrite (remoteInsert_present id chars e) by done. simpl.
      rewrite remoteInsert_present; [done|by apply strictly_sorted_sorted|].
      by apply has_key_filter_ne.
    + rewrite remoteInsert_perm;
        [|by apply strictly_sorted_sorted|by rewrite has_key_filter_ne].
      rewrite (remoteInsert_perm id chars e) by done.
      rewrite filter_cons, decide_True by done. done.
Qed.

(** C5, as amended, for site identifiers of the application.  On any
    array: [remoteDelete] of an absent key returns [-1] and changes
    nothing, and of a present key removes one element with that key and
    returns its index.  On an array without duplicate keys it is
    idempotent and commutes with every [remoteDelete], and, the array
    being sorted, with [remoteInsert] of another key. *)
Theorem remoteDelete_absent_present (chars : list CRDTChar) (pos : list Z)
    (site : string) :
  app_sites id chars → appSite site →
  (¬ has_key id (pos, site) chars →
   remoteDelete id pos site chars = (chars, -1))
  ∧ (has_key id (pos, site) chars →
     ∃ (i : nat) c,
       chars !! i = Some c ∧ key id c = (pos, site)
       ∧ remoteDelete id pos site chars = (delete i chars, Z.of_nat i))
  ∧ (unique_keys id chars →
     (remoteDelete id pos site (remoteDelete id pos site chars).1).1
     = (remoteDelete id pos site chars).1
     ∧ (∀ pos' site', appSite site' →
          (remoteDelete id pos' site' (remoteDelete id pos site chars).1).1
          = (remoteDelete id pos site (remoteDelete id pos' site' chars).1).1)
     ∧ (sorted id chars → ∀ e, appSite (siteId e) → key id e ≠ (pos, site) →
        (remoteInsert id e (remoteDelete id pos site chars).1).1
        = (remoteDelete id pos site (remoteInsert id e chars).1).1)).
Proof.
  intros _ _. split_and!.
  - intros Hk. destruct (remoteDelete_spec id chars pos site)
      as [[_ ?]|(i & c & Hi & Hc & _)]; [done|].
    destruct Hk. exists c. split; [by eapply list_elem_of_lookup_2|done].
  - intros Hk. by destruct (remoteDelete_spec id chars pos site) as [[? _]|?].
  - intros Hu. split_and!.
    + rewrite !(remoteDelete_filter id) by
        (try rewrite (remoteDelete_filter id) by done;
         try apply unique_keys_filter; done).
      by rewrite list_filter_filter, (filter_equiv _ (λ c, key id c ≠ (pos, site)))
        by (intros; tauto).
    + intros pos' site' _.
      rewrite !(remoteDelete_filter id) by
        (try rewrite (remoteDelete_filter id) by done;
         try apply unique_keys_filter; done).
      rewrite !list_filter_filter. apply filter_equiv. intros; tauto.
    + intros Hs e _ Hne. apply remoteDelete_remoteInsert_comm; [|done].
      by apply strictly_sorted_iff.
Qed.

Lemma remoteDelete_absent_present_witness :
  app_sites id [elt "y" [5] "UID-1001"; elt "x" [10] "UID-1001"]
  ∧ appSite "UID-1001"
  ∧ unique_keys id [elt "y" [5] "UID-1001"; elt "x" [10] "UID-1001"]
  ∧ sorted id [elt "y" [5] "UID-1001"; elt "x" [10] "UID-1001"]
  ∧ appSite (siteId (elt "z" [7] "UID-1002"))
  ∧ key id (elt "z" [7] "UID-1002") ≠ ([10], "UID-1001")
  ∧ (remoteDelete id [10] "UID-1001"
       (remoteDelete id [10] "UID-1001"
          [elt "y" [5] "UID-1001"; elt "x" [10] "UID-1001"]).1).1
    = (remoteDelete id [10] "UID-1001"
         [elt "y" [5] "UID-1001"; elt "x" [10] "UID-1001"]).1
  ∧ (remoteInsert id (elt "z" [7] "UID-1002")
       (remoteDelete id [10] "UID-1001"
          [elt "y" [5] "UID-1001"; elt "x" [10] "UID-1001"]).1).1
    = (remoteDelete id [10] "UID-1001"
         (remoteInsert id (elt "z" [7] "UID-1002")
            [elt "y" [5] "UID-1001"; elt "x" [10] "UID-1001"]).1).1.
Proof.
  assert (app_sites id [elt "y" [5] "UID-1001"; elt "x" [10] "UID-1001"]) as Ha
    by (apply (bool_decide_unpack _); by vm_compute).
  assert (appSite "UID-1001") as Hsite
    by (apply (bool_decide_unpack _); by vm_compute).
  assert (unique_keys id [elt "y" [5] "UID-1001"; elt "x" [10] "UID-1001"]) as Hu.
  { unfold unique_keys. apply (bool_decide_unpack _). by vm_compute. }
  assert (sorted id [elt "y" [5] "UID-1001"; elt "x" [10] "UID-1001"]) as Hs.
  { repeat constructor. by vm_compute. }
  assert (appSite (siteId (elt "z" [7] "UID-1002"))) as He
    by (apply (bool_decide_unpack _); by vm_compute).
  assert (key id (elt "z" [7] "UID-1002") ≠ ([10], "UID-1001")) as Hne
    by discriminate.
  split; [done|]. split; [done|]. split; [done|]. split; [done|].
  split; [done|]. split; [done|].
  destruct (proj2 (proj2 (remoteDelete_absent_present
                            [elt "y" [5] "UID-1001"; elt "x" [10] "UID-1001"]
                            [10] "UID-1001" Ha Hsite)) Hu)
    as (Hidem & _ & Hcomm).
  split; [exact Hidem|exact (Hcomm Hs _ He Hne)].
Defined.

(** C5, as stated, fails on an array the engine can hold: after
    [loadState] of a snapshot with two elements of one key, a second
    [remoteDelete] of the key removes a second element. *)
Lemma remoteDelete_twice_on_duplicate_keys :
  reachable "UID-1001"
    (applyOp "UID-1001" [] (OpLoadState (Some [elt "a" [10] "UID-1001"; elt "b" [10] "UID-1001"])))
  ∧ (remoteDelete id [10] "UID-1001"
       (remoteDelete id [10] "UID-1001"
          (applyOp "UID-1001" []
             (OpLoadState (Some [elt "a" [10] "UID-1001"; elt "b" [10] "UID-1001"])))).1).1
    ≠ (remoteDelete id [10] "UID-1001"
         (applyOp "UID-1001" []
            (OpLoadState (Some [elt "a" [10] "UID-1001"; elt "b" [10] "UID-1001"])))).1.
Proof.
  split; [apply reachable_apply, reachable_new|]. by vm_compute.
Qed.

(** ** C6: [batchRemoteDelete] *)

Lemma deleteEach_filter ops chars :
  unique_keys id chars →
  deleteEach ops chars = filter (λ c, key id c ∉ ops) chars.
Proof.
  unfold deleteEach. revert chars.
  induction ops as [|[pos site] ops IH]; intros chars Hu; simpl.
  - symmetry. apply filter_all, Forall_forall. intros c _ Hin. by inv Hin.
  - rewrite (remoteDelete_filter id) by done.
    rewrite IH by by apply unique_keys_filter.
    rewrite list_filter_filter. apply filter_equiv. intros c _.
    rewrite not_elem_of_cons. tauto.
Qed.

(** C6, as amended.  On an array without duplicate keys, the sites of
    the elements and of the descriptors being identifiers of the
    application, [batchRemoteDelete] leaves the array that one
    [remoteDelete] per descriptor leaves, and returns the number of
    elements removed.  On any array, descriptors that address only absent
    keys remove nothing and the call returns 0. *)
Theorem batchRemoteDelete_deleteEach (ops : list (list Z * string))
    (chars : list CRDTChar) :
  (app_sites id chars → Forall (λ d, appSite d.2) ops →
   unique_keys id chars →
   batchRemoteDelete id ops chars
   = (deleteEach ops chars,
      Z.of_nat (length chars) - Z.of_nat (length (deleteEach ops chars))))
  ∧ ((∀ d, d ∈ ops → ¬ has_key id d chars) →
     batchRemoteDelete id ops chars = (chars, 0)).
Proof.
  rewrite batchRemoteDelete_filter. split.
  - intros _ _ Hu. by rewrite deleteEach_filter.
  - intros Habs. rewrite filter_all; [f_equal; lia|].
    apply Forall_forall. intros c Hin Hk. apply (Habs _ Hk). by exists c.
Qed.

Lemma batchRemoteDelete_deleteEach_witness :
  app_sites id [elt "y" [5] "UID-1001"; elt "x" [10] "UID-1001";
                elt "z" [10] "UID-1002"]
  ∧ Forall (λ d : list Z * string, appSite d.2)
      [([10], "UID-1001"); ([7], "UID-1001"); ([5], "UID-1001")]
  ∧ unique_keys id [elt "y" [5] "UID-1001"; elt "x" [10] "UID-1001";
                    elt "z" [10] "UID-1002"]
  ∧ (∀ d, d ∈ [([7], "UID-1001"); ([10], "UID-1003")] →
          ¬ has_key id d [elt "y" [5] "UID-1001"; elt "x" [10] "UID-1001";
                          elt "z" [10] "UID-1002"])
  ∧ batchRemoteDelete id [([10], "UID-1001"); ([7], "UID-1001"); ([5], "UID-1001")]
      [elt "y" [5] "UID-1001"; elt "x" [10] "UID-1001"; elt "z" [10] "UID-1002"]
    = (deleteEach [([10], "UID-1001"); ([7], "UID-1001"); ([5], "UID-1001")]
         [elt "y" [5] "UID-1001"; elt "x" [10] "UID-1001";
          elt "z" [10] "UID-1002"],
       Z.of_nat (length [elt "y" [5] "UID-1001"; elt "x" [10] "UID-1001";
                         elt "z" [10] "UID-1002"])
       - Z.of_nat (length
           (deleteEach [([10], "UID-1001"); ([7], "UID-1001"); ([5], "UID-1001")]
              [elt "y" [5] "UID-1001"; elt "x" [10] "UID-1001";
               elt "z" [10] "UID-1002"])))
  ∧ batchRemoteDelete id [([7], "UID-1001"); ([10], "UID-1003")]
      [elt "y" [5] "UID-1001"; elt "x" [10] "UID-1001"; elt "z" [10] "UID-1002"]
    = ([elt "y" [5] "UID-1001"; elt "x" [10] "UID-1001";
        elt "z" [10] "UID-1002"], 0).
Proof.
  assert (app_sites id [elt "y" [5] "UID-1001"; elt "x" [10] "UID-1001";
                        elt "z" [10] "UID-1002"]) as Ha
    by (apply (bool_decide_unpack _); by vm_compute).
  assert (Forall (λ d : list Z * string, appSite d.2)
            [([10], "UID-1001"); ([7], "UID-1001"); ([5], "UID-1001")]) as Hd
    by (apply (bool_decide_unpack _); by vm_compute).
  assert (unique_keys id [elt "y" [5] "UID-1001"; elt "x" [10] "UID-1001";
                          elt "z" [10] "UID-1002"])
    as Hu.
  { unfold unique_keys. apply (bool_decide_unpack _). by vm_compute. }
  assert (∀ d, d ∈ [([7], "UID-1001"); ([10], "UID-1003")] →
          ¬ has_key id d [elt "y" [5] "UID-1001"; elt "x" [10] "UID-1001";
                          elt "z" [10] "UID-1002"])
    as Habs.
  { intros d Hd' (c & Hc & Hk).
    rewrite !elem_of_cons, elem_of_nil in Hd'.
    rewrite !elem_of_cons, elem_of_nil in Hc.
    destruct Hd' as [->|[->|[]]]; destruct Hc as [->|[->|[->|[]]]]; discriminate. }
  split; [done|]. split; [done|]. split; [done|]. split; [done|].
  split.
  - exact (proj1 (batchRemoteDelete_deleteEach _ _) Ha Hd Hu).
  - exact (proj2 (batchRemoteDelete_deleteEach _ _) Habs).
Defined.

(** C6, as stated, fails on an array the engine can hold: with two
    elements of one key, one descriptor makes [batchRemoteDelete] remove
    both and [remoteDelete] remove one. *)
Lemma batchRemoteDelete_on_duplicate_keys :
  reachable "UID-1001"
    (applyOp "UID-1001" [] (OpLoadState (Some [elt "a" [10] "UID-1001"; elt "b" [10] "UID-1001"])))
  ∧ batchRemoteDelete id [([10], "UID-1001")]
      (applyOp "UID-1001" [] (OpLoadState (Some [elt "a" [10] "UID-1001"; elt "b" [10] "UID-1001"])))
    = ([], 2)
  ∧ deleteEach [([10], "UID-1001")]
      (applyOp "UID-1001" [] (OpLoadState (Some [elt "a" [10] "UID-1001"; elt "b" [10] "UID-1001"])))
    = [elt "b" [10] "UID-1001"].
Proof.
  split; [apply reachable_apply, reachable_new|]. split; by vm_compute.
Qed.

(** ** C8: [loadState] *)

(** C8, as amended.  On every array the engine can hold,
    [loadState(engine.state)] gives the array back, hence the same text
    and attributes.  For any snapshot, [loadState] leaves the elements of
    the snapshot, sorted in the canonical order.  For a snapshot without
    duplicate keys, of elements from sites of the application, the
    result, hence the text, does not depend on the order of the
    snapshot. *)
Theorem loadState_round_trip (site : string)
    (chars snapshot snapshot' : list CRDTChar) :
  (reachable site chars →
   loadState (Some (state chars)) = chars
   ∧ text id (loadState (Some (state chars))) = text id chars)
  ∧ (loadState (Some snapshot) ≡ₚ snapshot
     ∧ sorted id (loadState (Some snapshot)))
  ∧ (app_sites id snapshot → unique_keys id snapshot →
     snapshot ≡ₚ snapshot' →
     loadState (Some snapshot) = loadState (Some snapshot')
     ∧ text id (loadState (Some snapshot))
       = text id (loadState (Some snapshot'))).
Proof.
  split_and!.
  - intros Hs%reachable_sorted. rewrite state_id.
    by rewrite loadState_sorted_id.
  - apply loadState_perm.
  - apply loadState_sorted.
  - intros _ Hu Hp.
    assert (loadState (Some snapshot) = loadState (Some snapshot')) as ->; [|done].
    apply (strictly_sorted_perm_eq id).
    + apply strictly_sorted_iff. split; [apply loadState_sorted|].
      eapply unique_keys_perm; [|done]. by rewrite loadState_perm.
    + apply strictly_sorted_iff. split; [apply loadState_sorted|].
      eapply unique_keys_perm; [|done]. by rewrite loadState_perm.
    + by rewrite !loadState_perm.
Qed.

Lemma loadState_round_trip_witness :
  reachable "UID-1001"
    (applyOp "UID-1001" [] (OpRemoteInsert (elt "x" [10] "UID-1001")))
  ∧ app_sites id [elt "x" [10] "UID-1001"; elt "y" [5] "UID-1001"]
  ∧ unique_keys id [elt "x" [10] "UID-1001"; elt "y" [5] "UID-1001"]
  ∧ [elt "x" [10] "UID-1001"; elt "y" [5] "UID-1001"]
    ≡ₚ [elt "y" [5] "UID-1001"; elt "x" [10] "UID-1001"]
  ∧ loadState (Some (state (applyOp "UID-1001" []
                              (OpRemoteInsert (elt "x" [10] "UID-1001")))))
    = applyOp "UID-1001" [] (OpRemoteInsert (elt "x" [10] "UID-1001"))
  ∧ loadState (Some [elt "x" [10] "UID-1001"; elt "y" [5] "UID-1001"])
    = loadState (Some [elt "y" [5] "UID-1001"; elt "x" [10] "UID-1001"]).
Proof.
  assert (reachable "UID-1001"
            (applyOp "UID-1001" [] (OpRemoteInsert (elt "x" [10] "UID-1001"))))
    as Hr by (apply reachable_apply, reachable_new).
  assert (app_sites id [elt "x" [10] "UID-1001"; elt "y" [5] "UID-1001"]) as Ha
    by (apply (bool_decide_unpack _); by vm_compute).
  assert (unique_keys id [elt "x" [10] "UID-1001"; elt "y" [5] "UID-1001"]) as Hu.
  { unfold unique_keys. apply (bool_decide_unpack _). by vm_compute. }
  assert ([elt "x" [10] "UID-1001"; elt "y" [5] "UID-1001"]
          ≡ₚ [elt "y" [5] "UID-1001"; elt "x" [10] "UID-1001"]) as Hp.
  { apply Permutation_swap. }
  split; [done|]. split; [done|]. split; [done|]. split; [done|]. split.
  - exact (proj1 (proj1 (loadState_round_trip "UID-1001" _ [] []) Hr)).
  - exact (proj1 (proj2 (proj2 (loadState_round_trip "UID-1001" [] _ _))
                    Ha Hu Hp)).
Defined.

(** C8, as stated, fails: two snapshots with the same elements in a
    different order, two of them sharing a key, load to different
    texts. *)
Lemma loadState_order_of_duplicate_keys :
  [elt "a" [10] "UID-1001"; elt "b" [10] "UID-1001"] ≡ₚ [elt "b" [10] "UID-1001"; elt "a" [10] "UID-1001"]
  ∧ text id (loadState (Some [elt "a" [10] "UID-1001"; elt "b" [10] "UID-1001"])) = "ab"
  ∧ text id (loadState (Some [elt "b" [10] "UID-1001"; elt "a" [10] "UID-1001"])) = "ba".
Proof. split; [apply Permutation_swap|]. split; by vm_compute. Qed.

(** ** C9: [localInsert] out of range *)

(** C9, as amended.  [localInsert] does not clamp its index: for every
    index below 0 or above the length both neighbours are missing, the
    identifier is allocated between the sentinels [0] and [100], which
    gives [50], and the new element is returned and handed to
    [remoteInsert], which puts it at its place in the order or ignores
    it. *)
Theorem localInsert_out_of_range (site : string) (chars : list CRDTChar)
    (index : Z) (val : string) (attrs : option CRDTAttributes) :
  index < 0 ∨ Z.of_nat (length chars) < index →
  localInsert site index val attrs chars
  = (mkChar val [50] site attrs,
     (remoteInsert id (mkChar val [50] site attrs) chars).1).
Proof.
  intros Hout. unfold localInsert.
  assert (chars !!? (index - 1) = None) as -> by (apply lookupZ_None; lia).
  assert (chars !!? index = None) as -> by (apply lookupZ_None; lia).
  simpl. rewrite copyAttrs_id.
  replace (generateIdentifierBetween [0] [100]) with [50] by (by vm_compute).
  done.
Qed.

Lemma localInsert_out_of_range_witness :
  (-1 < 0 ∨ Z.of_nat (length [elt "x" [50] "S2"]) < -1)
  ∧ localInsert "S1" (-1) "v" None [elt "x" [50] "S2"]
    = (mkChar "v" [50] "S1" None,
       (remoteInsert id (mkChar "v" [50] "S1" None) [elt "x" [50] "S2"]).1).
Proof.
  assert (-1 < 0 ∨ Z.of_nat (length [elt "x" [50] "S2"]) < -1) as H by (left; lia).
  split; [done|].
  exact (localInsert_out_of_range "S1" [elt "x" [50] "S2"] (-1) "v" None H).
Defined.

(** C9, as stated, fails: below 0 the element is not allocated as at 0,
    and above the length it is not allocated, nor placed, as at the
    length. *)
Lemma localInsert_not_clamped :
  localInsert "S1" (-1) "v" None [elt "x" [50] "S2"]
  = (elt "v" [50] "S1", [elt "v" [50] "S1"; elt "x" [50] "S2"])
  ∧ localInsert "S1" 0 "v" None [elt "x" [50] "S2"]
    = (elt "v" [25] "S1", [elt "v" [25] "S1"; elt "x" [50] "S2"])
  ∧ localInsert "S1" 2 "v" None [elt "x" [50] "S2"]
    = (elt "v" [50] "S1", [elt "v" [50] "S1"; elt "x" [50] "S2"])
  ∧ localInsert "S1" 1 "v" None [elt "x" [50] "S2"]
    = (elt "v" [75] "S1", [elt "x" [50] "S2"; elt "v" [75] "S1"]).
Proof. split_and!; by vm_compute. Qed.

(** ** C10: the frame of formatting *)

(** C10.  [localFormat] and [remoteFormat] keep the length of the array
    and change the element at one index at most, the addressed one; of
    that element the value, the identifier and the site are kept, and so
    is every attribute the patch does not have. *)
Theorem format_frame (chars : list CRDTChar) (patch : CRDTAttributes) :
  (∀ index,
     length (localFormat index patch chars).2 = length chars
     ∧ ∀ j : nat,
         (Z.of_nat j ≠ index →
          (localFormat index patch chars).2 !! j = chars !! j)
         ∧ ∀ c, chars !! j = Some c →
             ∃ c', (localFormat index patch chars).2 !! j = Some c'
                   ∧ reformatted patch c c')
  ∧ (∀ pos site,
       length (remoteFormat pos site patch chars) = length chars
       ∧ ∃ idx : nat, ∀ j : nat,
           (j ≠ idx → remoteFormat pos site patch chars !! j = chars !! j)
           ∧ ∀ c, chars !! j = Some c →
               ∃ c', remoteFormat pos site patch chars !! j = Some c'
                     ∧ reformatted patch c c'
                     ∧ (c' ≠ c → key id c = (pos, site))).
Proof.
  split.
  - intros index. unfold localFormat.
    destruct (chars !!? index) as [c0|] eqn:Hc0; simpl.
    + apply lookupZ_Some in Hc0 as [Hidx Hc0].
      split; [by rewrite length_insert|]. intros j. split.
      * intros Hj. apply list_lookup_insert_ne. lia.
      * intros c Hc. destruct (decide (j = Z.to_nat index)) as [->|Hne].
        -- rewrite list_lookup_insert_eq by (by eapply lookup_lt_Some).
           exists (formatted patch c0). split; [done|].
           assert (c = c0) as -> by congruence. apply formatted_reformatted.
        -- rewrite list_lookup_insert_ne by done. exists c.
           split; [done|apply reformatted_refl].
    + split; [done|]. intros j. split; [done|].
      intros c Hc. exists c. split; [done|apply reformatted_refl].
  - intros pos site. unfold remoteFormat.
    destruct (list_find _ chars) as [[idx c0]|] eqn:Hfind.
    + apply list_find_Some in Hfind as (Hc0 & Hk%addresses_key & _).
      split; [by rewrite length_insert|]. exists idx. intros j. split.
      * intros Hj. by apply list_lookup_insert_ne.
      * intros c Hc. destruct (decide (j = idx)) as [->|Hne].
        -- rewrite list_lookup_insert_eq by (by eapply lookup_lt_Some).
           exists (formatted patch c0). assert (c = c0) as -> by congruence.
           split; [done|]. split; [apply formatted_reformatted|done].
        -- rewrite list_lookup_insert_ne by done. exists c.
           split; [done|]. split; [apply reformatted_refl|done].
    + split; [done|]. exists 0%nat. intros j. split; [done|].
      intros c Hc. exists c. split; [done|]. split; [apply reformatted_refl|done].
Qed.

Lemma format_frame_witness :
  Z.of_nat 1 ≠ 0
  ∧ (localFormat 0 (mkAttrs (Some true) None None None None)
       [elt "x" [10] "S1"; elt "y" [20] "S1"]).2 !! 1%nat
    = [elt "x" [10] "S1"; elt "y" [20] "S1"] !! 1%nat.
Proof.
  assert (Z.of_nat 1 ≠ 0) as H by lia.
  split; [done|].
  exact (proj1 (proj2 (proj1 (format_frame [elt "x" [10] "S1"; elt "y" [20] "S1"]
                                (mkAttrs (Some true) None None None None)) 0)
                      1%nat) H).
Defined.

(** ** C1: convergence *)

Lemma formattedBy_snoc ops op c :
  formattedBy (ops ++ [op]) c = formatBy (formattedBy ops c) op.
Proof. unfold formattedBy. by rewrite foldl_app. Qed.

Lemma key_formatBy c op : key_of (formatBy c op) = key_of c.
Proof. destruct op; simpl; try done. by case_decide. Qed.

Lemma key_formattedBy ops c : key_of (formattedBy ops c) = key_of c.
Proof.
  induction ops as [|op ops IH] using rev_ind; [done|].
  by rewrite formattedBy_snoc, key_formatBy.
Qed.

Lemma formatBy_untouched c op : target op ≠ Some (key_of c) → formatBy c op = c.
Proof.
  destruct op; simpl; try done. intros Hne.
  rewrite decide_False; [done|]. congruence.
Qed.

Lemma formattedBy_untouched ops c :
  (∀ op, op ∈ ops → target op ≠ Some (key_of c)) → formattedBy ops c = c.
Proof.
  induction ops as [|op ops IH] using rev_ind; [done|]. intros Hne.
  rewrite formattedBy_snoc, IH.
  - apply formatBy_untouched, Hne, elem_of_app. right. left.
  - intros op' Hin. apply Hne, elem_of_app. by left.
Qed.

Lemma inserts_first_snoc ops op :
  inserts_first (ops ++ [op]) →
  inserts_first ops
  ∧ ∀ c, op = MsgInsert c → ∀ op', op' ∈ ops → target op' ≠ Some (key_of c).
Proof.
  intros Hfirst. split.
  - intros before after c Hops op' Hin.
    apply (Hfirst before (after ++ [op]) c); [|done].
    by rewrite Hops, <-app_assoc.
  - intros c -> op' Hin. apply (Hfirst ops [] c); done.
Qed.

Lemma inserts_functional_snoc ops op :
  inserts_functional (ops ++ [op]) → inserts_functional ops.
Proof.
  intros Hf c1 c2 H1 H2. apply Hf; apply elem_of_app; by left.
Qed.

Lemma strictly_sorted_NoDup (chars : list CRDTChar) :
  strictly_sorted id chars → NoDup chars.
Proof.
  intros Hu%strictly_sorted_unique_keys. unfold unique_keys in Hu.
  by apply NoDup_fmap_1 in Hu.
Qed.

Lemma remoteInsert_elem_of (chars : list CRDTChar) c x :
  sorted id chars →
  x ∈ (remoteInsert id c chars).1
  ↔ x ∈ chars ∨ (x = c ∧ ¬ has_key id (key_of c) chars).
Proof.
  intros Hs. destruct (remoteInsert_sorted_spec id chars c Hs) as [[Hk ->]|[Hk _]].
  - simpl. split; [by left|]. by intros [?|[_ ?]].
  - rewrite remoteInsert_perm by done. rewrite elem_of_cons. split.
    + intros [->|?]; [by right|by left].
    + intros [?|[-> _]]; [by right|by left].
Qed.

Lemma remoteDelete_elem_of (chars : list CRDTChar) pos site x :
  unique_keys id chars →
  x ∈ (remoteDelete id pos site chars).1 ↔ x ∈ chars ∧ key_of x ≠ (pos, site).
Proof.
  intros Hu. rewrite (remoteDelete_filter id) by done.
  rewrite list_elem_of_filter. tauto.
Qed.

Lemma remoteFormat_elem_of (chars : list CRDTChar) pos site attrs x :
  unique_keys id chars →
  x ∈ remoteFormat pos site attrs chars
  ↔ ∃ y, y ∈ chars ∧ x = formatBy y (MsgFormat pos site attrs).
Proof.
  intros Hu. rewrite remoteFormat_map by done. rewrite list_elem_of_fmap.
  split; intros (y & ? & ?); exists y; by split.
Qed.

Lemma receive_strictly_sorted chars op :
  strictly_sorted id chars → strictly_sorted id (receive chars op).
Proof.
  intros Hs. destruct op; simpl.
  - by apply remoteInsert_strictly_sorted.
  - by apply remoteDelete_strictly_sorted.
  - apply strictly_sorted_iff in Hs as [Hs Hu]. apply strictly_sorted_iff. split.
    + eapply sorted_same_keys; [|done]. by rewrite remoteFormat_keys.
    + eapply unique_keys_same_keys; [|done]. by rewrite remoteFormat_keys.
Qed.

Lemma receiveAll_snoc chars ops op :
  receiveAll chars (ops ++ [op]) = receive (receiveAll chars ops) op.
Proof. unfold receiveAll. by rewrite foldl_app. Qed.

(** What a delivery order leaves: the survivors. *)
Lemma receiveAll_survivors chars ops :
  strictly_sorted id chars → inserts_functional ops → inserts_first ops →
  strictly_sorted id (receiveAll chars ops)
  ∧ ∀ x, x ∈ receiveAll chars ops ↔ survivor ops chars x.
Proof.
  intros Hchars. induction ops as [|op ops IH] using rev_ind; intros Hfun Hfirst.
  { split; [done|]. intros x. simpl. split.
    - intros Hx. exists x. split_and!; [by left| |done]. by intros ?%elem_of_nil.
    - intros (c0 & [?|[?%elem_of_nil _]] & _ & ->); done. }
  apply inserts_first_snoc in Hfirst as [Hfirst Hop].
  destruct (IH (inserts_functional_snoc _ _ Hfun) Hfirst) as [Hss Hmem].
  rewrite receiveAll_snoc. split; [by apply receive_strictly_sorted|].
  pose proof (strictly_sorted_sorted _ _ Hss) as Hs.
  pose proof (strictly_sorted_unique_keys _ _ Hss) as Hu.
  intros x. destruct op as [c|pos site|pos site attrs]; simpl.
  - (* insert *)
    specialize (Hop c eq_refl).
    assert (formattedBy ops c = c) as Hfc by by apply formattedBy_untouched.
    assert (MsgDelete (position c) (siteId c) ∉ ops) as Hnd.
    { intros Hin. by apply (Hop _ Hin). }
    rewrite remoteInsert_elem_of by done. rewrite Hmem. split.
    + intros [(c0 & Horig & Hdel & ->)|[-> Hk]].
      * exists c0. split_and!.
        -- destruct Horig as [?|[? ?]]; [by left|right].
           split; [|done]. apply elem_of_app. by left.
        -- rewrite elem_of_app, list_elem_of_singleton. intros [?|?]; done.
        -- by rewrite formattedBy_snoc.
      * exists c. split_and!.
        -- right. split; [apply elem_of_app; right; left|].
           intros (s0 & Hs0 & Hks0). apply Hk.
           exists (formattedBy ops s0). split.
           ++ apply Hmem. exists s0. split_and!; [by left| |done].
              intros Hin. apply (Hop _ Hin). simpl.
              unfold key in Hks0. simpl in Hks0. by rewrite <-Hks0.
           ++ unfold key. simpl. by rewrite key_formattedBy.
        -- rewrite elem_of_app, list_elem_of_singleton. intros [?|?]; done.
        -- by rewrite formattedBy_snoc, Hfc.
    + intros (c0 & Horig & Hdel & ->). rewrite formattedBy_snoc. simpl.
      rewrite elem_of_app in Hdel.
      destruct Horig as [Hin|[Hin Hk0]].
      * left. exists c0. split_and!; [by left|tauto|done].
      * apply elem_of_app in Hin as [Hin|Hin%list_elem_of_singleton].
        -- left. exists c0. split_and!; [by right|tauto|done].
        -- injection Hin as ->. rewrite Hfc.
           destruct (remoteInsert_sorted_spec id _ c Hs) as [[Hk _]|[Hk _]];
             [|by right].
           left. destruct Hk as (y & Hy & Hky). apply Hmem in Hy as Hy'.
           destruct Hy' as (y0 & Hy0 & Hdely & ->).
           unfold key in Hky. simpl in Hky. rewrite key_formattedBy in Hky.
           destruct Hy0 as [Hy0|[Hy0 _]].
           ++ destruct Hk0. exists y0. by split.
           ++ assert (y0 = c) as ->.
              { apply Hfun; [apply elem_of_app; by left| |done].
                apply elem_of_app. right. left. }
              exists c. split_and!; [by right|done|done].
  - (* delete *)
    rewrite remoteDelete_elem_of by done. rewrite Hmem. split.
    + intros [(c0 & Horig & Hdel & ->) Hne]. rewrite key_formattedBy in Hne.
      exists c0. split_and!.
      * destruct Horig as [?|[? ?]]; [by left|right].
        split; [|done]. apply elem_of_app. by left.
      * rewrite elem_of_app, list_elem_of_singleton. intros [?|Heq]; [done|].
        injection Heq as <- <-. by destruct Hne.
      * by rewrite formattedBy_snoc.
    + intros (c0 & Horig & Hdel & ->). rewrite formattedBy_snoc. simpl.
      rewrite elem_of_app, list_elem_of_singleton in Hdel. split.
      * exists c0. split_and!; [|tauto|done].
        destruct Horig as [?|[Hin ?]]; [by left|right]. split; [|done].
        apply elem_of_app in Hin as [?|Hin%list_elem_of_singleton]; done.
      * rewrite key_formattedBy. intros Hk. apply Hdel. right.
        unfold key_of in Hk. by injection Hk as -> ->.
  - (* format *)
    rewrite remoteFormat_elem_of by done. split.
    + intros (y & (c0 & Horig & Hdel & ->)%Hmem & ->).
      exists c0. split_and!.
      * destruct Horig as [?|[? ?]]; [by left|right].
        split; [|done]. apply elem_of_app. by left.
      * rewrite elem_of_app, list_elem_of_singleton. intros [?|?]; done.
      * by rewrite formattedBy_snoc.
    + intros (c0 & Horig & Hdel & ->). rewrite formattedBy_snoc.
      exists (formattedBy ops c0). split; [|done].
      rewrite elem_of_app in Hdel.
      apply Hmem. exists c0. split_and!; [|tauto|done].
      destruct Horig as [?|[Hin ?]]; [by left|right]. split; [|done].
      apply elem_of_app in Hin as [?|Hin%list_elem_of_singleton]; done.
Qed.

Lemma formats_agree_snoc ops op : formats_agree (ops ++ [op]) → formats_agree ops.
Proof.
  intros Hag pos site a1 a2 H1 H2. apply (Hag pos site); apply elem_of_app; by left.
Qed.

Lemma char_attr_formatted k attrs c :
  char_attr k (formatted attrs c)
  = match attr_get k attrs with
    | Some v => Some v
    | None => char_attr k c
    end.
Proof. unfold char_attr. simpl. by rewrite attr_get_spread. Qed.

Lemma formattedBy_fixed ops c :
  value (formattedBy ops c) = value c
  ∧ position (formattedBy ops c) = position c
  ∧ siteId (formattedBy ops c) = siteId c.
Proof.
  induction ops as [|op ops IH] using rev_ind; [done|].
  rewrite formattedBy_snoc. destruct op; simpl; try done. by case_decide.
Qed.

Lemma formattedBy_attributes_None ops c :
  attributes (formattedBy ops c) = None
  ↔ attributes c = None
    ∧ ∀ attrs, MsgFormat (position c) (siteId c) attrs ∉ ops.
Proof.
  induction ops as [|op ops IH] using rev_ind.
  { simpl. split; [|tauto]. intros ?. split; [done|]. by intros ? ?%elem_of_nil. }
  rewrite formattedBy_snoc.
  pose proof (key_formattedBy ops c) as Hk.
  destruct op as [c'|pos site|pos site attrs]; simpl.
  - rewrite IH. split; intros [? Hn]; (split; [done|]); intros a Hin.
    + apply elem_of_app in Hin as [?|?%list_elem_of_singleton]; [by eapply Hn|done].
    + eapply Hn, elem_of_app. by left.
  - rewrite IH. split; intros [? Hn]; (split; [done|]); intros a Hin.
    + apply elem_of_app in Hin as [?|?%list_elem_of_singleton]; [by eapply Hn|done].
    + eapply Hn, elem_of_app. by left.
  - case_decide as Hkey.
    + simpl. split; [done|]. intros [_ Hn]. destruct (Hn attrs).
      apply elem_of_app. right. rewrite Hk in Hkey.
      unfold key_of in Hkey. injection Hkey as -> ->. left.
    + rewrite IH. split; intros [? Hn]; (split; [done|]); intros a Hin.
      * apply elem_of_app in Hin as [?|Heq%list_elem_of_singleton]; [by eapply Hn|].
        injection Heq as <- <- <-. by rewrite Hk in Hkey.
      * eapply Hn, elem_of_app. by left.
Qed.

(** With patches that agree, the value of an attribute after the formats
    is the value some patch gives it, or the initial one if none does. *)
Lemma formattedBy_attr ops c k :
  formats_agree ops →
  (∀ attrs v, MsgFormat (position c) (siteId c) attrs ∈ ops →
              attr_get k attrs = Some v →
              char_attr k (formattedBy ops c) = Some v)
  ∧ ((∀ attrs, MsgFormat (position c) (siteId c) attrs ∈ ops →
               attr_get k attrs = None) →
     char_attr k (formattedBy ops c) = char_attr k c).
Proof.
  induction ops as [|op ops IH] using rev_ind; intros Hag.
  { split; [by intros ?? ?%elem_of_nil|done]. }
  destruct (IH (formats_agree_snoc _ _ Hag)) as [IH1 IH2].
  rewrite formattedBy_snoc.
  pose proof (key_formattedBy ops c) as Hk.
  assert (∀ attrs, MsgFormat (position c) (siteId c) attrs ∈ ops →
                   MsgFormat (position c) (siteId c) attrs ∈ ops ++ [op]) as Hmono.
  { intros. apply elem_of_app. by left. }
  destruct (decide (target op = Some (key_of c))) as [Htgt|Htgt].
  - destruct op as [?|?|pos site attrs']; simpl in Htgt; try done.
    + (* a delete: nothing changes *)
      simpl. split.
      * intros a v [?|?%list_elem_of_singleton]%elem_of_app; [eauto|done].
      * intros Hn. apply IH2. eauto.
    + injection Htgt as -> ->. simpl. rewrite decide_True by done.
      rewrite char_attr_formatted.
      assert (MsgFormat (position c) (siteId c) attrs' ∈ ops ++ [MsgFormat (position c) (siteId c) attrs'])
        as Hlast by (apply elem_of_app; right; left).
      split.
      * intros a v Hin Ha.
        destruct (attr_get k attrs') as [v'|] eqn:Ha'.
        -- f_equal. by apply (Hag _ _ attrs' a Hlast Hin k).
        -- apply elem_of_app in Hin as [Hin|Heq%list_elem_of_singleton]; [eauto|].
           injection Heq as <-. congruence.
      * intros Hn. rewrite (Hn _ Hlast). apply IH2. eauto.
  - rewrite formatBy_untouched by by rewrite Hk.
    assert (∀ attrs, MsgFormat (position c) (siteId c) attrs ∈ ops ++ [op] →
                     MsgFormat (position c) (siteId c) attrs ∈ ops) as Hin'.
    { intros a [?|Heq%list_elem_of_singleton]%elem_of_app; [done|].
      subst op. by destruct Htgt. }
    split; [eauto|]. intros Hn. apply IH2. eauto.
Qed.

(** So the formats of two delivery orders with the same messages leave
    an element the same. *)
Lemma formattedBy_same_messages ops1 ops2 c :
  (∀ op, op ∈ ops1 ↔ op ∈ ops2) → formats_agree ops1 →
  formattedBy ops1 c = formattedBy ops2 c.
Proof.
  intros Hsame Hag1.
  assert (formats_agree ops2) as Hag2.
  { intros pos site a1 a2 H1 H2. apply (Hag1 pos site); by apply Hsame. }
  destruct (formattedBy_fixed ops1 c) as (Hv1 & Hp1 & Hs1).
  destruct (formattedBy_fixed ops2 c) as (Hv2 & Hp2 & Hs2).
  pose proof (formattedBy_attributes_None ops1 c) as Hn1.
  pose proof (formattedBy_attributes_None ops2 c) as Hn2.
  assert (∀ k, char_attr k (formattedBy ops1 c) = char_attr k (formattedBy ops2 c))
    as Hattr.
  { intros k.
    destruct (formattedBy_attr ops1 c k Hag1) as [H11 H12].
    destruct (formattedBy_attr ops2 c k Hag2) as [H21 H22].
    set (P := λ op, ∃ attrs, op = MsgFormat (position c) (siteId c) attrs
                             ∧ is_Some (attr_get k attrs)).
    assert (∀ op, Decision (P op)) as Hdec.
    { intros [?|??|pos site attrs]; unfold P;
        [right; by intros (? & ? & _)|right; by intros (? & ? & _)|].
      destruct (decide (pos = position c ∧ site = siteId c
                        ∧ is_Some (attr_get k attrs))) as [(-> & -> & ?)|Hno].
      - left. by exists attrs.
      - right. intros (a & [= -> -> ->] & ?). by apply Hno. }
    destruct (decide (Exists P ops1)) as [Hex|Hnex].
    - apply Exists_exists in Hex as (op & Hin & a & -> & [v Hv]).
      rewrite (H11 a v Hin Hv). symmetry. apply (H21 a v); [by apply Hsame|done].
    - assert (∀ a, MsgFormat (position c) (siteId c) a ∈ ops1 → attr_get k a = None)
        as Hnone.
      { intros a Hin. destruct (attr_get k a) as [v|] eqn:Hv; [|done].
        destruct Hnex. apply Exists_exists. exists (MsgFormat (position c) (siteId c) a).
        split; [done|]. exists a. by rewrite Hv. }
      rewrite H12 by done. symmetry. apply H22. intros a Hin.
      apply Hnone. by apply Hsame. }
  destruct (formattedBy ops1 c) as [v1 p1 s1 [a1|]] eqn:E1,
           (formattedBy ops2 c) as [v2 p2 s2 [a2|]] eqn:E2; simpl in *; subst.
  - do 2 f_equal. apply attr_ext. intros k. apply (Hattr k).
  - exfalso. destruct Hn2 as [[Hc Hno] _]; [done|].
    destruct Hn1 as [_ Hn1]. discriminate Hn1. split; [done|].
    intros a Hin. apply (Hno a). by apply Hsame.
  - exfalso. destruct Hn1 as [[Hc Hno] _]; [done|].
    destruct Hn2 as [_ Hn2]. discriminate Hn2. split; [done|].
    intros a Hin. apply (Hno a). by apply Hsame.
  - done.
Qed.

Lemma survivor_same_messages ops1 ops2 chars x :
  (∀ op, op ∈ ops1 ↔ op ∈ ops2) → formats_agree ops1 →
  survivor ops1 chars x → survivor ops2 chars x.
Proof.
  intros Hsame Hag (c0 & Horig & Hdel & ->). exists c0. split_and!.
  - destruct Horig as [?|[? ?]]; [by left|right]. split; [by apply Hsame|done].
  - intros Hin. by apply Hdel, Hsame.
  - by apply formattedBy_same_messages.
Qed.

Lemma inserts_first_check_sound seen ops :
  inserts_first_check seen ops = true →
  ∀ before after c, ops = before ++ MsgInsert c :: after →
    (key_of c ∉ seen) ∧ ∀ op, op ∈ before → target op ≠ Some (key_of c).
Proof.
  revert seen. induction ops as [|op ops IH]; intros seen Hchk before after c Hops.
  { by destruct before. }
  destruct before as [|b before]; simpl in Hops.
  - injection Hops as -> ->. simpl in Hchk.
    apply andb_true_iff in Hchk as [Hc%bool_decide_eq_true _].
    split; [done|]. by intros ? ?%elem_of_nil.
  - injection Hops as -> Hops.
    destruct b as [c'|pos site|pos site attrs]; simpl in Hchk.
    + apply andb_true_iff in Hchk as [_ Hchk].
      destruct (IH _ Hchk _ _ _ Hops) as [Hseen Hbefore]. split; [done|].
      intros op [->|Hin]%elem_of_cons; [done|by apply Hbefore].
    + destruct (IH _ Hchk _ _ _ Hops) as [Hseen Hbefore].
      rewrite not_elem_of_cons in Hseen. split; [tauto|].
      intros op [->|Hin]%elem_of_cons; [|by apply Hbefore].
      simpl. intros Heq. destruct Hseen as [Hne _]. apply Hne. congruence.
    + destruct (IH _ Hchk _ _ _ Hops) as [Hseen Hbefore].
      rewrite not_elem_of_cons in Hseen. split; [tauto|].
      intros op [->|Hin]%elem_of_cons; [|by apply Hbefore].
      simpl. intros Heq. destruct Hseen as [Hne _]. apply Hne. congruence.
Qed.

Lemma inserts_first_checked ops :
  inserts_first_check [] ops = true → inserts_first ops.
Proof.
  intros Hchk before after c Hops.
  by destruct (inserts_first_check_sound [] ops Hchk before after c Hops).
Qed.

(** C1, as amended.  Two instances that start from the same sequence,
    sorted and without duplicate keys, and receive the same insert,
    delete and format messages, each one or more times, end with the same
    sequence, hence the same text and attributes, provided that the
    elements and the messages carry site identifiers of the application,
    that in both delivery orders no delete or format of a key comes
    before an insert of an element with that key, that the inserts of one
    key carry one element, and that the format patches for one element do
    not give an attribute two different values. *)
Theorem convergence (chars : list CRDTChar) (ops1 ops2 : list CRDTOperation) :
  app_sites id chars →
  Forall (λ op, appSite (op_site op)) ops1 →
  strictly_sorted id chars →
  (∀ op, op ∈ ops1 ↔ op ∈ ops2) →
  inserts_functional ops1 → formats_agree ops1 →
  inserts_first ops1 → inserts_first ops2 →
  receiveAll chars ops1 = receiveAll chars ops2
  ∧ text id (receiveAll chars ops1) = text id (receiveAll chars ops2)
  ∧ attributes <$> receiveAll chars ops1 = attributes <$> receiveAll chars ops2.
Proof.
  intros _ _ Hchars Hsame Hfun Hag Hfirst1 Hfirst2.
  assert (receiveAll chars ops1 = receiveAll chars ops2) as ->; [|done].
  assert (inserts_functional ops2) as Hfun2.
  { intros c1 c2 H1 H2. apply Hfun; by apply Hsame. }
  assert (formats_agree ops2) as Hag2.
  { intros pos site a1 a2 H1 H2. apply (Hag pos site); by apply Hsame. }
  destruct (receiveAll_survivors chars ops1 Hchars Hfun Hfirst1) as [Hss1 Hmem1].
  destruct (receiveAll_survivors chars ops2 Hchars Hfun2 Hfirst2) as [Hss2 Hmem2].
  apply (strictly_sorted_perm_eq id); [done|done|].
  apply NoDup_Permutation; [by apply strictly_sorted_NoDup..|].
  intros x. rewrite Hmem1, Hmem2. split.
  - by apply survivor_same_messages.
  - apply survivor_same_messages; [|done]. intros op. by rewrite Hsame.
Qed.

Lemma convergence_witness :
  app_sites id []
  ∧ Forall (λ op, appSite (op_site op))
      [MsgInsert (elt "x" [10] "UID-1001");
       MsgFormat [10] "UID-1001" (mkAttrs (Some true) None None None None);
       MsgInsert (elt "y" [5] "UID-1002");
       MsgDelete [5] "UID-1002"]
  ∧ strictly_sorted id []
  ∧ (∀ op, op ∈ [MsgInsert (elt "x" [10] "UID-1001");
                 MsgFormat [10] "UID-1001" (mkAttrs (Some true) None None None None);
                 MsgInsert (elt "y" [5] "UID-1002");
                 MsgDelete [5] "UID-1002"]
           ↔ op ∈ [MsgInsert (elt "y" [5] "UID-1002");
                   MsgDelete [5] "UID-1002";
                   MsgInsert (elt "x" [10] "UID-1001");
                   MsgInsert (elt "x" [10] "UID-1001");
                   MsgDelete [5] "UID-1002";
                   MsgFormat [10] "UID-1001"
                     (mkAttrs (Some true) None None None None)])
  ∧ receiveAll [] [MsgInsert (elt "x" [10] "UID-1001");
                   MsgFormat [10] "UID-1001" (mkAttrs (Some true) None None None None);
                   MsgInsert (elt "y" [5] "UID-1002");
                   MsgDelete [5] "UID-1002"]
    = receiveAll [] [MsgInsert (elt "y" [5] "UID-1002");
                     MsgDelete [5] "UID-1002";
                     MsgInsert (elt "x" [10] "UID-1001");
                     MsgInsert (elt "x" [10] "UID-1001");
                     MsgDelete [5] "UID-1002";
                     MsgFormat [10] "UID-1001"
                       (mkAttrs (Some true) None None None None)].
Proof.
  assert (app_sites id []) as Ha by constructor.
  assert (Forall (λ op, appSite (op_site op))
            [MsgInsert (elt "x" [10] "UID-1001");
             MsgFormat [10] "UID-1001" (mkAttrs (Some true) None None None None);
             MsgInsert (elt "y" [5] "UID-1002");
             MsgDelete [5] "UID-1002"]) as Hops
    by (apply (bool_decide_unpack _); by vm_compute).
  assert (strictly_sorted id []) as Hs by constructor.
  assert (∀ op, op ∈ [MsgInsert (elt "x" [10] "UID-1001");
                 MsgFormat [10] "UID-1001" (mkAttrs (Some true) None None None None);
                 MsgInsert (elt "y" [5] "UID-1002");
                 MsgDelete [5] "UID-1002"]
           ↔ op ∈ [MsgInsert (elt "y" [5] "UID-1002");
                   MsgDelete [5] "UID-1002";
                   MsgInsert (elt "x" [10] "UID-1001");
                   MsgInsert (elt "x" [10] "UID-1001");
                   MsgDelete [5] "UID-1002";
                   MsgFormat [10] "UID-1001"
                     (mkAttrs (Some true) None None None None)]) as Hsame.
  { intros op. rewrite !elem_of_cons, !elem_of_nil. tauto. }
  split; [done|]. split; [done|]. split; [done|]. split; [done|].
  refine (proj1 (convergence [] _ _ Ha Hops Hs Hsame _ _ _ _)).
  - intros c1 c2 H1 H2 Hk. rewrite !elem_of_cons, !elem_of_nil in H1, H2.
    destruct H1 as [[= ->]|[?|[[= ->]|[?|[]]]]]; try done;
      destruct H2 as [[= ->]|[?|[[= ->]|[?|[]]]]]; done.
  - intros pos site a1 a2 H1 H2. rewrite !elem_of_cons, !elem_of_nil in H1, H2.
    destruct H1 as [?|[[= -> -> ->]|[?|[?|[]]]]]; try done.
    destruct H2 as [?|[[= ->]|[?|[?|[]]]]]; try done.
    intros k v1 v2 ??. congruence.
  - apply inserts_first_checked. by vm_compute.
  - apply inserts_first_checked. by vm_compute.
Defined.

(** C1, as stated, fails: the same two messages in the two orders leave
    an empty text in one instance and the inserted character in the
    other, a delete that arrives before its insert being dropped. *)
Lemma delete_before_insert_diverges :
  [MsgInsert (elt "x" [10] "UID-1001"); MsgDelete [10] "UID-1001"]
  ≡ₚ [MsgDelete [10] "UID-1001"; MsgInsert (elt "x" [10] "UID-1001")]
  ∧ text id (receiveAll [] [MsgInsert (elt "x" [10] "UID-1001"); MsgDelete [10] "UID-1001"])
    = ""
  ∧ text id (receiveAll [] [MsgDelete [10] "UID-1001"; MsgInsert (elt "x" [10] "UID-1001")])
    = "x".
Proof. split; [apply Permutation_swap|]. split; by vm_compute. Qed.

(** Nor do formats that disagree commute: the last one received wins. *)
Example formats_last_write_wins :
  attributes <$> receiveAll [elt "x" [10] "UID-1001"]
    [MsgFormat [10] "UID-1001" (mkAttrs (Some true) None None None None);
     MsgFormat [10] "UID-1001" (mkAttrs (Some false) None None None None)]
  = [Some (mkAttrs (Some false) None None None None)]
  ∧ attributes <$> receiveAll [elt "x" [10] "UID-1001"]
      [MsgFormat [10] "UID-1001" (mkAttrs (Some false) None None None None);
       MsgFormat [10] "UID-1001" (mkAttrs (Some true) None None None None)]
    = [Some (mkAttrs (Some true) None None None None)].
Proof. split; by vm_compute. Qed.

(** ** C7: undo and redo *)

(** C7 at its failing input.  One character is typed, with the editor's
    initial attributes, which have no [bold]; it is selected and made bold;
    the action is undone.  The text is as before the action, but the
    character is still bold: [handleUndo] merges the captured attributes
    into the current ones, and a merge cannot remove the property the
    action added.  [handleRedo] then leaves the attributes of after the
    action. *)
Theorem undo_format_keeps_added_attribute :
  attributes <$> editorChars (insertChar "U1" "a" 0 0 newEditor)
  = [Some (mkAttrs None None None (Some "18px")
                   (Some "Inter, system-ui, sans-serif"))]
  ∧ attributes
      <$> editorChars (toggleAttribute Bold 0 1 (insertChar "U1" "a" 0 0 newEditor))
    = [Some (mkAttrs (Some true) None None (Some "18px")
                     (Some "Inter, system-ui, sans-serif"))]
  ∧ attributes
      <$> editorChars
            (handleUndo
               (toggleAttribute Bold 0 1 (insertChar "U1" "a" 0 0 newEditor)))
    = [Some (mkAttrs (Some true) None None (Some "18px")
                     (Some "Inter, system-ui, sans-serif"))]
  ∧ editorText
      (handleUndo (toggleAttribute Bold 0 1 (insertChar "U1" "a" 0 0 newEditor)))
    = "a"
  ∧ attributes
      <$> editorChars
            (handleRedo
               (handleUndo
                  (toggleAttribute Bold 0 1 (insertChar "U1" "a" 0 0 newEditor))))
    = [Some (mkAttrs (Some true) None None (Some "18px")
                     (Some "Inter, system-ui, sans-serif"))].
Proof. split_and!; by vm_compute. Qed.

(** Where the attribute was there before the action, undo restores it:
    bold switched on and then off again, the second action undone. *)
Example undo_format_restores_present_attribute :
  attributes
    <$> editorChars
          (handleUndo
             (toggleAttribute Bold 0 1
                (toggleAttribute Bold 0 1 (insertChar "U1" "a" 0 0 newEditor))))
  = attributes
      <$> editorChars
            (toggleAttribute Bold 0 1 (insertChar "U1" "a" 0 0 newEditor)).
Proof. by vm_compute. Qed.

(** Scenario 2 of the design document: "hello" is typed and deleted as a
    selection; undo brings it back and redo removes it again. *)
Example undo_redo_batch_delete :
  editorText
    (insertChar "U1" "o" 4 4 (insertChar "U1" "l" 3 3 (insertChar "U1" "l" 2 2
       (insertChar "U1" "e" 1 1 (insertChar "U1" "h" 0 0 newEditor)))))
  = "hello"
  ∧ editorText
      (backspace 0 5
         (insertChar "U1" "o" 4 4 (insertChar "U1" "l" 3 3 (insertChar "U1" "l" 2 2
            (insertChar "U1" "e" 1 1 (insertChar "U1" "h" 0 0 newEditor))))))
    = ""
  ∧ editorText
      (handleUndo (backspace 0 5
         (insertChar "U1" "o" 4 4 (insertChar "U1" "l" 3 3 (insertChar "U1" "l" 2 2
            (insertChar "U1" "e" 1 1 (insertChar "U1" "h" 0 0 newEditor)))))))
    = "hello"
  ∧ editorText
      (handleRedo (handleUndo (backspace 0 5
         (insertChar "U1" "o" 4 4 (insertChar "U1" "l" 3 3 (insertChar "U1" "l" 2 2
            (insertChar "U1" "e" 1 1 (insertChar "U1" "h" 0 0 newEditor))))))))
    = "".
Proof. split_and!; by vm_compute. Qed.

(** * Further properties of the engine *)

(** ** The comparators *)

(** X1.  [compareArrays] is a total order on identifiers: it returns -1, 0
    or 1, returns 0 exactly on equal arrays, changes sign when its
    arguments are swapped, and is transitive. *)
Theorem compareArrays_total_order (a b c : list Z) :
  (compareArrays a b = -1 ∨ compareArrays a b = 0 ∨ compareArrays a b = 1)
  ∧ (compareArrays a b = 0 ↔ a = b)
  ∧ compareArrays b a = - compareArrays a b
  ∧ (compareArrays a b < 0 → compareArrays b c < 0 → compareArrays a c < 0).
Proof.
  split_and!.
  - apply compareArrays_range.
  - split; [apply compareArrays_eq|]. intros ->. apply compareArrays_refl.
  - apply compareArrays_antisym.
  - apply compareArrays_trans.
Qed.

Lemma compareArrays_total_order_witness :
  compareArrays [5; 3] [5; 4] < 0 ∧ compareArrays [5; 4] [5; 4; 0] < 0
  ∧ compareArrays [5; 3] [5; 4; 0] < 0.
Proof.
  assert (compareArrays [5; 3] [5; 4] < 0) as H1 by reflexivity.
  assert (compareArrays [5; 4] [5; 4; 0] < 0) as H2 by reflexivity.
  split; [done|]. split; [done|].
  exact (proj2 (proj2 (proj2 (compareArrays_total_order _ _ _))) H1 H2).
Defined.

(** X2.  [comparePositions] orders the elements by identifier, then by
    site: it returns 0 on elements with the same identifier and site
    and, the two sites being identifiers of the application, on these
    only; it changes sign when its arguments are swapped, and is
    transitive; when the identifiers differ the sites are not looked
    at. *)
Theorem comparePositions_total_order (a b c : CRDTChar) :
  (position a = position b ∧ siteId a = siteId b →
   comparePositions id a b = 0)
  ∧ (appSite (siteId a) → appSite (siteId b) →
     comparePositions id a b = 0 →
     position a = position b ∧ siteId a = siteId b)
  ∧ comparePositions id b a = - comparePositions id a b
  ∧ (comparePositions id a b < 0 → comparePositions id b c < 0 →
     comparePositions id a c < 0)
  ∧ (position a ≠ position b →
     comparePositions id a b = compareArrays (position a) (position b)).
Proof.
  split_and!.
  - intros [Hp Hsite]. apply (comparePositions_eq id).
    unfold key, key_of. simpl. by rewrite Hp, Hsite.
  - intros _ _ H0. apply (comparePositions_eq id) in H0.
    unfold key, key_of in H0. simpl in H0. by injection H0.
  - rewrite !(comparePositions_keys id). apply compareKeys_antisym.
  - apply (char_lt_trans id).
  - intros Hne. unfold comparePositions. simpl. rewrite decide_True; [done|].
    intros H0. by apply compareArrays_eq in H0.
Qed.

Lemma comparePositions_total_order_witness :
  (appSite (siteId (elt "a" [5] "UID-1001"))
   ∧ appSite (siteId (elt "b" [5] "UID-1001"))
   ∧ comparePositions id (elt "a" [5] "UID-1001") (elt "b" [5] "UID-1001") = 0
   ∧ position (elt "a" [5] "UID-1001") = position (elt "b" [5] "UID-1001")
   ∧ siteId (elt "a" [5] "UID-1001") = siteId (elt "b" [5] "UID-1001"))
  ∧ comparePositions id (elt "a" [5] "UID-1001") (elt "b" [5] "UID-1002") < 0
  ∧ comparePositions id (elt "b" [5] "UID-1002") (elt "c" [7] "UID-1001") < 0
  ∧ comparePositions id (elt "a" [5] "UID-1001") (elt "c" [7] "UID-1001") < 0.
Proof.
  assert (appSite (siteId (elt "a" [5] "UID-1001"))) as Ha
    by (apply (bool_decide_unpack _); by vm_compute).
  assert (appSite (siteId (elt "b" [5] "UID-1001"))) as Hb
    by (apply (bool_decide_unpack _); by vm_compute).
  assert (comparePositions id (elt "a" [5] "UID-1001") (elt "b" [5] "UID-1001")
          = 0) as H0 by reflexivity.
  assert (comparePositions id (elt "a" [5] "UID-1001") (elt "b" [5] "UID-1002")
          < 0) as H1 by reflexivity.
  assert (comparePositions id (elt "b" [5] "UID-1002") (elt "c" [7] "UID-1001")
          < 0) as H2 by reflexivity.
  split.
  - split; [done|]. split; [done|]. split; [done|].
    exact (proj1 (proj2 (comparePositions_total_order
                           (elt "a" [5] "UID-1001") (elt "b" [5] "UID-1001")
                           (elt "a" [5] "UID-1001"))) Ha Hb H0).
  - split; [done|]. split; [done|].
    exact (proj1 (proj2 (proj2 (proj2 (comparePositions_total_order _ _ _))))
             H1 H2).
Defined.

(** ** The allocator *)

Lemma allocate_from_length n p1 p2 :
  (length (allocate_from n p1 p2) ≤ S (S n))%nat
  ∧ (1 ≤ length (allocate_from n p1 p2))%nat.
Proof.
  revert p1 p2. induction n as [|n IH]; intros p1 p2; simpl.
  - case_decide; simpl; lia.
  - case_decide; simpl; [lia|]. specialize (IH (tail p1) (tail p2)). lia.
Qed.

Lemma generateIdentifierBetween_above before after :
  safe_identifier before → safe_identifier after →
  (length before ≤ 129)%nat →
  compareArrays before (generateIdentifierBetween before after) < 0.
Proof.
  intros Hsb Hsa Hlen. unfold generateIdentifierBetween.
  rewrite loop_allocate_from by (done || lia).
  rewrite app_nil_l, !drop_0, Nat.sub_0_r. by apply allocate_from_above.
Qed.

Lemma generateIdentifierBetween_below before after :
  safe_identifier before → safe_identifier after →
  compareArrays before after < 0 →
  (∀ v, last after = Some v → 0 < v) →
  (length after ≤ 129)%nat →
  compareArrays (generateIdentifierBetween before after) after < 0.
Proof.
  intros Hsb Hsa Hlt Hlast Hlen. unfold generateIdentifierBetween.
  rewrite loop_allocate_from by (done || lia).
  rewrite app_nil_l, !drop_0, Nat.sub_0_r.
  apply allocate_from_below; [done| |done|done].
  by apply safe_identifier_nonneg.
Qed.

(** X3.  For identifiers whose components are non-negative safe
    integers: whatever [after] is, the identifier allocated is above
    [before], when [before] has at most 129 components; it has between 1
    and 130 components; and its components are non-negative, the last
    one being positive. *)
Theorem generateIdentifierBetween_above_before (before after : list Z) :
  safe_identifier before → safe_identifier after →
  ((length before ≤ 129)%nat →
   compareArrays before (generateIdentifierBetween before after) < 0)
  ∧ (1 ≤ length (generateIdentifierBetween before after) ≤ 130)%nat
  ∧ Forall (λ v, 0 ≤ v) (generateIdentifierBetween before after)
  ∧ ∀ v, last (generateIdentifierBetween before after) = Some v → 0 < v.
Proof.
  intros Hsb Hsa.
  unfold generateIdentifierBetween. rewrite loop_allocate_from by (done || lia).
  rewrite app_nil_l, !drop_0, Nat.sub_0_r. split_and!.
  - intros Hlen. by apply allocate_from_above.
  - apply allocate_from_length.
  - pose proof (allocate_from_length 128 before after). lia.
  - by apply allocate_from_shape, safe_identifier_nonneg.
  - by apply allocate_from_shape, safe_identifier_nonneg.
Qed.

(** ** Insertion on any array, and where a local insert lands *)

(** ** Strings *)

Lemma append_String (a : ascii) (s t : string) :
  String a s +:+ t = String a (s +:+ t).
Proof. reflexivity. Qed.

Lemma append_empty_l (s : string) : "" +:+ s = s.
Proof. reflexivity. Qed.

Lemma append_empty_r (s : string) : s +:+ "" = s.
Proof.
  induction s as [|a s IH]; [done|]. by rewrite append_String, IH.
Qed.

Lemma append_assoc (s1 s2 s3 : string) : (s1 +:+ s2) +:+ s3 = s1 +:+ s2 +:+ s3.
Proof.
  induction s1 as [|a s1 IH]; [done|]. by rewrite !append_String, IH.
Qed.

(** [join('')] of an array is the concatenation of its elements. *)
Lemma concat_empty_cons (x : string) (l : list string) :
  String.concat "" (x :: l) = x +:+ String.concat "" l.
Proof. destruct l; simpl; [by rewrite append_empty_r|done]. Qed.

Lemma concat_empty_app (l1 l2 : list string) :
  String.concat "" (l1 ++ l2) = String.concat "" l1 +:+ String.concat "" l2.
Proof.
  induction l1 as [|x l1 IH]; [done|].
  rewrite <-app_comm_cons, !concat_empty_cons, IH. by rewrite append_assoc.
Qed.

Lemma filter_none {A} (P : A → Prop) `{∀ x, Decision (P x)} (l : list A) :
  Forall (λ x, ¬ P x) l → filter P l = [].
Proof.
  induction 1 as [|x l Hx _ IH]; [done|]. by rewrite filter_cons_False.
Qed.

Section EngineProps.
Context {E : Type} (deref : E → CRDTChar).

#[local] Abbreviation key := (key deref).
#[local] Abbreviation char_lt := (char_lt deref).
#[local] Abbreviation char_le := (char_le deref).
#[local] Abbreviation sorted := (sorted deref).
#[local] Abbreviation strictly_sorted := (strictly_sorted deref).
#[local] Abbreviation unique_keys := (unique_keys deref).
#[local] Abbreviation has_key := (has_key deref).

Lemma text_app chars1 chars2 :
  text deref (chars1 ++ chars2) = text deref chars1 +:+ text deref chars2.
Proof. unfold text. by rewrite fmap_app, concat_empty_app. Qed.

Lemma text_cons c chars :
  text deref (c :: chars) = value (deref c) +:+ text deref chars.
Proof. unfold text. by rewrite fmap_cons, concat_empty_cons. Qed.

(** The search of [remoteInsert] returns an index between its bounds,
    whatever the array holds. *)
Lemma remoteInsert_loop_bounds chars char low high idx :
  low ≤ high →
  remoteInsert_loop deref chars char low high = InsertAt idx →
  low ≤ idx ≤ high.
Proof.
  funelim (remoteInsert_loop deref chars char low high); intros Hlh Hres.
  - pose proof (shiftr1_bounds low high l) as Hmid.
    destruct (chars !!? ((low + high) ≫ 1)) as [c|] eqn:Hc; [|done].
    repeat case_match; try done.
    + apply (H c) in Hres; lia.
    + apply (H0 c) in Hres; lia.
  - injection Hres as <-. lia.
Qed.

Lemma remoteInsert_any chars char :
  remoteInsert deref char chars = (chars, None)
  ∨ ∃ i : nat,
      (i ≤ length chars)%nat
      ∧ remoteInsert deref char chars
        = (take i chars ++ char :: drop i chars, Some (Z.of_nat i)).
Proof.
  unfold remoteInsert.
  destruct (remoteInsert_loop deref chars char 0 (Z.of_nat (length chars)))
    as [|idx|] eqn:Hloop; [by left| |by left].
  right. apply remoteInsert_loop_bounds in Hloop; [|lia].
  exists (Z.to_nat idx). rewrite splice_insert, Z2Nat.id by lia.
  split; [lia|done].
Qed.

(** On a sorted array, an element that is above the first [i] elements
    and below the others goes to index [i]. *)
Lemma remoteInsert_at chars char (i : nat) :
  sorted chars → (i ≤ length chars)%nat →
  Forall (λ c, char_lt c char) (take i chars) →
  Forall (λ c, char_lt char c) (drop i chars) →
  remoteInsert deref char chars
  = (take i chars ++ char :: drop i chars, Some (Z.of_nat i)).
Proof.
  intros Hs Hi Hb Ha.
  rewrite Forall_forall in Hb. rewrite Forall_forall in Ha.
  destruct (remoteInsert_sorted_spec deref chars char Hs)
    as [[(c & Hin & Hk) _]|(_ & l & Hl & Heq & Hb' & Ha')].
  { exfalso. rewrite <-(take_drop i chars) in Hin.
    apply elem_of_app in Hin as [Hin|Hin].
    - by apply (char_lt_key_ne deref c char); [apply Hb|].
    - by apply (char_gt_key_ne deref c char); [apply Ha|]. }
  rewrite Forall_forall in Hb'. rewrite Forall_forall in Ha'.
  assert (l = i) as ->; [|done].
  destruct (decide (l = i)) as [|Hne]; [done|exfalso].
  destruct (decide (l < i)%nat) as [Hlt|Hge].
  - destruct (lookup_lt_is_Some_2 chars l) as [c Hc]; [lia|].
    apply (char_lt_asym deref c char).
    + apply Hb. apply list_elem_of_lookup. exists l.
      by rewrite lookup_take_lt by lia.
    + apply Ha'. apply list_elem_of_lookup. exists 0%nat.
      by rewrite lookup_drop, Nat.add_0_r.
  - destruct (lookup_lt_is_Some_2 chars i) as [c Hc]; [lia|].
    apply (char_lt_asym deref c char).
    + apply Hb'. apply list_elem_of_lookup. exists i.
      by rewrite lookup_take_lt by lia.
    + apply Ha. apply list_elem_of_lookup. exists 0%nat.
      by rewrite lookup_drop, Nat.add_0_r.
Qed.

(** The identifiers decide the order of two elements when they differ. *)
Lemma char_lt_positions a b :
  compareArrays (position (deref a)) (position (deref b)) < 0 → char_lt a b.
Proof.
  intros Hab. unfold char_lt, comparePositions.
  rewrite decide_True by lia. done.
Qed.

(** On a sorted array, an element that is above the element before index
    [i] and below the element at index [i] goes to index [i]. *)
Lemma remoteInsert_between chars char (i : nat) :
  sorted chars → (i ≤ length chars)%nat →
  (∀ p, (0 < i)%nat → chars !! (i - 1)%nat = Some p → char_lt p char) →
  (∀ n, chars !! i = Some n → char_lt char n) →
  remoteInsert deref char chars
  = (take i chars ++ char :: drop i chars, Some (Z.of_nat i)).
Proof.
  intros Hs Hi Hprev Hnext. apply remoteInsert_at; [done|done| |].
  - apply Forall_forall. intros c [j Hj]%list_elem_of_lookup.
    pose proof (lookup_lt_Some _ _ _ Hj) as Hjlt. rewrite length_take in Hjlt.
    rewrite lookup_take_lt in Hj by lia.
    destruct (lookup_lt_is_Some_2 chars (i - 1)) as [p Hp]; [lia|].
    pose proof (Hprev p ltac:(lia) Hp) as Hpc.
    destruct (decide (j = (i - 1)%nat)) as [->|Hne].
    + by assert (c = p) as -> by congruence.
    + apply (char_le_lt_trans deref c p char); [|done].
      eapply (StronglySorted_lookup _ chars j (i - 1)); eauto. lia.
  - apply Forall_forall. intros c [j Hj]%list_elem_of_lookup.
    rewrite lookup_drop in Hj.
    destruct (lookup_lt_is_Some_2 chars i) as [n Hn].
    { apply lookup_lt_Some in Hj. lia. }
    pose proof (Hnext n Hn) as Hcn.
    destruct (decide (j = 0%nat)) as [->|Hne].
    + rewrite Nat.add_0_r in Hj. by assert (c = n) as -> by congruence.
    + apply (char_lt_le_trans deref char n c); [done|].
      eapply (StronglySorted_lookup _ chars i (i + j)); eauto. lia.
Qed.

(** An element with a fresh key, inserted and then deleted, leaves a
    sorted array as it was; the two calls return the same index. *)
Lemma remoteInsert_remoteDelete chars char :
  sorted chars → ¬ has_key (key char) chars →
  ∃ i : nat,
    (remoteInsert deref char chars).2 = Some (Z.of_nat i)
    ∧ remoteDelete deref (position (deref char)) (siteId (deref char))
        (remoteInsert deref char chars).1
      = (chars, Z.of_nat i).
Proof.
  intros Hs Hk.
  destruct (remoteInsert_sorted_spec deref chars char Hs)
    as [[? _]|(_ & l & Hl & -> & Hb & Ha)]; [done|].
  exists l. split; [done|]. simpl.
  destruct (remoteDelete_spec deref (take l chars ++ char :: drop l chars)
              (position (deref char)) (siteId (deref char)))
    as [[Hno _]|(j & c & Hj & Hkc & ->)].
  { exfalso. apply Hno. exists char. split; [|done].
    apply elem_of_app. right. left. }
  assert (j = l) as ->.
  { assert (length (take l chars) = l) as Hlen by (rewrite length_take; lia).
    destruct (decide (j = l)) as [|Hne]; [done|exfalso]. apply Hk.
    exists c. split; [|done].
    rewrite <-(take_drop l chars). apply elem_of_app.
    destruct (decide (j < l)%nat).
    - left. apply list_elem_of_lookup. exists j.
      by rewrite lookup_app_l in Hj by lia.
    - right. apply list_elem_of_lookup. exists (j - S l)%nat.
      rewrite lookup_app_r in Hj by lia. rewrite Hlen in Hj.
      by replace (j - l)%nat with (S (j - S l)) in Hj by lia. }
  f_equal. assert (length (take l chars) = l) as Hlen
    by (rewrite length_take; lia).
  rewrite delete_take_drop, take_app_length' by done.
  rewrite cons_middle, app_assoc, drop_app_length'
    by (rewrite length_app; simpl; lia).
  apply take_drop.
Qed.

(** An element of a strictly sorted array, deleted and then inserted
    again, is back where it was. *)
Lemma remoteDelete_remoteInsert chars (i : nat) c :
  strictly_sorted chars → chars !! i = Some c →
  remoteDelete deref (position (deref c)) (siteId (deref c)) chars
  = (delete i chars, Z.of_nat i)
  ∧ remoteInsert deref c (delete i chars) = (chars, Some (Z.of_nat i)).
Proof.
  intros Hss Hi.
  pose proof (strictly_sorted_unique_keys _ _ Hss) as Hu.
  pose proof (strictly_sorted_sorted _ _ Hss) as Hs.
  pose proof (lookup_lt_Some _ _ _ Hi) as Hlt.
  split.
  - destruct (remoteDelete_spec deref chars (position (deref c))
                (siteId (deref c))) as [[Hno _]|(j & c' & Hj & Hk & ->)].
    { exfalso. apply Hno. exists c. split; [|done].
      by eapply list_elem_of_lookup_2. }
    by rewrite (unique_keys_lookup_inj deref chars j i c' c Hu Hj Hi Hk).
  - assert (take i (delete i chars) = take i chars) as Htake.
    { rewrite delete_take_drop. apply take_app_length'.
      rewrite length_take. lia. }
    assert (drop i (delete i chars) = drop (S i) chars) as Hdrop.
    { rewrite delete_take_drop. apply drop_app_length'.
      rewrite length_take. lia. }
    rewrite (remoteInsert_at (delete i chars) c i).
    + by rewrite Htake, Hdrop, take_drop_middle.
    + by apply StronglySorted_delete.
    + rewrite length_delete by eauto. lia.
    + rewrite Htake. apply Forall_forall.
      intros c' [j Hj]%list_elem_of_lookup.
      pose proof (lookup_lt_Some _ _ _ Hj) as Hjlt. rewrite length_take in Hjlt.
      rewrite lookup_take_lt in Hj by lia.
      eapply (StronglySorted_lookup _ chars j i); eauto. lia.
    + rewrite Hdrop. apply Forall_forall.
      intros c' [j Hj]%list_elem_of_lookup. rewrite lookup_drop in Hj.
      eapply (StronglySorted_lookup _ chars i (S i + j)); eauto. lia.
Qed.

(** With no key twice, the elements outside a segment are those whose
    key is not a key of the segment. *)
Lemma filter_segment_keys (l1 l2 l3 : list E) :
  unique_keys (l1 ++ l2 ++ l3) →
  filter (λ c, key c ∉ key <$> l2) (l1 ++ l2 ++ l3) = l1 ++ l3.
Proof.
  unfold unique_keys. rewrite !fmap_app.
  intros (_ & H1 & H23)%NoDup_app. apply NoDup_app in H23 as (_ & H23 & _).
  rewrite !filter_app. f_equal; [|rewrite <-(app_nil_l l3) at 2; f_equal].
  - apply filter_all, Forall_forall. intros c Hc Hin.
    apply (H1 (key c)); [by apply list_elem_of_fmap_2|].
    apply elem_of_app. by left.
  - apply filter_none, Forall_forall. intros c Hc Hn. apply Hn.
    by apply list_elem_of_fmap_2.
  - apply filter_all, Forall_forall. intros c Hc Hin.
    apply (H23 (key c)); [done|]. by apply list_elem_of_fmap_2.
Qed.

(** [localBatchDelete] on a valid range. *)
Lemma localBatchDelete_valid startIndex endIndex chars :
  0 ≤ startIndex < endIndex → endIndex ≤ Z.of_nat (length chars) →
  localBatchDelete deref startIndex endIndex chars
  = ((λ c, (c, key c))
       <$> take (Z.to_nat (endIndex - startIndex))
                (drop (Z.to_nat startIndex) chars),
     take (Z.to_nat startIndex) chars ++ drop (Z.to_nat endIndex) chars).
Proof.
  intros Hse He. unfold localBatchDelete. rewrite decide_False by lia.
  unfold splice. simpl. do 3 f_equal. lia.
Qed.

Lemma fmap_with_key_1 (l : list E) : ((λ c, (c, key c)) <$> l).*1 = l.
Proof.
  rewrite <-list_fmap_compose. rewrite <-(list_fmap_id l) at 2.
  by apply list_fmap_ext.
Qed.

Lemma fmap_with_key_2 (l : list E) : ((λ c, (c, key c)) <$> l).*2 = key <$> l.
Proof. rewrite <-list_fmap_compose. by apply list_fmap_ext. Qed.

Lemma segment_split (chars : list E) (start count : nat) :
  take start chars ++ take count (drop start chars)
    ++ drop (start + count) chars
  = chars.
Proof. by rewrite <-drop_drop, !take_drop. Qed.

End EngineProps.

(** X4.  Whatever the array holds, sorted or not, [remoteInsert] either
    leaves it untouched and returns nothing, or returns the index at which
    the new element now is, the others keeping their order: taking the
    element away again gives the array of before. *)
Theorem remoteInsert_any_array (char : CRDTChar) (chars : list CRDTChar) :
  remoteInsert id char chars = (chars, None)
  ∨ ∃ i : nat,
      (remoteInsert id char chars).2 = Some (Z.of_nat i)
      ∧ (remoteInsert id char chars).1 !! i = Some char
      ∧ delete i (remoteInsert id char chars).1 = chars.
Proof.
  destruct (remoteInsert_any id chars char) as [?|(i & Hi & ->)]; [by left|].
  right. exists i. simpl.
  assert (length (take i chars) = i) as Hlen by (rewrite length_take; lia).
  split_and!; [done| |].
  - by rewrite list_lookup_middle.
  - rewrite delete_take_drop, take_app_length' by done.
    rewrite cons_middle, app_assoc, drop_app_length'
      by (rewrite length_app; simpl; lia).
    apply take_drop.
Qed.

(** X5.  A local insert at an index within a sorted array puts the new
    element at that index: the text is the old text with the value
    inserted there.  The identifiers of the two neighbours must have
    non-negative safe integers for components, and at most 129 of them;
    the element at the index, if there is one, must have an identifier
    above that of the element before, with a positive last component.  At
    the end of the array there is no condition on the right. *)
Theorem localInsert_in_range (site : string) (index : Z) (val : string)
    (attrs : option CRDTAttributes) (chars : list CRDTChar) :
  sorted id chars →
  0 ≤ index ≤ Z.of_nat (length chars) →
  (∀ p, chars !!? (index - 1) = Some p →
     (length (position p) ≤ 129)%nat ∧ safe_identifier (position p)) →
  (∀ n, chars !!? index = Some n →
     compareArrays (default [0] (position <$> (chars !!? (index - 1))))
                   (position n) < 0
     ∧ (length (position n) ≤ 129)%nat
     ∧ safe_identifier (position n)
     ∧ ∀ v, last (position n) = Some v → 0 < v) →
  (localInsert site index val attrs chars).2
  = take (Z.to_nat index) chars
    ++ (localInsert site index val attrs chars).1
    :: drop (Z.to_nat index) chars
  ∧ text id (localInsert site index val attrs chars).2
    = text id (take (Z.to_nat index) chars) +:+ val
      +:+ text id (drop (Z.to_nat index) chars)
  ∧ value (localInsert site index val attrs chars).1 = val
  ∧ siteId (localInsert site index val attrs chars).1 = site.
Proof.
  intros Hs Hidx Hprev Hnext. unfold localInsert. cbn [fst snd].
  set (prev := default [0] (position <$> (chars !!? (index - 1)))) in *.
  set (next := default [100] (position <$> (chars !!? index))).
  set (char := mkChar val (generateIdentifierBetween prev next) site
                      (copyAttrs attrs)).
  assert ((length prev ≤ 129)%nat ∧ safe_identifier prev) as [Hplen Hpsafe].
  { unfold prev. destruct (chars !!? (index - 1)) as [p|] eqn:Hp; simpl.
    - by apply Hprev.
    - split; [lia|]. apply (bool_decide_unpack _). by vm_compute. }
  assert (safe_identifier next) as Hnsafe.
  { unfold next. destruct (chars !!? index) as [n|] eqn:Hn; simpl.
    - by apply (Hnext n).
    - apply (bool_decide_unpack _). by vm_compute. }
  assert (remoteInsert id char chars
          = (take (Z.to_nat index) chars ++ char :: drop (Z.to_nat index) chars,
             Some (Z.of_nat (Z.to_nat index)))) as Hins.
  { apply remoteInsert_between; [done|lia| |].
    - intros p Hpos Hp. apply (char_lt_positions id).
      assert (chars !!? (index - 1) = Some p) as Hp'.
      { apply lookupZ_Some. split; [lia|].
        by replace (Z.to_nat (index - 1)) with (Z.to_nat index - 1)%nat
          by lia. }
      cbn [id char position]. replace (position p) with prev
        by (unfold prev; by rewrite Hp').
      by apply generateIdentifierBetween_above.
    - intros n Hn. apply (char_lt_positions id).
      assert (chars !!? index = Some n) as Hn'
        by (apply lookupZ_Some; split; [lia|done]).
      destruct (Hnext n Hn') as (Hpn & Hnlen & _ & Hlast).
      cbn [id char position].
      assert (next = position n) as Hnext_eq
        by (unfold next; by rewrite Hn').
      rewrite Hnext_eq in Hnsafe |- *.
      by apply generateIdentifierBetween_below. }
  rewrite Hins. cbn [fst snd]. split_and!; try done.
  by rewrite text_app, text_cons.
Qed.

Lemma localInsert_in_range_witness :
  sorted id [elt "a" [10] "S1"; elt "c" [20] "S1"]
  ∧ 0 ≤ 1 ≤ Z.of_nat (length [elt "a" [10] "S1"; elt "c" [20] "S1"])
  ∧ text id (localInsert "S2" 1 "b" None
               [elt "a" [10] "S1"; elt "c" [20] "S1"]).2
    = text id (take (Z.to_nat 1) [elt "a" [10] "S1"; elt "c" [20] "S1"])
      +:+ "b"
      +:+ text id (drop (Z.to_nat 1) [elt "a" [10] "S1"; elt "c" [20] "S1"]).
Proof.
  assert (sorted id [elt "a" [10] "S1"; elt "c" [20] "S1"]) as Hs.
  { repeat constructor. by vm_compute. }
  assert (0 ≤ 1 ≤ Z.of_nat (length [elt "a" [10] "S1"; elt "c" [20] "S1"]))
    as Hi by (simpl; lia).
  split; [done|]. split; [done|].
  refine (proj1 (proj2 (localInsert_in_range "S2" 1 "b" None
                          [elt "a" [10] "S1"; elt "c" [20] "S1"] Hs Hi _ _))).
  - intros p Hp. vm_compute in Hp. injection Hp as <-.
    split; [simpl; lia|]. apply (bool_decide_unpack _). by vm_compute.
  - intros n Hn. vm_compute in Hn. injection Hn as <-.
    split; [reflexivity|]. split; [simpl; lia|].
    split; [apply (bool_decide_unpack _); by vm_compute|].
    intros v [= <-]. lia.
Defined.

Lemma generateIdentifierBetween_above_before_witness :
  safe_identifier [5; 3]
  ∧ (length [5; 3] ≤ 129)%nat
  ∧ compareArrays [5; 3] (generateIdentifierBetween [5; 3] [5; 3]) < 0.
Proof.
  assert (safe_identifier [5; 3]) as Hs
    by (apply (bool_decide_unpack _); by vm_compute).
  assert (length [5; 3] ≤ 129)%nat as H by (simpl; lia).
  split; [done|]. split; [done|].
  exact (proj1 (generateIdentifierBetween_above_before [5; 3] [5; 3] Hs Hs) H).
Defined.

(** ** Local deletes *)

(** X6.  [localDelete] at an index outside the array returns [null] and
    changes nothing.  At an index inside, it returns the descriptor of the
    element there and, the elements coming from sites of the application,
    removes one element with that key; when no two elements share a key,
    that is the element at the index. *)
Theorem localDelete_effect (index : Z) (chars : list CRDTChar) :
  (chars !!? index = None → localDelete id index chars = (None, chars))
  ∧ (∀ c, chars !!? index = Some c →
       (localDelete id index chars).1 = Some (position c, siteId c)
       ∧ (app_sites id chars →
          (∃ (j : nat) c',
             chars !! j = Some c' ∧ key id c' = key id c
             ∧ (localDelete id index chars).2 = delete j chars)
          ∧ (unique_keys id chars →
             (localDelete id index chars).2 = delete (Z.to_nat index) chars))).
Proof.
  unfold localDelete. split.
  - by intros ->.
  - intros c Hc. rewrite Hc. simpl. split; [done|]. intros _.
    apply lookupZ_Some in Hc as [Hge Hc].
    destruct (remoteDelete_spec id chars (position c) (siteId c))
      as [[Hno _]|(j & c' & Hj & Hk & Heq)].
    { exfalso. apply Hno. exists c. split; [|done].
      by eapply list_elem_of_lookup_2. }
    rewrite Heq. simpl. split; [by exists j, c'|].
    intros Hu.
    by rewrite (unique_keys_lookup_inj id chars j _ c' c Hu Hj Hc Hk).
Qed.

Lemma localDelete_effect_witness :
  [elt "a" [10] "UID-1001"; elt "b" [20] "UID-1001"] !!? 5 = None
  ∧ localDelete id 5 [elt "a" [10] "UID-1001"; elt "b" [20] "UID-1001"]
    = (None, [elt "a" [10] "UID-1001"; elt "b" [20] "UID-1001"])
  ∧ [elt "a" [10] "UID-1001"; elt "b" [20] "UID-1001"] !!? 1
    = Some (elt "b" [20] "UID-1001")
  ∧ app_sites id [elt "a" [10] "UID-1001"; elt "b" [20] "UID-1001"]
  ∧ unique_keys id [elt "a" [10] "UID-1001"; elt "b" [20] "UID-1001"]
  ∧ (localDelete id 1 [elt "a" [10] "UID-1001"; elt "b" [20] "UID-1001"]).2
    = delete (Z.to_nat 1) [elt "a" [10] "UID-1001"; elt "b" [20] "UID-1001"].
Proof.
  assert ([elt "a" [10] "UID-1001"; elt "b" [20] "UID-1001"] !!? 5 = None) as H
    by reflexivity.
  assert ([elt "a" [10] "UID-1001"; elt "b" [20] "UID-1001"] !!? 1
          = Some (elt "b" [20] "UID-1001")) as H1 by reflexivity.
  assert (app_sites id [elt "a" [10] "UID-1001"; elt "b" [20] "UID-1001"])
    as Ha by (apply (bool_decide_unpack _); by vm_compute).
  assert (unique_keys id [elt "a" [10] "UID-1001"; elt "b" [20] "UID-1001"])
    as Hu.
  { unfold unique_keys. apply (bool_decide_unpack _). by vm_compute. }
  split; [done|]. split.
  { exact (proj1 (localDelete_effect 5 _) H). }
  split; [done|]. split; [done|]. split; [done|].
  exact (proj2 (proj2 (proj2 (localDelete_effect 1 _) _ H1) Ha) Hu).
Defined.

(** X7.  [localBatchDelete] with a start below 0, an end beyond the array
    or an empty range returns no result and changes nothing.  Otherwise it
    returns one result per index of the range, each element with its own
    descriptor, and the array loses exactly these: putting them back at
    the start index gives the array of before. *)
Theorem localBatchDelete_effect (startIndex endIndex : Z)
    (chars : list CRDTChar) :
  (startIndex < 0 ∨ Z.of_nat (length chars) < endIndex
   ∨ endIndex ≤ startIndex →
   localBatchDelete id startIndex endIndex chars = ([], chars))
  ∧ (0 ≤ startIndex < endIndex → endIndex ≤ Z.of_nat (length chars) →
     Z.of_nat (length (localBatchDelete id startIndex endIndex chars).1)
     = endIndex - startIndex
     ∧ (localBatchDelete id startIndex endIndex chars).1.*2
       = key id <$> (localBatchDelete id startIndex endIndex chars).1.*1
     ∧ (∀ i : nat, (i < Z.to_nat (endIndex - startIndex))%nat →
          (localBatchDelete id startIndex endIndex chars).1.*1 !! i
          = chars !! (Z.to_nat startIndex + i)%nat)
     ∧ take (Z.to_nat startIndex)
            (localBatchDelete id startIndex endIndex chars).2
       ++ (localBatchDelete id startIndex endIndex chars).1.*1
       ++ drop (Z.to_nat startIndex)
               (localBatchDelete id startIndex endIndex chars).2
       = chars).
Proof.
  split.
  - intros H. unfold localBatchDelete. rewrite decide_True; [done|lia].
  - intros Hse He. rewrite (localBatchDelete_valid id) by done. simpl.
    rewrite fmap_with_key_1, fmap_with_key_2.
    assert (Z.to_nat endIndex
            = (Z.to_nat startIndex + Z.to_nat (endIndex - startIndex))%nat)
      as -> by lia.
    split_and!.
    + rewrite length_fmap, length_take, length_drop. lia.
    + done.
    + intros i Hi. by rewrite lookup_take_lt, lookup_drop by lia.
    + rewrite take_app_length' by (rewrite length_take; lia).
      rewrite drop_app_length' by (rewrite length_take; lia).
      apply segment_split.
Qed.

Lemma localBatchDelete_effect_witness :
  (0 ≤ 1 < 2)
  ∧ 2 ≤ Z.of_nat (length [elt "a" [10] "S1"; elt "b" [20] "S1";
                          elt "c" [30] "S1"])
  ∧ Z.of_nat (length (localBatchDelete id 1 2
                        [elt "a" [10] "S1"; elt "b" [20] "S1";
                         elt "c" [30] "S1"]).1)
    = 2 - 1.
Proof.
  assert (0 ≤ 1 < 2) as H1 by lia.
  assert (2 ≤ Z.of_nat (length [elt "a" [10] "S1"; elt "b" [20] "S1";
                                elt "c" [30] "S1"])) as H2 by (simpl; lia).
  split; [done|]. split; [done|].
  exact (proj1 (proj2 (localBatchDelete_effect 1 2 _) H1 H2)).
Defined.

(** X8.  A replica that holds the same array, with no key twice, and
    receives the descriptors of a [localBatchDelete] as one
    [batchRemoteDelete] ends with the array of the sender, and counts
    [endIndex - startIndex] removed elements. *)
Theorem localBatchDelete_replicated (startIndex endIndex : Z)
    (chars : list CRDTChar) :
  unique_keys id chars →
  0 ≤ startIndex < endIndex → endIndex ≤ Z.of_nat (length chars) →
  batchRemoteDelete id (localBatchDelete id startIndex endIndex chars).1.*2
                    chars
  = ((localBatchDelete id startIndex endIndex chars).2,
     endIndex - startIndex).
Proof.
  intros Hu Hse He. rewrite batchRemoteDelete_filter.
  rewrite (localBatchDelete_valid id) by done. simpl.
  rewrite fmap_with_key_2.
  assert (Z.to_nat endIndex
          = (Z.to_nat startIndex + Z.to_nat (endIndex - startIndex))%nat)
    as -> by lia.
  set (start := Z.to_nat startIndex).
  set (count := Z.to_nat (endIndex - startIndex)).
  pose proof (segment_split chars start count) as Hsplit.
  assert (filter (λ c, key id c ∉ key id <$> take count (drop start chars))
                 chars
          = take start chars ++ drop (start + count) chars) as ->.
  { rewrite <-Hsplit at 1. apply (filter_segment_keys id). by rewrite Hsplit. }
  f_equal. rewrite length_app, length_take, length_drop. lia.
Qed.

Lemma localBatchDelete_replicated_witness :
  unique_keys id [elt "a" [10] "S1"; elt "b" [20] "S1"; elt "c" [30] "S1"]
  ∧ (0 ≤ 1 < 2)
  ∧ batchRemoteDelete id
      (localBatchDelete id 1 2
         [elt "a" [10] "S1"; elt "b" [20] "S1"; elt "c" [30] "S1"]).1.*2
      [elt "a" [10] "S1"; elt "b" [20] "S1"; elt "c" [30] "S1"]
    = ((localBatchDelete id 1 2
          [elt "a" [10] "S1"; elt "b" [20] "S1"; elt "c" [30] "S1"]).2,
       2 - 1).
Proof.
  assert (unique_keys id [elt "a" [10] "S1"; elt "b" [20] "S1";
                          elt "c" [30] "S1"]) as Hu.
  { unfold unique_keys. apply (bool_decide_unpack _). by vm_compute. }
  assert (0 ≤ 1 < 2) as H1 by lia.
  assert (2 ≤ Z.of_nat (length [elt "a" [10] "S1"; elt "b" [20] "S1";
                                elt "c" [30] "S1"])) as H2 by (simpl; lia).
  split; [done|]. split; [done|].
  exact (localBatchDelete_replicated 1 2 _ Hu H1 H2).
Defined.

(** ** Formats *)

(** X9.  A replica that holds the same array, with no key twice, and
    receives the descriptor of a [localFormat] with the same patch as a
    [remoteFormat] ends with the array of the sender. *)
Theorem localFormat_replicated (index : Z) (patch : CRDTAttributes)
    (chars : list CRDTChar) (c : CRDTChar) :
  unique_keys id chars → chars !!? index = Some c →
  (localFormat index patch chars).1 = Some (position c, siteId c)
  ∧ remoteFormat (position c) (siteId c) patch chars
    = (localFormat index patch chars).2.
Proof.
  intros Hu Hc. unfold localFormat, remoteFormat. rewrite Hc. simpl.
  split; [done|]. apply lookupZ_Some in Hc as [_ Hc].
  destruct (list_find (addresses id (position c) (siteId c)) chars)
    as [[idx c']|] eqn:Hfind.
  - apply list_find_Some in Hfind as (Hidx & Hk%addresses_key & _).
    assert (idx = Z.to_nat index) as ->
      by exact (unique_keys_lookup_inj id chars _ _ c' c Hu Hidx Hc Hk).
    by assert (c' = c) as -> by congruence.
  - apply list_find_None in Hfind. rewrite Forall_forall in Hfind.
    destruct (Hfind c); [by eapply list_elem_of_lookup_2|].
    by apply addresses_key.
Qed.

Lemma localFormat_replicated_witness :
  unique_keys id [elt "a" [10] "S1"; elt "b" [20] "S1"]
  ∧ [elt "a" [10] "S1"; elt "b" [20] "S1"] !!? 1 = Some (elt "b" [20] "S1")
  ∧ remoteFormat (position (elt "b" [20] "S1")) (siteId (elt "b" [20] "S1"))
      (mkAttrs (Some true) None None None None)
      [elt "a" [10] "S1"; elt "b" [20] "S1"]
    = (localFormat 1 (mkAttrs (Some true) None None None None)
         [elt "a" [10] "S1"; elt "b" [20] "S1"]).2.
Proof.
  assert (unique_keys id [elt "a" [10] "S1"; elt "b" [20] "S1"]) as Hu.
  { unfold unique_keys. apply (bool_decide_unpack _). by vm_compute. }
  assert ([elt "a" [10] "S1"; elt "b" [20] "S1"] !!? 1
          = Some (elt "b" [20] "S1")) as Hc by reflexivity.
  split; [done|]. split; [done|].
  exact (proj2 (localFormat_replicated 1 (mkAttrs (Some true) None None None None)
                  _ _ Hu Hc)).
Defined.

(** X10.  [remoteFormat] never changes the text.  When no element has the
    addressed key it changes nothing; otherwise it changes the first
    element with that key, and there every attribute of the patch has the
    value the patch gives it. *)
Theorem remoteFormat_effect (pos : list Z) (site : string)
    (patch : CRDTAttributes) (chars : list CRDTChar) :
  text id (remoteFormat pos site patch chars) = text id chars
  ∧ (¬ has_key id (pos, site) chars →
     remoteFormat pos site patch chars = chars)
  ∧ (∀ (i : nat) c,
       chars !! i = Some c → key id c = (pos, site) →
       (∀ (j : nat) c', (j < i)%nat → chars !! j = Some c' →
                        key id c' ≠ (pos, site)) →
       remoteFormat pos site patch chars = <[i := formatted patch c]> chars
       ∧ ∀ k v, attr_get k patch = Some v →
           char_attr k (formatted patch c) = Some v).
Proof.
  unfold remoteFormat.
  destruct (list_find (addresses id pos site) chars) as [[idx c0]|] eqn:Hfind.
  - apply list_find_Some in Hfind as (Hidx & Hk%addresses_key & Hfirst).
    split_and!.
    + unfold text. rewrite list_fmap_insert. simpl.
      rewrite list_insert_id; [done|]. by rewrite list_lookup_fmap, Hidx.
    + intros Hno. destruct Hno. exists c0.
      split; [by eapply list_elem_of_lookup_2|done].
    + intros i c Hi Hkc Hbefore.
      assert (idx = i) as ->.
      { destruct (decide (idx < i)%nat) as [Hlt|Hge].
        - by destruct (Hbefore idx c0 Hlt Hidx).
        - destruct (decide (i < idx)%nat) as [Hlt|Hge']; [|lia].
          destruct (Hfirst i c Hi Hlt). by apply addresses_key. }
      assert (c0 = c) as -> by congruence.
      split; [done|]. intros k v Hv. unfold char_attr, formatted. simpl.
      by rewrite attr_get_spread, Hv.
  - apply list_find_None in Hfind. rewrite Forall_forall in Hfind.
    split_and!; [done|done|].
    intros i c Hi Hkc _. destruct (Hfind c); [by eapply list_elem_of_lookup_2|].
    by apply addresses_key.
Qed.

Lemma remoteFormat_effect_witness :
  ¬ has_key id ([30], "S1") [elt "a" [10] "S1"; elt "b" [20] "S1"]
  ∧ remoteFormat [30] "S1" (mkAttrs (Some true) None None None None)
      [elt "a" [10] "S1"; elt "b" [20] "S1"]
    = [elt "a" [10] "S1"; elt "b" [20] "S1"].
Proof.
  assert (¬ has_key id ([30], "S1") [elt "a" [10] "S1"; elt "b" [20] "S1"])
    as Hno.
  { intros (c & Hin & Hk). rewrite !elem_of_cons, elem_of_nil in Hin.
    destruct Hin as [->|[->|[]]]; discriminate Hk. }
  split; [done|].
  exact (proj1 (proj2 (remoteFormat_effect [30] "S1"
                         (mkAttrs (Some true) None None None None) _)) Hno).
Defined.

(** ** Round trips *)

(** X11.  For elements from sites of the application: on a sorted
    array, an element with a fresh key that is inserted and then deleted
    leaves the array as it was, [remoteDelete] returning the index
    [remoteInsert] returned.  On a sorted array with no key twice, an
    element that is deleted and then inserted again is back at its
    index. *)
Theorem insert_delete_round_trip (chars : list CRDTChar) :
  app_sites id chars →
  (∀ e, appSite (siteId e) →
     sorted id chars → ¬ has_key id (key id e) chars →
     (remoteDelete id (position e) (siteId e)
        (remoteInsert id e chars).1).1 = chars
     ∧ (remoteInsert id e chars).2
       = Some (remoteDelete id (position e) (siteId e)
                 (remoteInsert id e chars).1).2)
  ∧ (∀ (i : nat) c, strictly_sorted id chars → chars !! i = Some c →
       (remoteDelete id (position c) (siteId c) chars).2 = Z.of_nat i
       ∧ remoteInsert id c
           (remoteDelete id (position c) (siteId c) chars).1
         = (chars, Some (Z.of_nat i))).
Proof.
  intros _. split.
  - intros e _ Hs Hk.
    destruct (remoteInsert_remoteDelete id chars e Hs Hk) as (i & Hi & Hd).
    simpl in Hd. rewrite Hd, Hi. done.
  - intros i c Hss Hi.
    destruct (remoteDelete_remoteInsert id chars i c Hss Hi) as [Hd Hins].
    simpl in Hd. rewrite Hd. done.
Qed.

Lemma insert_delete_round_trip_witness :
  app_sites id [elt "a" [10] "UID-1001"; elt "b" [20] "UID-1001"]
  ∧ strictly_sorted id [elt "a" [10] "UID-1001"; elt "b" [20] "UID-1001"]
  ∧ [elt "a" [10] "UID-1001"; elt "b" [20] "UID-1001"] !! 1%nat
    = Some (elt "b" [20] "UID-1001")
  ∧ remoteInsert id (elt "b" [20] "UID-1001")
      (remoteDelete id (position (elt "b" [20] "UID-1001"))
         (siteId (elt "b" [20] "UID-1001"))
         [elt "a" [10] "UID-1001"; elt "b" [20] "UID-1001"]).1
    = ([elt "a" [10] "UID-1001"; elt "b" [20] "UID-1001"], Some (Z.of_nat 1)).
Proof.
  assert (app_sites id [elt "a" [10] "UID-1001"; elt "b" [20] "UID-1001"])
    as Ha by (apply (bool_decide_unpack _); by vm_compute).
  assert (strictly_sorted id [elt "a" [10] "UID-1001"; elt "b" [20] "UID-1001"])
    as Hss.
  { repeat constructor. }
  assert ([elt "a" [10] "UID-1001"; elt "b" [20] "UID-1001"] !! 1%nat
          = Some (elt "b" [20] "UID-1001")) as Hi by reflexivity.
  split; [done|]. split; [done|]. split; [done|].
  exact (proj2 (proj2 (insert_delete_round_trip _ Ha) 1%nat _ Hss Hi)).
Defined.

(** X12.  The string key of [batchRemoteDelete],
    [`${siteId}:${position.join(',')}`], is the same for two elements
    exactly when they have the same identifier and the same site,
    whatever characters the site contains. *)
Theorem deletionKey_injective (site1 site2 : string) (pos1 pos2 : list Z) :
  deletionKey site1 pos1 = deletionKey site2 pos2
  ↔ pos1 = pos2 ∧ site1 = site2.
Proof.
  split; [apply deletionKey_inj|]. by intros [-> ->].
Qed.

Lemma deletionKey_injective_witness :
  deletionKey "S1" [10; 5] = deletionKey "S1" [10; 5]
  ∧ [10; 5] = [10; 5] ∧ "S1" = "S1".
Proof.
  assert (deletionKey "S1" [10; 5] = deletionKey "S1" [10; 5]) as H
    by reflexivity.
  split; [done|].
  exact (proj1 (deletionKey_injective "S1" "S1" [10; 5] [10; 5]) H).
Defined.

(** X13.  On every array, sorted or not, with or without keys held twice,
    [batchRemoteDelete] keeps exactly the elements whose key is not among
    the descriptors, in their order, and returns the number of elements it
    removed; a second call with the same descriptors removes nothing. *)
Theorem batchRemoteDelete_any_array (ops : list (list Z * string))
    (chars : list CRDTChar) :
  (batchRemoteDelete id ops chars).1 = filter (λ c, key id c ∉ ops) chars
  ∧ (batchRemoteDelete id ops chars).1 `sublist_of` chars
  ∧ (∀ c, c ∈ (batchRemoteDelete id ops chars).1
          ↔ c ∈ chars ∧ key id c ∉ ops)
  ∧ (batchRemoteDelete id ops chars).2
    = Z.of_nat (length chars)
      - Z.of_nat (length (batchRemoteDelete id ops chars).1)
  ∧ batchRemoteDelete id ops (batchRemoteDelete id ops chars).1
    = ((batchRemoteDelete id ops chars).1, 0).
Proof.
  rewrite !batchRemoteDelete_filter. simpl. split_and!; try done.
  - apply sublist_filter.
  - intros c. rewrite list_elem_of_filter. tauto.
  - rewrite list_filter_filter.
    assert (filter (λ c, (key id c ∉ ops) ∧ (key id c ∉ ops)) chars
            = filter (λ c, key id c ∉ ops) chars) as ->
      by (apply filter_equiv; intros; tauto).
    f_equal. lia.
Qed.

Lemma batchRemoteDelete_any_array_witness :
  (elt "a" [10] "S1" ∈ [elt "a" [10] "S1"; elt "b" [10] "S1"]
   ∧ key id (elt "a" [10] "S1") ∉ [([20], "S1")])
  ∧ elt "a" [10] "S1"
    ∈ (batchRemoteDelete id [([20], "S1")]
         [elt "a" [10] "S1"; elt "b" [10] "S1"]).1.
Proof.
  assert (elt "a" [10] "S1" ∈ [elt "a" [10] "S1"; elt "b" [10] "S1"]
          ∧ key id (elt "a" [10] "S1") ∉ [([20], "S1")]) as H.
  { split; [left|]. intros [?|[]%elem_of_nil]%elem_of_cons. discriminate. }
  split; [done|].
  exact (proj2 (proj1 (proj2 (proj2 (batchRemoteDelete_any_array
                                       [([20], "S1")]
                                       [elt "a" [10] "S1"; elt "b" [10] "S1"])))
                      (elt "a" [10] "S1")) H).
Defined.

(** X14.  Loading what [loadState] produced changes nothing more; a
    missing snapshot empties the array; and a snapshot is loaded with as
    many elements as it has. *)
Theorem loadState_idempotent (snapshot : list CRDTChar) :
  loadState (Some (loadState (Some snapshot))) = loadState (Some snapshot)
  ∧ loadState None = []
  ∧ length (loadState (Some snapshot)) = length snapshot.
Proof.
  split_and!.
  - apply loadState_sorted_id, loadState_sorted.
  - reflexivity.
  - apply Permutation_length, loadState_perm.
Qed.

(** * Further properties of the editor *)

(** ** The undo and redo stacks *)

Lemma pop_snoc {A} (stack : list A) (top : A) :
  pop (stack ++ [top]) = Some (top, stack).
Proof. unfold pop. by rewrite reverse_snoc, reverse_involutive. Qed.

Lemma pop_nil {A} : pop (@nil A) = None.
Proof. done. Qed.

Lemma pop_Some {A} (stack rest : list A) (top : A) :
  pop stack = Some (top, rest) ↔ stack = rest ++ [top].
Proof.
  split; [|intros ->; apply pop_snoc].
  destruct stack as [|x stack _] using rev_ind; [done|].
  rewrite pop_snoc. by intros [= -> ->].
Qed.

Lemma pop_None {A} (stack : list A) : pop stack = None ↔ stack = [].
Proof.
  split; [|by intros ->].
  destruct stack as [|x stack _] using rev_ind; [done|].
  by rewrite pop_snoc.
Qed.

(** X15.  [pushToUndo] ignores an empty batch, and does not clear the
    redo stack then.  A batch with entries becomes the top of the undo
    stack and empties the redo stack; the undo stack never grows beyond
    100 batches, the oldest one being dropped; the document is not
    touched. *)
Theorem pushToUndo_history (batch : list UndoOperation) (ed : Editor) :
  (batch = [] → pushToUndo batch ed = ed)
  ∧ (batch ≠ [] →
     redoStack (pushToUndo batch ed) = []
     ∧ pop (undoStack (pushToUndo batch ed))
       = Some (batch,
               if decide (100 ≤ length (undoStack ed))%nat
               then drop 1 (undoStack ed) else undoStack ed)
     ∧ ((length (undoStack ed) ≤ 100)%nat →
        (length (undoStack (pushToUndo batch ed)) ≤ 100)%nat)
     ∧ store (pushToUndo batch ed) = store ed
     ∧ rawChars (pushToUndo batch ed) = rawChars ed).
Proof.
  unfold pushToUndo. split.
  - by intros ->.
  - intros Hne. rewrite decide_False by by destruct batch.
    simpl. rewrite length_app. simpl. split_and!; try done.
    + repeat case_decide; try lia.
      * destruct (undoStack ed) as [|b0 stack]; [simpl in *; lia|].
        simpl. rewrite drop_0. apply pop_snoc.
      * apply pop_snoc.
    + intros Hlen. case_decide.
      * rewrite length_drop, length_app. simpl. lia.
      * rewrite length_app. simpl. lia.
Qed.

Lemma pushToUndo_history_witness :
  [mkUndo UDelete 0 None] ≠ []
  ∧ redoStack (pushToUndo [mkUndo UDelete 0 None]
                 (mkEditor [elt "a" [10] "S1"] [] [] [[mkUndo UInsert 0 None]]
                           noAttrs))
    = [].
Proof.
  assert ([mkUndo UDelete 0 None] ≠ []) as H by discriminate.
  split; [done|].
  exact (proj1 (proj2 (pushToUndo_history [mkUndo UDelete 0 None]
                         (mkEditor [elt "a" [10] "S1"] [] []
                                   [[mkUndo UInsert 0 None]] noAttrs)) H)).
Defined.

(** ** Replaying deletes and inserts *)

Section Replay.
Context {E : Type} (deref : E → CRDTChar).

#[local] Abbreviation key := (key deref).
#[local] Abbreviation sorted := (sorted deref).
#[local] Abbreviation strictly_sorted := (strictly_sorted deref).
#[local] Abbreviation unique_keys := (unique_keys deref).
#[local] Abbreviation has_key := (has_key deref).

(** Elements with fresh, distinct keys, inserted one after the other. *)
Lemma reinsert_all (L cur : list E) :
  strictly_sorted cur → NoDup (key <$> L) →
  (∀ a, a ∈ L → ¬ has_key (key a) cur) →
  strictly_sorted (foldl (λ r a, (remoteInsert deref a r).1) cur L)
  ∧ foldl (λ r a, (remoteInsert deref a r).1) cur L ≡ₚ L ++ cur.
Proof.
  revert cur. induction L as [|a L IH]; intros cur Hss Hnd Hfresh; [done|].
  simpl. apply NoDup_cons in Hnd as [Ha Hnd].
  pose proof (strictly_sorted_sorted _ _ Hss) as Hs.
  assert ((remoteInsert deref a cur).1 ≡ₚ a :: cur) as Hperm.
  { apply remoteInsert_perm; [done|]. apply Hfresh. left. }
  destruct (IH (remoteInsert deref a cur).1) as [Hss' Hperm'].
  - by apply remoteInsert_strictly_sorted.
  - done.
  - intros a' Ha' (c & Hc & Hk). rewrite Hperm in Hc.
    apply elem_of_cons in Hc as [->|Hc].
    + apply Ha. rewrite Hk. by apply list_elem_of_fmap_2.
    + apply (Hfresh a'); [by right|]. by exists c.
  - split; [done|]. rewrite Hperm', Hperm. by rewrite Permutation_middle.
Qed.

(** The elements of a segment of a strictly sorted array, taken out and
    inserted again in any order, give the array back. *)
Lemma reinsert_segment (l1 seg l3 L : list E) :
  strictly_sorted (l1 ++ seg ++ l3) → L ≡ₚ seg →
  foldl (λ r a, (remoteInsert deref a r).1) (l1 ++ l3) L = l1 ++ seg ++ l3.
Proof.
  intros Hss Hperm.
  pose proof (strictly_sorted_unique_keys _ _ Hss) as Hu.
  assert (l1 ++ l3 `sublist_of` l1 ++ seg ++ l3) as Hsub.
  { apply sublist_app; [done|]. by apply sublist_inserts_l. }
  destruct (reinsert_all L (l1 ++ l3)) as [Hss' Hperm'].
  - by eapply StronglySorted_sublist.
  - apply (unique_keys_perm deref seg L); [done|].
    eapply (unique_keys_sublist deref); [|exact Hu].
    apply sublist_inserts_l. by apply sublist_inserts_r.
  - intros a Ha (c & Hc & Hk). rewrite Hperm in Ha.
    unfold unique_keys in Hu. rewrite !fmap_app in Hu.
    apply NoDup_app in Hu as (_ & H1 & Hu).
    apply NoDup_app in Hu as (_ & H23 & _).
    apply elem_of_app in Hc as [Hc|Hc].
    + apply (H1 (key c)); [by apply list_elem_of_fmap_2|].
      apply elem_of_app. left. rewrite Hk. by apply list_elem_of_fmap_2.
    + apply (H23 (key a)); [by apply list_elem_of_fmap_2|].
      rewrite <-Hk. by apply list_elem_of_fmap_2.
  - apply (strictly_sorted_perm_eq deref); [done|done|].
    rewrite Hperm', Hperm. by rewrite (Permutation_app_swap_app seg l1 l3).
Qed.

(** With no key twice, deleting the keys of a list of elements one after
    the other leaves the elements with other keys. *)
Lemma delete_all_filter (L cur : list E) :
  unique_keys cur →
  foldl (λ r a, (remoteDelete deref (position (deref a)) (siteId (deref a))
                   r).1) cur L
  = filter (λ c, key c ∉ key <$> L) cur.
Proof.
  revert cur. induction L as [|a L IH]; intros cur Hu; simpl.
  - symmetry. apply filter_all, Forall_forall. intros c _ Hin. by inv Hin.
  - rewrite (remoteDelete_filter deref) by done.
    rewrite IH by by apply unique_keys_filter.
    rewrite list_filter_filter. apply filter_equiv. intros c _.
    rewrite not_elem_of_cons. tauto.
Qed.

End Replay.

(** ** Undo and redo of deletions and insertions *)

Lemma withRawChars_twice ed r1 r2 :
  withRawChars (withRawChars ed r1) r2 = withRawChars ed r2.
Proof. done. Qed.

(** The [delete] entries of a batch, undone: one [remoteInsert] each. *)
Lemma undo_delete_entries (L : list nat) ed acc :
  foldl undoEntry (ed, acc) ((λ a, mkUndo UDelete a None) <$> L)
  = (withRawChars ed
       (foldl (λ r a, (remoteInsert (objectAt (store ed)) a r).1)
              (rawChars ed) L),
     reverse ((λ a, mkUndo UDelete a None) <$> L) ++ acc).
Proof.
  revert ed acc. induction L as [|a L IH]; intros ed acc.
  - by destruct ed.
  - rewrite fmap_cons. simpl. rewrite IH. simpl.
    by rewrite reverse_cons, <-app_assoc.
Qed.

(** The [delete] entries of a batch, redone: one [remoteDelete] each. *)
Lemma redo_delete_entries (L : list nat) ed acc :
  foldl redoEntry (ed, acc) ((λ a, mkUndo UDelete a None) <$> L)
  = (withRawChars ed
       (foldl (λ r a, (remoteDelete (objectAt (store ed))
                         (position (objectAt (store ed) a))
                         (siteId (objectAt (store ed) a)) r).1)
              (rawChars ed) L),
     acc ++ ((λ a, mkUndo UDelete a None) <$> L)).
Proof.
  revert ed acc. induction L as [|a L IH]; intros ed acc.
  - destruct ed. by rewrite app_nil_r.
  - rewrite fmap_cons. simpl. rewrite IH. simpl.
    by rewrite <-app_assoc.
Qed.

(** What [backspace] does on a strictly sorted array: the batch it
    records and the array it leaves. *)
Lemma backspace_removes (start end_ : nat) (ed : Editor) :
  strictly_sorted (objectAt (store ed)) (rawChars ed) →
  (start < end_ ∨ (start = end_ ∧ 0 < start))%nat →
  (end_ ≤ length (rawChars ed))%nat →
  let lo := if decide (start = end_) then (start - 1)%nat else start in
  backspace start end_ ed
  = pushToUndo ((λ a, mkUndo UDelete a None)
                  <$> take (end_ - lo) (drop lo (rawChars ed)))
               (withRawChars ed (take lo (rawChars ed)
                                 ++ drop end_ (rawChars ed))).
Proof.
  intros Hss Hsel Hend lo. unfold backspace.
  destruct (decide (start = end_)) as [<-|Hne].
  - rewrite decide_True by (split; [done|lia]).
    destruct (lookup_lt_is_Some_2 (rawChars ed) lo) as [a Ha];
      [subst lo; lia|].
    assert (rawChars ed !!? (Z.of_nat start - 1) = Some a) as Ha'.
    { apply lookupZ_Some. split; [lia|].
      by replace (Z.to_nat (Z.of_nat start - 1)) with lo by (subst lo; lia). }
    rewrite Ha'. unfold localDelete. rewrite Ha'. simpl.
    destruct (remoteDelete_remoteInsert (objectAt (store ed)) (rawChars ed)
                lo a Hss Ha) as [-> _]. simpl.
    replace (start - lo)%nat with 1%nat by (subst lo; lia).
    rewrite delete_take_drop.
    replace (S lo) with start by (subst lo; lia).
    do 2 f_equal.
    by rewrite (drop_S _ a lo) by done.
  - rewrite decide_False by lia. rewrite decide_True by done.
    rewrite (localBatchDelete_valid (objectAt (store ed))) by lia.
    rewrite !Nat2Z.id.
    replace (Z.to_nat (Z.of_nat end_ - Z.of_nat start))
      with (end_ - start)%nat by lia.
    unfold deleteEntries. rewrite <-list_fmap_compose. done.
Qed.

Lemma pushToUndo_nonempty (batch : list UndoOperation) (ed : Editor) :
  batch ≠ [] →
  pushToUndo batch ed
  = mkEditor (store ed) (rawChars ed)
      ((if decide (100 ≤ length (undoStack ed))%nat
        then drop 1 (undoStack ed) else undoStack ed) ++ [batch])
      [] (currentAttributes ed).
Proof.
  intros Hne. unfold pushToUndo. rewrite decide_False by by destruct batch.
  f_equal. rewrite length_app. simpl. repeat case_decide; try lia; [|done].
  destruct (undoStack ed) as [|b0 stack]; [simpl in *; lia|].
  simpl. by rewrite !drop_0.
Qed.

(** A batch of [delete] entries for a segment of a strictly sorted array,
    pushed, undone and redone. *)
Lemma undo_redo_delete_batch (l1 seg l3 : list nat) (ed : Editor) :
  rawChars ed = l1 ++ seg ++ l3 → seg ≠ [] →
  strictly_sorted (objectAt (store ed)) (rawChars ed) →
  ∃ rest,
    handleUndo (pushToUndo ((λ a, mkUndo UDelete a None) <$> seg)
                           (withRawChars ed (l1 ++ l3)))
    = mkEditor (store ed) (rawChars ed) rest
               [(λ a, mkUndo UDelete a None) <$> seg] (currentAttributes ed)
    ∧ handleRedo (mkEditor (store ed) (rawChars ed) rest
                    [(λ a, mkUndo UDelete a None) <$> seg]
                    (currentAttributes ed))
      = mkEditor (store ed) (l1 ++ l3)
                 (rest ++ [(λ a, mkUndo UDelete a None) <$> seg]) []
                 (currentAttributes ed).
Proof.
  intros Hraw Hne Hss.
  exists (if decide (100 ≤ length (undoStack ed))%nat
          then drop 1 (undoStack ed) else undoStack ed).
  rewrite pushToUndo_nonempty by by destruct seg.
  cbn [withRawChars store rawChars undoStack redoStack currentAttributes].
  split.
  - unfold handleUndo.
    cbn [store rawChars undoStack redoStack currentAttributes].
    rewrite pop_snoc, <-fmap_reverse, undo_delete_entries.
    cbn [withRawChars store rawChars undoStack redoStack currentAttributes].
    rewrite fmap_reverse, reverse_involutive, app_nil_r, app_nil_l.
    rewrite (reinsert_segment _ l1 seg l3); [by rewrite Hraw| |].
    + by rewrite <-Hraw.
    + apply reverse_Permutation.
  - unfold handleRedo.
    cbn [store rawChars undoStack redoStack currentAttributes].
    change [(λ a, mkUndo UDelete a None) <$> seg]
      with ([] ++ [(λ a, mkUndo UDelete a None) <$> seg]).
    rewrite pop_snoc, redo_delete_entries.
    cbn [withRawChars store rawChars undoStack redoStack currentAttributes].
    rewrite app_nil_l.
    rewrite (delete_all_filter (objectAt (store ed)))
      by by apply strictly_sorted_unique_keys.
    rewrite Hraw, (filter_segment_keys (objectAt (store ed))); [done|].
    rewrite <-Hraw. by apply strictly_sorted_unique_keys.
Qed.

(** X16.  On an array that is sorted with no key twice, of elements
    from sites of the application, a Backspace that removes something (a
    selection, or the character before a collapsed cursor) is undone
    exactly: [handleUndo] restores the array, with the same objects at the
    same indices, and [handleRedo] removes the same elements again. *)
Theorem undo_redo_backspace (start end_ : nat) (ed : Editor) :
  app_sites (objectAt (store ed)) (rawChars ed) →
  strictly_sorted (objectAt (store ed)) (rawChars ed) →
  (start < end_ ∨ (start = end_ ∧ 0 < start))%nat →
  (end_ ≤ length (rawChars ed))%nat →
  rawChars (backspace start end_ ed)
  = take (if decide (start = end_) then start - 1 else start)%nat (rawChars ed)
    ++ drop end_ (rawChars ed)
  ∧ rawChars (handleUndo (backspace start end_ ed)) = rawChars ed
  ∧ store (handleUndo (backspace start end_ ed)) = store ed
  ∧ editorText (handleUndo (backspace start end_ ed)) = editorText ed
  ∧ rawChars (handleRedo (handleUndo (backspace start end_ ed)))
    = rawChars (backspace start end_ ed).
Proof.
  intros _ Hss Hsel Hend.
  rewrite (backspace_removes start end_ ed Hss Hsel Hend).
  set (lo := if decide (start = end_) then (start - 1)%nat else start).
  assert (lo < end_)%nat as Hlo by (subst lo; case_decide; lia).
  set (seg := take (end_ - lo) (drop lo (rawChars ed))).
  assert (rawChars ed = take lo (rawChars ed) ++ seg ++ drop end_ (rawChars ed))
    as Hraw.
  { subst seg. rewrite <-(segment_split (rawChars ed) lo (end_ - lo)) at 1.
    by replace (lo + (end_ - lo))%nat with end_ by lia. }
  assert (seg ≠ []) as Hne.
  { intros Hnil. apply (f_equal length) in Hnil. subst seg.
    rewrite length_take, length_drop in Hnil. simpl in Hnil. lia. }
  destruct (undo_redo_delete_batch _ seg _ ed Hraw Hne Hss)
    as (rest & -> & ->).
  rewrite pushToUndo_nonempty by by destruct seg.
  done.
Qed.

Lemma undo_redo_backspace_witness :
  app_sites (objectAt [elt "a" [10] "UID-1001"; elt "b" [20] "UID-1001"])
            [0%nat; 1%nat]
  ∧ strictly_sorted (objectAt [elt "a" [10] "UID-1001"; elt "b" [20] "UID-1001"])
                    [0%nat; 1%nat]
  ∧ (0 < 2 ∨ (0 = 2 ∧ 0 < 0))%nat
  ∧ rawChars (handleUndo
                (backspace 0 2
                   (mkEditor [elt "a" [10] "UID-1001"; elt "b" [20] "UID-1001"]
                             [0%nat; 1%nat] [] [] noAttrs)))
    = rawChars (mkEditor [elt "a" [10] "UID-1001"; elt "b" [20] "UID-1001"]
                         [0%nat; 1%nat] [] [] noAttrs).
Proof.
  assert (app_sites (objectAt [elt "a" [10] "UID-1001"; elt "b" [20] "UID-1001"])
                    [0%nat; 1%nat]) as Ha
    by (apply (bool_decide_unpack _); by vm_compute).
  assert (strictly_sorted
            (objectAt [elt "a" [10] "UID-1001"; elt "b" [20] "UID-1001"])
            [0%nat; 1%nat]) as Hss.
  { repeat constructor. }
  assert (0 < 2 ∨ (0 = 2 ∧ 0 < 0))%nat as Hsel by (left; lia).
  assert (2 ≤ length [0%nat; 1%nat])%nat as Hend by (simpl; lia).
  split; [done|]. split; [done|]. split; [done|].
  exact (proj1 (proj2 (undo_redo_backspace 0 2
                         (mkEditor [elt "a" [10] "UID-1001";
                                    elt "b" [20] "UID-1001"]
                                   [0%nat; 1%nat] [] [] noAttrs)
                         Ha Hss Hsel Hend))).
Defined.

(** ** Stores that agree on the elements of an array *)

Lemma objectAt_app_l (objects more : list CRDTChar) (a : nat) :
  (a < length objects)%nat → objectAt (objects ++ more) a = objectAt objects a.
Proof. intros Ha. unfold objectAt. by rewrite lookup_total_app_l. Qed.

Lemma objectAt_app_new (objects : list CRDTChar) (c : CRDTChar) :
  objectAt (objects ++ [c]) (length objects) = c.
Proof.
  unfold objectAt. rewrite lookup_total_app_r by lia.
  by rewrite Nat.sub_diag.
Qed.

Lemma StronglySorted_ext_in {A} (R1 R2 : relation A) (l : list A) :
  (∀ x y, x ∈ l → y ∈ l → R1 x y → R2 x y) →
  StronglySorted R1 l → StronglySorted R2 l.
Proof.
  intros Hext Hs. induction Hs as [|x l Hs IH Hx]; constructor.
  - apply IH. intros y z Hy Hz. apply Hext; by right.
  - rewrite Forall_forall in Hx. apply Forall_forall. intros y Hy.
    apply Hext; [left|by right|by apply Hx].
Qed.

Section Agree.
Context {E : Type} (d1 d2 : E → CRDTChar).

Lemma comparePositions_agree (l : list E) a b :
  (∀ x, x ∈ l → key d1 x = key d2 x) → a ∈ l → b ∈ l →
  comparePositions d2 a b = comparePositions d1 a b.
Proof.
  intros Hk Ha Hb. rewrite !comparePositions_keys.
  by rewrite (Hk a Ha), (Hk b Hb).
Qed.

Lemma sorted_agree (l : list E) :
  (∀ x, x ∈ l → key d1 x = key d2 x) → sorted d1 l → sorted d2 l.
Proof.
  intros Hk. apply StronglySorted_ext_in. intros a b Ha Hb.
  unfold char_le. by rewrite (comparePositions_agree l).
Qed.

Lemma strictly_sorted_agree (l : list E) :
  (∀ x, x ∈ l → key d1 x = key d2 x) →
  strictly_sorted d1 l → strictly_sorted d2 l.
Proof.
  intros Hk. apply StronglySorted_ext_in. intros a b Ha Hb.
  unfold char_lt. by rewrite (comparePositions_agree l).
Qed.

Lemma text_agree (l : list E) :
  (∀ x, x ∈ l → value (d1 x) = value (d2 x)) → text d1 l = text d2 l.
Proof.
  intros Hv. unfold text. f_equal. apply list_fmap_ext.
  intros i x Hx. apply Hv. by eapply list_elem_of_lookup_2.
Qed.

End Agree.

(** A store with more objects at its end shows the same array. *)
Lemma strictly_sorted_grow (objects more : list CRDTChar) (refs : list nat) :
  Forall (λ a, (a < length objects)%nat) refs →
  strictly_sorted (objectAt objects) refs →
  strictly_sorted (objectAt (objects ++ more)) refs.
Proof.
  intros Hvalid. apply strictly_sorted_agree. intros a Ha.
  rewrite Forall_forall in Hvalid. unfold key.
  by rewrite objectAt_app_l by by apply Hvalid.
Qed.

Lemma sorted_grow (objects more : list CRDTChar) (refs : list nat) :
  Forall (λ a, (a < length objects)%nat) refs →
  sorted (objectAt objects) refs →
  sorted (objectAt (objects ++ more)) refs.
Proof.
  intros Hvalid. apply sorted_agree. intros a Ha.
  rewrite Forall_forall in Hvalid. unfold key.
  by rewrite objectAt_app_l by by apply Hvalid.
Qed.

Lemma text_grow (objects more : list CRDTChar) (refs : list nat) :
  Forall (λ a, (a < length objects)%nat) refs →
  text (objectAt (objects ++ more)) refs = text (objectAt objects) refs.
Proof.
  intros Hvalid. apply text_agree. intros a Ha.
  rewrite Forall_forall in Hvalid.
  by rewrite objectAt_app_l by by apply Hvalid.
Qed.

(** What [insertChar] does: the batch it records and the editor it
    leaves.  The selection is removed, and the new object is inserted
    into what is left. *)
Lemma insertChar_shape (user_id val : string) (start end_ : nat) (ed : Editor) :
  (start ≤ end_ ≤ length (rawChars ed))%nat →
  ∃ char,
    value char = val ∧ siteId char = user_id
    ∧ insertChar user_id val start end_ ed
      = pushToUndo
          (((λ a, mkUndo UDelete a None)
              <$> take (end_ - start) (drop start (rawChars ed)))
           ++ [mkUndo UInsert (length (store ed)) None])
          (mkEditor (store ed ++ [char])
             (remoteInsert (objectAt (store ed ++ [char])) (length (store ed))
                (take start (rawChars ed) ++ drop end_ (rawChars ed))).1
             (undoStack ed) (redoStack ed) (currentAttributes ed)).
Proof.
  intros Hrange. unfold insertChar.
  destruct (decide (start ≠ end_)) as [Hne|Heq].
  - rewrite (localBatchDelete_valid (objectAt (store ed))) by lia.
    rewrite !Nat2Z.id.
    replace (Z.to_nat (Z.of_nat end_ - Z.of_nat start))
      with (end_ - start)%nat by lia.
    unfold deleteEntries. rewrite <-list_fmap_compose.
    unfold editorLocalInsert.
    cbn [withRawChars store rawChars undoStack redoStack currentAttributes].
    eexists. split_and!; [| |reflexivity]; done.
  - assert (start = end_) as <- by (destruct (decide (start = end_)); tauto).
    rewrite Nat.sub_diag, take_0, take_drop. unfold editorLocalInsert.
    eexists. split_and!; [| |reflexivity]; done.
Qed.

(** X17.  On an array that is sorted with no key twice, the user and
    the elements having site identifiers of the application, typing a
    character over a selection (or at a collapsed cursor) that makes the
    array one element longer than what the selection leaves is undone
    exactly: [handleUndo] restores the array and the text, the object of
    the typed character staying in the store, unreferenced; [handleRedo]
    gives the array of after the action again. *)
Theorem undo_redo_insertChar (user_id val : string) (start end_ : nat)
    (ed : Editor) :
  appSite user_id →
  app_sites (objectAt (store ed)) (rawChars ed) →
  strictly_sorted (objectAt (store ed)) (rawChars ed) →
  Forall (λ a, (a < length (store ed))%nat) (rawChars ed) →
  (start ≤ end_ ≤ length (rawChars ed))%nat →
  length (rawChars (insertChar user_id val start end_ ed))
  = S (length (rawChars ed) - (end_ - start)) →
  rawChars (handleUndo (insertChar user_id val start end_ ed)) = rawChars ed
  ∧ editorText (handleUndo (insertChar user_id val start end_ ed))
    = editorText ed
  ∧ rawChars (handleRedo (handleUndo (insertChar user_id val start end_ ed)))
    = rawChars (insertChar user_id val start end_ ed).
Proof.
  intros _ _ Hss Hvalid Hrange Hgrew.
  destruct (insertChar_shape user_id val start end_ ed Hrange)
    as (char & _ & _ & Hshape).
  rewrite Hshape in *. clear Hshape.
  set (objects := store ed ++ [char]) in *.
  set (a := length (store ed)) in *.
  set (l1 := take start (rawChars ed)) in *.
  set (l3 := drop end_ (rawChars ed)) in *.
  set (seg := take (end_ - start) (drop start (rawChars ed))) in *.
  set (mkD := λ a : nat, mkUndo UDelete a None) in *.
  assert (rawChars ed = l1 ++ seg ++ l3) as Hraw.
  { subst l1 seg l3.
    rewrite <-(segment_split (rawChars ed) start (end_ - start)) at 1.
    by replace (start + (end_ - start))%nat with end_ by lia. }
  assert (strictly_sorted (objectAt objects) (rawChars ed)) as Hss'
    by by apply strictly_sorted_grow.
  assert (strictly_sorted (objectAt objects) (l1 ++ l3)) as Hrefs.
  { eapply StronglySorted_sublist; [|exact Hss']. rewrite Hraw.
    apply sublist_app; [done|]. by apply sublist_inserts_l. }
  rewrite pushToUndo_nonempty in * by by destruct (mkD <$> seg).
  cbn [store rawChars undoStack redoStack currentAttributes] in *.
  set (rest := if decide (100 ≤ length (undoStack ed))%nat
               then drop 1 (undoStack ed) else undoStack ed) in *.
  assert (¬ has_key (objectAt objects) (key (objectAt objects) a) (l1 ++ l3))
    as Hfresh.
  { intros Hk.
    rewrite (remoteInsert_present (objectAt objects)) in Hgrew;
      [|by apply strictly_sorted_sorted|done].
    simpl in Hgrew. subst l1 l3.
    rewrite length_app, length_take, length_drop in Hgrew. lia. }
  destruct (remoteInsert_remoteDelete (objectAt objects) (l1 ++ l3) a)
    as (i & _ & Hdel); [by apply strictly_sorted_sorted|done|].
  set (raw2 := (remoteInsert (objectAt objects) a (l1 ++ l3)).1) in *.
  assert (handleUndo
            (mkEditor objects raw2
               (rest ++ [(mkD <$> seg) ++ [mkUndo UInsert a None]]) []
               (currentAttributes ed))
          = mkEditor objects (rawChars ed) rest
              [(mkD <$> seg) ++ [mkUndo UInsert a None]]
              (currentAttributes ed)) as ->.
  { unfold handleUndo.
    cbn [store rawChars undoStack redoStack currentAttributes].
    rewrite pop_snoc, reverse_app, reverse_singleton. simpl foldl.
    cbn [utype uchar store rawChars undoStack redoStack currentAttributes
         withRawChars].
    rewrite Hdel. cbn [fst].
    rewrite <-fmap_reverse, undo_delete_entries.
    cbn [withRawChars store rawChars undoStack redoStack currentAttributes].
    rewrite fmap_reverse, reverse_involutive, app_nil_l.
    rewrite (reinsert_segment _ l1 seg l3);
      [by rewrite Hraw|by rewrite <-Hraw|apply reverse_Permutation]. }
  cbn [store rawChars undoStack redoStack currentAttributes].
  split_and!; [done| |].
  - unfold editorText.
    cbn [store rawChars undoStack redoStack currentAttributes].
    by apply text_grow.
  - unfold handleRedo.
    cbn [store rawChars undoStack redoStack currentAttributes].
    change [(mkD <$> seg) ++ [mkUndo UInsert a None]]
      with ([] ++ [(mkD <$> seg) ++ [mkUndo UInsert a None]]).
    rewrite pop_snoc, foldl_app, redo_delete_entries. simpl foldl.
    cbn [utype uchar store rawChars undoStack redoStack currentAttributes
         withRawChars].
    rewrite (delete_all_filter (objectAt objects))
      by by apply strictly_sorted_unique_keys.
    rewrite Hraw at 1. rewrite (filter_segment_keys (objectAt objects)); [done|].
    rewrite <-Hraw. by apply strictly_sorted_unique_keys.
Qed.

Lemma undo_redo_insertChar_witness :
  appSite "UID-1002"
  ∧ app_sites (objectAt [elt "a" [10] "UID-1001"; elt "b" [20] "UID-1001"])
              [0%nat; 1%nat]
  ∧ strictly_sorted (objectAt [elt "a" [10] "UID-1001"; elt "b" [20] "UID-1001"])
                    [0%nat; 1%nat]
  ∧ (1 ≤ 1 ≤ length [0%nat; 1%nat])%nat
  ∧ rawChars (handleUndo
                (insertChar "UID-1002" "x" 1 1
                   (mkEditor [elt "a" [10] "UID-1001"; elt "b" [20] "UID-1001"]
                             [0%nat; 1%nat] [] [] noAttrs)))
    = rawChars (mkEditor [elt "a" [10] "UID-1001"; elt "b" [20] "UID-1001"]
                         [0%nat; 1%nat] [] [] noAttrs).
Proof.
  assert (appSite "UID-1002") as Hu
    by (apply (bool_decide_unpack _); by vm_compute).
  assert (app_sites (objectAt [elt "a" [10] "UID-1001"; elt "b" [20] "UID-1001"])
                    [0%nat; 1%nat]) as Ha
    by (apply (bool_decide_unpack _); by vm_compute).
  assert (strictly_sorted
            (objectAt [elt "a" [10] "UID-1001"; elt "b" [20] "UID-1001"])
            [0%nat; 1%nat]) as Hss.
  { repeat constructor. }
  assert (1 ≤ 1 ≤ length [0%nat; 1%nat])%nat as Hrange by (simpl; lia).
  split; [done|]. split; [done|]. split; [done|]. split; [done|].
  refine (proj1 (undo_redo_insertChar "UID-1002" "x" 1 1
                   (mkEditor [elt "a" [10] "UID-1001"; elt "b" [20] "UID-1001"]
                             [0%nat; 1%nat] [] [] noAttrs)
                   Hu Ha Hss _ Hrange _)).
  - repeat constructor.
  - by vm_compute.
Defined.

(** * The invariant of the editor *)

Lemma valid_batch_grow (objects objects' : list CRDTChar) batch :
  (length objects ≤ length objects')%nat →
  valid_batch objects batch → valid_batch objects' batch.
Proof.
  intros Hlen Hb. unfold valid_batch in *. eapply Forall_impl; [done|].
  intros e He. simpl in *. lia.
Qed.

Lemma valid_stack_grow (objects objects' : list CRDTChar) stack :
  (length objects ≤ length objects')%nat →
  valid_stack objects stack → valid_stack objects' stack.
Proof.
  intros Hlen Hs. unfold valid_stack in *. eapply Forall_impl; [done|].
  intros batch. by apply valid_batch_grow.
Qed.

Lemma key_objectAt_insert (objects : list CRDTChar) (a b : nat) patch :
  key (objectAt (<[a := formatted patch (objectAt objects a)]> objects)) b
  = key (objectAt objects) b.
Proof.
  unfold key, objectAt.
  destruct (decide (a = b)) as [->|Hne].
  - destruct (decide (b < length objects)%nat) as [Hlt|Hge].
    + by rewrite list_lookup_total_insert_eq by done.
    + by rewrite list_insert_ge by lia.
  - by rewrite list_lookup_total_insert_ne by done.
Qed.

Lemma value_objectAt_insert (objects : list CRDTChar) (a b : nat) patch :
  value (objectAt (<[a := formatted patch (objectAt objects a)]> objects) b)
  = value (objectAt objects b).
Proof.
  unfold objectAt.
  destruct (decide (a = b)) as [->|Hne].
  - destruct (decide (b < length objects)%nat) as [Hlt|Hge].
    + by rewrite list_lookup_total_insert_eq by done.
    + by rewrite list_insert_ge by lia.
  - by rewrite list_lookup_total_insert_ne by done.
Qed.

(** The addresses [loadState] sorts are those of the copies. *)
Lemma objectAt_seq_new (objects copies : list CRDTChar) :
  objectAt (objects ++ copies) <$> seq (length objects) (length copies)
  = copies.
Proof.
  apply list_eq. intros i. rewrite list_lookup_fmap.
  destruct (decide (i < length copies)%nat) as [Hlt|Hge].
  - rewrite lookup_seq_lt by done. simpl. unfold objectAt.
    rewrite lookup_total_app_r by lia.
    replace (length objects + i - length objects)%nat with i by lia.
    destruct (lookup_lt_is_Some_2 copies i Hlt) as [c Hc].
    rewrite Hc. f_equal. by apply list_lookup_total_correct.
  - rewrite lookup_seq_ge by lia. simpl. symmetry.
    apply lookup_ge_None. lia.
Qed.

Section Invariant.
Variable ordered : (nat → CRDTChar) → list nat → Prop.
Variable snapshot_ok : list CRDTChar → Prop.
Hypothesis ordered_agree :
  ∀ (d1 d2 : nat → CRDTChar) l,
    (∀ x, x ∈ l → key d1 x = key d2 x) → ordered d1 l → ordered d2 l.
Hypothesis ordered_sublist :
  ∀ (d : nat → CRDTChar) l1 l2,
    l1 `sublist_of` l2 → ordered d l2 → ordered d l1.
Hypothesis ordered_insert :
  ∀ (d : nat → CRDTChar) a l,
    ordered d l → ordered d (remoteInsert d a l).1.
Hypothesis ordered_load :
  ∀ (objects l : list CRDTChar),
    snapshot_ok l →
    ordered (objectAt (objects ++ (copyChar <$> l)))
            (sortChars (objectAt (objects ++ (copyChar <$> l)))
                       (seq (length objects) (length (copyChar <$> l)))).
Hypothesis snapshot_ok_nil : snapshot_ok [].
Hypothesis snapshot_ok_imported :
  ∀ user_id attrs text, snapshot_ok (importedChars user_id attrs text).

#[local] Abbreviation doc_wf := (doc_wf_with ordered).
#[local] Abbreviation wf := (editor_wf_with ordered).

Lemma doc_sublist objects refs refs' :
  refs' `sublist_of` refs → doc_wf objects refs → doc_wf objects refs'.
Proof.
  intros Hsub [Hv Ho]. split.
  - unfold valid_refs in *. rewrite Forall_forall in Hv.
    apply Forall_forall. intros a Ha. apply Hv. by eapply elem_of_sublist.
  - by eapply ordered_sublist.
Qed.

Lemma doc_grow objects more refs :
  doc_wf objects refs → doc_wf (objects ++ more) refs.
Proof.
  intros [Hv Ho]. split.
  - unfold valid_refs in *. eapply Forall_impl; [done|].
    intros a Ha. simpl in *. rewrite length_app. lia.
  - eapply ordered_agree; [|done]. intros a Ha.
    unfold valid_refs in Hv. rewrite Forall_forall in Hv. unfold key.
    by rewrite objectAt_app_l by by apply Hv.
Qed.

Lemma doc_insert objects refs a :
  (a < length objects)%nat → doc_wf objects refs →
  doc_wf objects (remoteInsert (objectAt objects) a refs).1.
Proof.
  intros Ha [Hv Ho]. split; [|by apply ordered_insert].
  destruct (remoteInsert_any (objectAt objects) refs a) as [->|(i & _ & ->)];
    [done|]. simpl. unfold valid_refs in *.
  apply Forall_app. split; [by apply Forall_take|].
  constructor; [done|by apply Forall_drop].
Qed.

Lemma doc_insert_new objects refs c :
  doc_wf objects refs →
  doc_wf (objects ++ [c])
         (remoteInsert (objectAt (objects ++ [c])) (length objects) refs).1.
Proof.
  intros Hd. apply doc_insert; [rewrite length_app; simpl; lia|].
  by apply doc_grow.
Qed.

Lemma doc_delete objects refs pos site :
  doc_wf objects refs →
  doc_wf objects (remoteDelete (objectAt objects) pos site refs).1.
Proof.
  intros Hd.
  destruct (remoteDelete_spec (objectAt objects) refs pos site)
    as [[_ ->]|(i & c & _ & _ & ->)]; [done|]. simpl.
  eapply doc_sublist; [|done]. apply sublist_delete.
Qed.

Lemma doc_batch_delete objects refs ops :
  doc_wf objects refs →
  doc_wf objects (batchRemoteDelete (objectAt objects) ops refs).1.
Proof.
  intros Hd. rewrite batchRemoteDelete_filter. simpl.
  eapply doc_sublist; [|done]. apply sublist_filter.
Qed.

Lemma doc_local_batch_delete objects refs s e :
  doc_wf objects refs →
  doc_wf objects (localBatchDelete (objectAt objects) s e refs).2.
Proof.
  intros Hd. unfold localBatchDelete. case_decide; [done|]. simpl.
  eapply doc_sublist; [|done]. apply splice_remove_sublist.
Qed.

Lemma doc_local_delete objects refs index :
  doc_wf objects refs →
  doc_wf objects (localDelete (objectAt objects) index refs).2.
Proof.
  intros Hd. unfold localDelete. destruct (refs !!? index); [|done].
  simpl. by apply doc_delete.
Qed.

Lemma doc_format objects refs a patch :
  doc_wf objects refs →
  doc_wf (<[a := formatted patch (objectAt objects a)]> objects) refs.
Proof.
  intros [Hv Ho]. split.
  - unfold valid_refs in *. by rewrite length_insert.
  - eapply ordered_agree; [|done]. intros b _.
    symmetry. apply key_objectAt_insert.
Qed.

Lemma doc_load objects l :
  snapshot_ok l →
  doc_wf (objects ++ (copyChar <$> l))
         (sortChars (objectAt (objects ++ (copyChar <$> l)))
                    (seq (length objects) (length (copyChar <$> l)))).
Proof.
  intros Hok. split; [|by apply ordered_load].
  unfold valid_refs. apply Forall_forall. intros a Ha.
  rewrite sortChars_perm in Ha. apply elem_of_seq in Ha.
  rewrite length_app. lia.
Qed.

(** *** The editor's own steps *)

Lemma wf_withRawChars ed refs :
  wf ed → doc_wf (store ed) refs → wf (withRawChars ed refs).
Proof.
  intros (_ & Hu & Hr & Hlen) Hd. by wf_split.
Qed.

Lemma wf_set_attrs ed attrs :
  wf ed →
  wf (mkEditor (store ed) (rawChars ed) (undoStack ed) (redoStack ed) attrs).
Proof. intros (Hd & Hu & Hr & Hlen). by wf_split. Qed.

Lemma wf_pushToUndo batch ed :
  wf ed → valid_batch (store ed) batch → wf (pushToUndo batch ed).
Proof.
  intros (Hd & Hu & Hr & Hlen) Hb.
  destruct batch as [|e batch]; [done|].
  rewrite pushToUndo_nonempty by done.
  wf_split; [done| |by constructor|].
  - unfold valid_stack in *. apply Forall_app. split; [|by constructor].
    case_decide; [by apply Forall_drop|done].
  - rewrite length_app. simpl. case_decide; [rewrite length_drop|]; lia.
Qed.

Lemma localBatchDelete_entries objects refs s e :
  valid_refs objects refs →
  valid_batch objects
    (deleteEntries (localBatchDelete (objectAt objects) s e refs).1).
Proof.
  intros Hv. unfold localBatchDelete, deleteEntries, valid_batch.
  case_decide; simpl; [constructor|].
  rewrite <-list_fmap_compose. apply Forall_fmap.
  by apply Forall_take, Forall_drop.
Qed.

Lemma wf_editorLocalInsert user_id index val attrs ed :
  wf ed →
  wf (editorLocalInsert user_id index val attrs ed).2
  ∧ ((editorLocalInsert user_id index val attrs ed).1
     < length (store (editorLocalInsert user_id index val attrs ed).2))%nat
  ∧ (length (store ed)
     ≤ length (store (editorLocalInsert user_id index val attrs ed).2))%nat.
Proof.
  intros (Hd & Hu & Hr & Hlen). unfold editorLocalInsert.
  cbn [fst snd store rawChars undoStack redoStack].
  rewrite length_app. simpl. split_and!; try lia.
  wf_split; [|..|done].
  - by apply doc_insert_new.
  - eapply valid_stack_grow; [|done]. rewrite length_app. lia.
  - eapply valid_stack_grow; [|done]. rewrite length_app. lia.
Qed.

Lemma wf_editorRemoteInsert char ed :
  wf ed → wf (editorRemoteInsert char ed).2.
Proof.
  intros (Hd & Hu & Hr & Hlen). unfold editorRemoteInsert.
  destruct (remoteInsert (objectAt (store ed ++ [char])) (length (store ed))
              (rawChars ed)) as [refs idx] eqn:Hins.
  cbn [fst snd].
  wf_split; [|..|done].
  - replace refs with (remoteInsert (objectAt (store ed ++ [char]))
                         (length (store ed)) (rawChars ed)).1
      by by rewrite Hins.
    by apply doc_insert_new.
  - eapply valid_stack_grow; [|done]. rewrite length_app. lia.
  - eapply valid_stack_grow; [|done]. rewrite length_app. lia.
Qed.

Lemma wf_withStore_format ed a patch :
  wf ed →
  wf (withStore ed (<[a := formatted patch (objectAt (store ed) a)]> (store ed))).
Proof.
  intros (Hd & Hu & Hr & Hlen).
  wf_split; [|..|done].
  - by apply doc_format.
  - eapply valid_stack_grow; [|done]. by rewrite length_insert.
  - eapply valid_stack_grow; [|done]. by rewrite length_insert.
Qed.

Lemma wf_editorLocalFormat index patch ed :
  wf ed →
  wf (editorLocalFormat index patch ed).2
  ∧ length (store (editorLocalFormat index patch ed).2) = length (store ed)
  ∧ rawChars (editorLocalFormat index patch ed).2 = rawChars ed.
Proof.
  intros Hwf. unfold editorLocalFormat.
  destruct (rawChars ed !!? index) as [a|]; [|done].
  cbn [fst snd withStore store rawChars]. rewrite length_insert.
  split_and!; [|done..]. by apply wf_withStore_format.
Qed.

Lemma wf_editorRemoteFormat pos site patch ed :
  wf ed →
  wf (editorRemoteFormat pos site patch ed)
  ∧ length (store (editorRemoteFormat pos site patch ed)) = length (store ed)
  ∧ undoStack (editorRemoteFormat pos site patch ed) = undoStack ed
  ∧ redoStack (editorRemoteFormat pos site patch ed) = redoStack ed.
Proof.
  intros Hwf. unfold editorRemoteFormat.
  destruct (list_find _ _) as [[i a]|]; [|done].
  cbn [withStore store rawChars undoStack redoStack]. rewrite length_insert.
  split_and!; [|done..]. by apply wf_withStore_format.
Qed.

Lemma wf_editorRemoteDelete pos site ed :
  wf ed → wf (editorRemoteDelete pos site ed).2.
Proof.
  intros Hwf. unfold editorRemoteDelete.
  destruct (remoteDelete (objectAt (store ed)) pos site (rawChars ed))
    as [refs idx] eqn:Hdel. cbn [snd].
  apply wf_withRawChars; [done|].
  replace refs with (remoteDelete (objectAt (store ed)) pos site
                       (rawChars ed)).1 by by rewrite Hdel.
  apply doc_delete, Hwf.
Qed.

Lemma wf_editorBatchRemoteDelete ops ed :
  wf ed → wf (editorBatchRemoteDelete ops ed).
Proof.
  intros Hwf. apply wf_withRawChars; [done|]. apply doc_batch_delete, Hwf.
Qed.

Lemma wf_editorLoadState_Some l ed :
  wf ed → snapshot_ok l → wf (editorLoadState (Some l) ed).
Proof.
  intros (Hd & Hu & Hr & Hlen) Hok. unfold editorLoadState.
  wf_split; [|..|done].
  - by apply doc_load.
  - eapply valid_stack_grow; [|done]. rewrite length_app. lia.
  - eapply valid_stack_grow; [|done]. rewrite length_app. lia.
Qed.

(** *** The handlers *)

Lemma wf_selection_deleted start end_ ed :
  wf ed →
  wf (withRawChars ed
        (localBatchDelete (objectAt (store ed)) (Z.of_nat start)
                          (Z.of_nat end_) (rawChars ed)).2)
  ∧ valid_batch (store ed)
      (deleteEntries (localBatchDelete (objectAt (store ed)) (Z.of_nat start)
                        (Z.of_nat end_) (rawChars ed)).1).
Proof.
  intros Hwf. split.
  - apply wf_withRawChars; [done|]. apply doc_local_batch_delete, Hwf.
  - apply localBatchDelete_entries, Hwf.
Qed.

Lemma wf_insertChar user_id val start end_ ed :
  wf ed → wf (insertChar user_id val start end_ ed).
Proof.
  intros Hwf. unfold insertChar.
  assert (∃ batch ed1,
            (if decide (start ≠ end_) then
               let '(results, refs) :=
                 localBatchDelete (objectAt (store ed)) (Z.of_nat start)
                                  (Z.of_nat end_) (rawChars ed) in
               (deleteEntries results, withRawChars ed refs)
             else ([], ed)) = (batch, ed1)
            ∧ wf ed1 ∧ valid_batch (store ed1) batch)
    as (batch & ed1 & -> & Hwf1 & Hb1).
  { case_decide.
    - destruct (wf_selection_deleted start end_ ed Hwf) as [H1 H2].
      destruct (localBatchDelete _ _ _ _) as [results refs].
      by eexists _, _.
    - eexists _, _. split_and!; [done|done|constructor]. }
  destruct (wf_editorLocalInsert user_id (Z.of_nat start) val
              (Some (currentAttributes ed1)) ed1 Hwf1) as (Hwf2 & Ha & Hlen).
  destruct (editorLocalInsert _ _ _ _ ed1) as [char ed2]. simpl in *.
  apply wf_pushToUndo; [done|].
  apply Forall_app. split; [by eapply valid_batch_grow|].
  by constructor.
Qed.

Lemma wf_backspace start end_ ed : wf ed → wf (backspace start end_ ed).
Proof.
  intros Hwf. unfold backspace. repeat case_decide.
  - pose proof (doc_local_delete (store ed) (rawChars ed)
                  (Z.of_nat start - 1) (proj1 Hwf)) as Hd.
    destruct (rawChars ed !!? (Z.of_nat start - 1)) as [a|] eqn:Ha.
    + destruct (localDelete _ _ _) as [[op|] refs]; simpl in Hd.
      * apply wf_pushToUndo; [by apply wf_withRawChars|].
        constructor; [|constructor]. simpl.
        apply lookupZ_Some in Ha as [_ Ha].
        destruct Hwf as [[Hv _] _]. unfold valid_refs in Hv.
        rewrite Forall_forall in Hv. apply Hv.
        by eapply list_elem_of_lookup_2.
      * apply wf_pushToUndo; [by apply wf_withRawChars|constructor].
    + destruct (localDelete _ _ _) as [op refs]; simpl in Hd.
      apply wf_pushToUndo; [by apply wf_withRawChars|constructor].
  - destruct (wf_selection_deleted start end_ ed Hwf) as [H1 H2].
    destruct (localBatchDelete _ _ _ _) as [results refs].
    by apply wf_pushToUndo.
  - by apply wf_pushToUndo; [|constructor].
Qed.

Lemma wf_formatAt patch (i : nat) ed batch :
  wf ed → valid_batch (store ed) batch →
  wf (formatAt patch (ed, batch) i).1
  ∧ valid_batch (store (formatAt patch (ed, batch) i).1)
                (formatAt patch (ed, batch) i).2.
Proof.
  intros Hwf Hb. unfold formatAt.
  destruct (rawChars ed !! i) as [a|] eqn:Ha; [|done].
  destruct (wf_editorLocalFormat (Z.of_nat i) patch ed Hwf)
    as (Hwf' & Hlen & _).
  destruct (editorLocalFormat (Z.of_nat i) patch ed) as [[op|] ed'];
    simpl in *.
  - split; [done|]. apply Forall_app. split.
    + eapply valid_batch_grow; [|done]. lia.
    + constructor; [|constructor]. simpl. rewrite Hlen.
      destruct Hwf as [[Hv _] _]. unfold valid_refs in Hv.
      rewrite Forall_forall in Hv. apply Hv.
      by eapply list_elem_of_lookup_2.
  - split; [done|]. eapply valid_batch_grow; [|done]. lia.
Qed.

Lemma wf_formatAt_fold patch (indices : list nat) ed batch :
  wf ed → valid_batch (store ed) batch →
  wf (foldl (formatAt patch) (ed, batch) indices).1
  ∧ valid_batch (store (foldl (formatAt patch) (ed, batch) indices).1)
                (foldl (formatAt patch) (ed, batch) indices).2.
Proof.
  revert ed batch. induction indices as [|i indices IH]; intros ed batch Hwf Hb;
    [done|].
  change (foldl (formatAt patch) (ed, batch) (i :: indices))
    with (foldl (formatAt patch) (formatAt patch (ed, batch) i) indices).
  destruct (wf_formatAt patch i ed batch Hwf Hb) as [Hwf' Hb'].
  destruct (formatAt patch (ed, batch) i) as [ed' batch']. by apply IH.
Qed.

Lemma wf_applyToSelection patch start end_ ed :
  wf ed → wf (applyToSelection patch start end_ ed).
Proof.
  intros Hwf. unfold applyToSelection. case_decide; [done|].
  destruct (wf_formatAt_fold patch (seq start (end_ - start)) ed [] Hwf)
    as [Hwf' Hb]; [constructor|].
  destruct (foldl _ _ _) as [ed' batch]. by apply wf_pushToUndo.
Qed.

Lemma wf_toggleAttribute key start end_ ed :
  wf ed → wf (toggleAttribute key start end_ ed).
Proof.
  intros Hwf. unfold toggleAttribute. by apply wf_applyToSelection, wf_set_attrs.
Qed.

Lemma wf_updateAttribute key val start end_ ed :
  wf ed → wf (updateAttribute key val start end_ ed).
Proof.
  intros Hwf. unfold updateAttribute. by apply wf_applyToSelection, wf_set_attrs.
Qed.

Lemma wf_undoEntry entry ed acc :
  wf ed → (uchar entry < length (store ed))%nat →
  valid_batch (store ed) acc →
  wf (undoEntry (ed, acc) entry).1
  ∧ valid_batch (store (undoEntry (ed, acc) entry).1)
                (undoEntry (ed, acc) entry).2
  ∧ length (store (undoEntry (ed, acc) entry).1) = length (store ed)
  ∧ undoStack (undoEntry (ed, acc) entry).1 = undoStack ed
  ∧ redoStack (undoEntry (ed, acc) entry).1 = redoStack ed.
Proof.
  intros Hwf He Hacc. unfold undoEntry. destruct (utype entry).
  - cbn [fst snd withRawChars store undoStack redoStack].
    split_and!; try done; [|by constructor].
    apply wf_withRawChars; [done|]. apply doc_delete, Hwf.
  - cbn [fst snd withRawChars store undoStack redoStack].
    split_and!; try done; [|by constructor].
    apply wf_withRawChars; [done|]. apply doc_insert; [done|apply Hwf].
  - cbn [fst snd].
    destruct (wf_editorRemoteFormat
                (position (objectAt (store ed) (uchar entry)))
                (siteId (objectAt (store ed) (uchar entry)))
                (default noAttrs (prevAttributes entry)) ed Hwf)
      as (Hwf' & Hlen & Hu & Hr).
    split_and!; try done.
    constructor; [simpl; lia|]. eapply valid_batch_grow; [|done]. lia.
Qed.

Lemma wf_undo_fold batch ed acc :
  wf ed → valid_batch (store ed) batch → valid_batch (store ed) acc →
  wf (foldl undoEntry (ed, acc) batch).1
  ∧ valid_batch (store (foldl undoEntry (ed, acc) batch).1)
                (foldl undoEntry (ed, acc) batch).2
  ∧ undoStack (foldl undoEntry (ed, acc) batch).1 = undoStack ed
  ∧ redoStack (foldl undoEntry (ed, acc) batch).1 = redoStack ed.
Proof.
  revert ed acc. induction batch as [|entry batch IH]; intros ed acc Hwf Hb Hacc;
    [done|].
  change (foldl undoEntry (ed, acc) (entry :: batch))
    with (foldl undoEntry (undoEntry (ed, acc) entry) batch).
  apply Forall_cons in Hb as [He Hb].
  destruct (wf_undoEntry entry ed acc Hwf He Hacc)
    as (Hwf' & Hacc' & Hlen & Hu & Hr).
  destruct (undoEntry (ed, acc) entry) as [ed' acc']. simpl in *.
  rewrite <-Hu, <-Hr. apply IH; [done| |done].
  eapply valid_batch_grow; [|done]. lia.
Qed.

Lemma wf_handleUndo ed : wf ed → wf (handleUndo ed).
Proof.
  intros Hwf. unfold handleUndo.
  destruct (pop (undoStack ed)) as [[batch rest]|] eqn:Hpop; [|done].
  apply pop_Some in Hpop.
  destruct Hwf as (Hd & Hu & Hr & Hlen). rewrite Hpop in Hu, Hlen.
  apply Forall_app in Hu as [Hrest Hbatch].
  apply Forall_cons in Hbatch as [Hbatch _].
  rewrite length_app in Hlen. simpl in Hlen.
  destruct (wf_undo_fold (reverse batch)
              (mkEditor (store ed) (rawChars ed) rest (redoStack ed)
                        (currentAttributes ed)) [])
    as (Hwf' & Hb' & Hu' & Hr').
  - wf_split; try done. lia.
  - by apply Forall_reverse.
  - constructor.
  - destruct (foldl undoEntry _ _) as [ed' redoBatch]. simpl in *.
    destruct Hwf' as (Hd' & Hus & Hrs & _).
    wf_split; try done.
    + apply Forall_app. split; [done|by constructor].
    + rewrite Hu', length_app, Hr'. simpl. lia.
Qed.

Lemma wf_redoEntry entry ed acc :
  wf ed → (uchar entry < length (store ed))%nat →
  valid_batch (store ed) acc →
  wf (redoEntry (ed, acc) entry).1
  ∧ valid_batch (store (redoEntry (ed, acc) entry).1)
                (redoEntry (ed, acc) entry).2
  ∧ length (store (redoEntry (ed, acc) entry).1) = length (store ed)
  ∧ undoStack (redoEntry (ed, acc) entry).1 = undoStack ed
  ∧ redoStack (redoEntry (ed, acc) entry).1 = redoStack ed.
Proof.
  intros Hwf He Hacc. unfold redoEntry. destruct (utype entry).
  - cbn [fst snd withRawChars store undoStack redoStack].
    split_and!; try done.
    + apply wf_withRawChars; [done|]. apply doc_insert; [done|apply Hwf].
    + apply Forall_app. split; [done|by constructor].
  - cbn [fst snd withRawChars store undoStack redoStack].
    split_and!; try done.
    + apply wf_withRawChars; [done|]. apply doc_delete, Hwf.
    + apply Forall_app. split; [done|by constructor].
  - cbn [fst snd].
    destruct (wf_editorRemoteFormat
                (position (objectAt (store ed) (uchar entry)))
                (siteId (objectAt (store ed) (uchar entry)))
                (default noAttrs (prevAttributes entry)) ed Hwf)
      as (Hwf' & Hlen & Hu & Hr).
    split_and!; try done.
    apply Forall_app. split.
    + eapply valid_batch_grow; [|done]. lia.
    + constructor; [simpl; lia|constructor].
Qed.

Lemma wf_redo_fold batch ed acc :
  wf ed → valid_batch (store ed) batch → valid_batch (store ed) acc →
  wf (foldl redoEntry (ed, acc) batch).1
  ∧ valid_batch (store (foldl redoEntry (ed, acc) batch).1)
                (foldl redoEntry (ed, acc) batch).2
  ∧ undoStack (foldl redoEntry (ed, acc) batch).1 = undoStack ed
  ∧ redoStack (foldl redoEntry (ed, acc) batch).1 = redoStack ed.
Proof.
  revert ed acc. induction batch as [|entry batch IH]; intros ed acc Hwf Hb Hacc;
    [done|].
  change (foldl redoEntry (ed, acc) (entry :: batch))
    with (foldl redoEntry (redoEntry (ed, acc) entry) batch).
  apply Forall_cons in Hb as [He Hb].
  destruct (wf_redoEntry entry ed acc Hwf He Hacc)
    as (Hwf' & Hacc' & Hlen & Hu & Hr).
  destruct (redoEntry (ed, acc) entry) as [ed' acc']. simpl in *.
  rewrite <-Hu, <-Hr. apply IH; [done| |done].
  eapply valid_batch_grow; [|done]. lia.
Qed.

Lemma wf_handleRedo ed : wf ed → wf (handleRedo ed).
Proof.
  intros Hwf. unfold handleRedo.
  destruct (pop (redoStack ed)) as [[batch rest]|] eqn:Hpop; [|done].
  apply pop_Some in Hpop.
  destruct Hwf as (Hd & Hu & Hr & Hlen). rewrite Hpop in Hr, Hlen.
  apply Forall_app in Hr as [Hrest Hbatch].
  apply Forall_cons in Hbatch as [Hbatch _].
  rewrite length_app in Hlen. simpl in Hlen.
  destruct (wf_redo_fold batch
              (mkEditor (store ed) (rawChars ed) (undoStack ed) rest
                        (currentAttributes ed)) [])
    as (Hwf' & Hb' & Hu' & Hr').
  - wf_split; try done. lia.
  - done.
  - constructor.
  - destruct (foldl redoEntry _ _) as [ed' undoBatch]. simpl in *.
    destruct Hwf' as (Hd' & Hus & Hrs & _).
    wf_split; try done.
    + apply Forall_app. split; [done|by constructor].
    + rewrite Hu', length_app, Hr'. simpl. lia.
Qed.

Lemma wf_pasteAt user_id start ed batch ic :
  wf ed → valid_batch (store ed) batch →
  wf (pasteAt user_id start (ed, batch) ic).1
  ∧ valid_batch (store (pasteAt user_id start (ed, batch) ic).1)
                (pasteAt user_id start (ed, batch) ic).2.
Proof.
  intros Hwf Hb. unfold pasteAt.
  destruct (wf_editorLocalInsert user_id (Z.of_nat start + Z.of_nat ic.1)
              (String ic.2 "") (Some (currentAttributes ed)) ed Hwf)
    as (Hwf' & Ha & Hlen).
  destruct (editorLocalInsert _ _ _ _ ed) as [char ed']. simpl in *.
  split; [done|]. apply Forall_app. split.
  - by eapply valid_batch_grow.
  - by constructor.
Qed.

Lemma wf_paste_fold user_id start (l : list (nat * ascii)) ed batch :
  wf ed → valid_batch (store ed) batch →
  wf (foldl (pasteAt user_id start) (ed, batch) l).1
  ∧ valid_batch (store (foldl (pasteAt user_id start) (ed, batch) l).1)
                (foldl (pasteAt user_id start) (ed, batch) l).2.
Proof.
  revert ed batch. induction l as [|ic l IH]; intros ed batch Hwf Hb; [done|].
  change (foldl (pasteAt user_id start) (ed, batch) (ic :: l))
    with (foldl (pasteAt user_id start)
                (pasteAt user_id start (ed, batch) ic) l).
  destruct (wf_pasteAt user_id start ed batch ic Hwf Hb) as [Hwf' Hb'].
  destruct (pasteAt user_id start (ed, batch) ic) as [ed' batch'].
  by apply IH.
Qed.

Lemma wf_handlePaste user_id text start end_ ed :
  wf ed → wf (handlePaste user_id text start end_ ed).
Proof.
  intros Hwf. unfold handlePaste. case_decide; [done|].
  assert (∃ batch ed1,
            (if decide (start ≠ end_) then
               let '(results, refs) :=
                 localBatchDelete (objectAt (store ed)) (Z.of_nat start)
                                  (Z.of_nat end_) (rawChars ed) in
               (deleteEntries results, withRawChars ed refs)
             else ([], ed)) = (batch, ed1)
            ∧ wf ed1 ∧ valid_batch (store ed1) batch)
    as (batch & ed1 & -> & Hwf1 & Hb1).
  { case_decide.
    - destruct (wf_selection_deleted start end_ ed Hwf) as [H1 H2].
      destruct (localBatchDelete _ _ _ _) as [results refs].
      by eexists _, _.
    - eexists _, _. split_and!; [done|done|constructor]. }
  destruct (wf_paste_fold user_id start
              (imap pair (String.list_ascii_of_string text)) ed1 batch Hwf1 Hb1)
    as [Hwf2 Hb2].
  destruct (foldl _ _ _) as [ed2 batch2]. by apply wf_pushToUndo.
Qed.

Lemma wf_importText user_id text ed :
  wf ed → wf (importText user_id text ed).
Proof.
  intros Hwf. unfold importText.
  apply wf_editorLoadState_Some; [|apply snapshot_ok_imported].
  pose proof (wf_editorLoadState_Some [] ed Hwf snapshot_ok_nil)
    as (Hd & _ & _ & _).
  wf_split; [done|constructor|constructor|simpl; lia].
Qed.

Lemma wf_batchInsert_fold currentCursor (ops : list CRDTChar) ed adjustment :
  wf ed →
  wf (foldl (batchInsertStep currentCursor) (ed, adjustment) ops).1.
Proof.
  revert ed adjustment. induction ops as [|char ops IH];
    intros ed adjustment Hwf; [done|].
  change (foldl (batchInsertStep currentCursor) (ed, adjustment) (char :: ops))
    with (foldl (batchInsertStep currentCursor)
                (batchInsertStep currentCursor (ed, adjustment) char) ops).
  unfold batchInsertStep at 2.
  pose proof (wf_editorRemoteInsert char ed Hwf) as Hwf'.
  destruct (editorRemoteInsert char ed) as [idx ed']. by apply IH.
Qed.

Lemma wf_batchFormat_fold
    (ops : list (list Z * string * CRDTAttributes)) ed :
  wf ed →
  wf (foldl (λ ed' subOp,
               editorRemoteFormat subOp.1.1 subOp.1.2 subOp.2 ed') ed ops).
Proof.
  revert ed. induction ops as [|op ops IH]; intros ed Hwf; [done|].
  simpl. apply IH. by apply wf_editorRemoteFormat.
Qed.

Lemma wf_dispatch currentCursor siteId p ed :
  wf ed →
  match p with
  | PSyncResponse (Some state) => snapshot_ok state
  | PImportDocument (Some state) => snapshot_ok state
  | _ => True
  end →
  wf (dispatch currentCursor siteId p ed).1.
Proof.
  intros Hwf Hok. unfold dispatch.
  destruct p as [?|[ops|]|[ops|]|[ops|]|char|pos|pos site attrs| | |[state|]
                |[state|]|]; try done.
  - by apply wf_batchInsert_fold.
  - by apply wf_editorBatchRemoteDelete.
  - by apply wf_batchFormat_fold.
  - pose proof (wf_editorRemoteInsert char ed Hwf) as Hwf'.
    by destruct (editorRemoteInsert char ed) as [idx ed'].
  - pose proof (wf_editorRemoteDelete pos siteId ed Hwf) as Hwf'.
    by destruct (editorRemoteDelete pos siteId ed) as [idx ed'].
  - by apply wf_editorRemoteFormat.
  - case_decide; [|done]. by apply wf_editorLoadState_Some.
  - by apply wf_editorLoadState_Some.
Qed.

Lemma wf_onMessage user_id currentCursor siteId p ed :
  wf ed →
  match p with
  | PSyncResponse (Some state) => snapshot_ok state
  | PImportDocument (Some state) => snapshot_ok state
  | _ => True
  end →
  wf (onMessage user_id currentCursor siteId p ed).1.
Proof.
  intros Hwf Hok.
  pose proof (wf_dispatch currentCursor siteId p ed Hwf Hok) as Hwf'.
  unfold onMessage.
  destruct (dispatch currentCursor siteId p ed) as [ed' adjustment].
  destruct p as [[]| | | | | | | | | | |]; try case_decide; done.
Qed.

Lemma wf_handleKeyDown user_id e start end_ ed :
  wf ed → wf (handleKeyDown user_id e start end_ ed).
Proof.
  intros Hwf. unfold handleKeyDown.
  destruct (ctrlOrMeta e); repeat case_decide;
    try destruct (shiftKey e);
    auto using wf_toggleAttribute, wf_handleUndo, wf_handleRedo,
               wf_backspace, wf_insertChar.
Qed.

Lemma wf_handleEvent user_id ed ev :
  wf ed → loads_ok snapshot_ok ev → wf (handleEvent user_id ed ev).
Proof.
  intros Hwf Hok. destruct ev; simpl.
  - by apply wf_handleKeyDown.
  - by apply wf_handlePaste.
  - by apply wf_handleUndo.
  - by apply wf_handleRedo.
  - by apply wf_toggleAttribute.
  - by apply wf_updateAttribute.
  - by apply wf_importText.
  - by apply wf_onMessage.
Qed.

End Invariant.

(** *** The two instances: sorted, and sorted with no key twice *)

Lemma importedChars_lookup user_id attrs text (i : nat) c :
  importedChars user_id attrs text !! i = Some c →
  position c = [(Z.of_nat i + 1) * 10] ∧ siteId c = user_id
  ∧ ∃ a, String.list_ascii_of_string text !! i = Some a
         ∧ value c = String a "".
Proof.
  unfold importedChars. rewrite list_lookup_imap.
  destruct (String.list_ascii_of_string text !! i) as [a|]; [|done].
  simpl. intros [= <-]. simpl. eauto.
Qed.

Lemma importedChars_unique user_id attrs text :
  unique_keys id (importedChars user_id attrs text).
Proof.
  unfold unique_keys. apply NoDup_alt. intros i j k.
  rewrite !list_lookup_fmap.
  destruct (importedChars user_id attrs text !! i) as [ci|] eqn:Hi; [|done].
  destruct (importedChars user_id attrs text !! j) as [cj|] eqn:Hj; [|done].
  apply importedChars_lookup in Hi as (Hpi & _).
  apply importedChars_lookup in Hj as (Hpj & _).
  unfold key, key_of. simpl. intros [= <-] [= Heq].
  rewrite Hpi, Hpj in Heq. injection Heq as Heq. lia.
Qed.

Lemma StronglySorted_lookup_2 {A} (R : relation A) (l : list A) :
  (∀ (i j : nat) x y, (i < j)%nat → l !! i = Some x → l !! j = Some y → R x y) →
  StronglySorted R l.
Proof.
  induction l as [|x l IH]; intros H; constructor.
  - apply IH. intros i j y z Hij Hi Hj. apply (H (S i) (S j)); [lia|done..].
  - apply Forall_forall. intros y [j Hj]%list_elem_of_lookup.
    apply (H 0%nat (S j)); [lia|done..].
Qed.

Lemma importedChars_strictly_sorted user_id attrs text :
  strictly_sorted id (importedChars user_id attrs text).
Proof.
  apply StronglySorted_lookup_2. intros i j ci cj Hij Hi Hj.
  apply importedChars_lookup in Hi as (Hpi & _).
  apply importedChars_lookup in Hj as (Hpj & _).
  unfold char_lt, comparePositions. simpl. rewrite Hpi, Hpj.
  assert (compareArrays [(Z.of_nat i + 1) * 10] [(Z.of_nat j + 1) * 10] = -1)
    as ->.
  { cbn [compareArrays].
    destruct (Z.ltb_spec ((Z.of_nat i + 1) * 10) ((Z.of_nat j + 1) * 10));
      [done|lia]. }
  by rewrite decide_True.
Qed.

Lemma load_sorted (objects l : list CRDTChar) :
  sorted (objectAt (objects ++ (copyChar <$> l)))
         (sortChars (objectAt (objects ++ (copyChar <$> l)))
                    (seq (length objects) (length (copyChar <$> l)))).
Proof. apply sortChars_sorted. Qed.

Lemma load_strictly_sorted (objects l : list CRDTChar) :
  unique_keys id l →
  strictly_sorted (objectAt (objects ++ (copyChar <$> l)))
                  (sortChars (objectAt (objects ++ (copyChar <$> l)))
                             (seq (length objects) (length (copyChar <$> l)))).
Proof.
  intros Hu. apply sorted_unique_strictly; [apply sortChars_sorted|].
  eapply unique_keys_perm; [symmetry; apply sortChars_perm|].
  unfold unique_keys.
  assert (copyChar <$> l = l) as -> by apply state_id.
  assert (key (objectAt (objects ++ l)) <$> seq (length objects) (length l)
          = key id <$> l) as ->; [|done].
  transitivity (key id <$> (objectAt (objects ++ l)
                              <$> seq (length objects) (length l))).
  - by rewrite <-list_fmap_compose.
  - by rewrite objectAt_seq_new.
Qed.

Lemma newEditor_wf ordered :
  ordered (objectAt []) [] → editor_wf_with ordered newEditor.
Proof.
  intros Ho. unfold newEditor.
  wf_split; [split; [constructor|done]|constructor|constructor|simpl; lia].
Qed.

(** ** The sites of the objects of the store *)

Section Sites.
Variable P : string → Prop.

#[local] Abbreviation sites_ok := (Forall (λ c : CRDTChar, P (siteId c))).

Lemma sites_format (objects : list CRDTChar) (a : nat) patch :
  sites_ok objects →
  sites_ok (<[a := formatted patch (objectAt objects a)]> objects).
Proof.
  intros Hok. destruct (decide (a < length objects)%nat) as [Hlt|Hge].
  - apply Forall_insert; [done|]. simpl.
    destruct (lookup_lt_is_Some_2 objects a Hlt) as [c Hc].
    unfold objectAt. rewrite (list_lookup_total_correct _ _ _ Hc).
    by apply (Forall_lookup_1 _ _ _ _ Hok Hc).
  - by rewrite list_insert_ge by lia.
Qed.

Lemma sites_pushToUndo batch ed :
  store_sites P ed → store_sites P (pushToUndo batch ed).
Proof. unfold store_sites, pushToUndo. by case_decide. Qed.

Lemma sites_editorLocalInsert user_id index val attrs ed :
  P user_id → store_sites P ed →
  store_sites P (editorLocalInsert user_id index val attrs ed).2.
Proof.
  intros Hu Hok. unfold store_sites, editorLocalInsert. simpl.
  apply Forall_app. split; [done|]. by repeat constructor.
Qed.

Lemma sites_editorLocalFormat index patch ed :
  store_sites P ed → store_sites P (editorLocalFormat index patch ed).2.
Proof.
  intros Hok. unfold editorLocalFormat.
  destruct (rawChars ed !!? index) as [a|]; [|done].
  by apply sites_format.
Qed.

Lemma sites_editorRemoteFormat pos site patch ed :
  store_sites P ed → store_sites P (editorRemoteFormat pos site patch ed).
Proof.
  intros Hok. unfold editorRemoteFormat.
  destruct (list_find _ _) as [[? a]|]; [|done].
  by apply sites_format.
Qed.

Lemma sites_editorRemoteInsert char ed :
  P (siteId char) → store_sites P ed →
  store_sites P (editorRemoteInsert char ed).2.
Proof.
  intros Hc Hok. unfold store_sites, editorRemoteInsert.
  destruct (remoteInsert _ _ _) as [refs idx]. simpl.
  apply Forall_app. split; [done|]. by repeat constructor.
Qed.

Lemma sites_editorRemoteDelete pos site ed :
  store_sites P ed → store_sites P (editorRemoteDelete pos site ed).2.
Proof.
  intros Hok. unfold editorRemoteDelete.
  by destruct (remoteDelete _ _ _ _) as [refs idx].
Qed.

Lemma sites_editorLoadState l ed :
  sites_ok l → store_sites P ed →
  store_sites P (editorLoadState (Some l) ed).
Proof.
  intros Hl Hok. unfold store_sites, editorLoadState. simpl.
  apply Forall_app. split; [done|].
  apply Forall_fmap. by eapply Forall_impl.
Qed.

Lemma sites_selection_deleted start end_ ed :
  store_sites P ed →
  store_sites P
    (if decide (start ≠ end_) then
       let '(results, refs) :=
         localBatchDelete (objectAt (store ed)) (Z.of_nat start)
                          (Z.of_nat end_) (rawChars ed) in
       (deleteEntries results, withRawChars ed refs)
     else ([], ed)).2.
Proof.
  intros Hok. case_decide; [|done].
  by destruct (localBatchDelete _ _ _ _) as [results refs].
Qed.

Lemma sites_insertChar user_id val start end_ ed :
  P user_id → store_sites P ed →
  store_sites P (insertChar user_id val start end_ ed).
Proof.
  intros Hu Hok. unfold insertChar.
  pose proof (sites_selection_deleted start end_ ed Hok) as Hok1.
  destruct (if decide (start ≠ end_) then _ else _) as [batch ed1].
  pose proof (sites_editorLocalInsert user_id (Z.of_nat start) val
                (Some (currentAttributes ed1)) ed1 Hu Hok1) as Hok2.
  destruct (editorLocalInsert _ _ _ _ _) as [char ed2].
  by apply sites_pushToUndo.
Qed.

Lemma sites_backspace start end_ ed :
  store_sites P ed → store_sites P (backspace start end_ ed).
Proof.
  intros Hok. unfold backspace. repeat case_decide.
  - destruct (rawChars ed !!? _), (localDelete _ _ _) as [[?|] ?];
      by apply sites_pushToUndo.
  - destruct (localBatchDelete _ _ _ _) as [results refs].
    by apply sites_pushToUndo.
  - by apply sites_pushToUndo.
Qed.

Lemma sites_formatAt patch st (i : nat) :
  store_sites P st.1 → store_sites P (formatAt patch st i).1.
Proof.
  destruct st as [ed batch]. intros Hok. unfold formatAt.
  destruct (rawChars ed !! i) as [char|]; [|done].
  pose proof (sites_editorLocalFormat (Z.of_nat i) patch ed Hok) as Hok'.
  by destruct (editorLocalFormat _ _ _) as [[?|] ed'].
Qed.

Lemma sites_applyToSelection patch start end_ ed :
  store_sites P ed → store_sites P (applyToSelection patch start end_ ed).
Proof.
  intros Hok. unfold applyToSelection. case_decide; [done|].
  assert (∀ l st, store_sites P st.1 →
                  store_sites P (foldl (formatAt patch) st l).1) as Hfold.
  { induction l as [|i l IH]; intros st Hst; [done|].
    simpl. by apply IH, sites_formatAt. }
  specialize (Hfold (seq start (end_ - start)) (ed, []) Hok).
  destruct (foldl _ _ _) as [ed' batch]. by apply sites_pushToUndo.
Qed.

Lemma sites_toggleAttribute key start end_ ed :
  store_sites P ed → store_sites P (toggleAttribute key start end_ ed).
Proof. intros Hok. by apply sites_applyToSelection. Qed.

Lemma sites_updateAttribute key val start end_ ed :
  store_sites P ed → store_sites P (updateAttribute key val start end_ ed).
Proof. intros Hok. by apply sites_applyToSelection. Qed.

Lemma sites_undoEntry st entry :
  store_sites P st.1 → store_sites P (undoEntry st entry).1.
Proof.
  destruct st as [ed acc]. intros Hok. unfold undoEntry.
  destruct (utype entry); [done|done|]. by apply sites_editorRemoteFormat.
Qed.

Lemma sites_redoEntry st entry :
  store_sites P st.1 → store_sites P (redoEntry st entry).1.
Proof.
  destruct st as [ed acc]. intros Hok. unfold redoEntry.
  destruct (utype entry); [done|done|]. by apply sites_editorRemoteFormat.
Qed.

Lemma sites_handleUndo ed :
  store_sites P ed → store_sites P (handleUndo ed).
Proof.
  intros Hok. unfold handleUndo.
  destruct (pop (undoStack ed)) as [[batch rest]|]; [|done].
  assert (∀ l st, store_sites P st.1 →
                  store_sites P (foldl undoEntry st l).1) as Hfold.
  { induction l as [|e l IH]; intros st Hst; [done|].
    simpl. by apply IH, sites_undoEntry. }
  specialize (Hfold (reverse batch)
                (mkEditor (store ed) (rawChars ed) rest (redoStack ed)
                          (currentAttributes ed), []) Hok).
  by destruct (foldl _ _ _) as [ed' redoBatch].
Qed.

Lemma sites_handleRedo ed :
  store_sites P ed → store_sites P (handleRedo ed).
Proof.
  intros Hok. unfold handleRedo.
  destruct (pop (redoStack ed)) as [[batch rest]|]; [|done].
  assert (∀ l st, store_sites P st.1 →
                  store_sites P (foldl redoEntry st l).1) as Hfold.
  { induction l as [|e l IH]; intros st Hst; [done|].
    simpl. by apply IH, sites_redoEntry. }
  specialize (Hfold batch
                (mkEditor (store ed) (rawChars ed) (undoStack ed) rest
                          (currentAttributes ed), []) Hok).
  by destruct (foldl _ _ _) as [ed' undoBatch].
Qed.

Lemma sites_pasteAt user_id start st ic :
  P user_id → store_sites P st.1 →
  store_sites P (pasteAt user_id start st ic).1.
Proof.
  destruct st as [ed batch]. intros Hu Hok. unfold pasteAt.
  pose proof (sites_editorLocalInsert user_id
                (Z.of_nat start + Z.of_nat ic.1) (String ic.2 "")
                (Some (currentAttributes ed)) ed Hu Hok) as Hok'.
  by destruct (editorLocalInsert _ _ _ _ _) as [char ed'].
Qed.

Lemma sites_handlePaste user_id text start end_ ed :
  P user_id → store_sites P ed →
  store_sites P (handlePaste user_id text start end_ ed).
Proof.
  intros Hu Hok. unfold handlePaste. case_decide; [done|].
  pose proof (sites_selection_deleted start end_ ed Hok) as Hok1.
  destruct (if decide (start ≠ end_) then _ else _) as [batch ed1].
  assert (∀ l st, store_sites P st.1 →
                  store_sites P (foldl (pasteAt user_id start) st l).1)
    as Hfold.
  { induction l as [|e l IH]; intros st Hst; [done|].
    simpl. by apply IH, sites_pasteAt. }
  specialize (Hfold (imap pair (String.list_ascii_of_string text))
                (ed1, batch) Hok1).
  destruct (foldl _ _ _) as [ed2 batch']. by apply sites_pushToUndo.
Qed.

Lemma sites_importedChars user_id attrs text :
  P user_id → sites_ok (importedChars user_id attrs text).
Proof.
  intros Hu. apply Forall_forall. intros c Hc.
  apply list_elem_of_lookup in Hc as [i Hi]. unfold importedChars in Hi.
  rewrite list_lookup_imap in Hi.
  destruct (String.list_ascii_of_string text !! i); [|done].
  by injection Hi as <-.
Qed.

Lemma sites_importText user_id text ed :
  P user_id → store_sites P ed → store_sites P (importText user_id text ed).
Proof.
  intros Hu Hok. unfold importText.
  apply sites_editorLoadState; [by apply sites_importedChars|].
  by apply (sites_editorLoadState [] ed).
Qed.

Lemma sites_batchInsertStep currentCursor st c :
  P (siteId c) → store_sites P st.1 →
  store_sites P (batchInsertStep currentCursor st c).1.
Proof.
  destruct st as [ed adjustment]. intros Hc Hok. unfold batchInsertStep.
  pose proof (sites_editorRemoteInsert c ed Hc Hok) as Hok'.
  by destruct (editorRemoteInsert c ed) as [idx ed'].
Qed.

Lemma sites_dispatch currentCursor siteId p ed :
  payload_sites P p → store_sites P ed →
  store_sites P (dispatch currentCursor siteId p ed).1.
Proof.
  intros Hp Hok. destruct p as [| [ops|] | [ops|] | [ops|] | char | pos
                               | pos site attrs | | | [l|] | [l|] |];
    simpl in *; try done.
  - assert (∀ st, store_sites P st.1 →
                  store_sites P (foldl (batchInsertStep currentCursor) st ops).1)
      as Hfold.
    { induction Hp as [|c ops Hc Hops IH]; intros st Hst; [done|].
      change (foldl ?f st (c :: ops)) with (foldl f (f st c) ops).
      by apply IH, sites_batchInsertStep. }
    by apply (Hfold (ed, 0)).
  - clear Hp. revert ed Hok. induction ops as [|o ops IH]; intros ed Hok;
      [done|].
    simpl. by apply IH, sites_editorRemoteFormat.
  - pose proof (sites_editorRemoteInsert char ed Hp Hok) as Hok'.
    by destruct (editorRemoteInsert char ed) as [idx ed'].
  - pose proof (sites_editorRemoteDelete pos siteId ed Hok) as Hok'.
    by destruct (editorRemoteDelete pos siteId ed) as [idx ed'].
  - by apply sites_editorRemoteFormat.
  - case_decide; [|done]. by apply sites_editorLoadState.
  - by apply sites_editorLoadState.
Qed.

Lemma sites_onMessage user_id currentCursor siteId p ed :
  payload_sites P p → store_sites P ed →
  store_sites P (onMessage user_id currentCursor siteId p ed).1.
Proof.
  intros Hp Hok. unfold onMessage.
  pose proof (sites_dispatch currentCursor siteId p ed Hp Hok) as Hok'.
  destruct p as [[]| | | | | | | | | | |]; try done;
    case_decide; try done;
    by destruct (dispatch _ _ _ _) as [ed' adjustment].
Qed.

Lemma sites_handleKeyDown user_id e start end_ ed :
  P user_id → store_sites P ed →
  store_sites P (handleKeyDown user_id e start end_ ed).
Proof.
  intros Hu Hok. unfold handleKeyDown.
  destruct (ctrlOrMeta e); repeat case_decide;
    try destruct (shiftKey e);
    auto using sites_toggleAttribute, sites_handleUndo, sites_handleRedo,
               sites_backspace, sites_insertChar.
Qed.

(** The sites of the objects of the store stay within [P] when the
    user's identifier and the sites an event brings are within it. *)
Lemma sites_handleEvent user_id ed ev :
  P user_id → event_sites P ev → store_sites P ed →
  store_sites P (handleEvent user_id ed ev).
Proof.
  intros Hu Hev Hok. destruct ev; simpl.
  - by apply sites_handleKeyDown.
  - by apply sites_handlePaste.
  - by apply sites_handleUndo.
  - by apply sites_handleRedo.
  - by apply sites_toggleAttribute.
  - by apply sites_updateAttribute.
  - by apply sites_importText.
  - apply sites_onMessage; [|done]. by destruct Hev.
Qed.

End Sites.

(** X18.  The editor's invariant.  A new editor satisfies it, and every
    event keeps it, a keystroke, a paste, the toolbar's controls, an
    import or a message from the network whose fields are what its type
    announces (an element for an insert, an array of numbers for a
    position, elements for a snapshot or a batch that is an array): the
    array is sorted; the array and the entries of the undo and redo stacks
    refer to objects of the store; the two stacks hold at most 100 batches
    between them. *)
Theorem editor_invariant (user_id : string) (ed : Editor) (ev : EditorEvent) :
  editor_wf newEditor
  ∧ (editor_wf ed → editor_wf (handleEvent user_id ed ev)).
Proof.
  split.
  - apply newEditor_wf. constructor.
  - intros Hwf.
    apply (wf_handleEvent (@sorted nat) (λ _, True)); try done.
    + intros d1 d2 l. apply sorted_agree.
    + intros d l1 l2. apply StronglySorted_sublist.
    + intros d a l. apply remoteInsert_sorted.
    + intros objects l _. apply load_sorted.
    + by destruct ev as [| | | | | | |? ? [| | | | | | | | |[]|[]|]].
Qed.

Lemma editor_invariant_witness :
  editor_wf newEditor
  ∧ editor_wf (handleEvent "U1" newEditor (ImportFile "ab")).
Proof.
  assert (editor_wf newEditor) as H.
  { apply newEditor_wf. constructor. }
  split; [done|].
  exact (proj2 (editor_invariant "U1" newEditor (ImportFile "ab")) H).
Defined.

(** X19.  No event makes two elements of the array share a key, as long
    as the site identifiers in play are identifiers of the application
    (the user's, those of the objects of the editor, and those a message
    brings), a message carries what its type announces, and the snapshots
    that messages make the editor load have no key twice: the array stays
    strictly ascending, and the objects of the editor still come from
    sites of the application. *)
Theorem editor_unique_keys (user_id : string) (ed : Editor)
    (ev : EditorEvent) :
  appSite user_id → store_sites appSite ed → event_sites appSite ev →
  editor_wf_strict ed → loads_ok (unique_keys id) ev →
  editor_wf_strict (handleEvent user_id ed ev)
  ∧ unique_keys (objectAt (store (handleEvent user_id ed ev)))
                (rawChars (handleEvent user_id ed ev))
  ∧ store_sites appSite (handleEvent user_id ed ev).
Proof.
  intros Hu Hsites Hev Hwf Hok.
  assert (editor_wf_strict (handleEvent user_id ed ev)) as Hwf'.
  { apply (wf_handleEvent (@strictly_sorted nat) (unique_keys id)); try done.
    - intros d1 d2 l. apply strictly_sorted_agree.
    - intros d l1 l2. apply StronglySorted_sublist.
    - intros d a l. apply remoteInsert_strictly_sorted.
    - intros objects l. apply load_strictly_sorted.
    - constructor.
    - apply importedChars_unique. }
  split; [done|]. split; [apply strictly_sorted_unique_keys, Hwf'|].
  by apply sites_handleEvent.
Qed.

Lemma editor_unique_keys_witness :
  appSite "UID-1001"
  ∧ store_sites appSite newEditor
  ∧ event_sites appSite
      (Message None "UID-1002"
         (PImportDocument (Some [elt "a" [10] "UID-1002"])))
  ∧ editor_wf_strict newEditor
  ∧ loads_ok (unique_keys id)
      (Message None "UID-1002"
         (PImportDocument (Some [elt "a" [10] "UID-1002"])))
  ∧ editor_wf_strict
      (handleEvent "UID-1001" newEditor
         (Message None "UID-1002"
            (PImportDocument (Some [elt "a" [10] "UID-1002"])))).
Proof.
  assert (appSite "UID-1001") as Hu
    by (apply (bool_decide_unpack _); by vm_compute).
  assert (store_sites appSite newEditor) as Hs by constructor.
  assert (event_sites appSite
            (Message None "UID-1002"
               (PImportDocument (Some [elt "a" [10] "UID-1002"])))) as Hev.
  { split; apply (bool_decide_unpack _); by vm_compute. }
  assert (editor_wf_strict newEditor) as H.
  { apply newEditor_wf. constructor. }
  assert (loads_ok (unique_keys id)
            (Message None "UID-1002"
               (PImportDocument (Some [elt "a" [10] "UID-1002"]))))
    as Hok.
  { simpl. unfold unique_keys. apply (bool_decide_unpack _). by vm_compute. }
  split; [done|]. split; [done|]. split; [done|]. split; [done|].
  split; [done|].
  exact (proj1 (editor_unique_keys "UID-1001" newEditor _ Hu Hs Hev H Hok)).
Defined.

(** ** Import *)

Lemma text_deref {E} (deref : E → CRDTChar) (l : list E) :
  text deref l = text id (deref <$> l).
Proof. unfold text. by rewrite <-list_fmap_compose. Qed.

Lemma sorted_deref {E} (deref : E → CRDTChar) (l : list E) :
  sorted deref l ↔ sorted id (deref <$> l).
Proof.
  rewrite (sorted_keys deref), (sorted_keys id).
  by rewrite <-list_fmap_compose.
Qed.

Lemma concat_chars (s : string) :
  String.concat "" ((λ a, String a "") <$> String.list_ascii_of_string s) = s.
Proof.
  induction s as [|a s IH]; [done|].
  cbn [String.list_ascii_of_string]. rewrite fmap_cons, concat_empty_cons, IH.
  by rewrite append_String, append_empty_l.
Qed.

Lemma length_list_ascii (s : string) :
  length (String.list_ascii_of_string s) = String.length s.
Proof. induction s as [|a s IH]; [done|]. simpl. by rewrite IH. Qed.

Lemma importedChars_values user_id attrs text :
  value <$> importedChars user_id attrs text
  = (λ a, String a "") <$> String.list_ascii_of_string text.
Proof.
  apply list_eq. intros i. unfold importedChars.
  rewrite !list_lookup_fmap, list_lookup_imap.
  by destruct (String.list_ascii_of_string text !! i).
Qed.

(** X20.  [importText] replaces the document by the imported text: the
    text the editor shows is the text given, one element per character
    with the identifiers 10, 20, 30, ... and the current attributes; the
    array is strictly ascending; and both the undo and the redo stack are
    empty. *)
Theorem importText_document (user_id content : string) (ed : Editor) :
  editorText (importText user_id content ed) = content
  ∧ editorChars (importText user_id content ed)
    = importedChars user_id (currentAttributes ed) content
  ∧ length (rawChars (importText user_id content ed)) = String.length content
  ∧ strictly_sorted (objectAt (store (importText user_id content ed)))
                    (rawChars (importText user_id content ed))
  ∧ undoStack (importText user_id content ed) = []
  ∧ redoStack (importText user_id content ed) = [].
Proof.
  unfold importText, editorLoadState, editorText, editorChars.
  cbn [store rawChars undoStack redoStack currentAttributes].
  set (imported := importedChars user_id (currentAttributes ed) content).
  assert (copyChar <$> imported = imported) as -> by apply state_id.
  rewrite fmap_nil, app_nil_r.
  set (objects := store ed ++ imported).
  assert (sortChars (objectAt objects) (seq (length (store ed)) (length imported))
          = seq (length (store ed)) (length imported)) as ->.
  { apply sortChars_id, sorted_deref. subst objects.
    rewrite objectAt_seq_new.
    apply strictly_sorted_sorted, importedChars_strictly_sorted. }
  split_and!; try done.
  - rewrite text_deref. subst objects. rewrite objectAt_seq_new.
    unfold text. change (λ c : CRDTChar, value (id c)) with value.
    subst imported. by rewrite importedChars_values, concat_chars.
  - apply objectAt_seq_new.
  - rewrite length_seq. subst imported. unfold importedChars.
    by rewrite length_imap, length_list_ascii.
  - apply strictly_sorted_iff. split.
    + apply sorted_deref. subst objects. rewrite objectAt_seq_new.
      apply strictly_sorted_sorted, importedChars_strictly_sorted.
    + unfold unique_keys.
      assert (key (objectAt objects)
                <$> seq (length (store ed)) (length imported)
              = key id <$> imported) as ->.
      { transitivity (key id <$> (objectAt objects
                        <$> seq (length (store ed)) (length imported))).
        - by rewrite <-list_fmap_compose.
        - subst objects. by rewrite objectAt_seq_new. }
      apply importedChars_unique.
Qed.

(** ** The cursor under remote edits *)

(** An element put into a list at index [i], seen from a cursor [c]. *)
Lemma insert_at_cursor {A} (l : list A) (a : A) (i c : nat) :
  (i ≤ length l)%nat →
  if decide (i ≤ c)%nat then
    take c l `sublist_of` take (S c) (take i l ++ a :: drop i l)
    ∧ drop (S c) (take i l ++ a :: drop i l) = drop c l
  else
    take c (take i l ++ a :: drop i l) = take c l
    ∧ drop c l `sublist_of` drop c (take i l ++ a :: drop i l).
Proof.
  intros Hi. assert (length (take i l) = i) as Hlen
    by (rewrite length_take; lia).
  case_decide as Hic.
  - split.
    + rewrite take_app_ge by lia. rewrite Hlen.
      replace (S c - i)%nat with (S (c - i)) by lia. simpl.
      replace c with (i + (c - i))%nat at 1 by lia.
      rewrite <-take_take_drop. apply sublist_app; [done|].
      by apply sublist_cons.
    + rewrite drop_app_ge by lia. rewrite Hlen.
      replace (S c - i)%nat with (S (c - i)) by lia. simpl.
      rewrite drop_drop. f_equal. lia.
  - split.
    + rewrite take_app_le by lia. rewrite take_take. f_equal. lia.
    + rewrite drop_app_le by lia.
      rewrite <-(take_drop i l) at 1. rewrite drop_app_le by lia.
      apply sublist_app; [done|]. by apply sublist_cons.
Qed.

(** An element taken out of a list at index [i], seen from a cursor
    [c]. *)
Lemma delete_at_cursor {A} (l : list A) (i c : nat) :
  (i < length l)%nat →
  if decide (i < c)%nat then
    take (c - 1) (delete i l) `sublist_of` take c l
    ∧ drop (c - 1) (delete i l) = drop c l
  else
    take c (delete i l) = take c l
    ∧ drop c (delete i l) `sublist_of` drop c l.
Proof.
  intros Hi. assert (length (take i l) = i) as Hlen
    by (rewrite length_take; lia).
  rewrite delete_take_drop.
  case_decide as Hic.
  - split.
    + rewrite take_app_ge by lia. rewrite Hlen.
      replace c with (i + (c - i))%nat at 2 by lia.
      rewrite <-take_take_drop. apply sublist_app; [done|].
      destruct (lookup_lt_is_Some_2 l i Hi) as [x Hx].
      rewrite (drop_S l x i Hx).
      replace (c - i)%nat with (S (c - 1 - i)) by lia. simpl.
      by apply sublist_cons.
    + rewrite drop_app_ge by lia. rewrite Hlen, drop_drop. f_equal. lia.
  - split.
    + rewrite take_app_le by lia. rewrite take_take. f_equal. lia.
    + rewrite drop_app_le by lia.
      rewrite <-(take_drop i l) at 3. rewrite drop_app_le by lia.
      apply sublist_app; [done|].
      destruct (lookup_lt_is_Some_2 l i Hi) as [x Hx].
      rewrite (drop_S l x i Hx). by apply sublist_cons.
Qed.

Lemma editorRemoteInsert_cursor (c : Z) ed char :
  0 ≤ c →
  let adjust := match (editorRemoteInsert char ed).1 with
                | Some i => if decide (i ≤ c) then 1 else 0
                | None => 0
                end in
  take (Z.to_nat c) (rawChars ed)
    `sublist_of` take (Z.to_nat (c + adjust))
                      (rawChars (editorRemoteInsert char ed).2)
  ∧ drop (Z.to_nat c) (rawChars ed)
      `sublist_of` drop (Z.to_nat (c + adjust))
                        (rawChars (editorRemoteInsert char ed).2).
Proof.
  intros Hc. unfold editorRemoteInsert.
  destruct (remoteInsert_any (objectAt (store ed ++ [char])) (rawChars ed)
              (length (store ed))) as [->|(i & Hi & ->)].
  - cbn [fst snd rawChars]. by rewrite Z.add_0_r.
  - cbn [fst snd rawChars].
    pose proof (insert_at_cursor (rawChars ed) (length (store ed)) i
                  (Z.to_nat c) Hi) as Hcur.
    destruct (decide (Z.of_nat i ≤ c)) as [Hle|Hgt].
    + rewrite decide_True in Hcur by lia. destruct Hcur as [Ht Hd].
      replace (Z.to_nat (c + 1)) with (S (Z.to_nat c)) by lia.
      split; [done|]. by rewrite Hd.
    + rewrite decide_False in Hcur by lia. destruct Hcur as [Ht Hd].
      rewrite Z.add_0_r. split; [by rewrite Ht|done].
Qed.

Lemma batchInsertStep_cursor (c adjustment : Z) ed char :
  0 ≤ c → 0 ≤ adjustment →
  adjustment ≤ (batchInsertStep (Some c) (ed, adjustment) char).2
  ∧ take (Z.to_nat (c + adjustment)) (rawChars ed)
      `sublist_of`
      take (Z.to_nat (c + (batchInsertStep (Some c) (ed, adjustment) char).2))
           (rawChars (batchInsertStep (Some c) (ed, adjustment) char).1)
  ∧ drop (Z.to_nat (c + adjustment)) (rawChars ed)
      `sublist_of`
      drop (Z.to_nat (c + (batchInsertStep (Some c) (ed, adjustment) char).2))
           (rawChars (batchInsertStep (Some c) (ed, adjustment) char).1).
Proof.
  intros Hc Hadj. unfold batchInsertStep.
  pose proof (editorRemoteInsert_cursor (c + adjustment) ed char) as Hstep.
  destruct (editorRemoteInsert char ed) as [idx ed'].
  cbn [fst snd] in *.
  destruct Hstep as [Ht Hd]; [lia|].
  destruct idx as [i|]; [case_decide|]; rewrite <-?Z.add_assoc in Ht, Hd;
    rewrite ?Z.add_0_r in Ht, Hd; split_and!; (lia || done).
Qed.

Lemma batchInsert_cursor (c : Z) (ops : list CRDTChar) ed (adjustment : Z) :
  0 ≤ c → 0 ≤ adjustment →
  adjustment ≤ (foldl (batchInsertStep (Some c)) (ed, adjustment) ops).2
  ∧ take (Z.to_nat (c + adjustment)) (rawChars ed)
      `sublist_of`
      take (Z.to_nat
              (c + (foldl (batchInsertStep (Some c)) (ed, adjustment) ops).2))
           (rawChars (foldl (batchInsertStep (Some c)) (ed, adjustment) ops).1)
  ∧ drop (Z.to_nat (c + adjustment)) (rawChars ed)
      `sublist_of`
      drop (Z.to_nat
              (c + (foldl (batchInsertStep (Some c)) (ed, adjustment) ops).2))
           (rawChars (foldl (batchInsertStep (Some c)) (ed, adjustment) ops).1).
Proof.
  intros Hc. revert ed adjustment.
  induction ops as [|char ops IH]; intros ed adjustment Hadj; [done|].
  change (foldl (batchInsertStep (Some c)) (ed, adjustment) (char :: ops))
    with (foldl (batchInsertStep (Some c))
                (batchInsertStep (Some c) (ed, adjustment) char) ops).
  destruct (batchInsertStep_cursor c adjustment ed char Hc Hadj)
    as (Hle & Ht & Hd).
  destruct (batchInsertStep (Some c) (ed, adjustment) char)
    as [ed' adjustment']. cbn [fst snd] in *.
  destruct (IH ed' adjustment') as (Hle' & Ht' & Hd'); [lia|].
  split_and!.
  - etrans; [exact Hle|exact Hle'].
  - etrans; [exact Ht|exact Ht'].
  - etrans; [exact Hd|exact Hd'].
Qed.

(** X21.  A remote insert, single or batched, from another site keeps
    the cursor between the same characters: the cursor index the handler
    asks for is not below the old one, every element that was before the
    cursor is before the new cursor, and every element that was after it
    is after the new cursor. *)
Theorem remote_insert_keeps_cursor (user_id siteId : string) (cursor : Z)
    (p : Payload) (ed : Editor) :
  siteId ≠ user_id → 0 ≤ cursor →
  (∃ char, p = PInsert char) ∨ (∃ ops, p = PBatchInsert (Some ops)) →
  ∃ cursor',
    (onMessage user_id (Some cursor) siteId p ed).2 = Some cursor'
    ∧ cursor ≤ cursor'
    ∧ take (Z.to_nat cursor) (rawChars ed)
        `sublist_of`
        take (Z.to_nat cursor')
             (rawChars (onMessage user_id (Some cursor) siteId p ed).1)
    ∧ drop (Z.to_nat cursor) (rawChars ed)
        `sublist_of`
        drop (Z.to_nat cursor')
             (rawChars (onMessage user_id (Some cursor) siteId p ed).1).
Proof.
  intros Hsite Hc [[char ->]|[ops ->]]; unfold onMessage;
    rewrite decide_False by done; unfold dispatch.
  - pose proof (editorRemoteInsert_cursor cursor ed char Hc) as Hstep.
    destruct (editorRemoteInsert char ed) as [idx ed']. cbn [fst snd] in *.
    eexists. split; [done|].
    assert (0 ≤ match idx with
                | Some i => if decide (i ≤ cursor) then 1 else 0
                | None => 0
                end) as Hadj by (destruct idx; [case_decide|]; lia).
    rewrite Z.max_r by lia. split; [lia|done].
  - pose proof (batchInsert_cursor cursor ops ed 0 Hc) as Hfold.
    destruct (foldl _ _ _) as [ed' adjustment]. cbn [fst snd] in *.
    destruct Hfold as (Hadj & Ht & Hd); [lia|].
    rewrite Z.add_0_r in Ht, Hd.
    eexists. split; [done|]. rewrite Z.max_r by lia. split; [lia|done].
Qed.

Lemma remote_insert_keeps_cursor_witness :
  "U2" ≠ "U1" ∧ 0 ≤ 1
  ∧ ∃ cursor',
      (onMessage "U1" (Some 1) "U2" (PInsert (elt "x" [5] "U2"))
         (mkEditor [elt "a" [10] "U1"; elt "b" [20] "U1"] [0%nat; 1%nat]
                   [] [] noAttrs)).2 = Some cursor'
      ∧ 1 ≤ cursor'.
Proof.
  assert ("U2" ≠ "U1") as Hsite by discriminate.
  assert (0 ≤ 1) as Hc by lia.
  split; [done|]. split; [done|].
  destruct (remote_insert_keeps_cursor "U1" "U2" 1
              (PInsert (elt "x" [5] "U2"))
              (mkEditor [elt "a" [10] "U1"; elt "b" [20] "U1"] [0%nat; 1%nat]
                        [] [] noAttrs) Hsite Hc)
    as (cursor' & H1 & H2 & _); [left; by eexists|].
  by exists cursor'.
Defined.

(** X22.  A remote delete from another site keeps the cursor between
    the same characters: the cursor index the handler asks for is not
    above the old one, every element left before the new cursor was
    before the cursor, and every element left after it was after the
    cursor. *)
Theorem remote_delete_keeps_cursor (user_id siteId : string) (cursor : Z)
    (pos : list Z) (ed : Editor) :
  siteId ≠ user_id → 0 ≤ cursor →
  ∃ cursor',
    (onMessage user_id (Some cursor) siteId (PDelete pos) ed).2 = Some cursor'
    ∧ 0 ≤ cursor' ≤ cursor
    ∧ take (Z.to_nat cursor')
           (rawChars (onMessage user_id (Some cursor) siteId (PDelete pos) ed).1)
        `sublist_of` take (Z.to_nat cursor) (rawChars ed)
    ∧ drop (Z.to_nat cursor')
           (rawChars (onMessage user_id (Some cursor) siteId (PDelete pos) ed).1)
        `sublist_of` drop (Z.to_nat cursor) (rawChars ed).
Proof.
  intros Hsite Hc. unfold onMessage. rewrite decide_False by done.
  unfold dispatch, editorRemoteDelete.
  destruct (remoteDelete_spec (objectAt (store ed)) (rawChars ed) pos siteId)
    as [[_ ->]|(i & a & Hi & _ & ->)]; cbn [fst snd rawChars withRawChars].
  - rewrite decide_False by lia. rewrite Z.add_0_r, Z.max_r by lia.
    eexists. split; [done|]. split; [lia|done].
  - apply lookup_lt_Some in Hi.
    pose proof (delete_at_cursor (rawChars ed) i (Z.to_nat cursor) Hi) as Hcur.
    destruct (decide (Z.of_nat i ≠ -1 ∧ Z.of_nat i < cursor)) as [[_ Hlt]|Hge].
    + rewrite decide_True in Hcur by lia. destruct Hcur as [Ht Hd].
      rewrite Z.max_r by lia. eexists. split; [done|]. split; [lia|].
      replace (Z.to_nat (cursor + -1)) with (Z.to_nat cursor - 1)%nat by lia.
      split; [done|by rewrite Hd].
    + rewrite decide_False in Hcur by lia. destruct Hcur as [Ht Hd].
      rewrite Z.add_0_r, Z.max_r by lia. eexists. split; [done|].
      split; [lia|]. split; [by rewrite Ht|done].
Qed.

Lemma remote_delete_keeps_cursor_witness :
  "U2" ≠ "U1" ∧ 0 ≤ 2
  ∧ ∃ cursor',
      (onMessage "U1" (Some 2) "U2" (PDelete [10])
         (mkEditor [elt "a" [10] "U2"; elt "b" [20] "U1"] [0%nat; 1%nat]
                   [] [] noAttrs)).2 = Some cursor'
      ∧ 0 ≤ cursor' ≤ 2.
Proof.
  assert ("U2" ≠ "U1") as Hsite by discriminate.
  assert (0 ≤ 2) as Hc by lia.
  split; [done|]. split; [done|].
  destruct (remote_delete_keeps_cursor "U1" "U2" 2 [10]
              (mkEditor [elt "a" [10] "U2"; elt "b" [20] "U1"] [0%nat; 1%nat]
                        [] [] noAttrs) Hsite Hc)
    as (cursor' & H1 & H2 & _).
  by exists cursor'.
Defined.

(** * Text filters *)

Lemma replaceChar_app c by_ s1 s2 :
  replaceChar c by_ (s1 +:+ s2)
  = replaceChar c by_ s1 +:+ replaceChar c by_ s2.
Proof.
  induction s1 as [|a s1 IH]; [done|].
  rewrite append_String. cbn [replaceChar]. rewrite IH.
  case_decide; [by rewrite append_assoc|by rewrite append_String].
Qed.

(** The passes of [escapeHTML] after one character. *)
Lemma escapeHTML_String (a : ascii) (s : string) :
  escapeHTML (String a s) = entity a +:+ escapeHTML s.
Proof.
  unfold escapeHTML, entity. cbn [replaceChar].
  destruct (decide (a = "&"%char)) as [->|Hamp].
  { by rewrite !replaceChar_app. }
  cbn [replaceChar].
  destruct (decide (a = "<"%char)) as [->|Hlt].
  { by rewrite !replaceChar_app. }
  cbn [replaceChar].
  destruct (decide (a = ">"%char)) as [->|Hgt].
  { by rewrite !replaceChar_app. }
  cbn [replaceChar].
  destruct (decide (a = dquote)) as [->|Hdq].
  { by rewrite !replaceChar_app. }
  cbn [replaceChar].
  destruct (decide (a = "'"%char)) as [->|Hsq]; done.
Qed.

Lemma escapeHTML_entities (s : string) : escapeHTML s = entities s.
Proof.
  induction s as [|a s IH]; [done|].
  by rewrite escapeHTML_String, IH.
Qed.

Lemma entity_occurs (a b : ascii) :
  occurs a (entity b) →
  a ≠ "<"%char ∧ a ≠ ">"%char ∧ a ≠ dquote ∧ a ≠ "'"%char.
Proof.
  unfold entity. repeat case_decide; simpl; intros Hocc;
    repeat (destruct Hocc as [->|Hocc]; [by split_and!|]); done.
Qed.

Lemma entities_occurs (a : ascii) (s : string) :
  occurs a (entities s) →
  a ≠ "<"%char ∧ a ≠ ">"%char ∧ a ≠ dquote ∧ a ≠ "'"%char.
Proof.
  induction s as [|b s IH]; [done|]. cbn [entities].
  intros [H|H]%occurs_app; [by eapply entity_occurs|by apply IH].
Qed.

Lemma entity_prefix_inj (a b : ascii) (r1 r2 : string) :
  entity a +:+ r1 = entity b +:+ r2 → a = b ∧ r1 = r2.
Proof.
  unfold entity. repeat case_decide; subst;
    rewrite ?append_String, ?append_empty_l; intros Heq; split; congruence.
Qed.

Lemma entities_inj (s1 s2 : string) : entities s1 = entities s2 → s1 = s2.
Proof.
  revert s2. induction s1 as [|a s1 IH]; intros [|b s2]; cbn [entities].
  - done.
  - unfold entity. repeat case_decide; rewrite ?append_String; discriminate.
  - unfold entity. repeat case_decide; rewrite ?append_String; discriminate.
  - intros [-> H]%entity_prefix_inj. by rewrite (IH s2 H).
Qed.

(** X23.  [escapeHTML] replaces each of the five characters by its
    entity and leaves the others, as if in one pass: the ampersands of the
    entities it writes are not escaped again.  Its result contains none of
    the characters [<], [>], the double quote and the single quote, and it
    loses nothing: two texts with the same result are the same text. *)
Theorem escapeHTML_safe (s1 s2 : string) :
  escapeHTML s1 = entities s1
  ∧ (∀ a, occurs a (escapeHTML s1) →
          a ≠ "<"%char ∧ a ≠ ">"%char ∧ a ≠ dquote ∧ a ≠ "'"%char)
  ∧ (escapeHTML s1 = escapeHTML s2 → s1 = s2).
Proof.
  split_and!.
  - apply escapeHTML_entities.
  - intros a. rewrite escapeHTML_entities. apply entities_occurs.
  - rewrite !escapeHTML_entities. apply entities_inj.
Qed.

Lemma escapeHTML_safe_witness :
  escapeHTML "<b>" = escapeHTML "<b>" ∧ "<b>" = "<b>".
Proof.
  assert (escapeHTML "<b>" = escapeHTML "<b>") as H by reflexivity.
  split; [done|].
  exact (proj2 (proj2 (escapeHTML_safe "<b>" "<b>")) H).
Defined.

Lemma stripControls_occurs (a : ascii) (s : string) :
  occurs a (stripControls s) → occurs a s ∧ isControl a = false.
Proof.
  induction s as [|b s IH]; [done|]. cbn [stripControls].
  destruct (isControl b) eqn:Hb.
  - intros [? ?]%IH. split; [by right|done].
  - intros [->|[? ?]%IH]; (split; [by (left + right)|done]).
Qed.

Lemma stripControls_id (s : string) :
  (∀ a, occurs a s → isControl a = false) → stripControls s = s.
Proof.
  induction s as [|b s IH]; [done|]. intros H. cbn [stripControls].
  rewrite (H b) by by left. rewrite IH; [done|].
  intros a Ha. apply H. by right.
Qed.

Lemma normalizeNewlines_no_CR_bounded (n : nat) (s : string) :
  (String.length s ≤ n)%nat → ¬ occurs CR (normalizeNewlines s).
Proof.
  revert s. induction n as [|n IH]; intros s Hlen.
  { destruct s; simpl in Hlen; [by intros []|lia]. }
  destruct s as [|a s]; [by intros []|]. simpl in Hlen.
  cbn [normalizeNewlines]. destruct (decide (a = CR)) as [->|Hne].
  - destruct s as [|b s]; simpl.
    + intros [|[]]; discriminate.
    + simpl in Hlen. case_decide.
      * intros [|Hocc]; [discriminate|]. apply (IH s); [lia|done].
      * intros [|Hocc]; [discriminate|]. apply (IH (String b s)); [simpl; lia|done].
  - intros [|Hocc]; [congruence|]. apply (IH s); [lia|done].
Qed.

Lemma normalizeNewlines_no_CR (s : string) : ¬ occurs CR (normalizeNewlines s).
Proof. by apply (normalizeNewlines_no_CR_bounded (String.length s)). Qed.

Lemma normalizeNewlines_id (s : string) :
  ¬ occurs CR s → normalizeNewlines s = s.
Proof.
  induction s as [|a s IH]; [done|]. intros H. cbn [normalizeNewlines].
  rewrite decide_False by (intros ->; apply H; by left).
  rewrite IH; [done|]. intros Hs. apply H. by right.
Qed.

(** X24.  [normalizeImportedText] leaves no carriage return and none of
    the control characters of its class in the text; a text that holds
    neither is returned as it is; so normalizing twice is normalizing
    once. *)
Theorem normalizeImportedText_clean (input : string) :
  (∀ a, occurs a (normalizeImportedText input) →
        a ≠ CR ∧ isControl a = false)
  ∧ ((∀ a, occurs a input → a ≠ CR ∧ isControl a = false) →
     normalizeImportedText input = input)
  ∧ normalizeImportedText (normalizeImportedText input)
    = normalizeImportedText input.
Proof.
  assert (∀ s, (∀ a, occurs a s → a ≠ CR ∧ isControl a = false) →
               normalizeImportedText s = s) as Hid.
  { intros s Hs. unfold normalizeImportedText.
    rewrite normalizeNewlines_id; [|intros H; by destruct (Hs CR H)].
    apply stripControls_id. intros a Ha. by apply Hs. }
  assert (∀ a, occurs a (normalizeImportedText input) →
               a ≠ CR ∧ isControl a = false) as Hclean.
  { intros a [Ha Hc]%stripControls_occurs. split; [|done].
    intros ->. by apply (normalizeNewlines_no_CR input). }
  split_and!; [done|apply Hid|by apply Hid].
Qed.

Lemma normalizeImportedText_clean_witness :
  (∀ a, occurs a "ab" → a ≠ CR ∧ isControl a = false)
  ∧ normalizeImportedText "ab" = "ab".
Proof.
  assert (∀ a, occurs a "ab" → a ≠ CR ∧ isControl a = false) as H.
  { intros a [->|[->|[]]]; by vm_compute. }
  split; [done|].
  exact (proj1 (proj2 (normalizeImportedText_clean "ab")) H).
Defined.

(** A Windows line ending becomes one line feed, a lone carriage return
    too, and a control character between them is dropped. *)
Example normalizeImportedText_line_endings :
  normalizeImportedText
    (String "a" (String CR (String LF (String "007"
       (String "b" (String CR (String "c" "")))))))
  = String "a" (String LF (String "b" (String LF (String "c" "")))).
Proof. reflexivity. Qed.

(** * Formatting in the editor *)

Lemma formatAt_keeps patch (i : nat) ed batch :
  rawChars (formatAt patch (ed, batch) i).1 = rawChars ed
  ∧ length (store (formatAt patch (ed, batch) i).1) = length (store ed)
  ∧ (∀ b, value (objectAt (store (formatAt patch (ed, batch) i).1) b)
          = value (objectAt (store ed) b))
  ∧ (∀ b, key (objectAt (store (formatAt patch (ed, batch) i).1)) b
          = key (objectAt (store ed)) b)
  ∧ undoStack (formatAt patch (ed, batch) i).1 = undoStack ed
  ∧ redoStack (formatAt patch (ed, batch) i).1 = redoStack ed
  ∧ currentAttributes (formatAt patch (ed, batch) i).1 = currentAttributes ed.
Proof.
  unfold formatAt. destruct (rawChars ed !! i) as [a|] eqn:Ha; [|done].
  unfold editorLocalFormat.
  assert (rawChars ed !!? Z.of_nat i = Some a) as ->
    by by rewrite lookupZ_of_nat.
  cbn [fst snd withStore store rawChars undoStack redoStack currentAttributes].
  rewrite length_insert. split_and!; try done.
  - intros b. apply value_objectAt_insert.
  - intros b. apply key_objectAt_insert.
Qed.

Lemma formatAt_fold_keeps patch (indices : list nat) ed batch :
  rawChars (foldl (formatAt patch) (ed, batch) indices).1 = rawChars ed
  ∧ length (store (foldl (formatAt patch) (ed, batch) indices).1)
    = length (store ed)
  ∧ (∀ b, value (objectAt (store (foldl (formatAt patch) (ed, batch)
                                    indices).1) b)
          = value (objectAt (store ed) b))
  ∧ (∀ b, key (objectAt (store (foldl (formatAt patch) (ed, batch)
                                  indices).1)) b
          = key (objectAt (store ed)) b)
  ∧ undoStack (foldl (formatAt patch) (ed, batch) indices).1 = undoStack ed
  ∧ redoStack (foldl (formatAt patch) (ed, batch) indices).1 = redoStack ed
  ∧ currentAttributes (foldl (formatAt patch) (ed, batch) indices).1
    = currentAttributes ed.
Proof.
  revert ed batch. induction indices as [|i indices IH]; intros ed batch;
    [done|].
  change (foldl (formatAt patch) (ed, batch) (i :: indices))
    with (foldl (formatAt patch) (formatAt patch (ed, batch) i) indices).
  destruct (formatAt_keeps patch i ed batch)
    as (Hr & Hl & Hv & Hk & Hu & Hre & Hc).
  destruct (formatAt patch (ed, batch) i) as [ed' batch']. cbn [fst] in *.
  destruct (IH ed' batch') as (Hr' & Hl' & Hv' & Hk' & Hu' & Hre' & Hc').
  split_and!; try congruence; intros b; congruence.
Qed.

Lemma pushToUndo_document batch ed :
  store (pushToUndo batch ed) = store ed
  ∧ rawChars (pushToUndo batch ed) = rawChars ed
  ∧ currentAttributes (pushToUndo batch ed) = currentAttributes ed.
Proof. unfold pushToUndo. by case_decide. Qed.

Lemma applyToSelection_keeps patch start end_ ed :
  rawChars (applyToSelection patch start end_ ed) = rawChars ed
  ∧ editorText (applyToSelection patch start end_ ed) = editorText ed
  ∧ (∀ b, key (objectAt (store (applyToSelection patch start end_ ed))) b
          = key (objectAt (store ed)) b)
  ∧ currentAttributes (applyToSelection patch start end_ ed)
    = currentAttributes ed.
Proof.
  unfold applyToSelection. case_decide; [done|].
  destruct (formatAt_fold_keeps patch (seq start (end_ - start)) ed [])
    as (Hr & _ & Hv & Hk & _ & _ & Hc).
  destruct (foldl _ _ _) as [ed' batch]. cbn [fst] in *.
  destruct (pushToUndo_document batch ed') as (Hs & Hr' & Hc').
  unfold editorText. rewrite Hs, Hr', Hc', Hr. split_and!; try done.
  by apply text_agree.
Qed.

(** X25.  Formatting never changes the text: after [toggleAttribute],
    [updateAttribute] or [applyToSelection], whatever the selection, the
    array holds the same objects in the same order, with the same
    identifiers and sites, and the editor shows the same text;
    [toggleAttribute] flips the attribute in the current attributes and
    [updateAttribute] sets it. *)
Theorem formatting_keeps_text (start end_ : nat) (ed : Editor) :
  (∀ patch,
     rawChars (applyToSelection patch start end_ ed) = rawChars ed
     ∧ editorText (applyToSelection patch start end_ ed) = editorText ed
     ∧ ∀ b, key (objectAt (store (applyToSelection patch start end_ ed))) b
            = key (objectAt (store ed)) b)
  ∧ (∀ k,
       rawChars (toggleAttribute k start end_ ed) = rawChars ed
       ∧ editorText (toggleAttribute k start end_ ed) = editorText ed
       ∧ attr_get (match k with
                   | Bold => KBold | Italic => KItalic | Underline => KUnderline
                   end) (currentAttributes (toggleAttribute k start end_ ed))
         = Some (VBool (negb (default false
                   match k with
                   | Bold => bold (currentAttributes ed)
                   | Italic => italic (currentAttributes ed)
                   | Underline => underline (currentAttributes ed)
                   end))))
  ∧ (∀ k val,
       rawChars (updateAttribute k val start end_ ed) = rawChars ed
       ∧ editorText (updateAttribute k val start end_ ed) = editorText ed
       ∧ attr_get (match k with
                   | FontSize => KFontSize | FontFamily => KFontFamily
                   end) (currentAttributes (updateAttribute k val start end_ ed))
         = Some (VString val)).
Proof.
  split_and!.
  - intros patch.
    destruct (applyToSelection_keeps patch start end_ ed) as (? & ? & ? & _).
    done.
  - intros k. unfold toggleAttribute.
    match goal with |- context [applyToSelection ?p _ _ ?e] =>
      destruct (applyToSelection_keeps p start end_ e) as (Hr & Ht & _ & Hc)
    end.
    rewrite Hr, Ht, Hc. split_and!; [done|done|]. by destruct k.
  - intros k val. unfold updateAttribute.
    match goal with |- context [applyToSelection ?p _ _ ?e] =>
      destruct (applyToSelection_keeps p start end_ e) as (Hr & Ht & _ & Hc)
    end.
    rewrite Hr, Ht, Hc. split_and!; [done|done|]. by destruct k.
Qed.

(** ** Undo of a format *)

Lemma objectAt_insert (objects : list CRDTChar) (a b : nat) (x : CRDTChar) :
  (a < length objects)%nat →
  objectAt (<[a := x]> objects) b = if decide (b = a) then x else objectAt objects b.
Proof.
  intros Ha. unfold objectAt. case_decide as Hb.
  - subst b. by rewrite list_lookup_total_insert_eq.
  - by rewrite list_lookup_total_insert_ne.
Qed.

(** The loop of [applyToSelection] over distinct, valid addresses: the
    entries it records and the store it leaves. *)
Lemma format_selection patch (start n : nat) ed :
  NoDup (rawChars ed) → valid_refs (store ed) (rawChars ed) →
  (foldl (formatAt patch) (ed, []) (seq start n)).2
  = (λ a, mkUndo UFormat a
            (Some (spread (attributes (objectAt (store ed) a)) noAttrs)))
      <$> take n (drop start (rawChars ed))
  ∧ ∀ a, objectAt (store (foldl (formatAt patch) (ed, []) (seq start n)).1) a
         = if decide (a ∈ take n (drop start (rawChars ed)))
           then formatted patch (objectAt (store ed) a)
           else objectAt (store ed) a.
Proof.
  intros Hnd Hvalid. induction n as [|n IH].
  - cbn [seq foldl fst snd]. rewrite take_0. split; [done|]. intros a.
    rewrite decide_False; [done|]. by intros ?%elem_of_nil.
  - rewrite seq_S, foldl_app.
    destruct (formatAt_fold_keeps patch (seq start n) ed [])
      as (Hraw & Hlen & _).
    destruct (foldl (formatAt patch) (ed, []) (seq start n))
      as [ed_n batch_n]. cbn [fst snd] in *.
    destruct IH as [Hbatch Hstore].
    cbn [foldl]. unfold formatAt. rewrite Hraw.
    destruct (rawChars ed !! (start + n)%nat) as [a|] eqn:Ha.
    + assert (drop start (rawChars ed) !! n = Some a) as Ha'
        by by rewrite lookup_drop.
      rewrite (take_S_r _ _ _ Ha').
      assert (a ∉ take n (drop start (rawChars ed))) as Hfresh.
      { intros [j Hj]%list_elem_of_lookup.
        pose proof (lookup_lt_Some _ _ _ Hj) as Hjn.
        rewrite length_take in Hjn.
        rewrite lookup_take_lt, lookup_drop in Hj by lia.
        pose proof (NoDup_lookup _ _ _ _ Hnd Hj Ha). lia. }
      assert (objectAt (store ed_n) a = objectAt (store ed) a) as Hobj
        by by rewrite Hstore, decide_False.
      unfold editorLocalFormat. rewrite Hraw, lookupZ_of_nat, Ha.
      cbn [fst snd withStore store]. rewrite Hobj, Hbatch, fmap_app.
      split; [done|]. intros b.
      assert (a < length (store ed_n))%nat as Hlt.
      { rewrite Hlen. unfold valid_refs in Hvalid.
        rewrite Forall_forall in Hvalid. apply Hvalid.
        by eapply list_elem_of_lookup_2. }
      rewrite objectAt_insert by done. rewrite Hstore.
      destruct (decide (b = a)) as [->|Hne].
      * rewrite decide_True; [done|]. apply elem_of_app. right. left.
      * destruct (decide (b ∈ take n (drop start (rawChars ed)))) as [Hin|Hout].
        -- rewrite decide_True; [done|]. apply elem_of_app. by left.
        -- rewrite decide_False; [done|].
           intros [?|?%list_elem_of_singleton]%elem_of_app; done.
    + assert (take (S n) (drop start (rawChars ed))
              = take n (drop start (rawChars ed))) as ->.
      { apply lookup_ge_None in Ha.
        rewrite !take_ge; [done|rewrite length_drop; lia..]. }
      done.
Qed.

(** One [format] entry undone, or redone, on an array with no key
    twice: the object the entry refers to is the one [remoteFormat]
    finds. *)
Lemma editorRemoteFormat_own (a : nat) (prev : CRDTAttributes) ed :
  unique_keys (objectAt (store ed)) (rawChars ed) → a ∈ rawChars ed →
  editorRemoteFormat (position (objectAt (store ed) a))
                     (siteId (objectAt (store ed) a)) prev ed
  = withStore ed (<[a := formatted prev (objectAt (store ed) a)]> (store ed)).
Proof.
  intros Hu Hraw. unfold editorRemoteFormat.
  destruct (list_find _ (rawChars ed)) as [[j a']|] eqn:Hfind.
  - apply list_find_Some in Hfind as (Hj & Hk%addresses_key & _).
    apply list_elem_of_lookup in Hraw as [i Hi].
    pose proof (unique_keys_lookup_inj _ _ j i a' a Hu Hj Hi Hk).
    by assert (a' = a) as -> by congruence.
  - exfalso. apply list_find_None in Hfind.
    rewrite Forall_forall in Hfind. apply (Hfind a Hraw).
    by apply addresses_key.
Qed.

Lemma undoEntry_format (a : nat) (prev : CRDTAttributes) ed acc :
  unique_keys (objectAt (store ed)) (rawChars ed) → a ∈ rawChars ed →
  undoEntry (ed, acc) (mkUndo UFormat a (Some prev))
  = (withStore ed (<[a := formatted prev (objectAt (store ed) a)]> (store ed)),
     mkUndo UFormat a
       (Some (spread (attributes (objectAt (store ed) a)) noAttrs)) :: acc).
Proof.
  intros Hu Hraw. unfold undoEntry. cbn [utype uchar prevAttributes default].
  by rewrite editorRemoteFormat_own.
Qed.

Lemma redoEntry_format (a : nat) (prev : CRDTAttributes) ed acc :
  unique_keys (objectAt (store ed)) (rawChars ed) → a ∈ rawChars ed →
  redoEntry (ed, acc) (mkUndo UFormat a (Some prev))
  = (withStore ed (<[a := formatted prev (objectAt (store ed) a)]> (store ed)),
     acc ++ [mkUndo UFormat a
               (Some (spread (attributes (objectAt (store ed) a)) noAttrs))]).
Proof.
  intros Hu Hraw. unfold redoEntry. cbn [utype uchar prevAttributes default].
  by rewrite editorRemoteFormat_own.
Qed.

Lemma format_keeps_document (a : nat) (x : CRDTAttributes) ed :
  unique_keys (objectAt (store ed)) (rawChars ed) →
  valid_refs (store ed) (rawChars ed) →
  unique_keys
    (objectAt (<[a := formatted x (objectAt (store ed) a)]> (store ed)))
    (rawChars ed)
  ∧ valid_refs (<[a := formatted x (objectAt (store ed) a)]> (store ed))
               (rawChars ed).
Proof.
  intros Hu Hvalid. split.
  - unfold unique_keys in *. erewrite list_fmap_ext; [exact Hu|].
    intros ? b _. apply key_objectAt_insert.
  - unfold valid_refs in *. by rewrite length_insert.
Qed.

(** The [format] entries of a batch, undone, for distinct addresses of an
    array with no key twice: the editor and the entries for redo. *)
Lemma undo_formats (L : list nat) (g : nat → CRDTAttributes) ed acc :
  unique_keys (objectAt (store ed)) (rawChars ed) →
  valid_refs (store ed) (rawChars ed) →
  NoDup L → (∀ a, a ∈ L → a ∈ rawChars ed) →
  ∃ objects,
    foldl undoEntry (ed, acc) ((λ a, mkUndo UFormat a (Some (g a))) <$> L)
    = (withStore ed objects,
       reverse ((λ a, mkUndo UFormat a
                        (Some (spread (attributes (objectAt (store ed) a))
                                      noAttrs))) <$> L) ++ acc)
    ∧ length objects = length (store ed)
    ∧ ∀ a, objectAt objects a
           = if decide (a ∈ L) then formatted (g a) (objectAt (store ed) a)
             else objectAt (store ed) a.
Proof.
  revert ed acc. induction L as [|a L IH]; intros ed acc Hu Hvalid Hnd Hin.
  - exists (store ed). split_and!; [by destruct ed|done|].
    intros a. rewrite decide_False; [done|]. by intros ?%elem_of_nil.
  - rewrite !fmap_cons. cbn [foldl].
    apply NoDup_cons in Hnd as [Ha Hnd].
    assert (a ∈ rawChars ed) as Hraw by (apply Hin; left).
    assert (a < length (store ed))%nat as Hlt.
    { unfold valid_refs in Hvalid. rewrite Forall_forall in Hvalid.
      by apply Hvalid. }
    rewrite undoEntry_format by done.
    destruct (format_keeps_document a (g a) ed Hu Hvalid) as [Hu' Hv'].
    destruct (IH (withStore ed (<[a := formatted (g a)
                                        (objectAt (store ed) a)]> (store ed)))
                 (mkUndo UFormat a
                    (Some (spread (attributes (objectAt (store ed) a))
                                  noAttrs)) :: acc))
      as (objects & Hfold & Hlen & Hs); [done|done|done| |].
    { intros b Hb. apply Hin. by right. }
    exists objects. cbn [withStore store rawChars] in *.
    rewrite length_insert in Hlen. split_and!; [|done|].
    + rewrite Hfold. f_equal. rewrite reverse_cons, <-app_assoc.
      f_equal. f_equal. apply list_fmap_ext. intros ? b Hb.
      rewrite objectAt_insert by done. rewrite decide_False; [done|].
      intros ->. apply Ha. by eapply list_elem_of_lookup_2.
    + intros b. rewrite Hs, objectAt_insert by done.
      destruct (decide (b = a)) as [->|Hne].
      * rewrite decide_False by done. rewrite decide_True; [done|left].
      * destruct (decide (b ∈ L)) as [Hb|Hb].
        -- rewrite decide_True; [done|by right].
        -- rewrite decide_False; [done|]. by intros [?|?]%elem_of_cons.
Qed.

(** The same entries redone. *)
Lemma redo_formats (L : list nat) (g : nat → CRDTAttributes) ed acc :
  unique_keys (objectAt (store ed)) (rawChars ed) →
  valid_refs (store ed) (rawChars ed) →
  NoDup L → (∀ a, a ∈ L → a ∈ rawChars ed) →
  ∃ objects undoBatch,
    foldl redoEntry (ed, acc) ((λ a, mkUndo UFormat a (Some (g a))) <$> L)
    = (withStore ed objects, undoBatch)
    ∧ length objects = length (store ed)
    ∧ ∀ a, objectAt objects a
           = if decide (a ∈ L) then formatted (g a) (objectAt (store ed) a)
             else objectAt (store ed) a.
Proof.
  revert ed acc. induction L as [|a L IH]; intros ed acc Hu Hvalid Hnd Hin.
  - exists (store ed), acc. split_and!; [by destruct ed|done|].
    intros a. rewrite decide_False; [done|]. by intros ?%elem_of_nil.
  - rewrite !fmap_cons. cbn [foldl].
    apply NoDup_cons in Hnd as [Ha Hnd].
    assert (a ∈ rawChars ed) as Hraw by (apply Hin; left).
    assert (a < length (store ed))%nat as Hlt.
    { unfold valid_refs in Hvalid. rewrite Forall_forall in Hvalid.
      by apply Hvalid. }
    rewrite redoEntry_format by done.
    destruct (format_keeps_document a (g a) ed Hu Hvalid) as [Hu' Hv'].
    destruct (IH (withStore ed (<[a := formatted (g a)
                                        (objectAt (store ed) a)]> (store ed)))
                 (acc ++ [mkUndo UFormat a
                            (Some (spread (attributes (objectAt (store ed) a))
                                          noAttrs))]))
      as (objects & undoBatch & Hfold & Hlen & Hs); [done|done|done| |].
    { intros b Hb. apply Hin. by right. }
    exists objects, undoBatch. cbn [withStore store rawChars] in *.
    rewrite length_insert in Hlen. split_and!; [done|done|].
    intros b. rewrite Hs, objectAt_insert by done.
    destruct (decide (b = a)) as [->|Hne].
    + rewrite decide_False by done. rewrite decide_True; [done|left].
    + destruct (decide (b ∈ L)) as [Hb|Hb].
      * rewrite decide_True; [done|by right].
      * rewrite decide_False; [done|]. by intros [?|?]%elem_of_cons.
Qed.

Lemma selection_elem_of (raw : list nat) (start end_ i : nat) a :
  NoDup raw → raw !! i = Some a →
  a ∈ take (end_ - start) (drop start raw) ↔ (start ≤ i < end_)%nat.
Proof.
  intros Hnd Hi. split.
  - intros [j Hj]%list_elem_of_lookup.
    pose proof (lookup_lt_Some _ _ _ Hj) as Hjn. rewrite length_take in Hjn.
    rewrite lookup_take_lt, lookup_drop in Hj by lia.
    pose proof (NoDup_lookup _ _ _ _ Hnd Hi Hj). lia.
  - intros Hrange. apply list_elem_of_lookup. exists (i - start)%nat.
    rewrite lookup_take_lt, lookup_drop by lia.
    by replace (start + (i - start))%nat with i by lia.
Qed.

(** A format of a non-empty selection on an array that is sorted with no
    key twice, and its undo, in full: the stores after the action and
    after the undo, and the batch left on the redo stack. *)
Lemma undo_format_explicit (patch : CRDTAttributes) (start end_ : nat)
    (ed : Editor) :
  strictly_sorted (objectAt (store ed)) (rawChars ed) →
  valid_refs (store ed) (rawChars ed) →
  (start < end_)%nat → (start < length (rawChars ed))%nat →
  ∃ store1 store2 rest,
    store (applyToSelection patch start end_ ed) = store1
    ∧ length store1 = length (store ed)
    ∧ (∀ a, objectAt store1 a
            = if decide (a ∈ take (end_ - start) (drop start (rawChars ed)))
              then formatted patch (objectAt (store ed) a)
              else objectAt (store ed) a)
    ∧ handleUndo (applyToSelection patch start end_ ed)
      = mkEditor store2 (rawChars ed) rest
          [(λ a, mkUndo UFormat a
                   (Some (spread (attributes (objectAt store1 a)) noAttrs)))
             <$> take (end_ - start) (drop start (rawChars ed))]
          (currentAttributes ed)
    ∧ length store2 = length (store ed)
    ∧ (∀ a, objectAt store2 a
            = if decide (a ∈ take (end_ - start) (drop start (rawChars ed)))
              then formatted
                     (spread (attributes (objectAt (store ed) a)) noAttrs)
                     (formatted patch (objectAt (store ed) a))
              else objectAt (store ed) a).
Proof.
  intros Hss Hvalid Hse Hstart.
  pose proof (strictly_sorted_unique_keys _ _ Hss) as Hu.
  assert (NoDup (rawChars ed)) as Hnd by by eapply NoDup_fmap_1.
  unfold applyToSelection. rewrite decide_False by lia.
  destruct (format_selection patch start (end_ - start) ed Hnd Hvalid)
    as [Hbatch Hstore].
  destruct (formatAt_fold_keeps patch (seq start (end_ - start)) ed [])
    as (Hraw & Hlen & _ & Hk & Hus & Hrs & Hca).
  destruct (foldl (formatAt patch) (ed, []) (seq start (end_ - start)))
    as [ed1 batch]. cbn [fst snd] in *.
  set (sel := take (end_ - start) (drop start (rawChars ed))) in *.
  set (g := λ a, spread (attributes (objectAt (store ed) a)) noAttrs) in *.
  assert (sel ≠ []) as Hsel.
  { intros Hnil. apply (f_equal length) in Hnil. subst sel.
    rewrite length_take, length_drop in Hnil. simpl in Hnil. lia. }
  assert (sel `sublist_of` rawChars ed) as Hsub.
  { subst sel. etrans; [apply sublist_take|apply sublist_drop]. }
  rewrite pushToUndo_nonempty by (rewrite Hbatch; by destruct sel).
  unfold handleUndo.
  cbn [store rawChars undoStack redoStack currentAttributes].
  rewrite pop_snoc, Hbatch, <-fmap_reverse.
  set (rest := if decide (100 ≤ length (undoStack ed1))%nat
               then drop 1 (undoStack ed1) else undoStack ed1).
  destruct (undo_formats (reverse sel) (λ a, g a)
              (mkEditor (store ed1) (rawChars ed1) rest []
                        (currentAttributes ed1)) [])
    as (store2 & Hfold & Hlen2 & Hs).
  { unfold unique_keys in *. cbn [store rawChars].
    rewrite Hraw. erewrite list_fmap_ext; [exact Hu|]. intros ? b _. apply Hk. }
  { unfold valid_refs in *. cbn [store rawChars]. by rewrite Hraw, Hlen. }
  { rewrite reverse_Permutation. by eapply sublist_NoDup. }
  { intros a Ha. rewrite elem_of_reverse in Ha. cbn [rawChars].
    rewrite Hraw. by eapply elem_of_sublist. }
  match goal with |- context [foldl undoEntry ?st ?l] =>
    change (foldl undoEntry st l)
      with (foldl undoEntry
              (mkEditor (store ed1) (rawChars ed1) rest []
                        (currentAttributes ed1), [])
              ((λ a, mkUndo UFormat a (Some (g a))) <$> reverse sel))
  end.
  rewrite Hfold.
  cbn [withStore store rawChars undoStack redoStack currentAttributes] in *.
  exists (store ed1), store2, rest. split_and!; [done|done|done| |congruence|].
  - rewrite Hraw, Hca, app_nil_l, app_nil_r.
    by rewrite fmap_reverse, reverse_involutive.
  - intros a. rewrite Hs, !Hstore.
    destruct (decide (a ∈ sel)) as [Ha|Ha].
    + by rewrite decide_True by by rewrite elem_of_reverse.
    + rewrite decide_False; [done|]. by rewrite elem_of_reverse.
Qed.

(** X26.  What undo makes of a format.  On an array that is sorted with
    no key twice, a format of a non-empty selection that is then undone
    leaves the array and the text as they were; a selected element gets
    back every attribute it had before the action, and keeps the value
    the action gave to an attribute it did not have; the other elements
    are not touched. *)
Theorem undo_format_law (patch : CRDTAttributes) (start end_ : nat)
    (ed : Editor) :
  strictly_sorted (objectAt (store ed)) (rawChars ed) →
  valid_refs (store ed) (rawChars ed) →
  (start < end_)%nat → (start < length (rawChars ed))%nat →
  rawChars (handleUndo (applyToSelection patch start end_ ed)) = rawChars ed
  ∧ editorText (handleUndo (applyToSelection patch start end_ ed))
    = editorText ed
  ∧ ∀ (i : nat) a k,
      rawChars ed !! i = Some a →
      char_attr k (objectAt
                     (store (handleUndo (applyToSelection patch start end_ ed)))
                     a)
      = if decide (start ≤ i < end_)%nat then
          match char_attr k (objectAt (store ed) a) with
          | Some v => Some v
          | None => attr_get k patch
          end
        else char_attr k (objectAt (store ed) a).
Proof.
  intros Hss Hvalid Hse Hstart.
  assert (NoDup (rawChars ed)) as Hnd.
  { eapply NoDup_fmap_1. by apply strictly_sorted_unique_keys. }
  destruct (undo_format_explicit patch start end_ ed Hss Hvalid Hse Hstart)
    as (store1 & store2 & rest & _ & _ & _ & -> & _ & Hfinal).
  cbn [store rawChars]. split_and!.
  - done.
  - unfold editorText. cbn [store rawChars].
    apply text_agree. intros a _. rewrite Hfinal. by case_decide.
  - intros i a k Hi. rewrite Hfinal.
    pose proof (selection_elem_of (rawChars ed) start end_ i a Hnd Hi) as Hin.
    destruct (decide (a ∈ take (end_ - start) (drop start (rawChars ed))))
      as [Ha|Ha].
    + rewrite decide_True by by apply Hin.
      rewrite !char_attr_formatted, attr_get_spread.
      replace (attr_get k noAttrs) with (@None AttrVal) by by destruct k.
      change (attr_get k (default noAttrs (attributes (objectAt (store ed) a))))
        with (char_attr k (objectAt (store ed) a)).
      destruct (char_attr k (objectAt (store ed) a)); [done|].
      by destruct (attr_get k patch).
    + rewrite decide_False; [done|]. intros Hrange. by apply Ha, Hin.
Qed.

Lemma undo_format_law_witness :
  strictly_sorted (objectAt [elt "a" [10] "S1"; elt "b" [20] "S1"])
                  [0%nat; 1%nat]
  ∧ (0 < 1)%nat
  ∧ rawChars (handleUndo
                (applyToSelection (mkAttrs (Some true) None None None None) 0 1
                   (mkEditor [elt "a" [10] "S1"; elt "b" [20] "S1"]
                             [0%nat; 1%nat] [] [] noAttrs)))
    = rawChars (mkEditor [elt "a" [10] "S1"; elt "b" [20] "S1"]
                         [0%nat; 1%nat] [] [] noAttrs).
Proof.
  assert (strictly_sorted (objectAt [elt "a" [10] "S1"; elt "b" [20] "S1"])
                          [0%nat; 1%nat]) as Hss.
  { repeat constructor. }
  assert (0 < 1)%nat as Hse by lia.
  split; [done|]. split; [done|].
  refine (proj1 (undo_format_law (mkAttrs (Some true) None None None None) 0 1
                   (mkEditor [elt "a" [10] "S1"; elt "b" [20] "S1"]
                             [0%nat; 1%nat] [] [] noAttrs)
                   Hss _ Hse _)).
  - repeat constructor.
  - simpl. lia.
Defined.

(** X28.  Redo after the undo of a format gives every element the
    attributes it had after the action, and leaves the array as it
    was. *)
Theorem redo_format_law (patch : CRDTAttributes) (start end_ : nat)
    (ed : Editor) :
  strictly_sorted (objectAt (store ed)) (rawChars ed) →
  valid_refs (store ed) (rawChars ed) →
  (start < end_)%nat → (start < length (rawChars ed))%nat →
  rawChars (handleRedo (handleUndo (applyToSelection patch start end_ ed)))
  = rawChars ed
  ∧ ∀ a k,
      char_attr k
        (objectAt
           (store (handleRedo
                     (handleUndo (applyToSelection patch start end_ ed))))
           a)
      = char_attr k (objectAt (store (applyToSelection patch start end_ ed)) a).
Proof.
  intros Hss Hvalid Hse Hstart.
  pose proof (strictly_sorted_unique_keys _ _ Hss) as Hu.
  assert (NoDup (rawChars ed)) as Hnd by by eapply NoDup_fmap_1.
  destruct (undo_format_explicit patch start end_ ed Hss Hvalid Hse Hstart)
    as (store1 & store2 & rest & -> & Hlen1 & Hs1 & -> & Hlen2 & Hs2).
  set (sel := take (end_ - start) (drop start (rawChars ed))) in *.
  set (h := λ a, spread (attributes (objectAt store1 a)) noAttrs).
  assert (sel `sublist_of` rawChars ed) as Hsub.
  { subst sel. etrans; [apply sublist_take|apply sublist_drop]. }
  unfold handleRedo.
  cbn [store rawChars undoStack redoStack currentAttributes].
  change [(λ a, mkUndo UFormat a
                  (Some (spread (attributes (objectAt store1 a)) noAttrs)))
            <$> sel]
    with ([] ++ [(λ a, mkUndo UFormat a (Some (h a))) <$> sel]).
  rewrite pop_snoc.
  destruct (redo_formats sel h
              (mkEditor store2 (rawChars ed) rest [] (currentAttributes ed)) [])
    as (store3 & undoBatch & Hfold & Hlen3 & Hs3).
  { unfold unique_keys in *. cbn [store rawChars].
    erewrite list_fmap_ext; [exact Hu|]. intros ? b _. unfold key.
    rewrite Hs2. by case_decide. }
  { unfold valid_refs in *. cbn [store rawChars]. by rewrite Hlen2. }
  { by eapply sublist_NoDup. }
  { intros a Ha. cbn [rawChars]. by eapply elem_of_sublist. }
  match goal with |- context [foldl redoEntry ?st ?l] =>
    change (foldl redoEntry st l)
      with (foldl redoEntry
              (mkEditor store2 (rawChars ed) rest [] (currentAttributes ed), [])
              ((λ a, mkUndo UFormat a (Some (h a))) <$> sel))
  end.
  rewrite Hfold.
  cbn [withStore store rawChars undoStack redoStack currentAttributes] in *.
  split; [done|]. intros a k. rewrite Hs3, Hs2, Hs1.
  destruct (decide (a ∈ sel)) as [Ha|Ha]; [|done].
  subst h. cbn beta. rewrite Hs1, decide_True by done.
  rewrite !char_attr_formatted, !attr_get_spread.
  replace (attr_get k noAttrs) with (@None AttrVal) by by destruct k.
  change (attr_get k (default noAttrs (attributes (objectAt (store ed) a))))
    with (char_attr k (objectAt (store ed) a)).
  change (attr_get k (default noAttrs
            (attributes (formatted patch (objectAt (store ed) a)))))
    with (char_attr k (formatted patch (objectAt (store ed) a))).
  rewrite char_attr_formatted.
  destruct (attr_get k patch); [done|].
  by destruct (char_attr k (objectAt (store ed) a)).
Qed.

Lemma redo_format_law_witness :
  strictly_sorted (objectAt [elt "a" [10] "S1"; elt "b" [20] "S1"])
                  [0%nat; 1%nat]
  ∧ (0 < 1)%nat
  ∧ rawChars (handleRedo
                (handleUndo
                   (applyToSelection (mkAttrs (Some true) None None None None)
                      0 1
                      (mkEditor [elt "a" [10] "S1"; elt "b" [20] "S1"]
                                [0%nat; 1%nat] [] [] noAttrs))))
    = rawChars (mkEditor [elt "a" [10] "S1"; elt "b" [20] "S1"]
                         [0%nat; 1%nat] [] [] noAttrs).
Proof.
  assert (strictly_sorted (objectAt [elt "a" [10] "S1"; elt "b" [20] "S1"])
                          [0%nat; 1%nat]) as Hss.
  { repeat constructor. }
  assert (0 < 1)%nat as Hse by lia.
  split; [done|]. split; [done|].
  refine (proj1 (redo_format_law (mkAttrs (Some true) None None None None) 0 1
                   (mkEditor [elt "a" [10] "S1"; elt "b" [20] "S1"]
                             [0%nat; 1%nat] [] [] noAttrs)
                   Hss _ Hse _)).
  - repeat constructor.
  - simpl. lia.
Defined.

(** * The editor's handler and the engine on records *)

Section Deref.
Context {E : Type} (deref : E → CRDTChar).

Lemma filter_deref (P : CRDTChar → Prop) `{∀ c, Decision (P c)} (l : list E) :
  deref <$> filter (λ a, P (deref a)) l = filter P (deref <$> l).
Proof.
  induction l as [|a l IH]; [done|]. rewrite fmap_cons.
  destruct (decide (P (deref a))) as [Ha|Ha].
  - rewrite !filter_cons_True by done. by rewrite fmap_cons, IH.
  - by rewrite !filter_cons_False by done.
Qed.

Lemma sort_insert_deref (a : E) (l : list E) :
  deref <$> sort_insert deref a l = sort_insert id (deref a) (deref <$> l).
Proof.
  induction l as [|b l IH]; [done|]. rewrite fmap_cons. cbn [sort_insert].
  change (comparePositions id (deref a) (deref b))
    with (comparePositions deref a b).
  destruct (comparePositions deref a b >? 0); [|done].
  by rewrite fmap_cons, IH.
Qed.

Lemma sortChars_deref (l : list E) :
  deref <$> sortChars deref l = sortChars id (deref <$> l).
Proof.
  induction l as [|a l IH]; [done|]. unfold sortChars in *.
  rewrite fmap_cons. cbn [foldr]. by rewrite sort_insert_deref, IH.
Qed.

Lemma unique_keys_deref (l : list E) :
  unique_keys deref l ↔ unique_keys id (deref <$> l).
Proof. unfold unique_keys. by rewrite <-list_fmap_compose. Qed.

Lemma has_key_deref k (l : list E) :
  has_key deref k l ↔ has_key id k (deref <$> l).
Proof.
  unfold has_key. split.
  - intros (a & Ha & Hk). exists (deref a). split; [|done].
    by apply list_elem_of_fmap_2.
  - intros (c & (a & -> & Ha)%list_elem_of_fmap & Hk). by exists a.
Qed.

(** On a sorted array, [remoteInsert] on addresses and on records agree. *)
Lemma remoteInsert_deref (a : E) (l : list E) :
  sorted deref l →
  deref <$> (remoteInsert deref a l).1
  = (remoteInsert id (deref a) (deref <$> l)).1
  ∧ (remoteInsert deref a l).2 = (remoteInsert id (deref a) (deref <$> l)).2.
Proof.
  intros Hs. pose proof (proj1 (sorted_deref deref l) Hs) as Hs'.
  destruct (remoteInsert_sorted_spec deref l a Hs)
    as [[Hk ->]|(_ & i & Hi & -> & Hb & Ha)].
  - rewrite (remoteInsert_present id); [done|done|].
    by apply has_key_deref in Hk.
  - rewrite (remoteInsert_at id (deref <$> l) (deref a) i).
    + cbn [fst snd]. by rewrite fmap_app, fmap_cons, fmap_take, fmap_drop.
    + done.
    + by rewrite length_fmap.
    + rewrite <-fmap_take. by apply Forall_fmap.
    + rewrite <-fmap_drop. by apply Forall_fmap.
Qed.

(** With no key twice, so do [remoteDelete] on addresses and on
    records. *)
Lemma remoteDelete_deref pos site (l : list E) :
  unique_keys deref l →
  deref <$> (remoteDelete deref pos site l).1
  = (remoteDelete id pos site (deref <$> l)).1.
Proof.
  intros Hu. rewrite (remoteDelete_filter deref) by done.
  rewrite (remoteDelete_filter id) by by apply unique_keys_deref.
  by rewrite <-(filter_deref (λ c, key id c ≠ (pos, site))).
Qed.

Lemma batchRemoteDelete_deref ops (l : list E) :
  deref <$> (batchRemoteDelete deref ops l).1
  = (batchRemoteDelete id ops (deref <$> l)).1.
Proof.
  rewrite !batchRemoteDelete_filter. cbn [fst].
  by rewrite <-(filter_deref (λ c, key id c ∉ ops)).
Qed.

End Deref.

Lemma editorChars_grow (objects more : list CRDTChar) (refs : list nat) :
  valid_refs objects refs →
  objectAt (objects ++ more) <$> refs = objectAt objects <$> refs.
Proof.
  intros Hvalid. apply list_fmap_ext. intros i a Ha.
  unfold valid_refs in Hvalid. rewrite Forall_forall in Hvalid.
  apply objectAt_app_l, Hvalid. by eapply list_elem_of_lookup_2.
Qed.

Lemma editorRemoteInsert_engine char ed :
  valid_refs (store ed) (rawChars ed) →
  sorted (objectAt (store ed)) (rawChars ed) →
  editorChars (editorRemoteInsert char ed).2
  = (remoteInsert id char (editorChars ed)).1
  ∧ (editorRemoteInsert char ed).1
    = (remoteInsert id char (editorChars ed)).2.
Proof.
  intros Hvalid Hs. unfold editorRemoteInsert, editorChars.
  pose proof (remoteInsert_deref (objectAt (store ed ++ [char]))
                (length (store ed)) (rawChars ed)
                (sorted_grow _ [char] _ Hvalid Hs)) as [H1 H2].
  rewrite objectAt_app_new in H1, H2.
  rewrite (editorChars_grow _ _ _ Hvalid) in H1, H2.
  destruct (remoteInsert (objectAt (store ed ++ [char])) (length (store ed))
              (rawChars ed)) as [refs idx].
  done.
Qed.

Lemma editorRemoteDelete_engine pos site ed :
  unique_keys (objectAt (store ed)) (rawChars ed) →
  editorChars (editorRemoteDelete pos site ed).2
  = (remoteDelete id pos site (editorChars ed)).1.
Proof.
  intros Hu. unfold editorRemoteDelete, editorChars.
  pose proof (remoteDelete_deref (objectAt (store ed)) pos site (rawChars ed)
                Hu) as H1.
  destruct (remoteDelete (objectAt (store ed)) pos site (rawChars ed))
    as [refs idx].
  done.
Qed.

Lemma editorRemoteFormat_engine pos site patch ed :
  valid_refs (store ed) (rawChars ed) → NoDup (rawChars ed) →
  editorChars (editorRemoteFormat pos site patch ed)
  = remoteFormat pos site patch (editorChars ed).
Proof.
  intros Hvalid Hnd. unfold editorRemoteFormat, remoteFormat, editorChars.
  rewrite list_find_fmap.
  change (addresses id pos site ∘ objectAt (store ed))
    with (addresses (objectAt (store ed)) pos site).
  destruct (list_find (addresses (objectAt (store ed)) pos site) (rawChars ed))
    as [[i a]|] eqn:Hfind; [|done].
  cbn [fmap option_fmap option_map prod_map fst snd id withStore store
       rawChars].
  apply list_find_Some in Hfind as (Hi & _ & _).
  assert (a < length (store ed))%nat as Hlt.
  { unfold valid_refs in Hvalid. rewrite Forall_forall in Hvalid.
    apply Hvalid. by eapply list_elem_of_lookup_2. }
  apply list_eq. intros j. rewrite list_lookup_fmap.
  destruct (decide (j = i)) as [->|Hne].
  - rewrite Hi. simpl. rewrite objectAt_insert by done.
    rewrite decide_True by done.
    rewrite list_lookup_insert_eq; [done|].
    rewrite length_fmap. by eapply lookup_lt_Some.
  - rewrite list_lookup_insert_ne by done. rewrite list_lookup_fmap.
    destruct (rawChars ed !! j) as [b|] eqn:Hj; [|done]. simpl.
    rewrite objectAt_insert by done. rewrite decide_False; [done|].
    intros ->. apply Hne. by eapply NoDup_lookup.
Qed.

Lemma editorLoadState_engine l ed :
  editorChars (editorLoadState (Some l) ed) = loadState (Some l).
Proof.
  unfold editorLoadState, editorChars, loadState.
  cbn [store rawChars]. by rewrite sortChars_deref, objectAt_seq_new.
Qed.

Lemma strict_document ed :
  editor_wf_strict ed →
  valid_refs (store ed) (rawChars ed)
  ∧ sorted (objectAt (store ed)) (rawChars ed)
  ∧ unique_keys (objectAt (store ed)) (rawChars ed)
  ∧ NoDup (rawChars ed).
Proof.
  intros ([Hv Hss] & _). split_and!; [done|..].
  - by apply strictly_sorted_sorted.
  - by apply strictly_sorted_unique_keys.
  - eapply NoDup_fmap_1. by apply strictly_sorted_unique_keys.
Qed.

Lemma strict_editorRemoteInsert char ed :
  editor_wf_strict ed → editor_wf_strict (editorRemoteInsert char ed).2.
Proof.
  apply wf_editorRemoteInsert.
  - intros d1 d2 l. apply strictly_sorted_agree.
  - intros d a l. apply remoteInsert_strictly_sorted.
Qed.

Lemma strict_editorRemoteFormat pos site patch ed :
  editor_wf_strict ed →
  editor_wf_strict (editorRemoteFormat pos site patch ed).
Proof.
  intros Hwf. apply wf_editorRemoteFormat; [|done].
  intros d1 d2 l. apply strictly_sorted_agree.
Qed.

Lemma batchInsert_engine currentCursor (ops : list CRDTChar) ed adjustment :
  editor_wf_strict ed →
  editorChars (foldl (batchInsertStep currentCursor) (ed, adjustment) ops).1
  = receiveAll (editorChars ed) (MsgInsert <$> ops).
Proof.
  revert ed adjustment. induction ops as [|char ops IH];
    intros ed adjustment Hwf; [done|].
  change (foldl (batchInsertStep currentCursor) (ed, adjustment) (char :: ops))
    with (foldl (batchInsertStep currentCursor)
                (batchInsertStep currentCursor (ed, adjustment) char) ops).
  rewrite fmap_cons.
  change (receiveAll (editorChars ed) (MsgInsert char :: (MsgInsert <$> ops)))
    with (receiveAll (remoteInsert id char (editorChars ed)).1
                     (MsgInsert <$> ops)).
  destruct (strict_document ed Hwf) as (Hv & Hs & _).
  destruct (editorRemoteInsert_engine char ed Hv Hs) as [<- _].
  pose proof (strict_editorRemoteInsert char ed Hwf) as Hwf'.
  unfold batchInsertStep at 2.
  destruct (editorRemoteInsert char ed) as [idx ed']. by apply IH.
Qed.

Lemma batchFormat_engine (ops : list (list Z * string * CRDTAttributes)) ed :
  editor_wf_strict ed →
  editorChars (foldl (λ ed' subOp,
                        editorRemoteFormat subOp.1.1 subOp.1.2 subOp.2 ed')
                     ed ops)
  = receiveAll (editorChars ed)
               ((λ o, MsgFormat o.1.1 o.1.2 o.2) <$> ops).
Proof.
  revert ed. induction ops as [|op ops IH]; intros ed Hwf; [done|].
  rewrite fmap_cons. cbn [foldl].
  change (receiveAll (editorChars ed)
            (MsgFormat op.1.1 op.1.2 op.2
             :: ((λ o, MsgFormat o.1.1 o.1.2 o.2) <$> ops)))
    with (receiveAll (remoteFormat op.1.1 op.1.2 op.2 (editorChars ed))
                     ((λ o, MsgFormat o.1.1 o.1.2 o.2) <$> ops)).
  destruct (strict_document ed Hwf) as (Hv & _ & _ & Hnd).
  rewrite <-editorRemoteFormat_engine by done.
  apply IH. by apply strict_editorRemoteFormat.
Qed.

(** X27.  The handler of the editor and the engine on records agree.  On
    an editor whose array is sorted with no key twice, a message from
    another site leaves the editor showing the elements that [receive],
    [batchRemoteDelete] and [loadState] compute from the elements it
    showed; a message of the editor's own site changes nothing. *)
Theorem onMessage_engine (user_id siteId : string) (currentCursor : option Z)
    (p : Payload) (ed : Editor) :
  (siteId = user_id →
   onMessage user_id currentCursor siteId p ed = (ed, None))
  ∧ (editor_wf_strict ed → siteId ≠ user_id →
     editorChars (onMessage user_id currentCursor siteId p ed).1
     = receivePayload siteId (editorChars ed) p).
Proof.
  split.
  - intros ->. unfold onMessage. rewrite decide_True by done.
    by destruct p as [[]| | | | | | | | | | |].
  - intros Hwf Hsite.
    destruct (strict_document ed Hwf) as (Hv & Hs & Hu & Hnd).
    assert (editorChars (dispatch currentCursor siteId p ed).1
            = receivePayload siteId (editorChars ed) p) as Hdispatch.
    { unfold dispatch, receivePayload.
      destruct p as [?|[ops|]|[ops|]|[ops|]|char|pos|pos site attrs| |
                     |[state|]|[state|]|]; try done.
      - by apply batchInsert_engine.
      - apply batchRemoteDelete_deref.
      - by apply batchFormat_engine.
      - destruct (editorRemoteInsert_engine char ed Hv Hs) as [H1 _].
        by destruct (editorRemoteInsert char ed).
      - pose proof (editorRemoteDelete_engine pos siteId ed Hu) as H1.
        by destruct (editorRemoteDelete pos siteId ed).
      - by apply editorRemoteFormat_engine.
      - assert (length (editorChars ed) = length (rawChars ed)) as Hlen
          by (unfold editorChars; apply length_fmap).
        repeat case_decide; try lia; [apply editorLoadState_engine|done].
      - apply editorLoadState_engine. }
    unfold onMessage. rewrite decide_False by done.
    destruct (dispatch currentCursor siteId p ed) as [ed' adjustment].
    by destruct p as [[]| | | | | | | | | | |].
Qed.

Lemma onMessage_engine_witness :
  editor_wf_strict newEditor ∧ "U2" ≠ "U1"
  ∧ editorChars (onMessage "U1" None "U2" (PInsert (elt "a" [10] "U2"))
                   newEditor).1
    = receivePayload "U2" (editorChars newEditor) (PInsert (elt "a" [10] "U2")).
Proof.
  assert (editor_wf_strict newEditor) as Hwf.
  { apply newEditor_wf. constructor. }
  assert ("U2" ≠ "U1") as Hsite by discriminate.
  split; [done|]. split; [done|].
  exact (proj2 (onMessage_engine "U1" "U2" None (PInsert (elt "a" [10] "U2"))
                  newEditor) Hwf Hsite).
Defined.

(** * Typing and pasting *)

(** The element [insertChar] allocates: its identifier lies after the
    element before the selection. *)
Lemma insertChar_allocates (user_id val : string) (start end_ : nat)
    (ed : Editor) :
  (start ≤ end_ ≤ length (rawChars ed))%nat →
  let refs := take start (rawChars ed) ++ drop end_ (rawChars ed) in
  let prev := default [0] ((λ a, position (objectAt (store ed) a))
                             <$> (refs !!? (Z.of_nat start - 1))) in
  let next := default [100] ((λ a, position (objectAt (store ed) a))
                               <$> (refs !!? Z.of_nat start)) in
  let char := mkChar val (generateIdentifierBetween prev next) user_id
                     (copyAttrs (Some (currentAttributes ed))) in
  insertChar user_id val start end_ ed
  = pushToUndo
      (((λ a, mkUndo UDelete a None)
          <$> take (end_ - start) (drop start (rawChars ed)))
       ++ [mkUndo UInsert (length (store ed)) None])
      (mkEditor (store ed ++ [char])
         (remoteInsert (objectAt (store ed ++ [char])) (length (store ed))
                       refs).1
         (undoStack ed) (redoStack ed) (currentAttributes ed)).
Proof.
  intros Hrange refs prev next char. unfold insertChar.
  destruct (decide (start ≠ end_)) as [Hne|Heq].
  - rewrite (localBatchDelete_valid (objectAt (store ed))) by lia.
    rewrite !Nat2Z.id.
    replace (Z.to_nat (Z.of_nat end_ - Z.of_nat start))
      with (end_ - start)%nat by lia.
    unfold deleteEntries. rewrite <-list_fmap_compose.
    unfold editorLocalInsert.
    cbn [withRawChars store rawChars undoStack redoStack currentAttributes].
    done.
  - assert (start = end_) as <- by (destruct (decide (start = end_)); tauto).
    subst char prev next refs.
    rewrite Nat.sub_diag, take_0, take_drop. unfold editorLocalInsert.
    done.
Qed.

(** X29.  Typing a character puts it where the selection was.  On a
    sorted array, with a selection inside it, the text after [insertChar]
    is the text before the selection, the character, and the text after
    the selection, and the array is one element longer than what the
    selection leaves.  The identifiers of the elements before and after
    the selection must have non-negative safe integers for components, and
    at most 129 of them; the element after the selection, if there is one,
    must have an identifier above that of the element before, with a
    positive last component. *)
Theorem insertChar_text (user_id val : string) (start end_ : nat)
    (ed : Editor) :
  sorted (objectAt (store ed)) (rawChars ed) →
  valid_refs (store ed) (rawChars ed) →
  (start ≤ end_ ≤ length (rawChars ed))%nat →
  (∀ p, (0 < start)%nat → rawChars ed !! (start - 1)%nat = Some p →
        (length (position (objectAt (store ed) p)) ≤ 129)%nat
        ∧ safe_identifier (position (objectAt (store ed) p))) →
  (∀ n, rawChars ed !! end_ = Some n →
     compareArrays
       (default [0] ((λ a, position (objectAt (store ed) a))
                       <$> (rawChars ed !!? (Z.of_nat start - 1))))
       (position (objectAt (store ed) n)) < 0
     ∧ (length (position (objectAt (store ed) n)) ≤ 129)%nat
     ∧ safe_identifier (position (objectAt (store ed) n))
     ∧ ∀ v, last (position (objectAt (store ed) n)) = Some v → 0 < v) →
  editorText (insertChar user_id val start end_ ed)
  = text (objectAt (store ed)) (take start (rawChars ed)) +:+ val
    +:+ text (objectAt (store ed)) (drop end_ (rawChars ed))
  ∧ length (rawChars (insertChar user_id val start end_ ed))
    = S (length (rawChars ed) - (end_ - start)).
Proof.
  intros Hs Hvalid Hrange Hprev Hnext.
  rewrite (insertChar_allocates user_id val start end_ ed Hrange).
  set (refs := take start (rawChars ed) ++ drop end_ (rawChars ed)).
  set (prev := default [0] ((λ a, position (objectAt (store ed) a))
                              <$> (refs !!? (Z.of_nat start - 1)))).
  set (next := default [100] ((λ a, position (objectAt (store ed) a))
                                <$> (refs !!? Z.of_nat start))).
  set (char := mkChar val (generateIdentifierBetween prev next) user_id
                      (copyAttrs (Some (currentAttributes ed)))).
  set (objects := store ed ++ [char]).
  assert (length (take start (rawChars ed)) = start) as Hlen
    by (rewrite length_take; lia).
  assert (refs `sublist_of` rawChars ed) as Hsub.
  { subst refs. rewrite <-(take_drop start (rawChars ed)) at 3.
    apply sublist_app; [done|].
    replace end_ with (start + (end_ - start))%nat by lia.
    rewrite <-drop_drop. apply sublist_drop. }
  assert (valid_refs (store ed) refs) as Hvrefs.
  { unfold valid_refs in *. rewrite Forall_forall in Hvalid.
    apply Forall_forall. intros a Ha. apply Hvalid.
    by eapply elem_of_sublist. }
  assert (sorted (objectAt objects) refs) as Hsrefs.
  { apply sorted_grow; [done|]. by eapply StronglySorted_sublist. }
  assert (∀ a, a ∈ refs → objectAt objects a = objectAt (store ed) a) as Hold.
  { intros a Ha. apply objectAt_app_l. unfold valid_refs in Hvrefs.
    rewrite Forall_forall in Hvrefs. by apply Hvrefs. }
  assert (objectAt objects (length (store ed)) = char) as Hnew
    by apply objectAt_app_new.
  assert (refs !!? (Z.of_nat start - 1) = rawChars ed !!? (Z.of_nat start - 1))
    as Hprevref.
  { unfold lookupZ. case_decide; [|done]. subst refs.
    rewrite lookup_app_l by lia. by rewrite lookup_take_lt by lia. }
  assert (refs !! start = rawChars ed !! end_) as Hnextref.
  { subst refs. rewrite lookup_app_r by lia.
    rewrite Hlen, Nat.sub_diag, lookup_drop. f_equal. lia. }
  assert ((length prev ≤ 129)%nat ∧ safe_identifier prev) as [Hplen Hpsafe].
  { unfold prev. rewrite Hprevref.
    destruct (rawChars ed !!? (Z.of_nat start - 1)) as [p|] eqn:Hp;
      cbn [fmap option_fmap option_map default].
    - apply lookupZ_Some in Hp as [Hge Hp].
      replace (Z.to_nat (Z.of_nat start - 1)) with (start - 1)%nat in Hp
        by lia.
      apply Hprev; [lia|done].
    - split; [simpl; lia|]. apply (bool_decide_unpack _). by vm_compute. }
  assert (safe_identifier next) as Hnsafe.
  { unfold next. rewrite lookupZ_of_nat, Hnextref.
    destruct (rawChars ed !! end_) as [n|] eqn:Hn;
      cbn [fmap option_fmap option_map default].
    - by apply (Hnext n).
    - apply (bool_decide_unpack _). by vm_compute. }
  assert (remoteInsert (objectAt objects) (length (store ed)) refs
          = (take start refs ++ length (store ed) :: drop start refs,
             Some (Z.of_nat start))) as Hins.
  { apply remoteInsert_between; [done| | |].
    - subst refs. rewrite length_app, length_take, length_drop. lia.
    - intros p Hpos Hp. apply char_lt_positions.
      rewrite Hnew, Hold by by eapply list_elem_of_lookup_2.
      assert (refs !!? (Z.of_nat start - 1) = Some p) as Hp'.
      { apply lookupZ_Some. split; [lia|].
        by replace (Z.to_nat (Z.of_nat start - 1)) with (start - 1)%nat
          by lia. }
      cbn [char position].
      replace (position (objectAt (store ed) p)) with prev
        by (unfold prev; by rewrite Hp').
      by apply generateIdentifierBetween_above.
    - intros n Hn. apply char_lt_positions.
      rewrite Hnew, Hold by by eapply list_elem_of_lookup_2.
      assert (refs !!? Z.of_nat start = Some n) as Hn'
        by by rewrite lookupZ_of_nat.
      rewrite Hnextref in Hn.
      destruct (Hnext n Hn) as (Hpn & Hnlen & Hnn & Hlast).
      cbn [char position].
      assert (next = position (objectAt (store ed) n)) as Hnext_eq
        by (unfold next; by rewrite Hn').
      rewrite Hnext_eq.
      apply generateIdentifierBetween_below; try done.
      unfold prev. by rewrite Hprevref. }
  assert (take start refs = take start (rawChars ed)) as Htake
    by (subst refs; by rewrite take_app_length').
  assert (drop start refs = drop end_ (rawChars ed)) as Hdrop
    by (subst refs; by rewrite drop_app_length').
  destruct (pushToUndo_document
              (((λ a, mkUndo UDelete a None)
                  <$> take (end_ - start) (drop start (rawChars ed)))
               ++ [mkUndo UInsert (length (store ed)) None])
              (mkEditor objects
                 (remoteInsert (objectAt objects) (length (store ed)) refs).1
                 (undoStack ed) (redoStack ed) (currentAttributes ed)))
    as (Hst & Hraw & _).
  unfold editorText. rewrite Hst, Hraw. cbn [store rawChars].
  rewrite Hins. cbn [fst]. rewrite Htake, Hdrop. split.
  - rewrite text_app, text_cons, Hnew. cbn [char value].
    f_equal; [|f_equal]; apply text_agree; intros a Ha;
      rewrite Hold; try done.
    + apply elem_of_app. by left.
    + apply elem_of_app. by right.
  - rewrite length_app, length_take. simpl. rewrite length_drop. lia.
Qed.

Lemma insertChar_text_witness :
  sorted (objectAt [elt "a" [10] "S1"; elt "b" [20] "S1"]) [0%nat; 1%nat]
  ∧ (1 ≤ 1 ≤ length [0%nat; 1%nat])%nat
  ∧ editorText (insertChar "S2" "x" 1 1
                  (mkEditor [elt "a" [10] "S1"; elt "b" [20] "S1"]
                            [0%nat; 1%nat] [] [] noAttrs))
    = text (objectAt [elt "a" [10] "S1"; elt "b" [20] "S1"])
           (take 1 [0%nat; 1%nat])
      +:+ "x"
      +:+ text (objectAt [elt "a" [10] "S1"; elt "b" [20] "S1"])
               (drop 1 [0%nat; 1%nat]).
Proof.
  assert (sorted (objectAt [elt "a" [10] "S1"; elt "b" [20] "S1"])
                 [0%nat; 1%nat]) as Hs.
  { repeat constructor. by vm_compute. }
  assert (1 ≤ 1 ≤ length [0%nat; 1%nat])%nat as Hrange by (simpl; lia).
  split; [done|]. split; [done|].
  refine (proj1 (insertChar_text "S2" "x" 1 1
                   (mkEditor [elt "a" [10] "S1"; elt "b" [20] "S1"]
                             [0%nat; 1%nat] [] [] noAttrs)
                   Hs _ Hrange _ _)).
  - repeat constructor.
  - intros p _ Hp. vm_compute in Hp. injection Hp as <-.
    split; [simpl; lia|]. apply (bool_decide_unpack _). by vm_compute.
  - intros n Hn. vm_compute in Hn. injection Hn as <-.
    split; [reflexivity|]. split; [simpl; lia|].
    split; [apply (bool_decide_unpack _); by vm_compute|].
    intros v [= <-]. lia.
Defined.

(** X30.  Pasting an empty text changes nothing: the selection is not
    removed either.  Pasting a text of one character is typing that
    character. *)
Theorem handlePaste_edges (user_id : string) (c : ascii) (start end_ : nat)
    (ed : Editor) :
  handlePaste user_id "" start end_ ed = ed
  ∧ handlePaste user_id (String c "") start end_ ed
    = insertChar user_id (String c "") start end_ ed.
Proof.
  split; [done|].
  unfold handlePaste, insertChar. rewrite decide_False by done.
  cbn [String.list_ascii_of_string imap foldl].
  destruct (if decide (start ≠ end_)
            then let '(results, refs) :=
                   localBatchDelete (objectAt (store ed)) (Z.of_nat start)
                                    (Z.of_nat end_) (rawChars ed) in
                 (deleteEntries results, withRawChars ed refs)
            else ([], ed)) as [batch ed1].
  unfold pasteAt. cbn [fst snd]. rewrite Z.add_0_r.
  by destruct (editorLocalInsert user_id (Z.of_nat start) (String c "")
                 (Some (currentAttributes ed1)) ed1).
Qed.
